(** * Join subset enumerator: a shallow embedding of the Python sources

    The development follows the modules of [src/python]:
    [constants.py] (records), [join_graph.py] (join graph, column-aware
    transitive closure, union-find equivalence classes, connectivity),
    [predicates.py] (predicate classifier), [parser.py] (constant-equality
    detection; [parse_sql] takes the results of the SQLglot front end as
    input in the form of the parsed-query contract, and the functions that
    read the syntax tree are modelled on their own over the nodes they
    inspect), [enumerator.py] (level-ordered DP enumeration),
    [sql_generator.py] (left-deep renderer) and [main.py] (driver glue).

    Conventions.
    - Python [str] is [string]: a text is the list of its code points, each
      below 256 (ASCII and Latin-1), and the order on strings is the
      code-point order ([String.compare]).  Character classes ([\w], [\s],
      [strip]) are Python's Unicode classes on these code points.
    - A Python [dict] is an association list in insertion order, since the
      code iterates dictionaries and the order is observable.
    - A Python [set] of strings is its canonical listing (sorted, without
      duplicates).  Whenever the code iterates a set directly, the order in
      which CPython yields the elements is not fixed by the language (string
      hashes are salted per process); it is the section variable [iter].
    - Loops over lists that the loop body may extend ([for d in details]
      while [add_join] appends to the same list object) are index loops over
      the live store, driven by fuel; running out of fuel is [None]. *)

From Stdlib Require Import List String Ascii Bool Arith Lia ZArith.
From Stdlib Require Import Permutation Relations Sorted.
Import ListNotations.
Local Open Scope string_scope.
Local Open Scope list_scope.

Set Implicit Arguments.

(* ------------------------------------------------------------------ *)
(** ** Python built-ins used by the sources *)

Section Builtins.

Variable A : Type.
Variable le : A -> A -> bool.

Fixpoint insert_sorted (x : A) (l : list A) : list A :=
  match l with
  | [] => [x]
  | y :: l' => if le x y then x :: l else y :: insert_sorted x l'
  end.

(** [sorted(l)] for a total order [le]. *)
Fixpoint sorted_by (l : list A) : list A :=
  match l with
  | [] => []
  | x :: l' => insert_sorted x (sorted_by l')
  end.

(** [itertools.combinations(l, k)]: the [k]-element subsequences of [l],
    in lexicographic order of positions. *)
Fixpoint combinations (l : list A) (k : nat) : list (list A) :=
  match k with
  | 0 => [[]]
  | S k' =>
      match l with
      | [] => []
      | x :: l' => map (cons x) (combinations l' k') ++ combinations l' k
      end
  end.

End Builtins.

Definition sorted : list string -> list string := sorted_by String.leb.

(** [x in s] for a list or a set of strings. *)
Definition mem (x : string) (s : list string) : bool :=
  existsb (String.eqb x) s.

(** Removes later duplicates, keeping first occurrences. *)
Fixpoint dedup (l : list string) : list string :=
  match l with
  | [] => []
  | x :: l' => x :: filter (fun y => negb (String.eqb x y)) (dedup l')
  end.

(** A list in ascending order: every element is below the ones after it. *)
Definition ascending : list string -> Prop :=
  StronglySorted (fun a b => String.leb a b = true).

(** [set(l)]: the canonical listing of the set of the elements of [l]. *)
Definition mk_set (l : list string) : list string := sorted (dedup l).

(** [s.add(x)] *)
Definition set_add (x : string) (s : list string) : list string :=
  if mem x s then s else insert_sorted String.leb x s.

(** [s - t] and [s.remove(x)] *)
Definition set_diff (s t : list string) : list string :=
  filter (fun x => negb (mem x t)) s.

Definition set_remove (x : string) (s : list string) : list string :=
  filter (fun y => negb (String.eqb x y)) s.

(** [sep.join(l)] *)
Definition join (sep : string) (l : list string) : string := String.concat sep l.

(** Truth value of a Python string. *)
Definition truthy (s : string) : bool :=
  match s with EmptyString => false | _ => true end.

(** Dictionaries with string keys, in insertion order. *)
Section Dict.

Variable V : Type.

Fixpoint dict_get (k : string) (d : list (string * V)) : option V :=
  match d with
  | [] => None
  | (k', v) :: d' => if String.eqb k k' then Some v else dict_get k d'
  end.

Definition dict_has (k : string) (d : list (string * V)) : bool :=
  match dict_get k d with Some _ => true | None => false end.

(** [d[k] = v]: overwrite in place, or append a new key at the end. *)
Fixpoint dict_set (k : string) (v : V) (d : list (string * V)) : list (string * V) :=
  match d with
  | [] => [(k, v)]
  | (k', v') :: d' =>
      if String.eqb k k' then (k, v) :: d' else (k', v') :: dict_set k v d'
  end.

End Dict.

(* ------------------------------------------------------------------ *)
(** ** constants.py *)

Record JoinDetail := mkJoinDetail {
  t1 : string;
  t1_col : string;
  t2 : string;
  t2_col : string;
  is_original : bool
}.

Record TransitiveJoin := mkTransitiveJoin {
  tj_t1 : string;
  tj_t1_col : string;
  tj_t2 : string;
  tj_t2_col : string
}.

Record ConstantValue := mkConstantValue {
  cv_table : string;
  cv_column : string;
  cv_value : string
}.

Record ConstantEqualityJoin := mkConstantEqualityJoin {
  cej_t1 : string;
  cej_t2 : string;
  cej_column : string
}.

Record JoinCondition := mkJoinCondition {
  left_table : string;
  left_column : string;
  right_table : string;
  right_column : string
}.

Record PredicateSet := mkPredicateSet {
  ps_selections : list string;
  ps_joins : list string;
  ps_complex : list string
}.

Record Decomposition := mkDecomposition {
  dec_left : list string;
  dec_right : list string
}.

Record JoinPredicate := mkJoinPredicate {
  predicate : string;
  jp_is_original : bool
}.

Record NextTable := mkNextTable {
  nt_table : string;
  nt_join_pred : option JoinPredicate
}.

Record EnumerationPlan := mkEnumerationPlan {
  subset : list string;
  left : option (list string);
  right : option (list string);
  sql : string
}.

Record EnumerationResult := mkEnumerationResult {
  all_plans : list EnumerationPlan;
  counts : list (nat * nat)
}.

(* ------------------------------------------------------------------ *)
(** ** join_graph.py *)

Record JoinGraph := mkJoinGraph {
  edges : list string;
  join_details : list (string * list JoinDetail);
  table_aliases : list (string * string);
  equivalence_classes : list (list string)
}.

Definition empty_graph : JoinGraph := mkJoinGraph [] [] [] [].

(** ['|||'.join(sorted([a, b]))] *)
Definition edge_key (a b : string) : string := join "|||" (sorted [a; b]).

(** The details stored under a key; a key that is absent has none. *)
Definition details_at (g : JoinGraph) (k : string) : list JoinDetail :=
  match dict_get k (join_details g) with
  | Some ds => ds
  | None => []
  end.

Definition add_join (g : JoinGraph) (a b a_col b_col : string) (orig : bool)
  : JoinGraph :=
  let edge := edge_key a b in
  let edges' := set_add edge (edges g) in
  if truthy a_col && truthy b_col then
    let existing := details_at g edge in
    let table1 := hd a (sorted [a; b]) in
    let table2 := hd b (tl (sorted [a; b])) in
    let detail :=
      mkJoinDetail table1 (if String.eqb table1 a then a_col else b_col)
                   table2 (if String.eqb table2 b then b_col else a_col)
                   orig in
    mkJoinGraph edges'
                (dict_set edge (existing ++ [detail]) (join_details g))
                (table_aliases g) (equivalence_classes g)
  else
    mkJoinGraph edges' (join_details g) (table_aliases g) (equivalence_classes g).

Definition _try_form_transitive_join (d1 d2 : JoinDetail) : option TransitiveJoin :=
  if String.eqb (t2 d1) (t1 d2) && String.eqb (t2_col d1) (t1_col d2) then
    Some (mkTransitiveJoin (t1 d1) (t1_col d1) (t2 d2) (t2_col d2))
  else if String.eqb (t2 d1) (t2 d2) && String.eqb (t2_col d1) (t2_col d2) then
    Some (mkTransitiveJoin (t1 d1) (t1_col d1) (t1 d2) (t1_col d2))
  else if String.eqb (t1 d1) (t1 d2) && String.eqb (t1_col d1) (t1_col d2) then
    Some (mkTransitiveJoin (t2 d1) (t2_col d1) (t2 d2) (t2_col d2))
  else if String.eqb (t1 d1) (t2 d2) && String.eqb (t1_col d1) (t2_col d2) then
    Some (mkTransitiveJoin (t2 d1) (t2_col d1) (t1 d2) (t1_col d2))
  else None.

Definition _join_exists (g : JoinGraph) (tr : TransitiveJoin) : bool :=
  let edge := edge_key (tj_t1 tr) (tj_t2 tr) in
  existsb
    (fun detail =>
       (String.eqb (t1 detail) (tj_t1 tr) && String.eqb (t1_col detail) (tj_t1_col tr)
        && String.eqb (t2 detail) (tj_t2 tr) && String.eqb (t2_col detail) (tj_t2_col tr))
       || (String.eqb (t1 detail) (tj_t2 tr) && String.eqb (t1_col detail) (tj_t2_col tr)
           && String.eqb (t2 detail) (tj_t1 tr) && String.eqb (t2_col detail) (tj_t1_col tr)))
    (details_at g edge).

(** The state threaded through the closure loops: the graph, [added_count]
    and [found_new]. *)
Definition closure_state : Type := (JoinGraph * nat * bool)%type.

(** The body of the innermost loop of [compute_transitive_closure]. *)
Definition closure_step (d1 d2 : JoinDetail) (st : closure_state) : closure_state :=
  let '(g, added_count, found_new) := st in
  match _try_form_transitive_join d1 d2 with
  | Some tr =>
      if negb (String.eqb (tj_t1 tr) (tj_t2 tr)) then
        if negb (_join_exists g tr) then
          (add_join g (tj_t1 tr) (tj_t2 tr) (tj_t1_col tr) (tj_t2_col tr) false,
           S added_count, true)
        else st
      else st
  | None => st
  end.

(** [for d2 in details2], from index [j]; [details2] is the live list stored
    under [k2]. *)
Fixpoint closure_d2 (fuel : nat) (d1 : JoinDetail) (k2 : string) (j : nat)
  (st : closure_state) : option closure_state :=
  match fuel with
  | 0 => None
  | S fuel' =>
      match nth_error (details_at (fst (fst st)) k2) j with
      | None => Some st
      | Some d2 => closure_d2 fuel' d1 k2 (S j) (closure_step d1 d2 st)
      end
  end.

(** [for d1 in details1], from index [i]; [details1] is the live list stored
    under [k1]. *)
Fixpoint closure_d1 (fuel : nat) (k1 k2 : string) (i : nat)
  (st : closure_state) : option closure_state :=
  match fuel with
  | 0 => None
  | S fuel' =>
      match nth_error (details_at (fst (fst st)) k1) i with
      | None => Some st
      | Some d1 =>
          match closure_d2 fuel' d1 k2 0 st with
          | None => None
          | Some st' => closure_d1 fuel' k1 k2 (S i) st'
          end
      end
  end.

(** [for edge2_key, details2 in current_edges] over the snapshot of keys. *)
Fixpoint closure_edge2 (fuel : nat) (k1 : string) (keys2 : list string)
  (st : closure_state) : option closure_state :=
  match keys2 with
  | [] => Some st
  | k2 :: rest =>
      if String.eqb k1 k2 then closure_edge2 fuel k1 rest st
      else
        match closure_d1 fuel k1 k2 0 st with
        | None => None
        | Some st' => closure_edge2 fuel k1 rest st'
        end
  end.

(** [for edge1_key, details1 in current_edges] *)
Fixpoint closure_edge1 (fuel : nat) (keys1 keys : list string)
  (st : closure_state) : option closure_state :=
  match keys1 with
  | [] => Some st
  | k1 :: rest =>
      match closure_edge2 fuel k1 keys st with
      | None => None
      | Some st' => closure_edge1 fuel rest keys st'
      end
  end.

(** One iteration of the outer [for iteration in range(max_iterations)]. *)
Definition closure_pass (fuel : nat) (g : JoinGraph) (added_count : nat)
  : option closure_state :=
  let current_edges := map fst (join_details g) in
  closure_edge1 fuel current_edges current_edges (g, added_count, false).

Fixpoint closure_iterations (fuel : nat) (iterations : nat) (g : JoinGraph)
  (added_count : nat) : option (JoinGraph * nat) :=
  match iterations with
  | 0 => Some (g, added_count)
  | S n =>
      match closure_pass fuel g added_count with
      | None => None
      | Some (g', added', found_new) =>
          if found_new then closure_iterations fuel n g' added'
          else Some (g', added')
      end
  end.

Definition max_iterations : nat := 10.

Definition compute_transitive_closure (fuel : nat) (g : JoinGraph)
  : option (JoinGraph * nat) :=
  closure_iterations fuel max_iterations g 0.

(** *** Equivalence classes (union-find over [table.column] strings) *)

(** [f"{t}.{c}"] *)
Definition qualified (t c : string) : string := t ++ "." ++ c.

(** The union-find store: [parent] and [rank]. *)
Definition uf_state : Type := (list (string * string) * list (string * nat))%type.

(** [find(x)], with path compression; the recursion follows the parent
    chain and is driven by fuel. *)
Fixpoint uf_find (fuel : nat) (x : string) (st : uf_state) : option (string * uf_state) :=
  match fuel with
  | 0 => None
  | S fuel' =>
      let '(parent, rank) := st in
      let '(parent, rank) :=
        if dict_has x parent then (parent, rank)
        else (dict_set x x parent, dict_set x 0 rank) in
      match dict_get x parent with
      | None => None
      | Some p =>
          if negb (String.eqb p x) then
            match uf_find fuel' p (parent, rank) with
            | None => None
            | Some (r, (parent', rank')) => Some (r, (dict_set x r parent', rank'))
            end
          else Some (p, (parent, rank))
      end
  end.

(** [union(x, y)], by rank. *)
Definition uf_union (fuel : nat) (x y : string) (st : uf_state) : option uf_state :=
  match uf_find fuel x st with
  | None => None
  | Some (root_x, st1) =>
      match uf_find fuel y st1 with
      | None => None
      | Some (root_y, (parent, rank)) =>
          if String.eqb root_x root_y then Some (parent, rank)
          else
            match dict_get root_x rank, dict_get root_y rank with
            | Some rx, Some ry =>
                if Nat.ltb rx ry then Some (dict_set root_x root_y parent, rank)
                else if Nat.ltb ry rx then Some (dict_set root_y root_x parent, rank)
                else Some (dict_set root_y root_x parent, dict_set root_x (rx + 1) rank)
            | _, _ => None
            end
      end
  end.

(** [for detail in details: union(tc1, tc2)] *)
Fixpoint uf_union_details (fuel : nat) (ds : list JoinDetail) (st : uf_state)
  : option uf_state :=
  match ds with
  | [] => Some st
  | d :: ds' =>
      match uf_union fuel (qualified (t1 d) (t1_col d)) (qualified (t2 d) (t2_col d)) st with
      | None => None
      | Some st' => uf_union_details fuel ds' st'
      end
  end.

(** [for edge, details in self.join_details.items(): ...] *)
Fixpoint uf_union_edges (fuel : nat) (es : list (string * list JoinDetail))
  (st : uf_state) : option uf_state :=
  match es with
  | [] => Some st
  | (_, ds) :: es' =>
      match uf_union_details fuel ds st with
      | None => None
      | Some st' => uf_union_edges fuel es' st'
      end
  end.

(** [for tc in parent.keys(): root = find(tc); ec_groups[root].add(tc)] *)
Fixpoint uf_group (fuel : nat) (keys : list string) (st : uf_state)
  (ec_groups : list (string * list string)) : option (list (string * list string)) :=
  match keys with
  | [] => Some ec_groups
  | tc :: keys' =>
      match uf_find fuel tc st with
      | None => None
      | Some (root, st') =>
          let members := match dict_get root ec_groups with
                         | Some s => s
                         | None => []
                         end in
          uf_group fuel keys' st' (dict_set root (set_add tc members) ec_groups)
      end
  end.

Definition build_equivalence_classes (fuel : nat) (g : JoinGraph)
  : option (JoinGraph * nat) :=
  match uf_union_edges fuel (join_details g) ([], []) with
  | None => None
  | Some st =>
      match uf_group fuel (map fst (fst st)) st [] with
      | None => None
      | Some ec_groups =>
          let classes := map snd ec_groups in
          Some (mkJoinGraph (edges g) (join_details g) (table_aliases g) classes,
                List.length classes)
      end
  end.

(** *** Connectivity *)

(** [tc.startswith(f"{t}.")] *)
Definition column_of (t : string) (tc : string) : bool :=
  String.prefix (t ++ ".") tc.

Definition are_in_same_ec (g : JoinGraph) (a b : string) : bool :=
  existsb (fun ec => existsb (column_of a) ec && existsb (column_of b) ec)
          (equivalence_classes g).

Section Connectivity.

(** The order in which iterating a set yields its elements. *)
Variable iter : list string -> list string.

(** [for other in subset: if other not in visited and
    are_in_same_ec(current, other): visited.add(other); queue.append(other)] *)
Definition bfs_visit (g : JoinGraph) (current : string)
  (vq : list string * list string) (other : string) : list string * list string :=
  if negb (mem other (fst vq)) && are_in_same_ec g current other
  then (set_add other (fst vq), snd vq ++ [other])
  else vq.

(** [while queue: current = queue.pop(0); ...]; returns the final
    [visited] and [queue].  Every relation is queued at most once, so
    [len(subset)] rounds empty the queue (lemma [bfs_fuel_exact]). *)
Fixpoint bfs (fuel : nat) (g : JoinGraph) (subset_iter : list string)
  (visited queue : list string) : list string * list string :=
  match fuel with
  | 0 => (visited, queue)
  | S fuel' =>
      match queue with
      | [] => (visited, queue)
      | current :: queue' =>
          let vq := fold_left (bfs_visit g current) subset_iter (visited, queue') in
          bfs fuel' g subset_iter (fst vq) (snd vq)
      end
  end.

Definition is_connected (g : JoinGraph) (s : list string) : bool :=
  if Nat.leb (List.length s) 1 then true
  else
    match iter s with
    | [] => true
    | start :: _ =>
        let visited := fst (bfs (List.length s) g (iter s) [start] [start]) in
        Nat.eqb (List.length visited) (List.length s)
    end.

Definition can_join (g : JoinGraph) (l r : list string) : bool :=
  existsb (fun x => existsb (fun y => are_in_same_ec g x y) (iter r)) (iter l).

End Connectivity.

(* ------------------------------------------------------------------ *)
(** ** predicates.py *)

Record PredicateClassifier := mkPredicateClassifier {
  all_predicates : list string;
  predicate_tables : list (string * list string);
  selections : list string;
  joins : list string;
  complex : list string
}.

Definition empty_classifier : PredicateClassifier :=
  mkPredicateClassifier [] [] [] [] [].

Definition add_predicate (c : PredicateClassifier) (p : string) (tables : list string)
  : PredicateClassifier :=
  mkPredicateClassifier (all_predicates c ++ [p])
                        (dict_set p tables (predicate_tables c))
                        (selections c) (joins c) (complex c).

(** [for predicate in self.all_predicates: ...]; [None] is the [KeyError]
    of [self.predicate_tables[predicate]]. *)
Fixpoint classify_loop (c : PredicateClassifier) (ps : list string)
  : option PredicateClassifier :=
  match ps with
  | [] => Some c
  | p :: ps' =>
      match dict_get p (predicate_tables c) with
      | None => None
      | Some tables =>
          let n := List.length tables in
          let c' :=
            if Nat.eqb n 1 then
              mkPredicateClassifier (all_predicates c) (predicate_tables c)
                                    (selections c ++ [p]) (joins c) (complex c)
            else if Nat.eqb n 2 then
              mkPredicateClassifier (all_predicates c) (predicate_tables c)
                                    (selections c) (joins c ++ [p]) (complex c)
            else
              mkPredicateClassifier (all_predicates c) (predicate_tables c)
                                    (selections c) (joins c) (complex c ++ [p]) in
          classify_loop c' ps'
      end
  end.

Definition classify_predicates (c : PredicateClassifier) : option PredicateClassifier :=
  classify_loop c (all_predicates c).

(** [pred_tables.issubset(subset_set)] *)
Definition issubset (a b : list string) : bool := forallb (fun x => mem x b) a.

Fixpoint predicates_loop (tables_of : list (string * list string))
  (subset_set : list string) (ps : list string) (acc : PredicateSet)
  : option PredicateSet :=
  match ps with
  | [] => Some acc
  | p :: ps' =>
      match dict_get p tables_of with
      | None => None
      | Some pred_tables =>
          let acc' :=
            if issubset pred_tables subset_set then
              if Nat.eqb (List.length pred_tables) 1 then
                mkPredicateSet (ps_selections acc ++ [p]) (ps_joins acc) (ps_complex acc)
              else if Nat.eqb (List.length pred_tables) 2 then
                mkPredicateSet (ps_selections acc) (ps_joins acc ++ [p]) (ps_complex acc)
              else
                mkPredicateSet (ps_selections acc) (ps_joins acc) (ps_complex acc ++ [p])
            else acc in
          predicates_loop tables_of subset_set ps' acc'
      end
  end.

Definition get_predicates_for_subset (c : PredicateClassifier) (s : list string)
  : option PredicateSet :=
  predicates_loop (predicate_tables c) (mk_set s) (all_predicates c)
                  (mkPredicateSet [] [] []).

(* ------------------------------------------------------------------ *)
(** ** The fragment of Python's [re] used by parser.py

    A backtracking matcher in continuation-passing style: alternatives are
    tried in the priority order of Python's engine (left alternative first,
    greedy repetition longest first, lazy repetition shortest first), and the
    first complete match wins. *)

Inductive regex : Type :=
| RChar (p : ascii -> bool)
| RSeq (r1 r2 : regex)
| RAlt (r1 r2 : regex)
| RStar (r : regex)
| RPlus (r : regex)
| RPlusLazy (r : regex)
| RGroup (n : nat) (r : regex)
| RBol
| REol.

Definition captures : Type := list (nat * list ascii).

Definition code (c : ascii) : nat := nat_of_ascii c.

Definition between (lo hi : nat) (c : ascii) : bool :=
  Nat.leb lo (code c) && Nat.leb (code c) hi.

(** [\w], [\s] and [.] of a [str] pattern, which follow Unicode, on the
    code points below 256.  [\w] is [ch.isalnum() or ch == '_']: beyond the
    ASCII letters and digits, the letters, ordinal indicators, superscript
    digits and fractions of Latin-1 (every code point from 192 on except
    the signs 215 and 247; 170, 178, 179, 181, 185, 186, 188 to 190). *)
Definition is_word (c : ascii) : bool :=
  between 48 57 c || between 65 90 c || between 97 122 c || Nat.eqb (code c) 95
  || Nat.eqb (code c) 170 || between 178 179 c || Nat.eqb (code c) 181
  || between 185 186 c || between 188 190 c
  || between 192 214 c || between 216 246 c || between 248 255 c.

(** [\s], and the characters [str.strip()] removes: the ASCII white space,
    the separators 28 to 31, NEL (133) and the no-break space (160). *)
Definition is_space (c : ascii) : bool :=
  between 9 13 c || between 28 32 c || Nat.eqb (code c) 133 || Nat.eqb (code c) 160.

Definition is_dot (c : ascii) : bool := negb (Nat.eqb (code c) 10).

Definition lower (c : ascii) : ascii :=
  if between 65 90 c then ascii_of_nat (code c + 32) else c.

(** A literal character under [re.IGNORECASE]. *)
Definition ci (c : ascii) : regex := RChar (fun x => Ascii.eqb (lower x) (lower c)).

Definition is_char (c : ascii) : ascii -> bool := Ascii.eqb c.

Section Matcher.

Variable R : Type.

Definition cont : Type := nat -> list ascii -> captures -> option R.

(** Greedy repetition of a matcher [m]: one more round first, then the
    rest of the pattern.  A round that consumes nothing is not repeated. *)
Fixpoint star_loop (m : nat -> list ascii -> captures -> cont -> option R) (k : cont)
  (fuel : nat) (pos : nat) (s : list ascii) (caps : captures) : option R :=
  match fuel with
  | 0 => k pos s caps
  | S fuel' =>
      match m pos s caps
              (fun pos' s' caps' =>
                 if Nat.eqb pos' pos then None else star_loop m k fuel' pos' s' caps')
      with
      | Some x => Some x
      | None => k pos s caps
      end
  end.

(** Lazy repetition: the rest of the pattern first, then one more round. *)
Fixpoint lazy_loop (m : nat -> list ascii -> captures -> cont -> option R) (k : cont)
  (fuel : nat) (pos : nat) (s : list ascii) (caps : captures) : option R :=
  match k pos s caps with
  | Some x => Some x
  | None =>
      match fuel with
      | 0 => None
      | S fuel' =>
          m pos s caps
            (fun pos' s' caps' =>
               if Nat.eqb pos' pos then None else lazy_loop m k fuel' pos' s' caps')
      end
  end.

Fixpoint rmatch (r : regex) (pos : nat) (s : list ascii) (caps : captures)
  (k : cont) {struct r} : option R :=
  match r with
  | RChar p =>
      match s with
      | c :: s' => if p c then k (S pos) s' caps else None
      | [] => None
      end
  | RSeq r1 r2 =>
      rmatch r1 pos s caps (fun pos' s' caps' => rmatch r2 pos' s' caps' k)
  | RAlt r1 r2 =>
      match rmatch r1 pos s caps k with
      | Some x => Some x
      | None => rmatch r2 pos s caps k
      end
  | RStar r1 => star_loop (rmatch r1) k (S (List.length s)) pos s caps
  | RPlus r1 =>
      rmatch r1 pos s caps (star_loop (rmatch r1) k (S (List.length s)))
  | RPlusLazy r1 =>
      rmatch r1 pos s caps (lazy_loop (rmatch r1) k (S (List.length s)))
  | RGroup n r1 =>
      rmatch r1 pos s caps
        (fun pos' s' caps' => k pos' s' ((n, firstn (pos' - pos) s) :: caps'))
  | RBol => if Nat.eqb pos 0 then k pos s caps else None
  | REol =>
      match s with
      | [] => k pos s caps
      | [c] => if Nat.eqb (code c) 10 then k pos s caps else None
      | _ => None
      end
  end.

End Matcher.

(** A match: its end position and its groups. *)
Definition match_at (r : regex) (pos : nat) (s : list ascii) : option (nat * captures) :=
  rmatch r pos s [] (fun pos' _ caps => Some (pos', caps)).

(** [re.search(r, s)]: the leftmost match. *)
Fixpoint search_from (r : regex) (pos : nat) (s : list ascii) : option captures :=
  match match_at r pos s with
  | Some (_, caps) => Some caps
  | None =>
      match s with
      | [] => None
      | _ :: s' => search_from r (S pos) s'
      end
  end.

Definition re_search (r : regex) (s : string) : option captures :=
  search_from r 0 (list_ascii_of_string s).

Fixpoint group (n : nat) (caps : captures) : string :=
  match caps with
  | [] => ""
  | (m, text) :: caps' =>
      if Nat.eqb n m then string_of_list_ascii text else group n caps'
  end.

(** [re.sub(r, '', s)] for a pattern that never matches the empty string. *)
Fixpoint sub_from (fuel : nat) (r : regex) (pos : nat) (s : list ascii) : list ascii :=
  match fuel with
  | 0 => s
  | S fuel' =>
      match match_at r pos s, s with
      | Some (e, _), c :: s' =>
          if Nat.ltb pos e then sub_from fuel' r e (skipn (e - pos) s)
          else c :: sub_from fuel' r (S pos) s'
      | None, c :: s' => c :: sub_from fuel' r (S pos) s'
      | _, [] => []
      end
  end.

Definition re_sub_empty (r : regex) (s : string) : string :=
  let l := list_ascii_of_string s in
  string_of_list_ascii (sub_from (S (List.length l)) r 0 l).

(** [s.strip()] *)
Fixpoint lstrip (l : list ascii) : list ascii :=
  match l with
  | c :: l' => if is_space c then lstrip l' else l
  | [] => []
  end.

Definition strip (s : string) : string :=
  string_of_list_ascii
    (rev (lstrip (rev (lstrip (list_ascii_of_string s))))).

(** [s.split(',')] *)
Fixpoint split_on (sep : ascii) (cur : list ascii) (l : list ascii) : list string :=
  match l with
  | [] => [string_of_list_ascii (rev cur)]
  | c :: l' =>
      if Ascii.eqb c sep then string_of_list_ascii (rev cur) :: split_on sep [] l'
      else split_on sep (c :: cur) l'
  end.

Definition split (sep : ascii) (s : string) : list string :=
  split_on sep [] (list_ascii_of_string s).

(* ------------------------------------------------------------------ *)
(** ** parser.py *)

Definition quote_chars (c : ascii) : bool :=
  Nat.eqb (code c) 39 || Nat.eqb (code c) 34.

(** [^['\"]|['\"]$] *)
Definition re_outer_quote : regex :=
  RAlt (RSeq RBol (RChar quote_chars)) (RSeq (RChar quote_chars) REol).

(** [::\w+$] *)
Definition re_type_cast : regex :=
  RSeq (RChar (is_char ":")) (RSeq (RChar (is_char ":")) (RSeq (RPlus (RChar is_word)) REol)).

Definition _normalize_value (raw_value : string) : string :=
  let normalized := strip raw_value in
  let normalized := re_sub_empty re_outer_quote normalized in
  let normalized := re_sub_empty re_type_cast normalized in
  strip normalized.

(** [(\w+)\.(\w+)] *)
Definition re_table_column (tail : regex) : regex :=
  RSeq (RGroup 1 (RPlus (RChar is_word)))
       (RSeq (RChar (is_char "."))
             (RSeq (RGroup 2 (RPlus (RChar is_word))) tail)).

(** [(\w+)\.(\w+)\s*=\s*(.+?)(?:\s+(?:AND|OR)|$)], with [re.IGNORECASE] *)
Definition re_eq_constant : regex :=
  re_table_column
    (RSeq (RStar (RChar is_space))
       (RSeq (RChar (is_char "="))
          (RSeq (RStar (RChar is_space))
             (RSeq (RGroup 3 (RPlusLazy (RChar is_dot)))
                (RAlt (RSeq (RPlus (RChar is_space))
                            (RAlt (RSeq (ci "A") (RSeq (ci "N") (ci "D")))
                                  (RSeq (ci "O") (ci "R"))))
                      REol))))).

(** [(\w+)\.(\w+)\s+IN\s*\(([^)]+)\)], with [re.IGNORECASE] *)
Definition re_in_list : regex :=
  re_table_column
    (RSeq (RPlus (RChar is_space))
       (RSeq (ci "I")
          (RSeq (ci "N")
             (RSeq (RStar (RChar is_space))
                (RSeq (RChar (is_char "("))
                   (RSeq (RGroup 3 (RPlus (RChar (fun c => negb (is_char ")" c)))))
                         (RChar (is_char ")")))))))).

Definition _extract_single_constant_value (pred : string) : option ConstantValue :=
  match re_search re_eq_constant pred with
  | Some m =>
      Some (mkConstantValue (group 1 m) (group 2 m) (_normalize_value (group 3 m)))
  | None =>
      match re_search re_in_list pred with
      | Some m =>
          let values := map strip (split "," (group 3 m)) in
          match values with
          | [v] => Some (mkConstantValue (group 1 m) (group 2 m) (_normalize_value v))
          | _ => None
          end
      | None => None
      end
  end.

(** First loop of [_detect_constant_equality_joins]: the constant values of
    the selections of one table, appended to their ["column:value"] groups. *)
Fixpoint group_constants (preds : list string)
  (constant_groups : list (string * list ConstantValue))
  : list (string * list ConstantValue) :=
  match preds with
  | [] => constant_groups
  | pred :: preds' =>
      match _extract_single_constant_value pred with
      | Some const_val =>
          let key := (cv_column const_val ++ ":" ++ cv_value const_val)%string in
          let existing := match dict_get key constant_groups with
                          | Some l => l
                          | None => []
                          end in
          group_constants preds' (dict_set key (existing ++ [const_val]) constant_groups)
      | None => group_constants preds' constant_groups
      end
  end.

Fixpoint scan_tables (c : PredicateClassifier) (tables : list string)
  (constant_groups : list (string * list ConstantValue))
  : option (list (string * list ConstantValue)) :=
  match tables with
  | [] => Some constant_groups
  | table :: tables' =>
      match get_predicates_for_subset c [table] with
      | None => None
      | Some preds =>
          scan_tables c tables' (group_constants (ps_selections preds) constant_groups)
      end
  end.

(** [for i in range(len(group)): for j in range(i + 1, len(group)): ...] *)
Fixpoint pair_joins (grp : list ConstantValue) : list ConstantEqualityJoin :=
  match grp with
  | [] => []
  | gi :: rest =>
      map (fun gj => mkConstantEqualityJoin (cv_table gi) (cv_table gj) (cv_column gi)) rest
      ++ pair_joins rest
  end.

Definition group_joins (grp : list ConstantValue) : list ConstantEqualityJoin :=
  if Nat.leb 2 (List.length grp) then pair_joins grp else [].

Definition _detect_constant_equality_joins (c : PredicateClassifier) (tables : list string)
  : option (list ConstantEqualityJoin) :=
  match scan_tables c tables [] with
  | None => None
  | Some constant_groups => Some (flat_map (fun kg => group_joins (snd kg)) constant_groups)
  end.

Record ParsedSQL := mkParsedSQL {
  tables : list string;
  aliases : list (string * string);
  join_graph : JoinGraph;
  classifier : PredicateClassifier
}.

(** What [parse_sql] takes from the SQLglot front end: the result of
    [_extract_tables], of [_extract_joins_from_ast] and of
    [_extract_predicates_from_where]. *)
Record QueryAst := mkQueryAst {
  ast_tables : list string;
  ast_aliases : list (string * string);
  ast_joins : list JoinCondition;
  ast_predicates : list (string * list string)
}.

Definition add_asserted (g : JoinGraph) (jc : JoinCondition) : JoinGraph :=
  add_join g (left_table jc) (right_table jc) (left_column jc) (right_column jc) true.

Definition add_constant_join (g : JoinGraph) (cj : ConstantEqualityJoin) : JoinGraph :=
  add_join g (cej_t1 cj) (cej_t2 cj) (cej_column cj) (cej_column cj) false.

Definition build_classifier (preds : list (string * list string)) : PredicateClassifier :=
  fold_left (fun c pt => add_predicate c (fst pt) (mk_set (snd pt))) preds empty_classifier.

(** [parse_sql] from the point where the AST has been read; [None] is a
    raised exception or exhausted fuel. *)
Definition parse_sql (fuel : nat) (ast : QueryAst) : option ParsedSQL :=
  match ast_tables ast with
  | [] => None
  | _ =>
      let g := mkJoinGraph [] [] (ast_aliases ast) [] in
      let g := fold_left add_asserted (ast_joins ast) g in
      match classify_predicates (build_classifier (ast_predicates ast)) with
      | None => None
      | Some c =>
          match _detect_constant_equality_joins c (ast_tables ast) with
          | None => None
          | Some constant_joins =>
              let g := fold_left add_constant_join constant_joins g in
              match compute_transitive_closure fuel g with
              | None => None
              | Some (g, _) =>
                  match build_equivalence_classes fuel g with
                  | None => None
                  | Some (g, _) =>
                      Some (mkParsedSQL (ast_tables ast) (ast_aliases ast) g c)
                  end
              end
          end
      end
  end.

(* ------------------------------------------------------------------ *)
(** ** enumerator.py *)

(** ['|||'.join(sorted(subset))] *)
Definition _canonical_key (s : list string) : string := join "|||" (sorted s).

(** The enumerator's mutable fields [dp_table] and [all_plans]. *)
Record enum_state := mkEnumState {
  dp_table : list string;
  plans : list EnumerationPlan
}.

Definition _add_subset (st : enum_state) (s : list string)
  (l r : option (list string)) : enum_state :=
  mkEnumState (set_add (_canonical_key s) (dp_table st))
              (plans st ++ [mkEnumerationPlan s l r ""]).

(** Returns the first element on which [f] succeeds: a loop left by [return]. *)
Fixpoint first_some (A B : Type) (f : A -> option B) (l : list A) : option B :=
  match l with
  | [] => None
  | x :: l' =>
      match f x with
      | Some y => Some y
      | None => first_some f l'
      end
  end.

Section Enumerator.

Variable iter : list string -> list string.
Variable g : JoinGraph.

(** The body of the inner loop of [_find_valid_decomposition]. *)
Definition try_split (dp : list string) (s : list string) (left_tuple : list string)
  : option Decomposition :=
  let l := mk_set left_tuple in
  let r := set_diff s l in
  if negb (mem (_canonical_key l) dp) || negb (mem (_canonical_key r) dp) then None
  else if can_join iter g l r then Some (mkDecomposition l r)
  else None.

Definition _find_valid_decomposition (dp : list string) (s : list string)
  : option Decomposition :=
  let subset_size := List.length s in
  first_some
    (fun left_size => first_some (try_split dp s) (combinations (sorted s) left_size))
    (seq 1 (subset_size - 1)).

(** The body of the loop of [_enumerate_level], on the state and the
    [added] counter. *)
Definition enumerate_candidate (level : nat) (acc : enum_state * nat)
  (subset_tuple : list string) : enum_state * nat :=
  let s := mk_set subset_tuple in
  if negb (is_connected iter g s) then acc
  else if Nat.eqb level 1 then (_add_subset (fst acc) s None None, S (snd acc))
  else
    match _find_valid_decomposition (dp_table (fst acc)) s with
    | Some decomp =>
        (_add_subset (fst acc) s (Some (dec_left decomp)) (Some (dec_right decomp)),
         S (snd acc))
    | None => acc
    end.

Definition _enumerate_level (st : enum_state) (level : nat) (ts : list string)
  : enum_state * nat :=
  fold_left (enumerate_candidate level) (combinations ts level) (st, 0).

(** [for level in range(1, max_level + 1)] *)
Definition enumerate_levels (ts : list string) (levels : list nat)
  : enum_state * list (nat * nat) :=
  fold_left
    (fun (acc : enum_state * list (nat * nat)) level =>
       let r := _enumerate_level (fst acc) level ts in
       (fst r, snd acc ++ [(level, snd r)]))
    levels (mkEnumState [] [], []).

(** The levels visited: [range(1, min(max_level, num_tables) + 1)]. *)
Definition level_range (num_tables : nat) (max_level : Z) : list nat :=
  seq 1 (Z.to_nat (Z.min max_level (Z.of_nat num_tables))).

Definition enumerate_subsets (ts : list string) (max_level : Z) : EnumerationResult :=
  let ts := sorted ts in
  let num_tables := List.length ts in
  let r := enumerate_levels ts (level_range num_tables max_level) in
  mkEnumerationResult (plans (fst r)) (snd r).

End Enumerator.

(* ------------------------------------------------------------------ *)
(** ** sql_generator.py *)

Definition newline : string := String (ascii_of_nat 10) EmptyString.

(** The state of the loop of [_generate_join_query]. *)
Record join_tree := mkJoinTree {
  from_clause : string;
  added_tables : list string;
  remaining_tables : list string;
  used_join_predicates : list string
}.

Section Renderer.

Variable iter : list string -> list string.
Variable alias_map : list (string * string).
Variable cls : PredicateClassifier.
Variable g : JoinGraph.

Definition _render_table (alias : string) : string :=
  let base_name := match dict_get alias alias_map with
                   | Some b => b
                   | None => alias
                   end in
  if negb (String.eqb base_name alias) then (base_name ++ " " ++ alias)%string
  else base_name.

Definition _generate_base_table_query (table : string) : option string :=
  match get_predicates_for_subset cls [table] with
  | None => None
  | Some preds =>
      let table_clause := _render_table table in
      match ps_selections preds with
      | _ :: _ =>
          let where_clause := join " AND " (ps_selections preds) in
          Some ("SELECT COUNT(*) FROM " ++ table_clause ++ " WHERE " ++ where_clause ++ ";")%string
      | [] => Some ("SELECT COUNT(*) FROM " ++ table_clause ++ ";")%string
      end
  end.

(** The sort key [(not p.is_original, p.predicate)]. *)
Definition pred_le (p q : JoinPredicate) : bool :=
  if Bool.eqb (jp_is_original p) (jp_is_original q)
  then String.leb (predicate p) (predicate q)
  else jp_is_original p.

Definition detail_predicate (d : JoinDetail) : JoinPredicate :=
  mkJoinPredicate (t1 d ++ "." ++ t1_col d ++ " = " ++ t2 d ++ "." ++ t2_col d)%string
                  (is_original d).

Definition _find_join_predicates (left_tables right_tables : list string)
  : list JoinPredicate :=
  sorted_by pred_le
    (flat_map
       (fun l =>
          flat_map
            (fun r =>
               match dict_get (edge_key l r) (join_details g) with
               | Some ds => map detail_predicate ds
               | None => []
               end)
            right_tables)
       left_tables).

Definition _find_next_table_for_join_tree (added remaining : list string)
  : option NextTable :=
  match
    first_some
      (fun table =>
         first_some
           (fun a =>
              first_some
                (fun pred =>
                   if jp_is_original pred then Some (mkNextTable table (Some pred))
                   else None)
                (_find_join_predicates [a] [table]))
           (iter added))
      (sorted remaining)
  with
  | Some nt => Some nt
  | None =>
      first_some
        (fun table =>
           first_some
             (fun a =>
                match _find_join_predicates [a] [table] with
                | pred :: _ => Some (mkNextTable table (Some pred))
                | [] => None
                end)
             (iter added))
        (sorted remaining)
  end.

(** One round of [while remaining_tables]; [None] when the loop is left
    (no table remains, or the [break]). *)
Definition join_step (jt : join_tree) : option join_tree :=
  match remaining_tables jt with
  | [] => None
  | _ :: _ =>
      match _find_next_table_for_join_tree (added_tables jt) (remaining_tables jt) with
      | None => None
      | Some next_info =>
          let table := nt_table next_info in
          let from1 := (from_clause jt ++ newline ++ "JOIN " ++ _render_table table)%string in
          let '(from2, used) :=
            match nt_join_pred next_info with
            | Some join_pred =>
                ((from1 ++ " ON " ++ predicate join_pred)%string,
                 set_add (predicate join_pred) (used_join_predicates jt))
            | None => (from1, used_join_predicates jt)
            end in
          Some (mkJoinTree from2 (set_add table (added_tables jt))
                           (set_remove table (remaining_tables jt)) used)
      end
  end.

(** The loop; every round removes one table from [remaining_tables], so
    [len(remaining_tables)] rounds are enough. *)
Fixpoint join_loop (rounds : nat) (jt : join_tree) : join_tree :=
  match rounds with
  | 0 => jt
  | S n =>
      match join_step jt with
      | Some jt' => join_loop n jt'
      | None => jt
      end
  end.

(** The join tree built for a subset given by its sorted listing. *)
Definition build_join_tree (first : string) (rest : list string) : join_tree :=
  let remaining := mk_set rest in
  join_loop (List.length remaining)
            (mkJoinTree (_render_table first) [first] remaining []).

(** The list [all_predicates] of [_build_where_clause]. *)
Definition where_predicates (preds : PredicateSet) (used : list string) : list string :=
  ps_selections preds
  ++ filter (fun join_pred => negb (mem join_pred used)) (ps_joins preds)
  ++ ps_complex preds.

Definition _build_where_clause (subset_list : list string) (used : list string)
  : option string :=
  match get_predicates_for_subset cls subset_list with
  | None => None
  | Some preds =>
      match where_predicates preds used with
      | _ :: _ => Some (join " AND " (where_predicates preds used))
      | [] => Some ""
      end
  end.

Definition _generate_join_query (s : list string) (l r : option (list string))
  : option string :=
  match sorted s with
  | [] => None
  | first :: rest =>
      let jt := build_join_tree first rest in
      match _build_where_clause (sorted s) (used_join_predicates jt) with
      | None => None
      | Some where_clause =>
          if truthy where_clause then
            Some ("SELECT * FROM " ++ from_clause jt ++ newline
                    ++ "WHERE " ++ where_clause ++ ";")%string
          else Some ("SELECT * FROM " ++ from_clause jt ++ ";")%string
      end
  end.

Definition generate_subquery (s : list string) (l r : option (list string))
  : option string :=
  if Nat.eqb (List.length s) 1 then
    match iter s with
    | table :: _ => _generate_base_table_query table
    | [] => None
    end
  else _generate_join_query s l r.

End Renderer.

(* ------------------------------------------------------------------ *)
(** ** utils.py and main.py *)

Definition format_subset (s : list string) : string :=
  ("{" ++ join ", " (sorted s) ++ "}")%string.

(** [text.replace('\n', ' ')] *)
Fixpoint replace_newlines (s : string) : string :=
  match s with
  | EmptyString => EmptyString
  | String c s' =>
      String (if Nat.eqb (code c) 10 then " "%char else c) (replace_newlines s')
  end.

Record row := mkRow {
  query_id : nat;
  row_subset : string;
  query : string
}.

Section Driver.

Variable iter : list string -> list string.

(** The call [enumerator.enumerate_subsets(parsed.tables,
    max_level=min(args.max_level, 20))] of [process_query]. *)
Definition driver_enumerate (parsed : ParsedSQL) (arg_max_level : Z) : EnumerationResult :=
  enumerate_subsets iter (join_graph parsed) (tables parsed) (Z.min arg_max_level 20).

Fixpoint render_rows (parsed : ParsedSQL) (qid : nat) (ps : list EnumerationPlan)
  : option (list row) :=
  match ps with
  | [] => Some []
  | plan :: ps' =>
      match generate_subquery iter (aliases parsed) (classifier parsed)
                              (join_graph parsed) (subset plan) (left plan) (right plan) with
      | None => None
      | Some sql_query =>
          match render_rows parsed qid ps' with
          | None => None
          | Some rows =>
              if Nat.ltb 1 (List.length (subset plan)) then
                Some (mkRow qid (format_subset (subset plan)) (replace_newlines sql_query)
                        :: rows)
              else Some rows
          end
      end
  end.

Definition process_query (fuel : nat) (ast : QueryAst) (qid : nat) (arg_max_level : Z)
  : option (list row) :=
  match parse_sql fuel ast with
  | None => None
  | Some parsed =>
      match tables parsed with
      | [] => None
      | _ =>
          render_rows parsed qid (all_plans (driver_enumerate parsed arg_max_level))
      end
  end.

End Driver.

(* ------------------------------------------------------------------ *)
(** ** Notions used to state the properties *)

(** [q.startswith(p)] *)
Definition starts_with (p q : string) : Prop := String.prefix p q = true.

(** Two orders in which a set may be iterated. *)
Definition iter_ascending (s : list string) : list string := s.
Definition iter_descending (s : list string) : list string := rev s.

(** The relations of a graph connected by a stored detail. *)
Definition has_detail (g : JoinGraph) (a b : string) : Prop :=
  details_at g (edge_key a b) <> [].

Definition all_details (g : JoinGraph) : list JoinDetail :=
  flat_map snd (join_details g).

(** Terms of the equational theory of a query: qualified columns and
    constants. *)
Inductive term : Type :=
| Col (t c : string)
| Const (v : string).

(** The equations of a theory: the equi-joins [asserted] and, for every
    [ConstantValue] of [facts], the equation of its column with its
    value. *)
Inductive stated (asserted : list JoinCondition) (facts : list ConstantValue)
  : term -> term -> Prop :=
| stated_join jc :
    In jc asserted ->
    stated asserted facts (Col (left_table jc) (left_column jc))
                          (Col (right_table jc) (right_column jc))
| stated_constant cv :
    In cv facts ->
    stated asserted facts (Col (cv_table cv) (cv_column cv)) (Const (cv_value cv)).

(** Logical consequence: the least equivalence containing the stated facts. *)
Definition entails (asserted : list JoinCondition) (facts : list ConstantValue)
  : term -> term -> Prop :=
  clos_refl_sym_trans term (stated asserted facts).

(** The values the code reads: every [ConstantValue] collected by the first
    loop of [_detect_constant_equality_joins], that is, whatever
    [_extract_single_constant_value] returns on the selections of the
    relations [ts].  These are the readings of two patterns on the
    predicate texts; whether a reading is a fact of the query is another
    matter (see [spec_constant_facts]). *)
Definition extracted_constants (c : PredicateClassifier) (ts : list string)
  : option (list ConstantValue) :=
  match scan_tables c ts [] with
  | None => None
  | Some constant_groups => Some (flat_map snd constant_groups)
  end.

(** An alias without the character of the key delimiter. *)
Definition bar_free (s : string) : Prop :=
  ~ In "|"%char (list_ascii_of_string s).


(** [SELECT * FROM info_type it1, info_type it2 WHERE it1.info = 'rating'
    AND it2.info = 'rating'] *)
Definition ast_constant : QueryAst :=
  mkQueryAst ["it1"; "it2"] [("it1", "info_type"); ("it2", "info_type")] []
             [("it1.info = 'rating'", ["it1"]); ("it2.info = 'rating'", ["it2"])].

(** [SELECT * FROM A, B, C WHERE A.x = B.y AND A.p = C.q AND B.r = C.s] *)
Definition ast_triangle : QueryAst :=
  mkQueryAst ["A"; "B"; "C"] [("A", "A"); ("B", "B"); ("C", "C")]
             [mkJoinCondition "A" "x" "B" "y"; mkJoinCondition "A" "p" "C" "q";
              mkJoinCondition "B" "r" "C" "s"]
             [("A.x = B.y", ["A"; "B"]); ("A.p = C.q", ["A"; "C"]);
              ("B.r = C.s", ["B"; "C"])].

(** [SELECT * FROM t WHERE t.s = 'a' AND t.s IN ('a')] *)
Definition ast_same_table : QueryAst :=
  mkQueryAst ["t"] [("t", "t")] []
             [("t.s = 'a'", ["t"]); ("t.s IN ('a')", ["t"])].

(** A query over twenty-one relations [r01 .. r21] without predicates. *)
Definition ast_wide : QueryAst :=
  let names := ["r01"; "r02"; "r03"; "r04"; "r05"; "r06"; "r07"; "r08"; "r09"; "r10";
                "r11"; "r12"; "r13"; "r14"; "r15"; "r16"; "r17"; "r18"; "r19"; "r20";
                "r21"] in
  mkQueryAst names (map (fun n => (n, n)) names) [] [].

(** The parsed form of the queries above. *)
Definition parsed_or_empty (o : option ParsedSQL) : ParsedSQL :=
  match o with
  | Some p => p
  | None => mkParsedSQL [] [] empty_graph empty_classifier
  end.

Definition parsed_constant : ParsedSQL := parsed_or_empty (parse_sql 100 ast_constant).
Definition parsed_triangle : ParsedSQL := parsed_or_empty (parse_sql 100 ast_triangle).
Definition parsed_wide : ParsedSQL := parsed_or_empty (parse_sql 100 ast_wide).

(** The renderer of [process_query] for a parsed query. *)
Definition render (iter : list string -> list string) (parsed : ParsedSQL)
  (s : list string) (l r : option (list string)) : option string :=
  generate_subquery iter (aliases parsed) (classifier parsed) (join_graph parsed) s l r.




(** A plan of between one and [bound] relations. *)
Definition sized (bound : nat) (p : EnumerationPlan) : Prop :=
  1 <= List.length (subset p) <= bound.

(** *** Declarative reading of the patterns *)

(** A matcher state: position, remaining text, groups. *)
Definition mstate : Type := (nat * list ascii * captures)%type.

Inductive star_rel (step : mstate -> mstate -> Prop) : mstate -> mstate -> Prop :=
| star_done st : star_rel step st st
| star_more st mid st' : step st mid -> star_rel step mid st' -> star_rel step st st'.

(** [matches r st st']: the pattern [r] can take the matcher from [st] to
    [st']. *)
Fixpoint matches (r : regex) (st st' : mstate) : Prop :=
  let '(pos, s, caps) := st in
  let '(pos', s', caps') := st' in
  match r with
  | RChar p => exists c, s = c :: s' /\ p c = true /\ pos' = S pos /\ caps' = caps
  | RSeq r1 r2 => exists mid, matches r1 st mid /\ matches r2 mid st'
  | RAlt r1 r2 => matches r1 st st' \/ matches r2 st st'
  | RStar r1 => star_rel (matches r1) st st'
  | RPlus r1 => exists mid, matches r1 st mid /\ star_rel (matches r1) mid st'
  | RPlusLazy r1 => exists mid, matches r1 st mid /\ star_rel (matches r1) mid st'
  | RGroup n r1 =>
      exists caps0,
        matches r1 st (pos', s', caps0) /\ caps' = (n, firstn (pos' - pos) s) :: caps0
  | RBol => st' = st /\ pos = 0
  | REol => st' = st /\ (s = [] \/ exists c, s = [c] /\ code c = 10)
  end.

(** The groups a pattern can set. *)
Fixpoint groups_of (r : regex) : list nat :=
  match r with
  | RChar _ | RBol | REol => []
  | RSeq r1 r2 | RAlt r1 r2 => groups_of r1 ++ groups_of r2
  | RStar r1 | RPlus r1 | RPlusLazy r1 => groups_of r1
  | RGroup n r1 => n :: groups_of r1
  end.

(** A matcher that only succeeds through its continuation, from a state
    that the relation [rel] allows. *)
Definition sound_matcher (R : Type)
  (m : nat -> list ascii -> captures -> cont R -> option R)
  (rel : mstate -> mstate -> Prop) : Prop :=
  forall pos s caps k x,
    m pos s caps k = Some x ->
    exists pos' s' caps', rel (pos, s, caps) (pos', s', caps') /\ k pos' s' caps' = Some x.

(** Every stored detail states a consequence of the query's facts. *)
Definition sound_graph (asserted : list JoinCondition) (facts : list ConstantValue)
  (g : JoinGraph) : Prop :=
  forall d, In d (all_details g) ->
            entails asserted facts (Col (t1 d) (t1_col d)) (Col (t2 d) (t2_col d)).

(** The details of [g] are still in [g']. *)
Definition grows (g g' : JoinGraph) : Prop :=
  forall d, In d (all_details g) -> In d (all_details g').

(** A name made of word characters. *)
Definition word (s : string) : Prop :=
  Forall (fun c => is_word c = true) (list_ascii_of_string s).

(** The ["column:value"] key of a constant value. *)
Definition constant_key (cv : ConstantValue) : string :=
  (cv_column cv ++ ":" ++ cv_value cv)%string.

(** A representative of each class of the theory of [A.x = B.y] and
    [B.z = C.w]. *)
Definition gap_class (A B C x y z w : string) (u : term) : term :=
  match u with
  | Col t c =>
      if String.eqb t B && String.eqb c y then Col A x
      else if String.eqb t C && String.eqb c w then Col B z
      else u
  | Const _ => u
  end.

(** The detail [add_join] stores: the pair as given, or swapped. *)
Definition stored_detail (a b a_col b_col : string) (orig : bool) : JoinDetail :=
  if String.leb a b then mkJoinDetail a a_col b b_col orig
  else mkJoinDetail b b_col a a_col orig.


(** Every member of a group carries the group's key and a word column. *)
Definition groups_ok (groups : list (string * list ConstantValue)) : Prop :=
  forall k grp cv, In (k, grp) groups -> In cv grp ->
                   constant_key cv = k /\ word (cv_column cv).


(** The chain query [A.x = B.y AND B.y = C.z AND A.w > 5] and the query
    [A.x = B.y AND B.z = C.w], whose joins meet [B] on different columns. *)
Definition ast_chain : QueryAst :=
  mkQueryAst ["A"; "B"; "C"] [("A", "A"); ("B", "B"); ("C", "C")]
             [mkJoinCondition "A" "x" "B" "y"; mkJoinCondition "B" "y" "C" "z"]
             [("A.x = B.y", ["A"; "B"]); ("B.y = C.z", ["B"; "C"]); ("A.w > 5", ["A"])].

Definition ast_gap : QueryAst :=
  mkQueryAst ["A"; "B"; "C"] [("A", "A"); ("B", "B"); ("C", "C")]
             [mkJoinCondition "A" "x" "B" "y"; mkJoinCondition "B" "z" "C" "w"]
             [("A.x = B.y", ["A"; "B"]); ("B.z = C.w", ["B"; "C"])].

Definition parsed_chain : ParsedSQL := parsed_or_empty (parse_sql 100 ast_chain).
Definition parsed_gap : ParsedSQL := parsed_or_empty (parse_sql 100 ast_gap).

(** *** The witness of a plan *)

(** The plan at position [i] of [ps] carries a decomposition into the
    subsets of two earlier plans that the graph can join. *)
Definition witnessed (iter : list string -> list string) (g : JoinGraph)
  (ps : list EnumerationPlan) (i : nat) (p : EnumerationPlan) : Prop :=
  exists l r,
    left p = Some l /\ right p = Some r
    /\ (exists j pl, j < i /\ nth_error ps j = Some pl /\ subset pl = l)
    /\ (exists j pr, j < i /\ nth_error ps j = Some pr /\ subset pr = r)
    /\ (forall x, In x l -> ~ In x r)
    /\ (forall x, In x (subset p) <-> In x l \/ In x r)
    /\ can_join iter g l r = true.

(** The invariant of the enumeration: the keys of [dp_table] are the keys
    of emitted plans, the emitted subsets are non-empty ascending lists of
    aliases without the delimiter character, and every emitted plan of two
    or more relations is witnessed. *)
Definition enum_invariant (iter : list string -> list string) (g : JoinGraph)
  (st : enum_state) : Prop :=
  (forall key, In key (dp_table st) ->
               exists pl, In pl (plans st) /\ _canonical_key (subset pl) = key)
  /\ (forall pl, In pl (plans st) ->
                 subset pl <> [] /\ ascending (subset pl)
                 /\ Forall bar_free (subset pl))
  /\ (forall i p, nth_error (plans st) i = Some p ->
                  2 <= List.length (subset p) -> witnessed iter g (plans st) i p).

(** A query with the quoted alias ["b|||c"]: [SELECT * FROM a, b, t AS
    "b|||c", c WHERE a.x = b.y AND a.p = c.q]. *)
Definition ast_bar : QueryAst :=
  mkQueryAst ["a"; "b"; "b|||c"; "c"]
             [("a", "a"); ("b", "b"); ("b|||c", "t"); ("c", "c")]
             [mkJoinCondition "a" "x" "b" "y"; mkJoinCondition "a" "p" "c" "q"]
             [("a.x = b.y", ["a"; "b"]); ("a.p = c.q", ["a"; "c"])].

Definition parsed_bar : ParsedSQL := parsed_or_empty (parse_sql 100 ast_bar).

(** *** Connectivity and stored details *)

(** Any two relations of [s] that share an equivalence class have a
    stored detail on their edge. *)
Definition edge_complete (g : JoinGraph) (s : list string) : Prop :=
  forall a b, In a s -> In b s -> a <> b ->
              are_in_same_ec g a b = true -> has_detail g a b.

(** The state from which [_generate_join_query] starts its loop. *)
Definition initial_tree (alias_map : list (string * string)) (first : string)
  (rest : list string) : join_tree :=
  mkJoinTree (_render_table alias_map first) [first] (mk_set rest) [].

(** The state in which the loop gives up: tables remain and none can be
    attached. *)
Definition gives_up (iter : list string -> list string) (g : JoinGraph)
  (jt : join_tree) : Prop :=
  remaining_tables jt <> []
  /\ _find_next_table_for_join_tree iter g (added_tables jt) (remaining_tables jt) = None.

(** The invariant of the loop of [_generate_join_query] for the subset [s]:
    the attached and the remaining tables split [s]. *)
Definition splits (s : list string) (jt : join_tree) : Prop :=
  (forall x, In x s <-> In x (added_tables jt) \/ In x (remaining_tables jt))
  /\ (forall x, In x (added_tables jt) -> ~ In x (remaining_tables jt))
  /\ added_tables jt <> []
  /\ NoDup (remaining_tables jt).

(** The relations of [s] the traversal has not visited yet. *)
Definition unvisited (s visited : list string) : list string :=
  filter (fun x => negb (mem x visited)) s.

(** A classifier in which every recorded predicate has its table set, as
    [add_predicate] leaves it. *)
Definition classifier_ok (c : PredicateClassifier) : Prop :=
  forall p, In p (all_predicates c) -> dict_get p (predicate_tables c) <> None.

(** The relations of [s] reached from [start] by steps between relations
    that share an equivalence class. *)
Inductive reachable (g : JoinGraph) (s : list string) (start : string) : string -> Prop :=
| reach_start : reachable g s start start
| reach_step a b :
    reachable g s start a -> In b s -> are_in_same_ec g a b = true ->
    reachable g s start b.

(** Every visited relation is still queued, or has all its neighbours
    visited. *)
Definition settled (g : JoinGraph) (s visited queue : list string) : Prop :=
  forall x, In x visited ->
            In x queue
            \/ forall y, In y s -> are_in_same_ec g x y = true -> In y visited.

(** *** Graphs built by [add_join] *)

(** The keys of [join_details] are distinct, every detail is stored under
    the key of its own relations, and its columns are not empty. *)
Definition well_formed (g : JoinGraph) : Prop :=
  NoDup (map fst (join_details g))
  /\ forall k ds d, In (k, ds) (join_details g) -> In d ds ->
                    edge_key (t1 d) (t2 d) = k
                    /\ truthy (t1_col d) && truthy (t2_col d) = true.

(** Qualified columns as pairs, and the two ends of a detail. *)
Definition column : Type := (string * string)%type.

Definition left_end (d : JoinDetail) : column := (t1 d, t1_col d).
Definition right_end (d : JoinDetail) : column := (t2 d, t2_col d).

Definition columns (g : JoinGraph) : list column :=
  flat_map (fun d => [left_end d; right_end d]) (all_details g).

Definition column_eqb (a b : column) : bool :=
  String.eqb (fst a) (fst b) && String.eqb (snd a) (snd b).

(** Some stored detail has exactly these two ends, in this order. *)
Definition stored_pair (g : JoinGraph) (ab : column * column) : bool :=
  existsb (fun d => column_eqb (left_end d) (fst ab) && column_eqb (right_end d) (snd ab))
          (all_details g).

(** The ordered pairs of columns of [u] that no stored detail joins: the
    room left for the closure, which adds details between known columns
    only and never one that is stored already. *)
Definition missing (u : list column) (g : JoinGraph) : list (column * column) :=
  filter (fun ab => negb (stored_pair g ab)) (list_prod u u).

(** The quantity the closure cannot increase. *)
Definition closure_budget (u : list column) (g : JoinGraph) : nat :=
  List.length (all_details g) + List.length (missing u g).

(** [g'] is [g] after some joins were added within the columns [u]. *)
Definition extends (u : list column) (g g' : JoinGraph) : Prop :=
  well_formed g' /\ incl (columns g') u /\ grows g g'
  /\ (forall k, List.length (details_at g k) <= List.length (details_at g' k))
  /\ (forall k, List.length (details_at g' k) + List.length (missing u g')
                <= List.length (details_at g k) + List.length (missing u g))
  /\ closure_budget u g' <= closure_budget u g.

(** Fuel that is enough for the closure of [g]. *)
Definition closure_fuel (g : JoinGraph) : nat :=
  2 * (List.length (all_details g)
       + List.length (list_prod (columns g) (columns g))) + 2.

(** *** The union-find store *)

(** Every parent is a node, every node has a rank, no rank exceeds [m],
    and ranks increase strictly along the parent links. *)
Definition uf_inv (m : nat) (st : uf_state) : Prop :=
  forall x p, dict_get x (fst st) = Some p ->
    dict_get p (fst st) <> None
    /\ exists rx rp, dict_get x (snd st) = Some rx /\ dict_get p (snd st) = Some rp
                     /\ rp <= m /\ (p <> x -> rx < rp).

(** What [find] leaves in place. *)
Definition uf_keeps (st st' : uf_state) : Prop :=
  (forall z, dict_get z (fst st) = Some z -> dict_get z (fst st') = Some z)
  /\ (forall z, dict_get z (fst st) <> None -> dict_get z (fst st') <> None)
  /\ (forall z, dict_get z (fst st) <> None -> dict_get z (snd st') = dict_get z (snd st)).

(** *** A pass of the closure that finds nothing *)

(** The body of the innermost loop adds nothing for [d1] and [d2]. *)
Definition step_quiet (g : JoinGraph) (d1 d2 : JoinDetail) : Prop :=
  forall tr, _try_form_transitive_join d1 d2 = Some tr ->
             tj_t1 tr <> tj_t2 tr -> _join_exists g tr = true.

(** No pair of details stored under two different keys yields a new join. *)
Definition pass_closed (g : JoinGraph) : Prop :=
  forall k1 k2 d1 d2,
    In k1 (map fst (join_details g)) -> In k2 (map fst (join_details g)) -> k1 <> k2 ->
    In d1 (details_at g k1) -> In d2 (details_at g k2) -> step_quiet g d1 d2.

(** The closure has converged on [g]: one more pass of its loop changes
    nothing and leaves [found_new] false. *)
Definition converged (g : JoinGraph) : Prop :=
  exists fuel n, closure_pass fuel g n = Some (g, n, false).

(** How [added_count] and [found_new] move. *)
Definition progress (st st' : closure_state) : Prop :=
  snd (fst st) <= snd (fst st')
  /\ (snd st = true -> snd st' = true)
  /\ (snd st' = true -> snd st = true \/ snd (fst st) < snd (fst st')).

(** *** Columns joined by stored details *)

(** Some stored detail joins the columns [u] and [v], in either order. *)
Definition linked (g : JoinGraph) (u v : column) : Prop :=
  exists d, In d (all_details g)
            /\ ((left_end d = u /\ right_end d = v)
                \/ (left_end d = v /\ right_end d = u)).

(** The relation names of the stored details are made of word characters. *)
Definition word_tables (g : JoinGraph) : Prop :=
  forall d, In d (all_details g) -> word (t1 d) /\ word (t2 d).

(** A sequence of stored details leading from the column [u]. *)
Inductive chain (g : JoinGraph) (u : column) : column -> Prop :=
| chain_here : chain g u u
| chain_next v w : chain g u v -> linked g v w -> chain g u w.

(** *** What the equivalence classes witness *)

(** Every parent link relates two strings that [R] relates. *)
Definition uf_linked (R : string -> string -> Prop) (st : uf_state) : Prop :=
  forall x p, dict_get x (fst st) = Some p -> R x p.

(** The members of every group are related to the root of the group. *)
Definition groups_linked (R : string -> string -> Prop)
  (ec_groups : list (string * list string)) : Prop :=
  forall root members tc, In (root, members) ec_groups -> In tc members -> R tc root.

(** The two strings a stored detail unites. *)
Definition united (g : JoinGraph) (x y : string) : Prop :=
  exists d, In d (all_details g)
            /\ x = qualified (t1 d) (t1_col d) /\ y = qualified (t2 d) (t2_col d).

(** The equivalence the unions generate. *)
Definition same_class (g : JoinGraph) : string -> string -> Prop :=
  clos_refl_sym_trans string (united g).

(** All the details of a query before the closure: the asserted joins and
    the constant-equality joins name relations made of word characters. *)
Definition word_joins (joins : list JoinCondition) : Prop :=
  Forall (fun jc => word (left_table jc) /\ word (right_table jc)) joins.

Definition groups_word (groups : list (string * list ConstantValue)) : Prop :=
  forall k grp cv, In (k, grp) groups -> In cv grp -> word (cv_table cv).

(** *** Connected subsets *)

(** A subset listed so that every relation after the first shares an
    equivalence class with one listed before it (the list grows at its
    head). *)
Inductive buildable (g : JoinGraph) : list string -> Prop :=
| build_one x : buildable g [x]
| build_more y l x :
    buildable g l -> In x l -> are_in_same_ec g x y = true -> ~ In y l ->
    buildable g (y :: l).

(** The [k]-subsets of [ts] on which [is_connected] holds, in the order of
    [itertools.combinations]. *)
Definition connected_subsets (iter : list string -> list string) (g : JoinGraph)
  (ts : list string) (k : nat) : list (list string) :=
  filter (is_connected iter g) (combinations ts k).

(** *** Roots of the union-find forest *)

(** Following the parent links from [x] ends in the root [r]. *)
Inductive root_of (parent : list (string * string)) : string -> string -> Prop :=
| root_here r : dict_get r parent = Some r -> root_of parent r r
| root_up x p r :
    dict_get x parent = Some p -> p <> x -> root_of parent p r -> root_of parent x r.

Definition same_root (parent : list (string * string)) (x y : string) : Prop :=
  exists r, root_of parent x r /\ root_of parent y r.

(** Every parent is itself a node of the forest. *)
Definition closed_parents (parent : list (string * string)) : Prop :=
  forall x p, dict_get x parent = Some p -> dict_get p parent <> None.

Definition keeps_roots (parent parent' : list (string * string)) : Prop :=
  forall z r, root_of parent z r -> root_of parent' z r.

(** The members of every group have the key of the group as their root. *)
Definition groups_rooted (parent : list (string * string))
  (ec_groups : list (string * list string)) : Prop :=
  forall root members tc, In (root, members) ec_groups -> In tc members ->
                          root_of parent tc root.

(** A ["table.column"] string that some stored detail mentions. *)
Definition node (g : JoinGraph) (x : string) : Prop :=
  exists d, In d (all_details g)
            /\ (x = qualified (t1 d) (t1_col d) \/ x = qualified (t2 d) (t2_col d)).

(** *** Predicates of a subset *)

(** The tables of [p] recorded by the classifier all belong to [s]. *)
Definition within (c : PredicateClassifier) (s : list string) (p : string) : bool :=
  match dict_get p (predicate_tables c) with
  | Some pred_tables => issubset pred_tables (mk_set s)
  | None => false
  end.

(** The number of tables recorded for [p]. *)
Definition table_count (tables_of : list (string * list string)) (p : string) : nat :=
  match dict_get p tables_of with
  | Some pred_tables => List.length pred_tables
  | None => 0
  end.

(** A selection predicate of a relation of [tables] from whose text
    [_extract_single_constant_value] reads [cv]. *)
Definition constant_selection (c : PredicateClassifier) (tables : list string)
  (cv : ConstantValue) : Prop :=
  exists p t, In t tables /\ In p (all_predicates c)
              /\ dict_get p (predicate_tables c) = Some [t]
              /\ _extract_single_constant_value p = Some cv.

(** Every member of every group satisfies [P]. *)
Definition groups_all (P : ConstantValue -> Prop)
  (groups : list (string * list ConstantValue)) : Prop :=
  forall k grp cv, In (k, grp) groups -> In cv grp -> P cv.

(* ------------------------------------------------------------------ *)
(** ** parser.py: the functions that read the syntax tree

    The nodes of SQLglot as far as the code inspects them.  [isinstance]
    tells [And], [EQ] and [Column] apart from every other node; a column
    carries its [table] (empty when unqualified) and its [name]; any other
    node is [Other] with its kind and the nodes below it.  A table node
    carries its [name] and its [alias] (empty when absent). *)

Record TableNode := mkTableNode {
  tn_name : string;
  tn_alias : string
}.

#[warnings="-register-all"] Inductive Expression : Type :=
| And (l r : Expression)
| EQ (l r : Expression)
| Column (table name : string)
| Other (kind : string) (args : list Expression).

(** The name under which [_extract_tables] lists a table node. *)
Definition listed_as (table_node : TableNode) : string :=
  if truthy (tn_alias table_node) then tn_alias table_node else tn_name table_node.

(** [for table_node in ast.find_all(exp.Table): ...], over the table nodes
    in the order in which [find_all] yields them. *)
Fixpoint extract_tables_loop (nodes : list TableNode) (tables : list string)
  (aliases : list (string * string)) : list string * list (string * string) :=
  match nodes with
  | [] => (tables, aliases)
  | table_node :: nodes' =>
      let base_name := tn_name table_node in
      let alias := listed_as table_node in
      if negb (mem alias tables) then
        extract_tables_loop nodes' (tables ++ [alias]) (dict_set alias base_name aliases)
      else extract_tables_loop nodes' tables aliases
  end.

Definition _extract_tables (nodes : list TableNode)
  : list string * list (string * string) :=
  extract_tables_loop nodes [] [].

Fixpoint _split_where_conditions (expr : Expression) : list Expression :=
  match expr with
  | And l r => _split_where_conditions l ++ _split_where_conditions r
  | _ => [expr]
  end.

Definition _extract_join_condition_from_eq (eq_expr : Expression) : option JoinCondition :=
  match eq_expr with
  | EQ (Column left_table left_col) (Column right_table right_col) =>
      if truthy left_table && truthy right_table
         && negb (String.eqb left_table right_table)
      then Some (mkJoinCondition left_table left_col right_table right_col)
      else None
  | _ => None
  end.

Fixpoint _extract_join_conditions_from_expression (expr : Expression)
  : list JoinCondition :=
  match expr with
  | And l r =>
      _extract_join_conditions_from_expression l
      ++ _extract_join_conditions_from_expression r
  | EQ _ _ =>
      match _extract_join_condition_from_eq expr with
      | Some join_cond => [join_cond]
      | None => []
      end
  | _ => []
  end.

(** [condition.find_all(exp.Column)]: the columns at and below a node.  The
    code only collects their tables into a set, so the order in which they
    are yielded does not matter. *)
Fixpoint find_all_columns (e : Expression) : list (string * string) :=
  match e with
  | And l r => find_all_columns l ++ find_all_columns r
  | EQ l r => find_all_columns l ++ find_all_columns r
  | Column table name => [(table, name)]
  | Other _ args => flat_map find_all_columns args
  end.

(** [tables = set(); for col in ...: if col.table: tables.add(col.table)] *)
Definition condition_tables (condition : Expression) : list string :=
  fold_left (fun tables col => if truthy (fst col) then set_add (fst col) tables else tables)
            (find_all_columns condition) [].

Section Predicates.

(** [condition.sql()], the text SQLglot generates for a node. *)
Variable sql : Expression -> string.

(** [where_node] is [ast.find(exp.Where)], given by its [this]. *)
Definition _extract_predicates_from_where (where_node : option Expression)
  : list (string * list string) :=
  match where_node with
  | None => []
  | Some where_this =>
      map (fun condition => (sql condition, condition_tables condition))
          (_split_where_conditions where_this)
  end.

End Predicates.

(** The first table node listed as [a]. *)
Definition first_listed (a : string) (nodes : list TableNode) : option TableNode :=
  find (fun n => String.eqb (listed_as n) a) nodes.

(** The detail [add_join] stores for an asserted join condition. *)
Definition asserted_detail (jc : JoinCondition) : JoinDetail :=
  stored_detail (left_table jc) (right_table jc) (left_column jc) (right_column jc) true.

(** *** A query with quoted names that contain a dot

    [SELECT * FROM X, a, Y, t AS "a.b" WHERE X.p = a."b.c" AND Y.q = "a.b".c
    AND Y.k > 1]: the relation [t] is listed under its quoted alias [a.b],
    and the relation [a] has a column with the quoted name [b.c].  The
    query is given by what the front end inspects: its table nodes in the
    order of the FROM list, and the expression of its WHERE clause. *)

Definition dquote : string := String (ascii_of_nat 34) EmptyString.

Definition dotted_table_nodes : list TableNode :=
  [mkTableNode "X" ""; mkTableNode "a" ""; mkTableNode "Y" ""; mkTableNode "t" "a.b"].

Definition dotted_where : Expression :=
  And (And (EQ (Column "X" "p") (Column "a" "b.c"))
           (EQ (Column "Y" "q") (Column "a.b" "c")))
      (Other "GT" [Column "Y" "k"; Other "Literal" []]).

(** [condition.sql()] on the three conjuncts of [dotted_where]: SQLglot
    writes the names that need it between double quotes. *)
Definition dotted_sql (condition : Expression) : string :=
  match condition with
  | EQ (Column table _) _ =>
      if String.eqb table "X" then ("X.p = a." ++ dquote ++ "b.c" ++ dquote)%string
      else ("Y.q = " ++ dquote ++ "a.b" ++ dquote ++ ".c")%string
  | _ => "Y.k > 1"
  end.

(** The query as [parse_sql] receives it from [_extract_tables],
    [_extract_joins_from_ast] (the query has no JOIN clause, so its join
    conditions are those of the WHERE expression) and
    [_extract_predicates_from_where]. *)
Definition ast_dotted : QueryAst :=
  mkQueryAst (fst (_extract_tables dotted_table_nodes))
             (snd (_extract_tables dotted_table_nodes))
             (_extract_join_conditions_from_expression dotted_where)
             (_extract_predicates_from_where dotted_sql (Some dotted_where)).

Definition parsed_dotted : ParsedSQL := parsed_or_empty (parse_sql 100 ast_dotted).

(** *** Constant-value facts, in the words of the specification

    "A single-relation selection of the form [relation.col = constant] or
    [relation.col IN (constant)] (exactly one value, with outer quotes and
    trailing type-cast suffixes stripped) contributes a constant-value
    fact."  The definitions below follow this sentence, not the patterns of
    [_extract_single_constant_value]: the whole predicate has to be of one
    of the two forms. *)

(** The longest prefix of characters that satisfy [p], and the rest. *)
Fixpoint span (p : ascii -> bool) (l : list ascii) : list ascii * list ascii :=
  match l with
  | c :: l' => if p c then let (a, b) := span p l' in (c :: a, b) else ([], l)
  | [] => ([], [])
  end.

Definition is_quote (c : ascii) : bool := Nat.eqb (code c) 39.

Definition is_digit (c : ascii) : bool := between 48 57 c.

(** A constant written without quotes: a number (an optional sign, then
    digits with an optional decimal point) or one of the key words [TRUE]
    and [FALSE]. *)
Definition is_number (l : list ascii) : bool :=
  let unsigned (r : list ascii) :=
    let (whole, r1) := span is_digit r in
    match r1 with
    | [] => negb (Nat.eqb (List.length whole) 0)
    | c :: dec =>
        Nat.eqb (code c) 46 && forallb is_digit dec
        && negb (Nat.eqb (List.length whole + List.length dec) 0)
    end in
  match l with
  | c :: r => if Nat.eqb (code c) 43 || Nat.eqb (code c) 45 then unsigned r else unsigned l
  | [] => false
  end.

Definition is_boolean (l : list ascii) : bool :=
  let word := string_of_list_ascii (map lower l) in
  String.eqb word "true" || String.eqb word "false".

Definition bare_char (c : ascii) : bool :=
  is_word c || Nat.eqb (code c) 43 || Nat.eqb (code c) 45 || Nat.eqb (code c) 46.

(** A constant at the head of [l]: a text between single quotes, or a bare
    constant, with an optional type cast [::type] behind it.  The result is
    the constant without its outer quotes and its cast, and what follows
    it. *)
Definition spec_constant (l : list ascii) : option (string * list ascii) :=
  let after_cast (v rest : list ascii) :=
    match rest with
    | ":"%char :: ":"%char :: ty =>
        match span is_word ty with
        | (_ :: _, rest') => Some (string_of_list_ascii v, rest')
        | ([], _) => None
        end
    | _ => Some (string_of_list_ascii v, rest)
    end in
  match l with
  | [] => None
  | c :: body =>
      if is_quote c then
        match span (fun x => negb (is_quote x)) body with
        | (v, _ :: rest) => after_cast v rest
        | (_, []) => None
        end
      else
        let (v, rest) := span bare_char l in
        if is_number v || is_boolean v then after_cast v rest else None
  end.

(** The fact a predicate text states, if it is of one of the two forms. *)
Definition spec_constant_fact (text : string) : option ConstantValue :=
  let (relation, l1) := span is_word (lstrip (list_ascii_of_string text)) in
  match relation, l1 with
  | _ :: _, "."%char :: l2 =>
      let (col, l3) := span is_word l2 in
      let fact (v : string) :=
        mkConstantValue (string_of_list_ascii relation) (string_of_list_ascii col) v in
      match col, lstrip l3 with
      | _ :: _, "="%char :: l4 =>
          match spec_constant (lstrip l4) with
          | Some (v, rest) =>
              match lstrip rest with
              | [] => Some (fact v)
              | _ :: _ => None
              end
          | None => None
          end
      | _ :: _, i :: n :: l4 =>
          if Ascii.eqb (lower i) "i" && Ascii.eqb (lower n) "n"
             && negb (Nat.eqb (List.length (lstrip l3)) (List.length l3))
          then
            match lstrip l4 with
            | "("%char :: l5 =>
                match spec_constant (lstrip l5) with
                | Some (v, rest) =>
                    match lstrip rest with
                    | ")"%char :: l6 =>
                        match lstrip l6 with
                        | [] => Some (fact v)
                        | _ :: _ => None
                        end
                    | _ => None
                    end
                | None => None
                end
            | _ => None
            end
          else None
      | _, _ => None
      end
  | _, _ => None
  end.

(** The constant-value facts of a query, given by the predicates of its
    WHERE clause with their table sets: the facts stated by the selections
    over one relation, about a column of that relation. *)
Definition spec_constant_facts (predicates : list (string * list string))
  : list ConstantValue :=
  flat_map
    (fun pt =>
       match mk_set (snd pt), spec_constant_fact (fst pt) with
       | [relation], Some cv => if String.eqb (cv_table cv) relation then [cv] else []
       | _, _ => []
       end)
    predicates.

(** The first fact about a column, and the class of a term in the theory of
    a list of facts without equi-joins: a column with a fact stands for its
    constant, any other term for itself. *)
Definition fact_for (facts : list ConstantValue) (t c : string) : option ConstantValue :=
  find (fun cv => String.eqb (cv_table cv) t && String.eqb (cv_column cv) c) facts.

Definition constant_class (facts : list ConstantValue) (u : term) : term :=
  match u with
  | Col t c =>
      match fact_for facts t c with
      | Some cv => Const (cv_value cv)
      | None => u
      end
  | Const _ => u
  end.

(** No column has two facts with different values. *)
Definition single_valued (facts : list ConstantValue) : Prop :=
  forall cv cv',
    In cv facts -> In cv' facts ->
    cv_table cv = cv_table cv' -> cv_column cv = cv_column cv' ->
    cv_value cv = cv_value cv'.

(** *** Two queries whose selections are misread

    [SELECT * FROM A, B WHERE A.c = 'sand or gravel' AND B.c = 'sand or
    silt'] and [SELECT * FROM A, B WHERE NOT A.y = 2 AND NOT B.y = 2], given
    by their table nodes and the expressions of their WHERE clauses. *)

Definition two_table_nodes : list TableNode :=
  [mkTableNode "A" ""; mkTableNode "B" ""].

Definition sand_where : Expression :=
  And (EQ (Column "A" "c") (Other "Literal" []))
      (EQ (Column "B" "c") (Other "Literal" [])).

Definition sand_sql (condition : Expression) : string :=
  match condition with
  | EQ (Column table _) _ =>
      if String.eqb table "A" then "A.c = 'sand or gravel'" else "B.c = 'sand or silt'"
  | _ => ""
  end.

Definition negated_where : Expression :=
  And (Other "Not" [EQ (Column "A" "y") (Other "Literal" [])])
      (Other "Not" [EQ (Column "B" "y") (Other "Literal" [])]).

Definition negated_sql (condition : Expression) : string :=
  match condition with
  | Other _ [EQ (Column table _) _] =>
      if String.eqb table "A" then "NOT A.y = 2" else "NOT B.y = 2"
  | _ => ""
  end.

Definition ast_sand : QueryAst :=
  mkQueryAst (fst (_extract_tables two_table_nodes))
             (snd (_extract_tables two_table_nodes))
             (_extract_join_conditions_from_expression sand_where)
             (_extract_predicates_from_where sand_sql (Some sand_where)).

Definition ast_negated : QueryAst :=
  mkQueryAst (fst (_extract_tables two_table_nodes))
             (snd (_extract_tables two_table_nodes))
             (_extract_join_conditions_from_expression negated_where)
             (_extract_predicates_from_where negated_sql (Some negated_where)).

Definition parsed_sand : ParsedSQL := parsed_or_empty (parse_sql 100 ast_sand).
Definition parsed_negated : ParsedSQL := parsed_or_empty (parse_sql 100 ast_negated).

(** *** The text of a rendered query *)





(* ------------------------------------------------------------------ *)
(** * Properties *)

(** ** Sorting and sets *)

Lemma insert_sorted_perm (A : Type) (le : A -> A -> bool) (x : A) (l : list A) :
  Permutation (insert_sorted le x l) (x :: l).
Proof.
  induction l as [|y l IH]; simpl.
  - apply Permutation_refl.
  - destruct (le x y).
    + apply Permutation_refl.
    + apply perm_trans with (y :: x :: l).
      * apply perm_skip; exact IH.
      * apply perm_swap.
Qed.

Lemma sorted_by_perm (A : Type) (le : A -> A -> bool) (l : list A) :
  Permutation (sorted_by le l) l.
Proof.
  induction l as [|x l IH]; simpl.
  - apply Permutation_refl.
  - eapply perm_trans; [apply insert_sorted_perm | apply perm_skip; exact IH].
Qed.

Lemma sorted_in (x : string) (l : list string) : In x (sorted l) <-> In x l.
Proof.
  split; apply Permutation_in;
    [apply sorted_by_perm | apply Permutation_sym, sorted_by_perm].
Qed.

Lemma sorted_length (l : list string) : List.length (sorted l) = List.length l.
Proof. apply Permutation_length, sorted_by_perm. Qed.

Lemma mem_in (x : string) (s : list string) : mem x s = true <-> In x s.
Proof.
  unfold mem; rewrite existsb_exists; split.
  - intros [y [Hy He]]; apply String.eqb_eq in He; subst; exact Hy.
  - intros H; exists x; split; [exact H | apply String.eqb_refl].
Qed.

Lemma mem_false (x : string) (s : list string) : mem x s = false <-> ~ In x s.
Proof.
  rewrite <- mem_in; destruct (mem x s); split; congruence.
Qed.

Lemma dedup_in (x : string) (l : list string) : In x (dedup l) <-> In x l.
Proof.
  induction l as [|y l IH]; simpl; [tauto|].
  rewrite filter_In, IH.
  destruct (String.eqb_spec y x) as [->|Hn]; simpl.
  - split; [intros [H|[H _]]; auto | auto].
  - split; [intros [H|[H _]]; auto | intros [H|H]; auto].
Qed.

Lemma dedup_nodup (l : list string) : NoDup (dedup l).
Proof.
  induction l as [|y l IH]; simpl; constructor.
  - rewrite filter_In; intros [_ H].
    rewrite String.eqb_refl in H; discriminate.
  - apply NoDup_filter; exact IH.
Qed.

Lemma dedup_length (l : list string) : List.length (dedup l) <= List.length l.
Proof.
  induction l as [|y l IH]; simpl; [lia|].
  pose proof (filter_length_le (fun y0 => negb (String.eqb y y0)) (dedup l)); lia.
Qed.

Lemma mk_set_in (x : string) (l : list string) : In x (mk_set l) <-> In x l.
Proof. unfold mk_set; rewrite sorted_in; apply dedup_in. Qed.

Lemma mk_set_nodup (l : list string) : NoDup (mk_set l).
Proof.
  unfold mk_set.
  eapply Permutation_NoDup; [apply Permutation_sym, sorted_by_perm | apply dedup_nodup].
Qed.

Lemma mk_set_length (l : list string) : List.length (mk_set l) <= List.length l.
Proof. unfold mk_set; rewrite sorted_length; apply dedup_length. Qed.

Lemma set_add_in (x y : string) (s : list string) :
  In y (set_add x s) <-> y = x \/ In y s.
Proof.
  unfold set_add; destruct (mem x s) eqn:Hm.
  - apply mem_in in Hm; split; [auto | intros [->|H]; auto].
  - split; intros H.
    + apply (Permutation_in _ (insert_sorted_perm String.leb x s)) in H.
      destruct H; auto.
    + apply (Permutation_in _ (Permutation_sym (insert_sorted_perm String.leb x s))).
      destruct H; [left; auto | right; auto].
Qed.

Lemma set_remove_in (x y : string) (s : list string) :
  In y (set_remove x s) <-> In y s /\ y <> x.
Proof.
  unfold set_remove; rewrite filter_In.
  destruct (String.eqb_spec x y) as [->|Hn]; simpl; split; intros [H1 H2];
    try discriminate; try tauto; split; auto.
Qed.

Lemma first_some_in (A B : Type) (f : A -> option B) (l : list A) (y : B) :
  first_some f l = Some y -> exists x, In x l /\ f x = Some y.
Proof.
  induction l as [|x l IH]; simpl; [discriminate|].
  destruct (f x) eqn:Hf.
  - intros H; inversion H; subst; exists x; auto.
  - intros H; destruct (IH H) as [x' [Hi Hx]]; exists x'; auto.
Qed.

Lemma first_some_none (A B : Type) (f : A -> option B) (l : list A) :
  first_some f l = None -> forall x, In x l -> f x = None.
Proof.
  induction l as [|x l IH]; simpl; [tauto|].
  destruct (f x) eqn:Hf; [discriminate|].
  intros H y [<-|Hy]; auto.
Qed.

(** ** The order on strings *)

Lemma ascii_compare_refl (a : ascii) : Ascii.compare a a = Eq.
Proof. unfold Ascii.compare; apply N.compare_refl. Qed.

Lemma string_compare_refl (s : string) : String.compare s s = Eq.
Proof.
  induction s as [|a s IH]; simpl; [reflexivity|].
  rewrite ascii_compare_refl; exact IH.
Qed.

Lemma string_compare_lt_trans (a b c : string) :
  String.compare a b = Lt -> String.compare b c = Lt -> String.compare a c = Lt.
Proof.
  revert b c; induction a as [|x a IH]; intros [|y b] [|z c]; simpl;
    try discriminate; try reflexivity.
  destruct (Ascii.compare x y) eqn:Hxy; try discriminate;
    destruct (Ascii.compare y z) eqn:Hyz; try discriminate; intros H1 H2.
  - apply Ascii.compare_eq_iff in Hxy, Hyz; subst.
    rewrite ascii_compare_refl; eapply IH; eassumption.
  - apply Ascii.compare_eq_iff in Hxy; subst; rewrite Hyz; reflexivity.
  - apply Ascii.compare_eq_iff in Hyz; subst; rewrite Hxy; reflexivity.
  - unfold Ascii.compare in *.
    rewrite N.compare_lt_iff in Hxy, Hyz.
    assert (H : (N_of_ascii x ?= N_of_ascii z)%N = Lt)
      by (apply N.compare_lt_iff; eapply N.lt_trans; eassumption).
    rewrite H; reflexivity.
Qed.

Lemma leb_refl (a : string) : String.leb a a = true.
Proof. unfold String.leb; rewrite string_compare_refl; reflexivity. Qed.

Lemma leb_trans (a b c : string) :
  String.leb a b = true -> String.leb b c = true -> String.leb a c = true.
Proof.
  unfold String.leb.
  destruct (String.compare a b) eqn:Hab; try discriminate;
    destruct (String.compare b c) eqn:Hbc; try discriminate; intros _ _.
  - apply String.compare_eq_iff in Hab, Hbc; subst.
    rewrite string_compare_refl; reflexivity.
  - apply String.compare_eq_iff in Hab; subst; rewrite Hbc; reflexivity.
  - apply String.compare_eq_iff in Hbc; subst; rewrite Hab; reflexivity.
  - rewrite (string_compare_lt_trans _ _ _ Hab Hbc); reflexivity.
Qed.

Lemma leb_false_flip (a b : string) : String.leb a b = false -> String.leb b a = true.
Proof.
  intros H; destruct (String.leb_total a b) as [H'|H']; [congruence | exact H'].
Qed.

Lemma insert_sorted_ascending (x : string) (l : list string) :
  ascending l -> ascending (insert_sorted String.leb x l).
Proof.
  unfold ascending; induction l as [|y l IH]; simpl; intros Hs.
  - constructor; constructor.
  - inversion Hs as [|? ? Hl Hy]; subst.
    destruct (String.leb x y) eqn:Hxy.
    + constructor; [exact Hs|].
      constructor; [exact Hxy|].
      eapply Forall_impl; [|exact Hy].
      intros z Hz; eapply leb_trans; eassumption.
    + constructor; [apply IH; exact Hl|].
      apply Forall_forall; intros z Hz.
      apply (Permutation_in _ (insert_sorted_perm String.leb x l)) in Hz.
      destruct Hz as [<-|Hz].
      * apply leb_false_flip; exact Hxy.
      * rewrite Forall_forall in Hy; apply Hy; exact Hz.
Qed.

Lemma sorted_ascending (l : list string) : ascending (sorted l).
Proof.
  induction l as [|x l IH]; simpl.
  - constructor.
  - apply insert_sorted_ascending; exact IH.
Qed.

Lemma sorted_fixed (l : list string) : ascending l -> sorted l = l.
Proof.
  induction l as [|x l IH]; intros Hs; [reflexivity|].
  inversion Hs as [|? ? Hl Hx]; subst.
  change (insert_sorted String.leb x (sorted l) = x :: l).
  rewrite (IH Hl).
  destruct l as [|y l]; simpl; [reflexivity|].
  inversion Hx as [|? ? Hxy _]; subst; rewrite Hxy; reflexivity.
Qed.

Lemma sorted_idempotent (l : list string) : sorted (sorted l) = sorted l.
Proof. apply sorted_fixed, sorted_ascending. Qed.

Lemma sorted_head_least (l : list string) (first : string) (rest : list string) :
  sorted l = first :: rest -> forall x, In x l -> String.leb first x = true.
Proof.
  intros Hs x Hx.
  pose proof (sorted_ascending l) as Ha; rewrite Hs in Ha.
  apply sorted_in in Hx; rewrite Hs in Hx.
  inversion Ha as [|? ? _ Hf]; subst.
  destruct Hx as [<-|Hx]; [apply leb_refl|].
  rewrite Forall_forall in Hf; apply Hf; exact Hx.
Qed.

Lemma ascending_filter (f : string -> bool) (l : list string) :
  ascending l -> ascending (filter f l).
Proof.
  unfold ascending; induction 1 as [|x l Hl IH Hx]; simpl; [constructor|].
  destruct (f x); [|exact IH].
  constructor; [exact IH|].
  apply Forall_forall; intros y Hy; apply filter_In in Hy.
  rewrite Forall_forall in Hx; apply Hx; tauto.
Qed.

(** ** Text *)

Lemma starts_with_append (p r : string) : starts_with p (p ++ r).
Proof.
  unfold starts_with; induction p as [|a p IH]; simpl.
  - destruct r; reflexivity.
  - destruct (ascii_dec a a) as [_|Hn]; [exact IH | congruence].
Qed.

Lemma starts_with_split (p q : string) :
  starts_with p q -> exists r, q = (p ++ r)%string.
Proof.
  unfold starts_with; revert q; induction p as [|a p IH]; intros q H.
  - exists q; reflexivity.
  - destruct q as [|b q]; simpl in H; [discriminate|].
    destruct (ascii_dec a b) as [->|]; [|discriminate].
    destruct (IH q H) as [r ->]; exists r; reflexivity.
Qed.

Lemma append_assoc (a b c : string) : ((a ++ b) ++ c = a ++ (b ++ c))%string.
Proof. induction a as [|x a IH]; simpl; [reflexivity | rewrite IH; reflexivity]. Qed.

Lemma starts_with_append2 (a b c : string) : starts_with (a ++ b) (a ++ b ++ c).
Proof. rewrite <- append_assoc; apply starts_with_append. Qed.

Lemma starts_with_trans (p q r : string) :
  starts_with p q -> starts_with q r -> starts_with p r.
Proof.
  intros H1 H2.
  destruct (starts_with_split H1) as [u ->].
  destruct (starts_with_split H2) as [v ->].
  rewrite append_assoc; apply starts_with_append.
Qed.

Lemma starts_with_refl (p : string) : starts_with p p.
Proof.
  unfold starts_with; induction p as [|a p IH]; simpl; [reflexivity|].
  destruct (ascii_dec a a); [exact IH | congruence].
Qed.

(** ** The renderer *)

Section RendererFacts.

Variable iter : list string -> list string.
Variable alias_map : list (string * string).
Variable cls : PredicateClassifier.
Variable g : JoinGraph.

Local Abbreviation find_next := (_find_next_table_for_join_tree iter g).
Local Abbreviation step := (join_step iter alias_map g).
Local Abbreviation loop := (join_loop iter alias_map g).

(** What [_find_next_table_for_join_tree] returns: a remaining table, and
    a predicate found between it and a table of the tree. *)
Lemma find_next_sound (added remaining : list string) (nt : NextTable) :
  find_next added remaining = Some nt ->
  In (nt_table nt) remaining
  /\ exists a pred,
      In a (iter added) /\ nt_join_pred nt = Some pred
      /\ In pred (_find_join_predicates g [a] [nt_table nt]).
Proof.
  unfold _find_next_table_for_join_tree.
  match goal with |- match ?e with _ => _ end = _ -> _ => destruct e eqn:H1 end.
  - intros H; inversion H; subst; clear H.
    apply first_some_in in H1; destruct H1 as [table [Ht H1]].
    apply first_some_in in H1; destruct H1 as [a [Ha H1]].
    apply first_some_in in H1; destruct H1 as [pred [Hp H1]].
    destruct (jp_is_original pred); [|discriminate].
    inversion H1; subst; simpl.
    split; [apply sorted_in; exact Ht|].
    exists a, pred; auto.
  - intros H2.
    apply first_some_in in H2; destruct H2 as [table [Ht H2]].
    apply first_some_in in H2; destruct H2 as [a [Ha H2]].
    destruct (_find_join_predicates g [a] [table]) as [|pred ps] eqn:Hp; [discriminate|].
    inversion H2; subst; simpl.
    split; [apply sorted_in; exact Ht|].
    exists a, pred; rewrite Hp; simpl; auto.
Qed.

(** It finds a table as soon as some remaining table has a predicate with
    some table of the tree. *)
Lemma find_next_complete (added remaining : list string) (a table : string) :
  In a (iter added) -> In table remaining ->
  _find_join_predicates g [a] [table] <> [] ->
  find_next added remaining <> None.
Proof.
  intros Ha Ht Hp; unfold _find_next_table_for_join_tree.
  match goal with |- match ?e with _ => _ end <> _ => destruct e eqn:H1 end;
    [discriminate|].
  intros H2.
  assert (H3 := first_some_none _ _ H2 table (proj2 (sorted_in table remaining) Ht)).
  simpl in H3; apply (first_some_none _ _ H3) in Ha.
  destruct (_find_join_predicates g [a] [table]); [congruence | discriminate].
Qed.

Lemma step_from_clause (jt jt' : join_tree) :
  step jt = Some jt' -> starts_with (from_clause jt) (from_clause jt').
Proof.
  unfold join_step.
  destruct (remaining_tables jt); [discriminate|].
  destruct (find_next _ _) as [nt|]; [|discriminate].
  destruct (nt_join_pred nt); intros H; inversion H; subst; simpl.
  - rewrite !append_assoc; apply starts_with_append.
  - apply starts_with_append.
Qed.

Lemma loop_from_clause (n : nat) (jt : join_tree) :
  starts_with (from_clause jt) (from_clause (loop n jt)).
Proof.
  revert jt; induction n as [|n IH]; intros jt; simpl.
  - apply starts_with_refl.
  - destruct (step jt) as [jt'|] eqn:Hs; [|apply starts_with_refl].
    eapply starts_with_trans; [apply (step_from_clause _ Hs) | apply IH].
Qed.

Lemma build_join_tree_from (first : string) (rest : list string) :
  starts_with (_render_table alias_map first)
              (from_clause (build_join_tree iter alias_map g first rest)).
Proof. unfold build_join_tree; apply (loop_from_clause _ (mkJoinTree _ _ _ _)). Qed.

(** The text of a multi-relation query. *)
Lemma join_query_text (s : list string) (l r : option (list string)) (q : string) :
  _generate_join_query iter alias_map cls g s l r = Some q ->
  exists first rest tail,
    sorted s = first :: rest
    /\ q = ("SELECT * FROM "
            ++ from_clause (build_join_tree iter alias_map g first rest) ++ tail)%string.
Proof.
  unfold _generate_join_query.
  destruct (sorted s) as [|first rest]; [discriminate|].
  destruct (_build_where_clause _ _ _) as [w|]; [|discriminate].
  destruct (truthy w); intros H; inversion H; subst; exists first, rest;
    eexists; (split; [reflexivity|]); rewrite ?append_assoc; reflexivity.
Qed.

End RendererFacts.

(** ** Rendered text (claims C10 and C1) *)

(** C10. The rendered SQL does not depend on the decomposition witness:
    [generate_subquery] returns the same text whatever [left] and [right]
    are, and a multi-relation query is seeded at the lexicographically
    smallest alias of the subset. *)
Theorem generate_subquery_ignores_witness
  (iter : list string -> list string) (alias_map : list (string * string))
  (cls : PredicateClassifier) (g : JoinGraph) (s : list string)
  (l r l' r' : option (list string)) :
  generate_subquery iter alias_map cls g s l r
  = generate_subquery iter alias_map cls g s l' r'
  /\ (forall q first rest,
        sorted s = first :: rest ->
        List.length s <> 1 ->
        generate_subquery iter alias_map cls g s l r = Some q ->
        (forall x, In x s -> String.leb first x = true)
        /\ starts_with ("SELECT * FROM " ++ _render_table alias_map first) q).
Proof.
  split; [reflexivity|].
  intros q first rest Hs Hlen Hq; split.
  - eapply sorted_head_least; exact Hs.
  - unfold generate_subquery in Hq.
    destruct (Nat.eqb_spec (List.length s) 1) as [E|_]; [contradiction|].
    apply join_query_text in Hq.
    destruct Hq as [first' [rest' [tail [Hs' ->]]]].
    rewrite Hs in Hs'; inversion Hs'; subst first' rest'.
    destruct (starts_with_split (build_join_tree_from iter alias_map g first rest))
      as [u ->].
    rewrite !append_assoc.
    rewrite <- (append_assoc "SELECT * FROM " (_render_table alias_map first)).
    apply starts_with_append.
Qed.

Lemma generate_subquery_ignores_witness_witness :
  render iter_ascending parsed_triangle ["A"; "B"; "C"] (Some ["A"]) (Some ["B"; "C"])
  = render iter_ascending parsed_triangle ["A"; "B"; "C"] (Some ["A"; "B"]) (Some ["C"])
  /\ starts_with "SELECT * FROM A"
       (match render iter_ascending parsed_triangle ["A"; "B"; "C"]
                     (Some ["A"]) (Some ["B"; "C"]) with
        | Some q => q
        | None => ""
        end).
Proof.
  destruct (generate_subquery_ignores_witness iter_ascending (aliases parsed_triangle)
              (classifier parsed_triangle) (join_graph parsed_triangle)
              ["A"; "B"; "C"] (Some ["A"]) (Some ["B"; "C"]) (Some ["A"; "B"]) (Some ["C"]))
    as [H1 H2].
  split; [exact H1|].
  eapply (H2 _ "A" ["B"; "C"]); [reflexivity | simpl; lia | vm_compute; reflexivity].
Defined.

Lemma singleton_iter (iter : list string -> list string) (s : list string) :
  (forall x, Permutation (iter x) x) -> List.length s = 1 ->
  exists table, s = [table] /\ iter s = [table].
Proof.
  intros Hp Hl.
  destruct s as [|table [|y s]]; simpl in Hl; try lia.
  exists table; split; [reflexivity|].
  apply Permutation_length_1_inv, Permutation_sym, Hp.
Qed.


(** ** Residual predicates (claim C5) *)

Section ResidualPredicates.

Variable iter : list string -> list string.
Variable alias_map : list (string * string).
Variable g : JoinGraph.
Hypothesis iter_perm : forall x, Permutation (iter x) x.

Lemma find_join_predicates_in (a b : string) (pred : JoinPredicate) :
  In pred (_find_join_predicates g [a] [b]) <->
  exists d, In d (details_at g (edge_key a b)) /\ pred = detail_predicate d.
Proof.
  unfold _find_join_predicates, details_at; simpl; rewrite !app_nil_r.
  split.
  - intros H; apply (Permutation_in _ (sorted_by_perm pred_le _)) in H.
    destruct (dict_get (edge_key a b) (join_details g)) as [ds|]; [|destruct H].
    apply in_map_iff in H; destruct H as [d [Hd Hi]]; exists d; auto.
  - intros [d [Hd ->]].
    apply (Permutation_in _ (Permutation_sym (sorted_by_perm pred_le _))).
    destruct (dict_get (edge_key a b) (join_details g)) as [ds|]; [|destruct Hd].
    apply in_map; exact Hd.
Qed.

End ResidualPredicates.


(** ** Iteration order of sets (claim C2) *)

(** C2 fails on the code.  The renderer iterates the set [added_tables]
    in the order CPython happens to yield it; for the admitted subset
    {A, B, C} of the triangle query the two orders of {A, B} give two
    different texts, and so two different output rows of [process_query]. *)
Theorem rendered_sql_depends_on_set_order :
  parse_sql 100 ast_triangle = Some parsed_triangle
  /\ all_plans (driver_enumerate iter_ascending parsed_triangle 20)
     = all_plans (driver_enumerate iter_descending parsed_triangle 20)
  /\ In (mkEnumerationPlan ["A"; "B"; "C"] (Some ["A"]) (Some ["B"; "C"]) "")
        (all_plans (driver_enumerate iter_ascending parsed_triangle 20))
  /\ option_map replace_newlines
       (render iter_ascending parsed_triangle ["A"; "B"; "C"] (Some ["A"]) (Some ["B"; "C"]))
     = Some "SELECT * FROM A JOIN B ON A.x = B.y JOIN C ON A.p = C.q WHERE B.r = C.s;"
  /\ option_map replace_newlines
       (render iter_descending parsed_triangle ["A"; "B"; "C"] (Some ["A"]) (Some ["B"; "C"]))
     = Some "SELECT * FROM A JOIN B ON A.x = B.y JOIN C ON B.r = C.s WHERE A.p = C.q;"
  /\ process_query iter_ascending 100 ast_triangle 1 20
     <> process_query iter_descending 100 ast_triangle 1 20.
Proof.
  split; [vm_compute; reflexivity|].
  split; [vm_compute; reflexivity|].
  split; [vm_compute; tauto|].
  split; [vm_compute; reflexivity|].
  split; [vm_compute; reflexivity|].
  vm_compute; discriminate.
Qed.

Lemma iter_descending_perm (s : list string) : Permutation (iter_descending s) s.
Proof. apply Permutation_sym, Permutation_rev. Qed.

(** ** Self-edges (claim C8) *)

(** C8 fails on the code.  Two constant-value facts on the same column of
    the same relation form a ["column:value"] group of size two, and
    [_detect_constant_equality_joins] pairs its members without comparing
    their tables: the build phase stores the detail [t.s = t.s]. *)
Theorem constant_equality_self_edge :
  exists parsed,
    parse_sql 100 ast_same_table = Some parsed
    /\ all_details (join_graph parsed) = [mkJoinDetail "t" "s" "t" "s" false]
    /\ exists d, In d (all_details (join_graph parsed)) /\ t1 d = t2 d.
Proof.
  eexists; split; [vm_compute; reflexivity|].
  split; [vm_compute; reflexivity|].
  eexists; split; [vm_compute; left; reflexivity | reflexivity].
Qed.

(** ** Constant values (claim C7) *)

(** C7 fails on the code.  [_normalize_value] removes a closing quote only
    at the very end of the value, before the type cast is removed: on the
    input of the repository's own test the value keeps its closing quote. *)
Theorem type_cast_keeps_closing_quote :
  _extract_single_constant_value "t2.date = '2024-01-01'::timestamp"
  = Some (mkConstantValue "t2" "date" "2024-01-01'")
  /\ _normalize_value "'2024-01-01'::timestamp" = "2024-01-01'"
  /\ _normalize_value "'2024-01-01'::timestamp" <> "2024-01-01".
Proof.
  split; [vm_compute; reflexivity|].
  split; [vm_compute; reflexivity|].
  vm_compute; discriminate.
Qed.

(** The other inputs of the repository's tests behave as the tests say. *)
Example extract_single_constant_value_tests :
  map _extract_single_constant_value
      ["t1.status = 'active'"; "t3.id = 123"; "t1.kind IN ('tv series')";
       "t2.status IN ( 'active' )"; "t1.status IN ('active', 'pending')";
       "t2.type IN ('a', 'b', 'c')"; "t1.value > 10"; "t2.value <= 100";
       "t3.name LIKE 'abc%'"; "t4.col IS NULL"]
  = [Some (mkConstantValue "t1" "status" "active");
     Some (mkConstantValue "t3" "id" "123");
     Some (mkConstantValue "t1" "kind" "tv series");
     Some (mkConstantValue "t2" "status" "active");
     None; None; None; None; None; None].
Proof. vm_compute; reflexivity. Qed.

(** A pattern-match test and a disjunction whose text contains
    [name.name = ...] contribute a constant value all the same. *)
Example extract_single_constant_value_searches :
  map _extract_single_constant_value
      ["t3.name LIKE 'a.b=c'"; "a.x > 1 OR a.y = 2"; "t.c IN ('a,b')"]
  = [Some (mkConstantValue "a" "b" "c");
     Some (mkConstantValue "a" "y" "2");
     None].
Proof. vm_compute; reflexivity. Qed.

(** ** Levels of the enumeration (claim C9) *)

Lemma combinations_length (A : Type) (l : list A) (k : nat) (c : list A) :
  In c (combinations l k) -> List.length c = k.
Proof.
  revert k c; induction l as [|x l IH]; intros [|k] c; simpl.
  - intros [<-|[]]; reflexivity.
  - intros [].
  - intros [<-|[]]; reflexivity.
  - rewrite in_app_iff, in_map_iff; intros [[c' [<- Hc]]|Hc].
    + simpl; f_equal; apply IH; exact Hc.
    + apply IH; exact Hc.
Qed.

Lemma combinations_incl (A : Type) (l : list A) (k : nat) (c : list A) :
  In c (combinations l k) -> incl c l.
Proof.
  revert k c; induction l as [|x l IH]; intros [|k] c; simpl.
  - intros [<-|[]]; apply incl_nil_l.
  - intros [].
  - intros [<-|[]]; apply incl_nil_l.
  - rewrite in_app_iff, in_map_iff; intros [[c' [<- Hc]]|Hc].
    + apply incl_cons; [left; reflexivity | apply incl_tl; eapply IH; exact Hc].
    + apply incl_tl; eapply IH; exact Hc.
Qed.

Lemma mk_set_nonempty (l : list string) : l <> [] -> mk_set l <> [].
Proof.
  destruct l as [|x l]; [congruence|]; intros _ H.
  assert (Hi : In x (mk_set (x :: l))) by (apply mk_set_in; left; reflexivity).
  rewrite H in Hi; destruct Hi.
Qed.

Section Levels.

Variable iter : list string -> list string.
Variable g : JoinGraph.

Lemma add_subset_sized (bound : nat) (st : enum_state) (s : list string)
  (l r : option (list string)) :
  Forall (sized bound) (plans st) -> 1 <= List.length s <= bound ->
  Forall (sized bound) (plans (_add_subset st s l r)).
Proof.
  intros Hf Hs; unfold _add_subset; simpl.
  apply Forall_app; split; [exact Hf|].
  constructor; [exact Hs | constructor].
Qed.

Lemma enumerate_candidate_sized (bound level : nat) (acc : enum_state * nat)
  (c : list string) :
  1 <= level <= bound -> List.length c = level ->
  Forall (sized bound) (plans (fst acc)) ->
  Forall (sized bound) (plans (fst (enumerate_candidate iter g level acc c))).
Proof.
  intros Hl Hc Hf; unfold enumerate_candidate.
  assert (Hs : 1 <= List.length (mk_set c) <= bound).
  { pose proof (mk_set_length c).
    assert (mk_set c <> []) by (apply mk_set_nonempty; destruct c; simpl in *; [lia|congruence]).
    destruct (mk_set c); simpl in *; [congruence | lia]. }
  destruct (negb (is_connected iter g (mk_set c))); [exact Hf|].
  destruct (Nat.eqb level 1); [apply add_subset_sized; assumption|].
  destruct (_find_valid_decomposition iter g _ _); [|exact Hf].
  apply add_subset_sized; assumption.
Qed.

Lemma enumerate_level_sized (bound level : nat) (st : enum_state) (ts : list string) :
  1 <= level <= bound ->
  Forall (sized bound) (plans st) ->
  Forall (sized bound) (plans (fst (_enumerate_level iter g st level ts))).
Proof.
  intros Hl; unfold _enumerate_level.
  assert (Hc : forall c, In c (combinations ts level) -> List.length c = level)
    by (intros c; apply combinations_length).
  revert Hc; generalize (combinations ts level) as cs.
  generalize 0 as n; intros n cs; revert st n.
  induction cs as [|c cs IH]; intros st n Hc Hf; simpl; [exact Hf|].
  destruct (enumerate_candidate iter g level (st, n) c) as [st' n'] eqn:He.
  apply IH; [intros c' Hc'; apply Hc; right; exact Hc'|].
  change st' with (fst (st', n')); rewrite <- He.
  apply enumerate_candidate_sized; auto.
  apply Hc; left; reflexivity.
Qed.

Lemma enumerate_levels_spec (bound : nat) (ts : list string) (levels : list nat)
  (acc : enum_state * list (nat * nat)) :
  Forall (fun level => 1 <= level <= bound) levels ->
  Forall (sized bound) (plans (fst acc)) ->
  let r := fold_left
             (fun (acc : enum_state * list (nat * nat)) level =>
                let r := _enumerate_level iter g (fst acc) level ts in
                (fst r, snd acc ++ [(level, snd r)]))
             levels acc in
  map fst (snd r) = map fst (snd acc) ++ levels
  /\ Forall (sized bound) (plans (fst r)).
Proof.
  revert acc; induction levels as [|level levels IH]; intros acc Hl Hf; simpl.
  - rewrite app_nil_r; auto.
  - inversion Hl as [|? ? Hlevel Hrest]; subst.
    match goal with |- context [fold_left ?f levels ?a] =>
      specialize (IH a Hrest) end.
    simpl in IH.
    destruct IH as [IH1 IH2]; [apply enumerate_level_sized; assumption|].
    split; [|exact IH2].
    rewrite IH1, map_app, <- app_assoc; reflexivity.
Qed.

(** The levels run and the sizes of the plans of [enumerate_subsets]. *)
Lemma enumerate_subsets_levels (ts : list string) (max_level : Z) :
  map fst (counts (enumerate_subsets iter g ts max_level))
  = level_range (List.length ts) max_level
  /\ forall plan,
      In plan (all_plans (enumerate_subsets iter g ts max_level)) ->
      1 <= List.length (subset plan)
      <= Z.to_nat (Z.min max_level (Z.of_nat (List.length ts))).
Proof.
  unfold enumerate_subsets, enumerate_levels; simpl.
  rewrite sorted_length.
  set (bound := Z.to_nat (Z.min max_level (Z.of_nat (List.length ts)))).
  destruct (@enumerate_levels_spec bound (sorted ts)
              (level_range (List.length ts) max_level) (mkEnumState [] [], []))
    as [H1 H2].
  - unfold level_range; fold bound.
    apply Forall_forall; intros k Hk; apply in_seq in Hk; lia.
  - constructor.
  - split; [exact H1|].
    intros plan Hp; rewrite Forall_forall in H2; apply H2; exact Hp.
Qed.

End Levels.

(** C9, amended.  For a query processed by the driver with [--max-level K],
    the enumeration runs over the levels [1 .. min(K, 20, |T|)]: the driver
    caps the argument at twenty before the enumerator caps it at the number
    of relations; every emitted subset has a cardinality within that bound. *)
Theorem driver_levels (iter : list string -> list string) (parsed : ParsedSQL) (K : Z) :
  let bound :=
    Z.to_nat (Z.min (Z.min K 20) (Z.of_nat (List.length (tables parsed)))) in
  map fst (counts (driver_enumerate iter parsed K)) = seq 1 bound
  /\ forall plan,
      In plan (all_plans (driver_enumerate iter parsed K)) ->
      1 <= List.length (subset plan) <= bound.
Proof.
  unfold driver_enumerate.
  exact (enumerate_subsets_levels iter (join_graph parsed) (tables parsed) (Z.min K 20)).
Qed.

(** C9 as stated fails: with [--max-level 25] and twenty-one relations the
    levels run to twenty, not to [min(25, 21)]. *)
Lemma driver_caps_levels_at_twenty :
  parse_sql 100 ast_wide = Some parsed_wide
  /\ List.length (tables parsed_wide) = 21
  /\ map fst (counts (driver_enumerate iter_ascending parsed_wide 25)) = seq 1 20
  /\ map fst (counts (driver_enumerate iter_ascending parsed_wide 25))
     <> seq 1 (Z.to_nat (Z.min 25 (Z.of_nat (List.length (tables parsed_wide))))).
Proof.
  split; [vm_compute; reflexivity|].
  split; [vm_compute; reflexivity|].
  assert (H : map fst (counts (driver_enumerate iter_ascending parsed_wide 25)) = seq 1 20).
  { unfold driver_enumerate.
    rewrite (proj1 (enumerate_subsets_levels iter_ascending (join_graph parsed_wide)
                      (tables parsed_wide) (Z.min 25 20))).
    vm_compute; reflexivity. }
  split; [exact H|].
  rewrite H; vm_compute; discriminate.
Qed.

(** ** The pattern matcher *)

Section MatcherSound.

Variable R : Type.

Lemma star_loop_sound (m : nat -> list ascii -> captures -> cont R -> option R)
  (rel : mstate -> mstate -> Prop) (k : cont R) :
  sound_matcher m rel ->
  forall fuel pos s caps x,
    star_loop m k fuel pos s caps = Some x ->
    exists pos' s' caps',
      star_rel rel (pos, s, caps) (pos', s', caps') /\ k pos' s' caps' = Some x.
Proof.
  intros Hm; induction fuel as [|fuel IH]; intros pos s caps x; simpl.
  - intros H; exists pos, s, caps; split; [constructor | exact H].
  - destruct (m pos s caps _) as [y|] eqn:Hy.
    + intros H; inversion H; subst y; clear H.
      apply Hm in Hy; destruct Hy as [p1 [s1 [c1 [Hr Hk]]]].
      destruct (Nat.eqb p1 pos); [discriminate|].
      apply IH in Hk; destruct Hk as [p2 [s2 [c2 [Hs Hk]]]].
      exists p2, s2, c2; split; [econstructor 2; eassumption | exact Hk].
    + intros H; exists pos, s, caps; split; [constructor | exact H].
Qed.

Lemma lazy_loop_sound (m : nat -> list ascii -> captures -> cont R -> option R)
  (rel : mstate -> mstate -> Prop) (k : cont R) :
  sound_matcher m rel ->
  forall fuel pos s caps x,
    lazy_loop m k fuel pos s caps = Some x ->
    exists pos' s' caps',
      star_rel rel (pos, s, caps) (pos', s', caps') /\ k pos' s' caps' = Some x.
Proof.
  intros Hm; induction fuel as [|fuel IH]; intros pos s caps x; simpl.
  - destruct (k pos s caps) as [y|] eqn:Hy; [|discriminate].
    intros H; exists pos, s, caps; split; [constructor | congruence].
  - destruct (k pos s caps) as [y|] eqn:Hy.
    + intros H; exists pos, s, caps; split; [constructor | congruence].
    + intros H; apply Hm in H; destruct H as [p1 [s1 [c1 [Hr Hk]]]].
      destruct (Nat.eqb p1 pos); [discriminate|].
      apply IH in Hk; destruct Hk as [p2 [s2 [c2 [Hs Hk]]]].
      exists p2, s2, c2; split; [econstructor 2; eassumption | exact Hk].
Qed.

Lemma rmatch_sound (r : regex) : sound_matcher (@rmatch R r) (matches r).
Proof.
  induction r as [p|r1 IH1 r2 IH2|r1 IH1 r2 IH2|r1 IH1|r1 IH1|r1 IH1|n r1 IH1| |];
    intros pos s caps k x; cbn [rmatch matches].
  - destruct s as [|c s']; [discriminate|].
    destruct (p c) eqn:Hp; [|discriminate].
    intros H; exists (S pos), s', caps; split; [exists c; auto | exact H].
  - intros H; apply IH1 in H; destruct H as [p1 [s1 [c1 [Hr H]]]].
    apply IH2 in H; destruct H as [p2 [s2 [c2 [Hr2 H]]]].
    exists p2, s2, c2; split; [exists (p1, s1, c1); auto | exact H].
  - destruct (rmatch r1 pos s caps k) as [y|] eqn:Hy.
    + intros H; inversion H; subst y.
      apply IH1 in Hy; destruct Hy as [p1 [s1 [c1 [Hr H1]]]].
      exists p1, s1, c1; auto.
    + intros H; apply IH2 in H; destruct H as [p1 [s1 [c1 [Hr H1]]]].
      exists p1, s1, c1; auto.
  - apply star_loop_sound; exact IH1.
  - intros H; apply IH1 in H; destruct H as [p1 [s1 [c1 [Hr H]]]].
    apply (star_loop_sound k IH1) in H; destruct H as [p2 [s2 [c2 [Hs H]]]].
    exists p2, s2, c2; split; [exists (p1, s1, c1); auto | exact H].
  - intros H; apply IH1 in H; destruct H as [p1 [s1 [c1 [Hr H]]]].
    apply (lazy_loop_sound k IH1) in H; destruct H as [p2 [s2 [c2 [Hs H]]]].
    exists p2, s2, c2; split; [exists (p1, s1, c1); auto | exact H].
  - intros H; apply IH1 in H; destruct H as [p1 [s1 [c1 [Hr H]]]].
    exists p1, s1, ((n, firstn (p1 - pos) s) :: c1); split; [exists c1; auto | exact H].
  - destruct (Nat.eqb_spec pos 0) as [->|]; [|discriminate].
    intros H; exists 0, s, caps; auto.
  - destruct s as [|c [|c' s']]; try discriminate.
    + intros H; exists pos, [], caps; auto.
    + destruct (Nat.eqb_spec (code c) 10) as [E|]; [|discriminate].
      intros H; exists pos, [c], caps; split; [|exact H].
      split; [reflexivity | right; exists c; auto].
Qed.

End MatcherSound.

Lemma search_from_sound (r : regex) (pos : nat) (s : list ascii) (caps : captures) :
  search_from r pos s = Some caps ->
  exists p0 s0 p1 s1, matches r (p0, s0, []) (p1, s1, caps).
Proof.
  revert pos; induction s as [|c s IH]; intros pos; simpl; unfold match_at.
  - destruct (rmatch r pos [] [] _) as [[e caps']|] eqn:Hm; [|discriminate].
    intros H; inversion H; subst caps'.
    apply rmatch_sound in Hm; destruct Hm as [p1 [s1 [c1 [Hr Hk]]]].
    inversion Hk; subst; exists pos, [], e, s1; exact Hr.
  - destruct (rmatch r pos (c :: s) [] _) as [[e caps']|] eqn:Hm.
    + intros H; inversion H; subst caps'.
      apply rmatch_sound in Hm; destruct Hm as [p1 [s1 [c1 [Hr Hk]]]].
      inversion Hk; subst; exists pos, (c :: s), e, s1; exact Hr.
    + apply IH.
Qed.

Lemma star_other_groups (step : mstate -> mstate -> Prop) (n : nat) :
  (forall st st', step st st' -> group n (snd st') = group n (snd st)) ->
  forall st st', star_rel step st st' -> group n (snd st') = group n (snd st).
Proof.
  intros Hs st st' H; induction H as [st|st mid st' H1 H2 IH]; [reflexivity|].
  rewrite IH; apply Hs; exact H1.
Qed.

(** A pattern leaves the groups it does not contain as they are. *)
Lemma matches_other_groups (r : regex) (n : nat) :
  ~ In n (groups_of r) ->
  forall st st', matches r st st' -> group n (snd st') = group n (snd st).
Proof.
  induction r as [p|r1 IH1 r2 IH2|r1 IH1 r2 IH2|r1 IH1|r1 IH1|r1 IH1|m r1 IH1| |];
    cbn [groups_of]; intros Hn [[pos s] caps] [[pos' s'] caps']; cbn [matches].
  - intros [c [_ [_ [_ ->]]]]; reflexivity.
  - rewrite in_app_iff in Hn.
    intros [mid [H1 H2]].
    etransitivity; [exact (IH2 (fun H => Hn (or_intror H)) _ _ H2)
                   | exact (IH1 (fun H => Hn (or_introl H)) _ _ H1)].
  - rewrite in_app_iff in Hn.
    intros [H|H]; [exact (IH1 (fun H => Hn (or_introl H)) _ _ H)
                  | exact (IH2 (fun H => Hn (or_intror H)) _ _ H)].
  - intros H; exact (star_other_groups _ (IH1 Hn) H).
  - intros [mid [H1 H2]].
    etransitivity; [exact (star_other_groups _ (IH1 Hn) H2) | exact (IH1 Hn _ _ H1)].
  - intros [mid [H1 H2]].
    etransitivity; [exact (star_other_groups _ (IH1 Hn) H2) | exact (IH1 Hn _ _ H1)].
  - intros [caps0 [H ->]]; simpl.
    destruct (Nat.eqb_spec n m) as [->|_]; [exfalso; apply Hn; left; reflexivity|].
    exact (IH1 (fun H' => Hn (or_intror H')) _ _ H).
  - intros [H _]; inversion H; reflexivity.
  - intros [H _]; inversion H; reflexivity.
Qed.

(** A run of single characters of a class consumes a block of the text made
    of characters of the class. *)
Lemma star_chars (p : ascii -> bool) (st st' : mstate) :
  star_rel (matches (RChar p)) st st' ->
  exists cs,
    snd (fst st) = cs ++ snd (fst st')
    /\ fst (fst st') = fst (fst st) + List.length cs
    /\ Forall (fun c => p c = true) cs.
Proof.
  induction 1 as [st|st mid st' H1 H2 IH].
  - exists []; simpl; split; [reflexivity|]; split; [lia | constructor].
  - destruct st as [[pos s] caps], mid as [[pos1 s1] caps1].
    destruct H1 as [c [-> [Hc [-> _]]]].
    destruct IH as [cs [Hs [Hp Hf]]]; simpl in *.
    exists (c :: cs); subst s1; simpl; split; [reflexivity|]; split; [lia|].
    constructor; assumption.
Qed.

Lemma plus_chars (p : ascii -> bool) (pos : nat) (s : list ascii) (caps : captures)
  (pos' : nat) (s' : list ascii) (caps' : captures) :
  matches (RPlus (RChar p)) (pos, s, caps) (pos', s', caps') ->
  Forall (fun c => p c = true) (firstn (pos' - pos) s).
Proof.
  intros [[[pos1 s1] caps1] [[c [-> [Hc [-> _]]]] H2]].
  apply star_chars in H2; destruct H2 as [cs [Hs [Hp Hf]]].
  cbn [fst snd] in Hs, Hp; subst.
  replace (S pos + List.length cs - pos) with (S (List.length cs)) by lia.
  cbn [firstn]; constructor; [exact Hc|].
  rewrite firstn_app, firstn_all, Nat.sub_diag; simpl; rewrite app_nil_r; exact Hf.
Qed.

(** In a match of [(\w+)\.(\w+)] followed by a tail without group 2, the
    second group is a word. *)
Lemma table_column_group (tail : regex) (st : mstate) (pos' : nat) (s' : list ascii)
  (m : captures) :
  ~ In 2 (groups_of tail) ->
  matches (re_table_column tail) st (pos', s', m) ->
  Forall (fun c => is_word c = true) (list_ascii_of_string (group 2 m)).
Proof.
  intros Hn; destruct st as [[pos s] caps]; unfold re_table_column.
  cbn [matches].
  intros [[[p1 s1] c1] [_ [[[p2 s2] c2] [_ [[[p3 s3] c3] [H3 Ht]]]]]].
  pose proof (@matches_other_groups tail 2 Hn _ _ Ht) as Hg; cbn [snd] in Hg.
  rewrite Hg.
  destruct H3 as [c0 [H3 ->]].
  pose proof (@plus_chars is_word p2 s2 c2 p3 s3 c0 H3) as Hw.
  cbn [group Nat.eqb].
  rewrite list_ascii_of_string_of_list_ascii; exact Hw.
Qed.

Lemma extracted_column_word (pred : string) (cv : ConstantValue) :
  _extract_single_constant_value pred = Some cv ->
  Forall (fun c => is_word c = true) (list_ascii_of_string (cv_column cv)).
Proof.
  unfold _extract_single_constant_value, re_search.
  destruct (search_from re_eq_constant 0 _) as [m|] eqn:H1.
  - intros H; inversion H; subst cv; simpl.
    apply search_from_sound in H1; destruct H1 as [p0 [s0 [p1 [s1 H1]]]].
    eapply (@table_column_group _ (p0, s0, [])); [|exact H1].
    simpl; intuition discriminate.
  - destruct (search_from re_in_list 0 _) as [m|] eqn:H2; [|discriminate].
    destruct (map strip (split "," (group 3 m))) as [|v [|v' vs]]; try discriminate.
    intros H; inversion H; subst cv; simpl.
    apply search_from_sound in H2; destruct H2 as [p0 [s0 [p1 [s1 H2]]]].
    eapply (@table_column_group _ (p0, s0, [])); [|exact H2].
    simpl; intuition discriminate.
Qed.

(** ** Dictionaries *)

Lemma dict_get_in (V : Type) (k : string) (d : list (string * V)) (v : V) :
  dict_get k d = Some v -> In (k, v) d.
Proof.
  induction d as [|[k' v'] d IH]; simpl; [discriminate|].
  destruct (String.eqb_spec k k') as [->|_].
  - intros H; inversion H; left; reflexivity.
  - intros H; right; apply IH; exact H.
Qed.

Lemma dict_set_in (V : Type) (k : string) (v : V) (d : list (string * V))
  (k' : string) (v' : V) :
  In (k', v') (dict_set k v d) -> (k', v') = (k, v) \/ In (k', v') d.
Proof.
  induction d as [|[k0 v0] d IH]; simpl.
  - intros [H|[]]; left; symmetry; exact H.
  - destruct (String.eqb k k0).
    + intros [H|H]; [left; symmetry; exact H | right; right; exact H].
    + intros [H|H]; [right; left; exact H|].
      destruct (IH H); [left | right; right]; assumption.
Qed.

Lemma dict_get_set (V : Type) (k : string) (v : V) (d : list (string * V)) (k' : string) :
  dict_get k' (dict_set k v d) = if String.eqb k' k then Some v else dict_get k' d.
Proof.
  induction d as [|[k0 v0] d IH]; simpl.
  - destruct (String.eqb k' k); reflexivity.
  - destruct (String.eqb_spec k k0) as [->|Hn]; simpl.
    + destruct (String.eqb k' k0); reflexivity.
    + rewrite IH.
      destruct (String.eqb_spec k' k0) as [->|_]; [|reflexivity].
      destruct (String.eqb_spec k0 k) as [E|_]; [congruence | reflexivity].
Qed.

(** ** Details of a graph *)

Lemma details_at_in (g : JoinGraph) (k : string) (d : JoinDetail) :
  In d (details_at g k) -> In d (all_details g).
Proof.
  unfold details_at, all_details.
  destruct (dict_get k (join_details g)) as [ds|] eqn:Hg; [|intros []].
  intros H; apply in_flat_map; exists (k, ds); split; [|exact H].
  apply dict_get_in; exact Hg.
Qed.

Lemma add_join_details (g : JoinGraph) (a b a_col b_col : string) (orig : bool) :
  truthy a_col && truthy b_col = true ->
  join_details (add_join g a b a_col b_col orig)
  = dict_set (edge_key a b)
             (details_at g (edge_key a b) ++ [stored_detail a b a_col b_col orig])
             (join_details g).
Proof.
  intros Ht; unfold add_join; rewrite Ht; simpl.
  f_equal; f_equal; f_equal.
  unfold stored_detail, sorted; simpl.
  destruct (String.leb a b) eqn:Hab; simpl.
  - rewrite !String.eqb_refl; reflexivity.
  - destruct (String.eqb_spec b a) as [->|_];
      [rewrite leb_refl in Hab; discriminate|].
    destruct (String.eqb_spec a b) as [->|_];
      [rewrite leb_refl in Hab; discriminate|].
    reflexivity.
Qed.

Lemma add_join_no_columns (g : JoinGraph) (a b a_col b_col : string) (orig : bool) :
  truthy a_col && truthy b_col = false ->
  join_details (add_join g a b a_col b_col orig) = join_details g.
Proof. intros Ht; unfold add_join; rewrite Ht; reflexivity. Qed.

Lemma add_join_in (g : JoinGraph) (a b a_col b_col : string) (orig : bool) (d : JoinDetail) :
  In d (all_details (add_join g a b a_col b_col orig)) ->
  In d (all_details g) \/ d = stored_detail a b a_col b_col orig.
Proof.
  unfold all_details.
  destruct (truthy a_col && truthy b_col) eqn:Ht.
  - rewrite (@add_join_details g a b a_col b_col orig Ht).
    intros H; apply in_flat_map in H; destruct H as [[k ds] [Hk Hd]].
    apply dict_set_in in Hk; destruct Hk as [Hk|Hk].
    + inversion Hk; subst; simpl in Hd.
      apply in_app_iff in Hd; destruct Hd as [Hd|[<-|[]]]; [|right; reflexivity].
      left; apply (@details_at_in g (edge_key a b) d Hd).
    + left; apply in_flat_map; exists (k, ds); auto.
  - rewrite (@add_join_no_columns g a b a_col b_col orig Ht); auto.
Qed.

Lemma dict_set_old (V : Type) (k : string) (v : V) (d : list (string * V))
  (k' : string) (v' : V) :
  In (k', v') d ->
  In (k', v') (dict_set k v d) \/ (k' = k /\ dict_get k d = Some v').
Proof.
  induction d as [|[k0 v0] d IH]; simpl; [tauto|].
  destruct (String.eqb_spec k k0) as [->|Hn].
  - intros [H|H]; [inversion H; subst; right; auto | left; right; exact H].
  - intros [H|H]; [left; left; exact H|].
    destruct (IH H) as [H'|H']; [left; right; exact H' | right; exact H'].
Qed.

Lemma dict_set_at (V : Type) (k : string) (v : V) (d : list (string * V)) :
  In (k, v) (dict_set k v d).
Proof.
  induction d as [|[k0 v0] d IH]; simpl; [left; reflexivity|].
  destruct (String.eqb k k0); [left; reflexivity | right; exact IH].
Qed.

Lemma add_join_grows (g : JoinGraph) (a b a_col b_col : string) (orig : bool) :
  grows g (add_join g a b a_col b_col orig).
Proof.
  intros d; unfold all_details.
  destruct (truthy a_col && truthy b_col) eqn:Ht.
  - rewrite (@add_join_details g a b a_col b_col orig Ht).
    intros H; apply in_flat_map in H; destruct H as [[k ds] [Hk Hd]].
    apply in_flat_map.
    destruct (dict_set_old (edge_key a b)
                (details_at g (edge_key a b) ++ [stored_detail a b a_col b_col orig])
                _ _ _ Hk) as [H|[-> H]].
    + exists (k, ds); auto.
    + eexists; split; [apply dict_set_at|]; simpl.
      apply in_or_app; left; unfold details_at; rewrite H; exact Hd.
  - rewrite (@add_join_no_columns g a b a_col b_col orig Ht); auto.
Qed.

Lemma grows_refl (g : JoinGraph) : grows g g.
Proof. intros d H; exact H. Qed.

Lemma grows_trans (g1 g2 g3 : JoinGraph) : grows g1 g2 -> grows g2 g3 -> grows g1 g3.
Proof. intros H1 H2 d H; apply H2, H1, H. Qed.

(** ** Invariants of the closure loops *)

Section ClosureInvariant.

(** A property of graphs kept by every join the closure adds. *)
Variable P : JoinGraph -> Prop.
Hypothesis P_add :
  forall g d1 d2 tr,
    P g -> In d1 (all_details g) -> In d2 (all_details g) ->
    _try_form_transitive_join d1 d2 = Some tr ->
    tj_t1 tr <> tj_t2 tr ->
    _join_exists g tr = false ->
    P (add_join g (tj_t1 tr) (tj_t2 tr) (tj_t1_col tr) (tj_t2_col tr) false).

Lemma closure_step_inv (d1 d2 : JoinDetail) (g : JoinGraph) (n : nat) (b : bool) :
  P g -> In d1 (all_details g) -> In d2 (all_details g) ->
  P (fst (fst (closure_step d1 d2 (g, n, b))))
  /\ grows g (fst (fst (closure_step d1 d2 (g, n, b)))).
Proof.
  intros Hp H1 H2; unfold closure_step.
  destruct (_try_form_transitive_join d1 d2) as [tr|] eqn:Ht;
    [|split; [exact Hp | apply grows_refl]].
  destruct (String.eqb_spec (tj_t1 tr) (tj_t2 tr)) as [E|Hn]; cbn [negb fst];
    [split; [exact Hp | apply grows_refl]|].
  destruct (_join_exists g tr) eqn:He; cbn [negb fst];
    [split; [exact Hp | apply grows_refl]|].
  split; [exact (@P_add g d1 d2 tr Hp H1 H2 Ht Hn He) | apply add_join_grows].
Qed.

Lemma closure_d2_inv (fuel : nat) (d1 : JoinDetail) (k2 : string) :
  forall (j : nat) (st st' : closure_state),
    closure_d2 fuel d1 k2 j st = Some st' ->
    P (fst (fst st)) -> In d1 (all_details (fst (fst st))) ->
    P (fst (fst st')) /\ grows (fst (fst st)) (fst (fst st')).
Proof.
  induction fuel as [|fuel IH]; intros j st st'; simpl; [discriminate|].
  destruct (nth_error (details_at (fst (fst st)) k2) j) as [d2|] eqn:Hn.
  - intros H Hp H1.
    destruct st as [[g n] b]; simpl in *.
    assert (H2 : In d2 (all_details g))
      by (eapply details_at_in, nth_error_In; exact Hn).
    destruct (@closure_step_inv d1 d2 g n b Hp H1 H2) as [Hp' Hg'].
    destruct (IH (S j) _ st' H Hp' (Hg' _ H1)) as [Hp'' Hg''].
    split; [exact Hp'' | eapply grows_trans; eassumption].
  - intros H Hp _; inversion H; subst; split; [exact Hp | apply grows_refl].
Qed.

Lemma closure_d1_inv (fuel : nat) (k1 k2 : string) :
  forall (i : nat) (st st' : closure_state),
    closure_d1 fuel k1 k2 i st = Some st' ->
    P (fst (fst st)) ->
    P (fst (fst st')) /\ grows (fst (fst st)) (fst (fst st')).
Proof.
  induction fuel as [|fuel IH]; intros i st st'; simpl; [discriminate|].
  destruct (nth_error (details_at (fst (fst st)) k1) i) as [d1|] eqn:Hn.
  - destruct (closure_d2 fuel d1 k2 0 st) as [st1|] eqn:H2; [|discriminate].
    intros H Hp.
    assert (H1 : In d1 (all_details (fst (fst st))))
      by (eapply details_at_in, nth_error_In; exact Hn).
    destruct (@closure_d2_inv fuel d1 k2 0 st st1 H2 Hp H1) as [Hp1 Hg1].
    destruct (IH (S i) st1 st' H Hp1) as [Hp2 Hg2].
    split; [exact Hp2 | eapply grows_trans; eassumption].
  - intros H Hp; inversion H; subst; split; [exact Hp | apply grows_refl].
Qed.

Lemma closure_edge2_inv (fuel : nat) (k1 : string) (keys2 : list string) :
  forall st st' : closure_state,
    closure_edge2 fuel k1 keys2 st = Some st' ->
    P (fst (fst st)) ->
    P (fst (fst st')) /\ grows (fst (fst st)) (fst (fst st')).
Proof.
  induction keys2 as [|k2 keys2 IH]; intros st st'; simpl.
  - intros H Hp; inversion H; subst; split; [exact Hp | apply grows_refl].
  - destruct (String.eqb k1 k2); [apply IH|].
    destruct (closure_d1 fuel k1 k2 0 st) as [st1|] eqn:H1; [|discriminate].
    intros H Hp.
    destruct (@closure_d1_inv fuel k1 k2 0 st st1 H1 Hp) as [Hp1 Hg1].
    destruct (IH st1 st' H Hp1) as [Hp2 Hg2].
    split; [exact Hp2 | eapply grows_trans; eassumption].
Qed.

Lemma closure_edge1_inv (fuel : nat) (keys1 keys : list string) :
  forall st st' : closure_state,
    closure_edge1 fuel keys1 keys st = Some st' ->
    P (fst (fst st)) ->
    P (fst (fst st')) /\ grows (fst (fst st)) (fst (fst st')).
Proof.
  induction keys1 as [|k1 keys1 IH]; intros st st'; simpl.
  - intros H Hp; inversion H; subst; split; [exact Hp | apply grows_refl].
  - destruct (closure_edge2 fuel k1 keys st) as [st1|] eqn:H1; [|discriminate].
    intros H Hp.
    destruct (@closure_edge2_inv fuel k1 keys st st1 H1 Hp) as [Hp1 Hg1].
    destruct (IH st1 st' H Hp1) as [Hp2 Hg2].
    split; [exact Hp2 | eapply grows_trans; eassumption].
Qed.

Lemma closure_iterations_inv (fuel iterations : nat) :
  forall (g : JoinGraph) (n : nat) (g' : JoinGraph) (n' : nat),
    closure_iterations fuel iterations g n = Some (g', n') ->
    P g -> P g' /\ grows g g'.
Proof.
  induction iterations as [|it IH]; intros g n g' n'; simpl.
  - intros H Hp; inversion H; subst; split; [exact Hp | apply grows_refl].
  - unfold closure_pass.
    destruct (closure_edge1 fuel _ _ _) as [[[g1 n1] b1]|] eqn:H1; [|discriminate].
    intros H Hp.
    destruct (@closure_edge1_inv fuel _ _ _ _ H1 Hp) as [Hp1 Hg1]; simpl in *.
    destruct b1.
    + destruct (IH g1 n1 g' n' H Hp1) as [Hp2 Hg2].
      split; [exact Hp2 | eapply grows_trans; eassumption].
    + inversion H; subst; auto.
Qed.

Lemma compute_transitive_closure_inv (fuel : nat) (g g' : JoinGraph) (n' : nat) :
  compute_transitive_closure fuel g = Some (g', n') -> P g -> P g' /\ grows g g'.
Proof. apply closure_iterations_inv. Qed.

End ClosureInvariant.

(** ** Soundness of the closure (claim C3) *)

Section Soundness.

Variable asserted : list JoinCondition.
Variable facts : list ConstantValue.

Local Abbreviation holds := (entails asserted facts).

Lemma holds_sym (u v : term) : holds u v -> holds v u.
Proof. apply rst_sym. Qed.

Lemma holds_trans (u v w : term) : holds u v -> holds v w -> holds u w.
Proof. apply rst_trans. Qed.

Lemma try_form_sound (d1 d2 : JoinDetail) (tr : TransitiveJoin) :
  holds (Col (t1 d1) (t1_col d1)) (Col (t2 d1) (t2_col d1)) ->
  holds (Col (t1 d2) (t1_col d2)) (Col (t2 d2) (t2_col d2)) ->
  _try_form_transitive_join d1 d2 = Some tr ->
  holds (Col (tj_t1 tr) (tj_t1_col tr)) (Col (tj_t2 tr) (tj_t2_col tr)).
Proof.
  intros H1 H2; unfold _try_form_transitive_join.
  destruct (String.eqb_spec (t2 d1) (t1 d2)) as [A1|_];
    [destruct (String.eqb_spec (t2_col d1) (t1_col d2)) as [B1|_]|]; cbn [andb].
  1: { intros H; inversion H; subst tr; cbn.
       eapply holds_trans; [exact H1|]; rewrite A1, B1; exact H2. }
  all: destruct (String.eqb_spec (t2 d1) (t2 d2)) as [A2|_];
    [destruct (String.eqb_spec (t2_col d1) (t2_col d2)) as [B2|_]|]; cbn [andb].
  1, 4: intros H; inversion H; subst tr; cbn;
    (eapply holds_trans; [exact H1|]; rewrite A2, B2; apply holds_sym; exact H2).
  all: destruct (String.eqb_spec (t1 d1) (t1 d2)) as [A3|_];
    [destruct (String.eqb_spec (t1_col d1) (t1_col d2)) as [B3|_]|]; cbn [andb].
  1, 4, 7, 10: intros H; inversion H; subst tr; cbn;
    (eapply holds_trans; [apply holds_sym; exact H1|]; rewrite A3, B3; exact H2).
  all: destruct (String.eqb_spec (t1 d1) (t2 d2)) as [A4|_];
    [destruct (String.eqb_spec (t1_col d1) (t2_col d2)) as [B4|_]|]; cbn [andb];
    try discriminate.
  all: intros H; inversion H; subst tr; cbn;
    (eapply holds_trans; [apply holds_sym; exact H1|]; rewrite A4, B4;
     apply holds_sym; exact H2).
Qed.

Lemma add_join_sound (g : JoinGraph) (a b a_col b_col : string) (orig : bool) :
  sound_graph asserted facts g ->
  holds (Col a a_col) (Col b b_col) ->
  sound_graph asserted facts (add_join g a b a_col b_col orig).
Proof.
  intros Hg Hab d Hd.
  apply add_join_in in Hd; destruct Hd as [Hd| ->]; [apply Hg; exact Hd|].
  unfold stored_detail; destruct (String.leb a b); simpl;
    [exact Hab | apply holds_sym; exact Hab].
Qed.

Lemma closure_sound (fuel : nat) (g g' : JoinGraph) (n' : nat) :
  compute_transitive_closure fuel g = Some (g', n') ->
  sound_graph asserted facts g -> sound_graph asserted facts g'.
Proof.
  intros H Hg.
  refine (proj1 (@compute_transitive_closure_inv (sound_graph asserted facts) _
                   fuel g g' n' H Hg)).
  intros g0 d1 d2 tr Hp H1 H2 Ht _ _.
  apply add_join_sound; [exact Hp|].
  eapply try_form_sound; [apply Hp; exact H1 | apply Hp; exact H2 | exact Ht].
Qed.

Lemma asserted_sound (jcs : list JoinCondition) (g : JoinGraph) :
  incl jcs asserted ->
  sound_graph asserted facts g ->
  sound_graph asserted facts (fold_left add_asserted jcs g).
Proof.
  revert g; induction jcs as [|jc0 jcs IH]; intros g Hi Hg; simpl; [exact Hg|].
  apply IH; [intros x Hx; apply Hi; right; exact Hx|].
  apply add_join_sound; [exact Hg|].
  apply rst_step, stated_join, Hi; left; reflexivity.
Qed.

End Soundness.

(** *** The constant-equality joins *)

Lemma constant_key_inj (c1 v1 c2 v2 : string) :
  word c1 -> word c2 ->
  (c1 ++ ":" ++ v1 = c2 ++ ":" ++ v2)%string -> c1 = c2 /\ v1 = v2.
Proof.
  unfold word; revert c2; induction c1 as [|x c1 IH]; intros [|y c2] H1 H2; simpl.
  - intros H; inversion H; auto.
  - intros H; inversion H; subst y.
    inversion H2 as [|? ? Hy _]; subst; discriminate Hy.
  - intros H; inversion H; subst x.
    inversion H1 as [|? ? Hx _]; subst; discriminate Hx.
  - intros H; inversion H; subst y.
    inversion H1; inversion H2; subst.
    destruct (IH c2) as [-> ->]; auto.
Qed.

Lemma group_constants_ok (preds : list string) (groups : list (string * list ConstantValue)) :
  groups_ok groups -> groups_ok (group_constants preds groups).
Proof.
  revert groups; induction preds as [|pred preds IH]; intros groups Hg; simpl;
    [exact Hg|].
  destruct (_extract_single_constant_value pred) as [cv0|] eqn:He; [|apply IH; exact Hg].
  apply IH; intros k grp cv Hk Hc.
  apply dict_set_in in Hk; destruct Hk as [Hk|Hk]; [|eapply Hg; eassumption].
  inversion Hk; subst; clear Hk.
  apply in_app_iff in Hc; destruct Hc as [Hc|[<-|[]]].
  - destruct (dict_get _ groups) as [l|] eqn:Hd; [|destruct Hc].
    apply dict_get_in in Hd; eapply Hg; eassumption.
  - split; [reflexivity | eapply extracted_column_word; exact He].
Qed.

Lemma scan_tables_ok (c : PredicateClassifier) (ts : list string)
  (groups groups' : list (string * list ConstantValue)) :
  scan_tables c ts groups = Some groups' -> groups_ok groups -> groups_ok groups'.
Proof.
  revert groups; induction ts as [|t ts IH]; intros groups; simpl.
  - intros H; inversion H; auto.
  - destruct (get_predicates_for_subset c [t]) as [preds|]; [|discriminate].
    intros H Hg; eapply IH; [exact H | apply group_constants_ok; exact Hg].
Qed.

Lemma pair_joins_in (grp : list ConstantValue) (cj : ConstantEqualityJoin) :
  In cj (pair_joins grp) ->
  exists gi gj,
    In gi grp /\ In gj grp
    /\ cj = mkConstantEqualityJoin (cv_table gi) (cv_table gj) (cv_column gi).
Proof.
  induction grp as [|g0 grp IH]; simpl; [intros []|].
  rewrite in_app_iff, in_map_iff; intros [[gj [<- Hj]]|H].
  - exists g0, gj; auto.
  - destruct (IH H) as [gi [gj [Hi [Hj ->]]]]; exists gi, gj; auto.
Qed.

Lemma constant_join_sound (asserted : list JoinCondition)
  (groups : list (string * list ConstantValue)) (cj : ConstantEqualityJoin) :
  groups_ok groups ->
  In cj (flat_map (fun kg => group_joins (snd kg)) groups) ->
  entails asserted (flat_map snd groups)
          (Col (cej_t1 cj) (cej_column cj)) (Col (cej_t2 cj) (cej_column cj)).
Proof.
  intros Hg H; apply in_flat_map in H; destruct H as [[k grp] [Hk H]].
  unfold group_joins in H; cbn [snd] in H; revert H.
  destruct (Nat.leb 2 (List.length grp)); intros H; [|destruct H].
  apply pair_joins_in in H; destruct H as [gi [gj [Hi [Hj ->]]]]; simpl.
  destruct (Hg k grp gi Hk Hi) as [Ki Wi].
  destruct (Hg k grp gj Hk Hj) as [Kj Wj].
  destruct (@constant_key_inj (cv_column gi) (cv_value gi) (cv_column gj) (cv_value gj)
              Wi Wj) as [Ec Ev]; [unfold constant_key in *; congruence|].
  apply rst_trans with (Const (cv_value gi)).
  - apply rst_step, stated_constant, in_flat_map; exists (k, grp); auto.
  - rewrite Ec, Ev.
    apply rst_sym, rst_step, stated_constant, in_flat_map; exists (k, grp); auto.
Qed.

Lemma constant_joins_sound (asserted : list JoinCondition) (facts : list ConstantValue)
  (cjs : list ConstantEqualityJoin) (g : JoinGraph) :
  (forall cj, In cj cjs ->
     entails asserted facts (Col (cej_t1 cj) (cej_column cj))
                            (Col (cej_t2 cj) (cej_column cj))) ->
  sound_graph asserted facts g ->
  sound_graph asserted facts (fold_left add_constant_join cjs g).
Proof.
  revert g; induction cjs as [|cj cjs IH]; intros g Hc Hg; simpl; [exact Hg|].
  apply IH; [intros x Hx; apply Hc; right; exact Hx|].
  apply add_join_sound; [exact Hg | apply Hc; left; reflexivity].
Qed.

Lemma build_equivalence_classes_details (fuel : nat) (g g' : JoinGraph) (n : nat) :
  build_equivalence_classes fuel g = Some (g', n) -> join_details g' = join_details g.
Proof.
  unfold build_equivalence_classes.
  destruct (uf_union_edges fuel _ _) as [st|]; [|discriminate].
  destruct (uf_group fuel _ _ _) as [ec|]; [|discriminate].
  intros H; inversion H; reflexivity.
Qed.

(** The details of a parsed query are sound for its asserted joins and its
    constant-value facts. *)
Lemma parse_sql_sound (fuel : nat) (ast : QueryAst) (parsed : ParsedSQL) :
  parse_sql fuel ast = Some parsed ->
  exists facts,
    extracted_constants (classifier parsed) (ast_tables ast) = Some facts
    /\ sound_graph (ast_joins ast) facts (join_graph parsed).
Proof.
  unfold parse_sql, extracted_constants, _detect_constant_equality_joins.
  destruct (ast_tables ast) as [|t ts] eqn:Hts; [discriminate|].
  destruct (classify_predicates _) as [c|]; [|discriminate].
  destruct (scan_tables c (t :: ts) []) as [groups|] eqn:Hs; [|discriminate].
  destruct (compute_transitive_closure fuel _) as [[g1 n1]|] eqn:Hc; [|discriminate].
  destruct (build_equivalence_classes fuel g1) as [[g2 n2]|] eqn:Hb; [|discriminate].
  intros H; inversion H; subst parsed; clear H; cbn [classifier join_graph].
  rewrite Hs; exists (flat_map snd groups); split; [reflexivity|].
  assert (Hg1 : sound_graph (ast_joins ast) (flat_map snd groups) g1).
  { eapply closure_sound; [exact Hc|].
    apply constant_joins_sound.
    - intros cj Hcj; apply constant_join_sound; [|exact Hcj].
      eapply scan_tables_ok; [exact Hs|]; intros k grp cv [].
    - apply asserted_sound; [apply incl_refl|]; intros d []. }
  intros d Hd; apply Hg1.
  unfold all_details in *.
  rewrite (build_equivalence_classes_details _ _ Hb) in Hd; exact Hd.
Qed.

(** *** Two joins on different columns of the middle relation *)

Section ColumnGap.

Variables A B C x y z w : string.
Hypothesis AB : A <> B.
Hypothesis BC : B <> C.
Hypothesis AC : A <> C.
Hypothesis yz : y <> z.

Lemma gap_class_entails (u v : term) :
  entails [mkJoinCondition A x B y; mkJoinCondition B z C w] [] u v ->
  gap_class A B C x y z w u = gap_class A B C x y z w v.
Proof.
  induction 1 as [u v H| | |]; try congruence.
  destruct H as [jc0 [<-|[<-|[]]]|cv []]; simpl.
  - rewrite !String.eqb_refl.
    destruct (String.eqb_spec A B); [contradiction|].
    destruct (String.eqb_spec A C); [contradiction|]; reflexivity.
  - rewrite !String.eqb_refl.
    destruct (String.eqb_spec z y); [congruence|].
    destruct (String.eqb_spec B C); [contradiction|].
    destruct (String.eqb_spec C B); [congruence|]; simpl.
    reflexivity.
Qed.

Lemma gap_separates (c c' : string) :
  ~ entails [mkJoinCondition A x B y; mkJoinCondition B z C w] []
            (Col A c) (Col C c').
Proof.
  intros H; apply gap_class_entails in H; simpl in H.
  destruct (String.eqb_spec A B); [contradiction|].
  destruct (String.eqb_spec A C); [contradiction|].
  destruct (String.eqb_spec C B); [congruence|].
  rewrite String.eqb_refl in H; simpl in H.
  destruct (String.eqb c' w); inversion H; congruence.
Qed.

End ColumnGap.

(** X30.  Relative to what the code reads, the closure adds nothing: every
    stored detail marked derived states an equality in the equivalence
    closure of the extracted join conditions and of the equations [column =
    value] for the values [_extract_single_constant_value] reads from the
    selections ([extracted_constants]; a reading need not be a fact of the
    query).  In particular, from [A.x = B.y] and [B.z = C.w] between three
    different relations with [y] distinct from [z], and no value read, no
    detail between [A] and [C] is stored. *)
Theorem details_follow_from_readings :
  (forall fuel ast parsed,
     parse_sql fuel ast = Some parsed ->
     exists facts,
       extracted_constants (classifier parsed) (ast_tables ast) = Some facts
       /\ forall d,
           In d (all_details (join_graph parsed)) -> is_original d = false ->
           entails (ast_joins ast) facts (Col (t1 d) (t1_col d)) (Col (t2 d) (t2_col d)))
  /\ (forall fuel relations alias_map preds A B C x y z w parsed,
        A <> B -> B <> C -> A <> C -> y <> z ->
        parse_sql fuel (mkQueryAst relations alias_map
                          [mkJoinCondition A x B y; mkJoinCondition B z C w] preds)
        = Some parsed ->
        extracted_constants (classifier parsed) relations = Some [] ->
        forall d,
          In d (all_details (join_graph parsed)) ->
          ~ (t1 d = A /\ t2 d = C) /\ ~ (t1 d = C /\ t2 d = A)).
Proof.
  split.
  - intros fuel ast parsed H.
    destruct (parse_sql_sound _ _ H) as [facts [Hf Hs]].
    exists facts; split; [exact Hf|]; intros d Hd _; apply Hs; exact Hd.
  - intros fuel relations alias_map preds A B C x y z w parsed AB BC AC yz H Hf d Hd.
    destruct (parse_sql_sound _ _ H) as [facts [Hf' Hs]]; simpl in Hf', Hs.
    rewrite Hf in Hf'; inversion Hf'; subst facts.
    specialize (Hs d Hd).
    split; intros [E1 E2]; rewrite E1, E2 in Hs.
    + exact (@gap_separates A B C x y z w AB BC AC yz _ _ Hs).
    + apply rst_sym in Hs; exact (@gap_separates A B C x y z w AB BC AC yz _ _ Hs).
Qed.

Lemma details_follow_from_readings_witness :
  parse_sql 100 ast_chain = Some parsed_chain
  /\ (exists facts,
        extracted_constants (classifier parsed_chain) (ast_tables ast_chain) = Some facts
        /\ entails (ast_joins ast_chain) facts (Col "A" "x") (Col "C" "z"))
  /\ parse_sql 100 ast_gap = Some parsed_gap
  /\ extracted_constants (classifier parsed_gap) ["A"; "B"; "C"] = Some []
  /\ forall d,
      In d (all_details (join_graph parsed_gap)) ->
      ~ (t1 d = "A" /\ t2 d = "C") /\ ~ (t1 d = "C" /\ t2 d = "A").
Proof.
  assert (H1 : parse_sql 100 ast_chain = Some parsed_chain) by (vm_compute; reflexivity).
  assert (H2 : parse_sql 100 ast_gap = Some parsed_gap) by (vm_compute; reflexivity).
  assert (H3 : extracted_constants (classifier parsed_gap) ["A"; "B"; "C"] = Some [])
    by (vm_compute; reflexivity).
  split; [exact H1|]; split; [|split; [exact H2|]; split; [exact H3|]].
  - destruct (proj1 details_follow_from_readings 100 ast_chain parsed_chain H1) as [facts [Hf Hd]].
    exists facts; split; [exact Hf|].
    pose proof (Hd (mkJoinDetail "A" "x" "C" "z" false)) as Hx.
    cbn [t1 t2 t1_col t2_col is_original] in Hx.
    apply Hx; [vm_compute; tauto | reflexivity].
  - refine (proj2 details_follow_from_readings 100 ["A"; "B"; "C"]
              [("A", "A"); ("B", "B"); ("C", "C")]
              [("A.x = B.y", ["A"; "B"]); ("B.z = C.w", ["B"; "C"])]
              "A" "B" "C" "x" "y" "z" "w" parsed_gap _ _ _ _ H2 H3);
      discriminate.
Defined.

(** *** Readings that are not facts *)

Lemma constant_class_entails (facts : list ConstantValue) (u v : term) :
  single_valued facts ->
  entails [] facts u v -> constant_class facts u = constant_class facts v.
Proof.
  intros Hsv; induction 1 as [u v H| | |]; try congruence.
  destruct H as [jc []|cv Hcv]; cbn [constant_class].
  unfold fact_for.
  destruct (find _ facts) as [cv'|] eqn:Hf.
  - apply find_some in Hf; destruct Hf as [Hin Hb].
    apply andb_prop in Hb; destruct Hb as [Et Ec].
    apply String.eqb_eq in Et; apply String.eqb_eq in Ec.
    rewrite (Hsv cv' cv Hin Hcv Et Ec); reflexivity.
  - apply (find_none _ _ Hf) in Hcv.
    rewrite !String.eqb_refl in Hcv; discriminate.
Qed.

(** C3.  Closure soundness fails on queries whose selections the patterns
    of [_extract_single_constant_value] misread.  In the first query the
    constants of [A.c] and [B.c] are different texts that both contain the
    word [or]: the lazy group of the first pattern stops in front of it, the
    two values read are equal, and the graph gets the derived detail [A.c =
    B.c], which the renderer writes into the ON clause of {A, B}.  In the
    second query the two selections are negated equalities, which state no
    constant-value fact at all, and the pattern finds [A.y = 2] and [B.y =
    2] inside them: the graph gets the derived detail [A.y = B.y].  Neither
    equality follows from the join equalities of the query (there are none)
    and its constant-value facts. *)
Theorem misread_constants_break_soundness :
  (ast_sand
   = mkQueryAst ["A"; "B"] [("A", "A"); ("B", "B")] []
                [("A.c = 'sand or gravel'", ["A"]); ("B.c = 'sand or silt'", ["B"])]
   /\ parse_sql 100 ast_sand = Some parsed_sand
   /\ In (mkJoinDetail "A" "c" "B" "c" false) (all_details (join_graph parsed_sand))
   /\ spec_constant_facts (ast_predicates ast_sand)
      = [mkConstantValue "A" "c" "sand or gravel"; mkConstantValue "B" "c" "sand or silt"]
   /\ ~ entails (ast_joins ast_sand) (spec_constant_facts (ast_predicates ast_sand))
                (Col "A" "c") (Col "B" "c")
   /\ option_map replace_newlines
        (render iter_ascending parsed_sand ["A"; "B"] (Some ["A"]) (Some ["B"]))
      = Some ("SELECT * FROM A JOIN B ON A.c = B.c "
              ++ "WHERE A.c = 'sand or gravel' AND B.c = 'sand or silt';")%string)
  /\ (ast_negated
      = mkQueryAst ["A"; "B"] [("A", "A"); ("B", "B")] []
                   [("NOT A.y = 2", ["A"]); ("NOT B.y = 2", ["B"])]
      /\ parse_sql 100 ast_negated = Some parsed_negated
      /\ In (mkJoinDetail "A" "y" "B" "y" false) (all_details (join_graph parsed_negated))
      /\ spec_constant_facts (ast_predicates ast_negated) = []
      /\ ~ entails (ast_joins ast_negated) (spec_constant_facts (ast_predicates ast_negated))
                   (Col "A" "y") (Col "B" "y")).
Proof.
  assert (F1 : spec_constant_facts (ast_predicates ast_sand)
               = [mkConstantValue "A" "c" "sand or gravel";
                  mkConstantValue "B" "c" "sand or silt"])
    by (vm_compute; reflexivity).
  assert (F2 : spec_constant_facts (ast_predicates ast_negated) = [])
    by (vm_compute; reflexivity).
  split; (split; [vm_compute; reflexivity|]);
    (split; [vm_compute; reflexivity|]);
    (split; [vm_compute; tauto|]).
  - split; [exact F1|]; split; [|vm_compute; reflexivity].
    rewrite F1; change (ast_joins ast_sand) with (@nil JoinCondition).
    intros H; apply constant_class_entails in H; [vm_compute in H; discriminate|].
    intros cv cv' [<-|[<-|[]]] [<-|[<-|[]]]; simpl; intros E1 E2;
      try reflexivity; discriminate.
  - split; [exact F2|].
    rewrite F2; change (ast_joins ast_negated) with (@nil JoinCondition).
    intros H; apply constant_class_entails in H; [vm_compute in H; discriminate|].
    intros cv cv' [].
Qed.

(** ** Canonical keys *)

Lemma bar_free_split (x y r1 r2 : string) :
  bar_free x -> bar_free y ->
  (r1 = "" \/ exists t, r1 = String "|" t) ->
  (r2 = "" \/ exists t, r2 = String "|" t) ->
  (x ++ r1 = y ++ r2)%string -> x = y /\ r1 = r2.
Proof.
  unfold bar_free; revert y; induction x as [|a x IH]; intros [|b y] Hx Hy H1 H2; simpl.
  - auto.
  - intros H; exfalso; apply Hy; simpl.
    destruct H1 as [->|[t ->]]; [discriminate|].
    inversion H; left; reflexivity.
  - intros H; exfalso; apply Hx; simpl.
    destruct H2 as [->|[t ->]]; [discriminate|].
    inversion H; left; reflexivity.
  - intros H; inversion H; subst b.
    destruct (IH y) as [-> ->]; auto.
    + intros Hi; apply Hx; right; exact Hi.
    + intros Hi; apply Hy; right; exact Hi.
Qed.

Lemma join_cons (sep x : string) (l : list string) :
  join sep (x :: l)
  = (x ++ match l with [] => "" | _ :: _ => sep ++ join sep l end)%string.
Proof.
  unfold join; destruct l as [|y l]; simpl; [|reflexivity].
  induction x as [|a x IH]; simpl; [reflexivity | rewrite <- IH; reflexivity].
Qed.

(** On non-empty lists of aliases without the delimiter character the key
    determines the list. *)
Lemma key_injective (l1 l2 : list string) :
  Forall bar_free l1 -> Forall bar_free l2 -> l1 <> [] -> l2 <> [] ->
  join "|||" l1 = join "|||" l2 -> l1 = l2.
Proof.
  revert l2; induction l1 as [|x l1 IH]; intros [|y l2] H1 H2 N1 N2; try congruence.
  rewrite !join_cons; intros H.
  inversion H1 as [|? ? Hx H1']; inversion H2 as [|? ? Hy H2']; subst.
  apply bar_free_split in H; try assumption.
  - destruct H as [-> H].
    destruct l1 as [|x1 l1], l2 as [|y1 l2]; try discriminate; [reflexivity|].
    f_equal; apply IH; try assumption; try discriminate.
    simpl in H; inversion H as [H3]; exact H3.
  - destruct l1; [left; reflexivity | right; eexists; reflexivity].
  - destruct l2; [left; reflexivity | right; eexists; reflexivity].
Qed.

Lemma canonical_key_injective (s1 s2 : list string) :
  ascending s1 -> ascending s2 ->
  Forall bar_free s1 -> Forall bar_free s2 -> s1 <> [] -> s2 <> [] ->
  _canonical_key s1 = _canonical_key s2 -> s1 = s2.
Proof.
  unfold _canonical_key; intros A1 A2 B1 B2 N1 N2.
  rewrite (sorted_fixed A1), (sorted_fixed A2).
  apply key_injective; assumption.
Qed.

(** ** The witness invariant of the enumerator (claim C4) *)

Lemma filter_nil_all (A : Type) (f : A -> bool) (l : list A) :
  filter f l = [] -> forall x, In x l -> f x = false.
Proof.
  induction l as [|y l IH]; simpl; [tauto|].
  destruct (f y) eqn:Hy; [discriminate|].
  intros H x [<-|Hx]; auto.
Qed.

Lemma set_diff_in (s t : list string) (x : string) :
  In x (set_diff s t) <-> In x s /\ ~ In x t.
Proof.
  unfold set_diff; rewrite filter_In.
  destruct (mem x t) eqn:Hm; simpl.
  - apply mem_in in Hm; split; [intros [_ H]; discriminate | tauto].
  - apply mem_false in Hm; tauto.
Qed.

Lemma set_diff_nonempty (s t : list string) :
  NoDup s -> List.length t < List.length s -> set_diff s t <> [].
Proof.
  intros Hn Hl He.
  assert (Hi : incl s t).
  { intros x Hx.
    pose proof (filter_nil_all _ _ He x Hx) as Hf; simpl in Hf.
    apply mem_in; destruct (mem x t); [reflexivity | discriminate]. }
  pose proof (NoDup_incl_length Hn Hi); lia.
Qed.

Section WitnessInvariant.

Variable iter : list string -> list string.
Variable g : JoinGraph.

Lemma try_split_spec (dp s lt : list string) (dec : Decomposition) :
  try_split iter g dp s lt = Some dec ->
  dec_left dec = mk_set lt
  /\ dec_right dec = set_diff s (mk_set lt)
  /\ In (_canonical_key (mk_set lt)) dp
  /\ In (_canonical_key (set_diff s (mk_set lt))) dp
  /\ can_join iter g (mk_set lt) (set_diff s (mk_set lt)) = true.
Proof.
  unfold try_split.
  destruct (mem (_canonical_key (mk_set lt)) dp) eqn:H1; [|discriminate].
  destruct (mem (_canonical_key (set_diff s (mk_set lt))) dp) eqn:H2; [|discriminate].
  simpl.
  destruct (can_join iter g (mk_set lt) (set_diff s (mk_set lt))) eqn:H3; [|discriminate].
  intros H; inversion H; subst; simpl.
  apply mem_in in H1, H2; auto.
Qed.

Lemma find_valid_decomposition_spec (dp s : list string) (dec : Decomposition) :
  _find_valid_decomposition iter g dp s = Some dec ->
  exists left_size lt,
    1 <= left_size < List.length s
    /\ In lt (combinations (sorted s) left_size)
    /\ try_split iter g dp s lt = Some dec.
Proof.
  unfold _find_valid_decomposition; intros H.
  apply first_some_in in H; destruct H as [left_size [Hl H]].
  apply first_some_in in H; destruct H as [lt [Hlt H]].
  exists left_size, lt; split; [apply in_seq in Hl; lia | auto].
Qed.

Lemma witnessed_app (ps qs : list EnumerationPlan) (i : nat) (p : EnumerationPlan) :
  witnessed iter g ps i p -> witnessed iter g (ps ++ qs) i p.
Proof.
  intros [l [r [Hl [Hr [[j [pl [Hj [Hn Hs]]]] [[j' [pr [Hj' [Hn' Hs']]]] H]]]]]].
  exists l, r; split; [exact Hl|]; split; [exact Hr|]; split; [|split; [|exact H]].
  - exists j, pl; split; [exact Hj|]; split; [|exact Hs].
    rewrite nth_error_app1; [exact Hn | apply nth_error_Some; congruence].
  - exists j', pr; split; [exact Hj'|]; split; [|exact Hs'].
    rewrite nth_error_app1; [exact Hn' | apply nth_error_Some; congruence].
Qed.

(** A plan appended with a subset of fewer than two relations, or with a
    witness, keeps the invariant. *)
Lemma add_subset_invariant (st : enum_state) (s : list string)
  (l r : option (list string)) :
  enum_invariant iter g st ->
  s <> [] -> ascending s -> Forall bar_free s ->
  (2 <= List.length s ->
   witnessed iter g (plans st ++ [mkEnumerationPlan s l r ""])
             (List.length (plans st)) (mkEnumerationPlan s l r "")) ->
  enum_invariant iter g (_add_subset st s l r).
Proof.
  intros [I1 [I2 I3]] Hne Has Hbf Hw; unfold _add_subset; split; [|split]; simpl.
  - intros key Hk; apply set_add_in in Hk; destruct Hk as [->|Hk].
    + eexists; split; [apply in_or_app; right; left; reflexivity | reflexivity].
    + destruct (I1 key Hk) as [pl [Hp Hs]].
      exists pl; split; [apply in_or_app; left; exact Hp | exact Hs].
  - intros pl Hp; apply in_app_iff in Hp; destruct Hp as [Hp|[<-|[]]]; auto.
  - intros i p Hn Hlen.
    destruct (Nat.lt_ge_cases i (List.length (plans st))) as [Hi|Hi].
    + rewrite nth_error_app1 in Hn by exact Hi.
      apply witnessed_app; apply I3; assumption.
    + rewrite nth_error_app2 in Hn by exact Hi.
      destruct (i - List.length (plans st)) as [|k] eqn:Hk.
      * simpl in Hn; inversion Hn; subst p.
        assert (i = List.length (plans st)) by lia; subst i.
        apply Hw; exact Hlen.
      * simpl in Hn; destruct k; discriminate.
Qed.

Lemma in_plans_index (ps : list EnumerationPlan) (pl : EnumerationPlan) :
  In pl ps -> exists j, j < List.length ps /\ nth_error ps j = Some pl.
Proof.
  intros H; apply In_nth_error in H; destruct H as [j Hj].
  exists j; split; [apply nth_error_Some; congruence | exact Hj].
Qed.

Lemma decomposition_witnessed (st : enum_state) (s : list string) (dec : Decomposition) :
  enum_invariant iter g st ->
  s <> [] -> ascending s -> NoDup s -> Forall bar_free s ->
  _find_valid_decomposition iter g (dp_table st) s = Some dec ->
  witnessed iter g
    (plans st ++ [mkEnumerationPlan s (Some (dec_left dec)) (Some (dec_right dec)) ""])
    (List.length (plans st))
    (mkEnumerationPlan s (Some (dec_left dec)) (Some (dec_right dec)) "").
Proof.
  intros [I1 [I2 I3]] Hne Has Hnd Hbf Hd.
  apply find_valid_decomposition_spec in Hd.
  destruct Hd as [left_size [lt [Hsz [Hlt Hd]]]].
  apply try_split_spec in Hd; destruct Hd as [El [Er [Kl [Kr Hj]]]].
  rewrite El, Er.
  pose proof (combinations_length _ _ _ Hlt) as Hlen.
  pose proof (combinations_incl _ _ _ Hlt) as Hin.
  assert (Hls : forall x, In x (mk_set lt) -> In x s).
  { intros x Hx; apply (proj1 (mk_set_in _ _)) in Hx; apply sorted_in, Hin, Hx. }
  assert (Nl : mk_set lt <> [])
    by (apply mk_set_nonempty; destruct lt; simpl in *; [lia | congruence]).
  assert (Nr : set_diff s (mk_set lt) <> []).
  { apply set_diff_nonempty; [exact Hnd|].
    pose proof (mk_set_length lt); lia. }
  assert (Al : ascending (mk_set lt)) by apply sorted_ascending.
  assert (Ar : ascending (set_diff s (mk_set lt))) by (apply ascending_filter; exact Has).
  assert (Bl : Forall bar_free (mk_set lt)).
  { apply Forall_forall; intros x Hx.
    rewrite Forall_forall in Hbf; apply Hbf, Hls, Hx. }
  assert (Br : Forall bar_free (set_diff s (mk_set lt))).
  { apply Forall_forall; intros x Hx; apply set_diff_in in Hx.
    rewrite Forall_forall in Hbf; apply Hbf; tauto. }
  assert (earlier : forall t, t <> [] -> ascending t -> Forall bar_free t ->
            In (_canonical_key t) (dp_table st) ->
            exists j pl, j < List.length (plans st)
              /\ nth_error (plans st ++ [mkEnumerationPlan s (Some (mk_set lt))
                                           (Some (set_diff s (mk_set lt))) ""]) j = Some pl
              /\ subset pl = t).
  { intros t Nt At Bt Kt.
    destruct (I1 _ Kt) as [pl [Hp Hk]].
    destruct (I2 pl Hp) as [Np [Ap Bp]].
    destruct (in_plans_index _ _ Hp) as [j [Hj' Hn]].
    exists j, pl; split; [exact Hj'|]; split.
    - rewrite nth_error_app1; assumption.
    - apply canonical_key_injective; assumption. }
  exists (mk_set lt), (set_diff s (mk_set lt)); simpl.
  split; [reflexivity|]; split; [reflexivity|].
  split; [apply earlier; assumption|].
  split; [apply earlier; assumption|].
  split; [|split; [|exact Hj]].
  - intros x Hx Hr; apply set_diff_in in Hr; tauto.
  - intros x; rewrite set_diff_in; split.
    + intros Hx; destruct (in_dec string_dec x (mk_set lt)); auto.
    + intros [Hx|[Hx _]]; auto.
Qed.

Lemma enumerate_candidate_invariant (relations : list string) (level : nat)
  (acc : enum_state * nat) (c : list string) :
  Forall bar_free relations -> 1 <= level ->
  In c (combinations relations level) ->
  enum_invariant iter g (fst acc) ->
  enum_invariant iter g (fst (enumerate_candidate iter g level acc c)).
Proof.
  intros Hbf Hl Hc Hi; unfold enumerate_candidate.
  pose proof (combinations_length _ _ _ Hc) as Hlen.
  pose proof (combinations_incl _ _ _ Hc) as Hin.
  assert (Ns : mk_set c <> [])
    by (apply mk_set_nonempty; destruct c; simpl in *; [lia | congruence]).
  assert (As : ascending (mk_set c)) by apply sorted_ascending.
  assert (Bs : Forall bar_free (mk_set c)).
  { apply Forall_forall; intros x Hx; apply (proj1 (mk_set_in _ _)) in Hx.
    rewrite Forall_forall in Hbf; apply Hbf, Hin, Hx. }
  destruct (negb (is_connected iter g (mk_set c))); [exact Hi|].
  destruct (Nat.eqb_spec level 1) as [->|Hn]; simpl.
  - apply add_subset_invariant; try assumption.
    intros H2; pose proof (mk_set_length c); lia.
  - destruct (_find_valid_decomposition iter g _ _) as [dec|] eqn:Hd; [|exact Hi].
    simpl; apply add_subset_invariant; try assumption.
    intros _; apply decomposition_witnessed; try assumption.
    apply mk_set_nodup.
Qed.

Lemma enumerate_level_invariant (relations : list string) (level : nat)
  (st : enum_state) :
  Forall bar_free relations -> 1 <= level ->
  enum_invariant iter g st ->
  enum_invariant iter g (fst (_enumerate_level iter g st level relations)).
Proof.
  intros Hbf Hl; unfold _enumerate_level.
  assert (Hc : forall c, In c (combinations relations level) ->
                         In c (combinations relations level)) by auto.
  revert Hc; generalize (combinations relations level) at 1 3 as cs.
  generalize 0 as n; intros n cs; revert st n.
  induction cs as [|c cs IH]; intros st n Hc Hi; simpl; [exact Hi|].
  destruct (enumerate_candidate iter g level (st, n) c) as [st' n'] eqn:He.
  apply IH; [intros c' Hc'; apply Hc; right; exact Hc'|].
  change st' with (fst (st', n')); rewrite <- He.
  eapply enumerate_candidate_invariant; try eassumption.
  apply Hc; left; reflexivity.
Qed.

Lemma enumerate_levels_invariant (relations : list string) (levels : list nat) :
  Forall bar_free relations ->
  Forall (fun level => 1 <= level) levels ->
  enum_invariant iter g (fst (enumerate_levels iter g relations levels)).
Proof.
  intros Hbf Hl; unfold enumerate_levels.
  assert (H0 : enum_invariant iter g (fst (mkEnumState [] [], @nil (nat * nat)))).
  { split; [|split]; simpl.
    - intros key [].
    - intros pl [].
    - intros i p Hn; destruct i; discriminate. }
  revert H0; generalize (mkEnumState [] [], @nil (nat * nat)) as acc.
  induction levels as [|level levels IH]; intros acc H0; simpl; [exact H0|].
  inversion Hl as [|? ? Hlevel Hrest]; subst.
  apply IH; [exact Hrest|]; simpl.
  apply enumerate_level_invariant; assumption.
Qed.

End WitnessInvariant.

(** C4.  In the emitted plan sequence every plan of two or more relations
    carries a decomposition [(left, right)] whose two sides are the subsets
    of plans strictly earlier in the sequence, are disjoint, have the subset
    as their union, and satisfy [can_join].  Aliases are taken without the
    character of the key delimiter, which the canonical key relies on. *)
Theorem witness_decomposition
  (iter : list string -> list string) (g : JoinGraph)
  (relations : list string) (max_level : Z) (i : nat) (p : EnumerationPlan) :
  Forall bar_free relations ->
  nth_error (all_plans (enumerate_subsets iter g relations max_level)) i = Some p ->
  2 <= List.length (subset p) ->
  exists l r,
    left p = Some l /\ right p = Some r
    /\ (exists j pl,
          j < i
          /\ nth_error (all_plans (enumerate_subsets iter g relations max_level)) j = Some pl
          /\ subset pl = l)
    /\ (exists j pr,
          j < i
          /\ nth_error (all_plans (enumerate_subsets iter g relations max_level)) j = Some pr
          /\ subset pr = r)
    /\ (forall x, In x l -> ~ In x r)
    /\ (forall x, In x (subset p) <-> In x l \/ In x r)
    /\ can_join iter g l r = true.
Proof.
  intros Hbf Hn Hlen.
  unfold enumerate_subsets in *; simpl in *.
  assert (Hs : Forall bar_free (sorted relations)).
  { apply Forall_forall; intros x Hx; apply (proj1 (sorted_in _ _)) in Hx.
    rewrite Forall_forall in Hbf; apply Hbf, Hx. }
  destruct (@enumerate_levels_invariant iter g (sorted relations)
              (level_range (List.length (sorted relations)) max_level) Hs)
    as [_ [_ I3]].
  - apply Forall_forall; intros k Hk; unfold level_range in Hk; apply in_seq in Hk; lia.
  - exact (I3 i p Hn Hlen).
Qed.

Lemma witness_decomposition_witness :
  Forall bar_free ["A"; "B"; "C"]
  /\ nth_error (all_plans (enumerate_subsets iter_ascending (join_graph parsed_chain)
                             ["A"; "B"; "C"] 20)) 6
     = Some (mkEnumerationPlan ["A"; "B"; "C"] (Some ["A"]) (Some ["B"; "C"]) "")
  /\ exists l r,
      Some ["A"] = Some l /\ Some ["B"; "C"] = Some r
      /\ (exists j pl,
            j < 6
            /\ nth_error (all_plans (enumerate_subsets iter_ascending
                                       (join_graph parsed_chain) ["A"; "B"; "C"] 20)) j
               = Some pl
            /\ subset pl = l)
      /\ (exists j pr,
            j < 6
            /\ nth_error (all_plans (enumerate_subsets iter_ascending
                                       (join_graph parsed_chain) ["A"; "B"; "C"] 20)) j
               = Some pr
            /\ subset pr = r)
      /\ (forall x, In x l -> ~ In x r)
      /\ (forall x, In x ["A"; "B"; "C"] <-> In x l \/ In x r)
      /\ can_join iter_ascending (join_graph parsed_chain) l r = true.
Proof.
  assert (Hb : Forall bar_free ["A"; "B"; "C"])
    by (repeat constructor; unfold bar_free; simpl; intuition discriminate).
  assert (Hn : nth_error (all_plans (enumerate_subsets iter_ascending
                                       (join_graph parsed_chain) ["A"; "B"; "C"] 20)) 6
               = Some (mkEnumerationPlan ["A"; "B"; "C"] (Some ["A"]) (Some ["B"; "C"]) ""))
    by (vm_compute; reflexivity).
  split; [exact Hb|]; split; [exact Hn|].
  refine (@witness_decomposition iter_ascending (join_graph parsed_chain)
            ["A"; "B"; "C"] 20 6 _ Hb Hn _).
  simpl; lia.
Defined.

(** C4 as stated fails when an alias contains the key delimiter: with the
    quoted alias ["b|||c"] the key of the singleton {b|||c} is the key of
    {b, c}, so the plan of {a, b, c} is admitted with the right side {b, c},
    which is the subset of no plan. *)
Lemma delimiter_alias_breaks_witness :
  parse_sql 100 ast_bar = Some parsed_bar
  /\ nth_error (all_plans (driver_enumerate iter_ascending parsed_bar 20)) 6
     = Some (mkEnumerationPlan ["a"; "b"; "c"] (Some ["a"]) (Some ["b"; "c"]) "")
  /\ ~ exists pr,
        In pr (all_plans (driver_enumerate iter_ascending parsed_bar 20))
        /\ subset pr = ["b"; "c"].
Proof.
  split; [vm_compute; reflexivity|].
  split; [vm_compute; reflexivity|].
  intros [pr [Hin Hs]].
  vm_compute in Hin.
  repeat (destruct Hin as [<-|Hin]; [discriminate Hs|]).
  exact Hin.
Qed.

(** ** Connectivity (claim C6) *)

Lemma are_in_same_ec_sym (g : JoinGraph) (a b : string) :
  are_in_same_ec g a b = are_in_same_ec g b a.
Proof.
  unfold are_in_same_ec.
  induction (equivalence_classes g) as [|ec ecs IH]; simpl; [reflexivity|].
  rewrite IH, (andb_comm (existsb (column_of a) ec)); reflexivity.
Qed.

Lemma set_add_nodup (x : string) (s : list string) : NoDup s -> NoDup (set_add x s).
Proof.
  intros Hn; unfold set_add; destruct (mem x s) eqn:Hm; [exact Hn|].
  apply mem_false in Hm.
  eapply Permutation_NoDup;
    [apply Permutation_sym, insert_sorted_perm | constructor; assumption].
Qed.

Lemma set_remove_length (x : string) (s : list string) :
  NoDup s -> In x s -> S (List.length (set_remove x s)) = List.length s.
Proof.
  unfold set_remove; induction 1 as [|y s Hy Hn IH]; simpl; [tauto|].
  intros [->|Hx].
  - rewrite String.eqb_refl; simpl; f_equal.
    clear IH; induction s as [|z s IHs]; simpl; [reflexivity|].
    destruct (String.eqb_spec x z) as [->|_];
      [exfalso; apply Hy; left; reflexivity|].
    simpl; f_equal; apply IHs.
    + intros H; apply Hy; right; exact H.
    + inversion Hn; assumption.
  - destruct (String.eqb_spec x y) as [->|_]; [contradiction|].
    simpl; f_equal; apply IH; exact Hx.
Qed.

Lemma filter_length_lt (A : Type) (f : A -> bool) (l : list A) (x : A) :
  In x l -> f x = false -> List.length (filter f l) < List.length l.
Proof.
  induction l as [|y l IH]; simpl; [tauto|].
  intros [->|Hx] Hf.
  - rewrite Hf; pose proof (filter_length_le f l); lia.
  - specialize (IH Hx Hf); destruct (f y); simpl; lia.
Qed.

Section Cut.

Variable iter : list string -> list string.
Variable g : JoinGraph.
Hypothesis iter_perm : forall x, Permutation (iter x) x.

(** The traversal never leaves a side of the subset that no class crosses. *)
Section Side.

Variable s : list string.
Variable side : string -> bool.
Hypothesis closed_side :
  forall a b, In a s -> In b s -> side a = true ->
              are_in_same_ec g a b = true -> side b = true.

Local Abbreviation inside := (fun l : list string =>
                               forall x, In x l -> side x = true /\ In x s).

Lemma bfs_visit_inside (current : string) (others : list string)
  (vq : list string * list string) :
  side current = true -> In current s -> incl others s ->
  inside (fst vq) -> inside (snd vq) -> NoDup (fst vq) ->
  let vq' := fold_left (bfs_visit g current) others vq in
  inside (fst vq') /\ inside (snd vq') /\ NoDup (fst vq').
Proof.
  intros Hc Hcs; revert vq; induction others as [|o others IH];
    intros vq Ho Hv Hq Hn; simpl.
  - auto.
  - apply IH; [intros x Hx; apply Ho; right; exact Hx | | | ];
      unfold bfs_visit;
      destruct (negb (mem o (fst vq)) && are_in_same_ec g current o) eqn:Hb;
      try assumption; simpl;
      apply andb_prop in Hb; destruct Hb as [_ Hb];
      assert (Hs : side o = true /\ In o s)
        by (split; [apply (@closed_side current o Hcs (Ho o (or_introl eq_refl)) Hc Hb)
                   | apply Ho; left; reflexivity]).
    + intros x Hx; apply set_add_in in Hx; destruct Hx as [->|Hx]; auto.
    + intros x Hx; apply in_app_iff in Hx; destruct Hx as [Hx|[<-|[]]]; auto.
    + apply set_add_nodup; exact Hn.
Qed.

Lemma bfs_inside (fuel : nat) (visited queue : list string) :
  inside visited -> inside queue -> NoDup visited ->
  inside (fst (bfs fuel g (iter s) visited queue))
  /\ NoDup (fst (bfs fuel g (iter s) visited queue)).
Proof.
  revert visited queue; induction fuel as [|fuel IH]; intros visited queue Hv Hq Hn; simpl.
  - auto.
  - destruct queue as [|current queue']; simpl; [auto|].
    destruct (@bfs_visit_inside current (iter s) (visited, queue')) as [H1 [H2 H3]];
      try assumption.
    + apply Hq; left; reflexivity.
    + apply Hq; left; reflexivity.
    + intros x Hx; eapply Permutation_in; [apply iter_perm | exact Hx].
    + intros x Hx; apply Hq; right; exact Hx.
    + apply IH; assumption.
Qed.

(** A connected subset has no proper side closed under shared classes. *)
Lemma connected_not_closed (start outsider : string) (rest : list string) :
  2 <= List.length s ->
  iter s = start :: rest -> side start = true ->
  In outsider s -> side outsider = false ->
  is_connected iter g s = false.
Proof.
  intros Hl Hi Hs Ho Hf; unfold is_connected.
  destruct (Nat.leb_spec (List.length s) 1) as [H|_]; [lia|].
  rewrite Hi.
  assert (Hin : In start s)
    by (eapply Permutation_in; [apply iter_perm | rewrite Hi; left; reflexivity]).
  destruct (@bfs_inside (List.length s) [start] [start]) as [H1 H2].
  - intros x [<-|[]]; auto.
  - intros x [<-|[]]; auto.
  - constructor; [intros [] | constructor].
  - rewrite <- Hi.
    set (visited := fst (bfs (List.length s) g (iter s) [start] [start])) in *.
    assert (Hv : incl visited (filter side s)).
    { intros x Hx; apply filter_In; destruct (H1 x Hx); auto. }
    pose proof (NoDup_incl_length H2 Hv) as Hle.
    pose proof (filter_length_lt side s outsider Ho Hf) as Hlt.
    apply Nat.eqb_neq; lia.
Qed.

End Side.

(** A connected subset split in two non-empty parts has a pair of
    relations, one in each part, that share an equivalence class. *)
Lemma connected_crosses (s : list string) (side : string -> bool) (x y : string) :
  2 <= List.length s ->
  is_connected iter g s = true ->
  In x s -> side x = true -> In y s -> side y = false ->
  exists a b,
    In a s /\ In b s /\ side a = true /\ side b = false
    /\ are_in_same_ec g a b = true.
Proof.
  intros Hl Hc Hx Sx Hy Sy.
  set (crossing := fun a b => side a && negb (side b) && are_in_same_ec g a b).
  destruct (existsb (fun a => existsb (crossing a) s) s) eqn:He.
  - apply existsb_exists in He; destruct He as [a [Ha He]].
    apply existsb_exists in He; destruct He as [b [Hb He]].
    unfold crossing in He.
    apply andb_prop in He; destruct He as [He E3].
    apply andb_prop in He; destruct He as [E1 E2].
    exists a, b; repeat split; try assumption.
    destruct (side b); [discriminate | reflexivity].
  - exfalso.
    assert (Hno : forall a b, In a s -> In b s -> side a = true -> side b = false ->
                              are_in_same_ec g a b = false).
    { intros a b Ha Hb Sa Sb.
      destruct (are_in_same_ec g a b) eqn:E; [|reflexivity].
      assert (Hf : existsb (fun a => existsb (crossing a) s) s = true).
      { apply existsb_exists; exists a; split; [exact Ha|].
        apply existsb_exists; exists b; split; [exact Hb|].
        unfold crossing; rewrite Sa, Sb, E; reflexivity. }
      congruence. }
    destruct (iter s) as [|start rest] eqn:Hi.
    + pose proof (Permutation_length (iter_perm s)) as Hp.
      rewrite Hi in Hp; simpl in Hp; lia.
    + assert (Hin : In start s)
        by (eapply Permutation_in; [apply iter_perm | rewrite Hi; left; reflexivity]).
      destruct (side start) eqn:Ss.
      * rewrite (@connected_not_closed s side) with (start := start) (rest := rest)
                                                   (outsider := y) in Hc;
          try assumption; [discriminate|].
        intros a b Ha Hb Sa E.
        destruct (side b) eqn:Sb; [reflexivity|].
        rewrite (Hno a b Ha Hb Sa Sb) in E; discriminate.
      * rewrite (@connected_not_closed s (fun t => negb (side t)))
          with (start := start) (rest := rest) (outsider := x) in Hc;
          try assumption; try (rewrite ?Ss, ?Sx; reflexivity); [discriminate|].
        intros a b Ha Hb Sa E.
        destruct (side b) eqn:Sb; [|reflexivity].
        destruct (side a) eqn:Sa'; [discriminate|].
        rewrite are_in_same_ec_sym, (Hno b a Hb Ha Sb Sa') in E; discriminate.
Qed.

End Cut.

Section JoinTree.

Variable iter : list string -> list string.
Variable alias_map : list (string * string).
Variable g : JoinGraph.
Variable s : list string.
Hypothesis iter_perm : forall x, Permutation (iter x) x.
Hypothesis two : 2 <= List.length s.
Hypothesis connected : is_connected iter g s = true.
Hypothesis complete : edge_complete g s.

Lemma has_detail_predicates (a b : string) :
  has_detail g a b -> _find_join_predicates g [a] [b] <> [].
Proof.
  unfold has_detail; intros H E.
  destruct (details_at g (edge_key a b)) as [|d ds] eqn:Hd; [congruence|].
  assert (Hi : In (detail_predicate d) (_find_join_predicates g [a] [b])).
  { apply find_join_predicates_in; exists d; split; [|reflexivity].
    rewrite Hd; left; reflexivity. }
  rewrite E in Hi; destruct Hi.
Qed.

(** With tables remaining, the search finds one. *)
Lemma splits_finds_next (jt : join_tree) :
  splits s jt -> remaining_tables jt <> [] ->
  _find_next_table_for_join_tree iter g (added_tables jt) (remaining_tables jt) <> None.
Proof.
  intros [Hs [Hd [Ha Hn]]] Hr.
  destruct (added_tables jt) as [|x xs] eqn:Ex; [congruence|].
  destruct (remaining_tables jt) as [|y ys] eqn:Ey; [congruence|].
  destruct (@connected_crosses iter g iter_perm s (fun t => mem t (x :: xs)) x y)
    as [a [b [Has [Hbs [Sa [Sb E]]]]]]; try assumption.
  - apply Hs; left; left; reflexivity.
  - apply mem_in; left; reflexivity.
  - apply Hs; right; left; reflexivity.
  - apply mem_false; intros Hy; apply (Hd y Hy); left; reflexivity.
  - apply mem_in in Sa; apply mem_false in Sb.
    assert (Hb : In b (y :: ys)) by (apply Hs in Hbs; tauto).
    apply (@find_next_complete iter g (x :: xs) (y :: ys) a b).
    + eapply Permutation_in; [apply Permutation_sym, iter_perm | exact Sa].
    + exact Hb.
    + apply has_detail_predicates, complete; try assumption.
      intros ->; contradiction.
Qed.

Lemma splits_step (jt : join_tree) :
  splits s jt -> remaining_tables jt <> [] ->
  exists jt',
    join_step iter alias_map g jt = Some jt'
    /\ splits s jt'
    /\ S (List.length (remaining_tables jt')) = List.length (remaining_tables jt).
Proof.
  intros Hsp Hr.
  pose proof (splits_finds_next Hsp Hr) as Hf.
  destruct Hsp as [Hs [Hd [Ha Hn]]].
  unfold join_step.
  destruct (remaining_tables jt) as [|y ys] eqn:Ey; [congruence|].
  destruct (_find_next_table_for_join_tree iter g (added_tables jt) (y :: ys))
    as [nt|] eqn:En; [|congruence].
  apply find_next_sound in En; destruct En as [Hin [a [pred [_ [Hp _]]]]].
  rewrite Hp; eexists; split; [reflexivity|]; cbn [added_tables remaining_tables].
  split; [split; [|split; [|split]]|]; cbn [added_tables remaining_tables].
  - intros x; rewrite set_add_in, set_remove_in, Hs.
    destruct (string_dec x (nt_table nt)) as [->|Hx]; tauto.
  - intros x Hx Hx'; apply set_add_in in Hx; apply set_remove_in in Hx'.
    destruct Hx as [->|Hx]; [tauto | apply (Hd x Hx); tauto].
  - intros E.
    assert (Hi : In (nt_table nt) (set_add (nt_table nt) (added_tables jt)))
      by (apply set_add_in; left; reflexivity).
    rewrite E in Hi; destruct Hi.
  - apply NoDup_filter; exact Hn.
  - apply set_remove_length; assumption.
Qed.

Lemma splits_loop (n : nat) (jt : join_tree) :
  splits s jt ->
  splits s (join_loop iter alias_map g n jt)
  /\ (List.length (remaining_tables jt) <= n ->
      remaining_tables (join_loop iter alias_map g n jt) = []).
Proof.
  revert jt; induction n as [|n IH]; intros jt Hsp; simpl.
  - split; [exact Hsp|].
    intros Hl; destruct (remaining_tables jt); [reflexivity | simpl in Hl; lia].
  - destruct (remaining_tables jt) as [|y ys] eqn:Ey.
    + unfold join_step; rewrite Ey; split; [exact Hsp | intros _; exact Ey].
    + destruct (@splits_step jt Hsp) as [jt' [Hj [Hsp' Hl']]]; [congruence|].
      rewrite Hj; destruct (IH jt' Hsp') as [H1 H2].
      split; [exact H1|].
      intros Hl; apply H2; rewrite Ey in Hl'; simpl in *; lia.
Qed.

Lemma initial_splits (first : string) (rest : list string) :
  NoDup s -> sorted s = first :: rest ->
  splits s (initial_tree alias_map first rest).
Proof.
  intros Hn Hs; unfold initial_tree, splits; simpl.
  assert (Hp : Permutation (first :: rest) s)
    by (rewrite <- Hs; apply sorted_by_perm).
  assert (Hn' : NoDup (first :: rest))
    by (eapply Permutation_NoDup; [apply Permutation_sym, Hp | exact Hn]).
  inversion Hn' as [|? ? Hf Hr]; subst.
  split; [|split; [|split]].
  - intros x; rewrite mk_set_in; split.
    + intros Hx; apply (Permutation_in _ (Permutation_sym Hp)) in Hx.
      destruct Hx as [<-|Hx]; auto.
    + intros [[<-|[]]|Hx]; apply (Permutation_in _ Hp); [left | right]; auto.
  - intros x [<-|[]] Hx; apply (proj1 (mk_set_in _ _)) in Hx; contradiction.
  - discriminate.
  - apply mk_set_nodup.
Qed.

End JoinTree.

(** For a subset of two or more relations that is connected and in which
    any two relations sharing an equivalence class have a stored join
    detail, every step of the left-deep construction finds a next relation:
    the loop never reaches the state in which it gives up, and it ends with
    every relation of the subset attached. *)
Lemma join_loop_attaches_all
  (iter : list string -> list string) (alias_map : list (string * string))
  (g : JoinGraph) (s : list string) (first : string) (rest : list string) :
  (forall x, Permutation (iter x) x) ->
  NoDup s ->
  2 <= List.length s ->
  is_connected iter g s = true ->
  edge_complete g s ->
  sorted s = first :: rest ->
  (forall n,
     ~ gives_up iter g (join_loop iter alias_map g n (initial_tree alias_map first rest)))
  /\ remaining_tables (build_join_tree iter alias_map g first rest) = []
  /\ (forall x,
        In x s <-> In x (added_tables (build_join_tree iter alias_map g first rest))).
Proof.
  intros Hp Hn Hl Hc He Hs.
  pose proof (@initial_splits alias_map s first rest Hn Hs) as H0.
  split; [|split].
  - intros n [Hr Hf].
    destruct (@splits_loop iter alias_map g s Hp Hl Hc He n _ H0) as [Hsp _].
    exact (@splits_finds_next iter g s Hp Hl Hc He _ Hsp Hr Hf).
  - unfold build_join_tree.
    apply (@splits_loop iter alias_map g s Hp Hl Hc He _ _ H0); apply Nat.le_refl.
  - unfold build_join_tree.
    destruct (@splits_loop iter alias_map g s Hp Hl Hc He
                (List.length (mk_set rest)) _ H0) as [[H1 _] H2].
    fold (initial_tree alias_map first rest) in H1.
    intros x; rewrite (H1 x).
    fold (initial_tree alias_map first rest).
    rewrite (H2 (Nat.le_refl _)); simpl; tauto.
Qed.

(** C6.  The guarantee fails on the query with dotted names.  The front
    end reads from it the relations [X], [a], [Y], [a.b] and the join
    conditions [X.p = a."b.c"] and [Y.q = "a.b".c].  Equivalence classes are
    sets of ["table.column"] strings, and the columns [b.c] of [a] and [c]
    of [a.b] are one string, so [X] and [Y] share a class: [is_connected]
    holds on {X, Y} and the enumerator admits the subset.  No join detail is
    stored between [X] and [Y], so the first round of the left-deep
    construction finds no next relation and takes the branch that gives up:
    the emitted text has [X] alone in its FROM clause, and a WHERE clause
    over [Y]. *)
Theorem dotted_names_break_join_tree :
  ast_dotted
  = mkQueryAst ["X"; "a"; "Y"; "a.b"]
               [("X", "X"); ("a", "a"); ("Y", "Y"); ("a.b", "t")]
               [mkJoinCondition "X" "p" "a" "b.c"; mkJoinCondition "Y" "q" "a.b" "c"]
               [(("X.p = a." ++ dquote ++ "b.c" ++ dquote)%string, ["X"; "a"]);
                (("Y.q = " ++ dquote ++ "a.b" ++ dquote ++ ".c")%string, ["Y"; "a.b"]);
                ("Y.k > 1", ["Y"])]
  /\ parse_sql 100 ast_dotted = Some parsed_dotted
  /\ is_connected iter_ascending (join_graph parsed_dotted) ["X"; "Y"] = true
  /\ In (mkEnumerationPlan ["X"; "Y"] (Some ["X"]) (Some ["Y"]) "")
        (all_plans (driver_enumerate iter_ascending parsed_dotted 20))
  /\ details_at (join_graph parsed_dotted) (edge_key "X" "Y") = []
  /\ gives_up iter_ascending (join_graph parsed_dotted)
              (initial_tree (aliases parsed_dotted) "X" ["Y"])
  /\ render iter_ascending parsed_dotted ["X"; "Y"] (Some ["X"]) (Some ["Y"])
     = Some ("SELECT * FROM X" ++ newline ++ "WHERE Y.k > 1;")%string.
Proof.
  split; [vm_compute; reflexivity|].
  split; [vm_compute; reflexivity|].
  split; [vm_compute; reflexivity|].
  split; [vm_compute; tauto|].
  split; [vm_compute; reflexivity|].
  split; [|vm_compute; reflexivity].
  split; [vm_compute; discriminate | vm_compute; reflexivity].
Qed.

(** ** The traversal of [is_connected] ends within [len(subset)] rounds *)

Lemma unvisited_add (s visited : list string) (o : string) :
  NoDup s -> In o s -> ~ In o visited ->
  S (List.length (unvisited s (set_add o visited))) = List.length (unvisited s visited).
Proof.
  unfold unvisited; intros Hn Ho Hv.
  induction Hn as [|y s Hy Hn IH]; simpl; [destruct Ho|].
  assert (Hadd : forall x, mem x (set_add o visited)
                           = String.eqb x o || mem x visited).
  { intros x; destruct (mem x (set_add o visited)) eqn:E.
    - apply mem_in, set_add_in in E; destruct E as [->|E].
      + rewrite String.eqb_refl; reflexivity.
      + apply mem_in in E; rewrite E, orb_true_r; reflexivity.
    - apply mem_false in E; symmetry; apply orb_false_iff; split.
      + apply String.eqb_neq; intros ->; apply E, set_add_in; left; reflexivity.
      + apply mem_false; intros H; apply E, set_add_in; right; exact H. }
  destruct Ho as [->|Ho].
  - rewrite (Hadd o), String.eqb_refl; simpl.
    apply mem_false in Hv; rewrite Hv; simpl; f_equal.
    f_equal; apply filter_ext_in; intros x Hx.
    rewrite Hadd.
    destruct (String.eqb_spec x o) as [->|_]; [contradiction | reflexivity].
  - rewrite (Hadd y).
    destruct (String.eqb_spec y o) as [->|_]; [contradiction|]; simpl.
    destruct (mem y visited); simpl; [apply IH; exact Ho|].
    f_equal; apply IH; exact Ho.
Qed.

Section Traversal.

Variable g : JoinGraph.
Variable s : list string.
Hypothesis s_nodup : NoDup s.

(** Visiting the relations [others] of [s] from [current] moves them from
    the unvisited relations to the queue. *)
Lemma bfs_visit_measure (current : string) (others : list string)
  (vq : list string * list string) :
  incl others s ->
  let vq' := fold_left (bfs_visit g current) others vq in
  List.length (unvisited s (fst vq')) + List.length (snd vq')
  = List.length (unvisited s (fst vq)) + List.length (snd vq).
Proof.
  revert vq; induction others as [|o others IH]; intros vq Ho; simpl; [reflexivity|].
  rewrite IH by (intros x Hx; apply Ho; right; exact Hx).
  unfold bfs_visit.
  destruct (mem o (fst vq)) eqn:Hm; simpl; [reflexivity|].
  destruct (are_in_same_ec g current o); simpl; [|reflexivity].
  apply mem_false in Hm.
  pose proof (@unvisited_add s (fst vq) o s_nodup (Ho o (or_introl eq_refl)) Hm) as H.
  rewrite length_app; simpl; lia.
Qed.

Lemma bfs_ends (others : list string) (fuel : nat) (visited queue : list string) :
  incl others s ->
  List.length (unvisited s visited) + List.length queue <= fuel ->
  snd (bfs fuel g others visited queue) = []
  /\ forall extra,
      bfs (fuel + extra) g others visited queue = bfs fuel g others visited queue.
Proof.
  intros Ho; revert visited queue; induction fuel as [|fuel IH];
    intros visited queue Hm.
  - destruct queue as [|c q]; [|simpl in Hm; lia].
    split; [reflexivity|]; intros [|extra]; reflexivity.
  - destruct queue as [|c q]; [split; [reflexivity | intros extra; reflexivity]|].
    cbn [bfs Nat.add].
    pose proof (@bfs_visit_measure c others (visited, q) Ho) as Hv.
    cbn [fst snd] in Hv.
    apply IH; simpl in Hm; lia.
Qed.

End Traversal.

(** [len(subset)] rounds are all the rounds of the [while queue] loop of
    [is_connected]: the queue is empty then, and more rounds change
    nothing. *)
Lemma bfs_fuel_exact (iter : list string -> list string) (g : JoinGraph)
  (s : list string) (start : string) (rest : list string) :
  (forall x, Permutation (iter x) x) -> NoDup s -> iter s = start :: rest ->
  snd (bfs (List.length s) g (iter s) [start] [start]) = []
  /\ forall extra,
      bfs (List.length s + extra) g (iter s) [start] [start]
      = bfs (List.length s) g (iter s) [start] [start].
Proof.
  intros Hp Hn Hi.
  assert (Hin : In start s)
    by (eapply Permutation_in; [apply Hp | rewrite Hi; left; reflexivity]).
  apply bfs_ends with (s := s); [exact Hn | | ].
  - intros x Hx; eapply Permutation_in; [apply Hp | exact Hx].
  - pose proof (@unvisited_add s [] start Hn Hin (fun H => H)) as H.
    assert (E : unvisited s [] = s).
    { unfold unvisited; clear; induction s as [|y l IH]; simpl; [reflexivity|].
      f_equal; exact IH. }
    rewrite E in H; change (set_add start []) with [start] in H.
    cbn [List.length]; lia.
Qed.

(** ** The loop of [_generate_join_query] ends within [len(remaining)] rounds *)

Lemma join_step_remaining (iter : list string -> list string)
  (alias_map : list (string * string)) (g : JoinGraph) (jt jt' : join_tree) :
  join_step iter alias_map g jt = Some jt' ->
  NoDup (remaining_tables jt) ->
  S (List.length (remaining_tables jt')) = List.length (remaining_tables jt)
  /\ NoDup (remaining_tables jt').
Proof.
  unfold join_step.
  destruct (remaining_tables jt) as [|y ys] eqn:Ey; [discriminate|].
  destruct (_find_next_table_for_join_tree iter g _ _) as [nt|] eqn:En; [|discriminate].
  apply find_next_sound in En; destruct En as [Hin _].
  intros H Hn.
  assert (E : remaining_tables jt' = set_remove (nt_table nt) (y :: ys))
    by (destruct (nt_join_pred nt); inversion H; reflexivity).
  rewrite E; split; [apply set_remove_length; assumption | apply NoDup_filter; exact Hn].
Qed.

Lemma join_loop_exact (iter : list string -> list string)
  (alias_map : list (string * string)) (g : JoinGraph) (n : nat) (jt : join_tree) :
  NoDup (remaining_tables jt) -> List.length (remaining_tables jt) <= n ->
  forall extra,
    join_loop iter alias_map g (n + extra) jt = join_loop iter alias_map g n jt.
Proof.
  revert jt; induction n as [|n IH]; intros jt Hn Hl extra.
  - destruct (remaining_tables jt) as [|y ys] eqn:Ey; [|simpl in Hl; lia].
    destruct extra as [|extra]; [reflexivity|]; simpl.
    unfold join_step; rewrite Ey; reflexivity.
  - simpl.
    destruct (join_step iter alias_map g jt) as [jt'|] eqn:Hs; [|reflexivity].
    destruct (join_step_remaining _ _ _ _ Hs Hn) as [Hl' Hn'].
    apply IH; [exact Hn' | lia].
Qed.

(** ** The classifier never raises on its own predicates *)

Lemma add_predicate_ok (c : PredicateClassifier) (p : string) (ts : list string) :
  classifier_ok c -> classifier_ok (add_predicate c p ts).
Proof.
  intros Hc q Hq; unfold add_predicate in *; simpl in *.
  rewrite dict_get_set.
  destruct (String.eqb q p) eqn:E; [discriminate|].
  apply in_app_iff in Hq; destruct Hq as [Hq|[<-|[]]]; [apply Hc; exact Hq|].
  rewrite String.eqb_refl in E; discriminate.
Qed.

Lemma build_classifier_ok (preds : list (string * list string)) :
  classifier_ok (build_classifier preds).
Proof.
  unfold build_classifier.
  assert (H0 : classifier_ok empty_classifier) by (intros p []).
  revert H0; generalize empty_classifier as c.
  induction preds as [|[p ts] preds IH]; intros c H0; simpl; [exact H0|].
  apply IH, add_predicate_ok, H0.
Qed.

Lemma classify_loop_total (c : PredicateClassifier) (ps : list string) :
  (forall p, In p ps -> dict_get p (predicate_tables c) <> None) ->
  exists c',
    classify_loop c ps = Some c'
    /\ all_predicates c' = all_predicates c
    /\ predicate_tables c' = predicate_tables c.
Proof.
  revert c; induction ps as [|p ps IH]; intros c Hc; simpl; [eauto|].
  destruct (dict_get p (predicate_tables c)) as [ts|] eqn:Hd;
    [|exfalso; apply (Hc p); [left; reflexivity | exact Hd]].
  match goal with |- exists c', classify_loop ?c1 ps = _ /\ _ =>
    destruct (IH c1) as [c' [H1 [H2 H3]]] end.
  - intros q Hq.
    destruct (Nat.eqb (List.length ts) 1); [|destruct (Nat.eqb (List.length ts) 2)];
      simpl; apply Hc; right; exact Hq.
  - exists c'; split; [exact H1|].
    rewrite H2, H3.
    destruct (Nat.eqb (List.length ts) 1); [|destruct (Nat.eqb (List.length ts) 2)];
      simpl; auto.
Qed.

Lemma classify_predicates_total (c : PredicateClassifier) :
  classifier_ok c ->
  exists c', classify_predicates c = Some c' /\ classifier_ok c'.
Proof.
  intros Hc; unfold classify_predicates.
  destruct (@classify_loop_total c (all_predicates c) Hc) as [c' [H1 [H2 H3]]].
  exists c'; split; [exact H1|].
  intros p Hp; rewrite H3; apply Hc; rewrite <- H2; exact Hp.
Qed.

Lemma predicates_loop_total (tables_of : list (string * list string))
  (subset_set ps : list string) (acc : PredicateSet) :
  (forall p, In p ps -> dict_get p tables_of <> None) ->
  predicates_loop tables_of subset_set ps acc <> None.
Proof.
  revert acc; induction ps as [|p ps IH]; intros acc Hc; simpl; [discriminate|].
  destruct (dict_get p tables_of) as [ts|] eqn:Hd;
    [|exfalso; apply (Hc p); [left; reflexivity | exact Hd]].
  apply IH; intros q Hq; apply Hc; right; exact Hq.
Qed.

Lemma get_predicates_total (c : PredicateClassifier) (s : list string) :
  classifier_ok c -> get_predicates_for_subset c s <> None.
Proof. intros Hc; apply predicates_loop_total; exact Hc. Qed.

(** With such a classifier the renderer returns a text for every non-empty
    subset. *)
Lemma generate_subquery_total (iter : list string -> list string)
  (alias_map : list (string * string)) (cls : PredicateClassifier) (g : JoinGraph)
  (s : list string) (l r : option (list string)) :
  (forall x, Permutation (iter x) x) -> classifier_ok cls -> s <> [] ->
  generate_subquery iter alias_map cls g s l r <> None.
Proof.
  intros Hp Hc Hs; unfold generate_subquery.
  destruct (Nat.eqb_spec (List.length s) 1) as [E|_].
  - destruct (singleton_iter iter s Hp E) as [table [-> ->]].
    unfold _generate_base_table_query.
    destruct (get_predicates_for_subset cls [table]) as [preds|] eqn:Hg;
      [|exfalso; exact (get_predicates_total [table] Hc Hg)].
    destruct (ps_selections preds); discriminate.
  - unfold _generate_join_query, _build_where_clause.
    destruct (sorted s) as [|first rest] eqn:E.
    + apply (f_equal (@List.length string)) in E; rewrite sorted_length in E.
      destruct s; [congruence | discriminate].
    + destruct (get_predicates_for_subset cls (first :: rest)) as [preds|] eqn:Hg;
        [|exfalso; exact (get_predicates_total (first :: rest) Hc Hg)].
      destruct (where_predicates preds _); simpl; [discriminate|].
      match goal with |- (if ?b then _ else _) <> None => destruct b; discriminate end.
Qed.

(** ** The enumerator does not depend on the iteration order of sets *)

Lemma bfs_visit_visited (g : JoinGraph) (current o x : string)
  (vq : list string * list string) :
  In x (fst (bfs_visit g current vq o)) <->
  In x (fst vq) \/ (x = o /\ are_in_same_ec g current o = true).
Proof.
  unfold bfs_visit.
  destruct (mem o (fst vq)) eqn:Hm; simpl.
  - apply mem_in in Hm; split; [auto | intros [H|[-> _]]; auto].
  - destruct (are_in_same_ec g current o); simpl.
    + rewrite set_add_in; tauto.
    + split; [auto | intros [H|[_ H]]; [exact H | discriminate]].
Qed.

Lemma bfs_visit_queue (g : JoinGraph) (current o x : string)
  (vq : list string * list string) :
  In x (snd (bfs_visit g current vq o)) <->
  In x (snd vq)
  \/ (x = o /\ are_in_same_ec g current o = true /\ ~ In o (fst vq)).
Proof.
  unfold bfs_visit.
  destruct (mem o (fst vq)) eqn:Hm; simpl.
  - apply mem_in in Hm; split; [auto | intros [H|[_ [_ H]]]; tauto].
  - apply mem_false in Hm.
    destruct (are_in_same_ec g current o); simpl.
    + rewrite in_app_iff; simpl; split.
      * intros [H|[<-|[]]]; auto.
      * intros [H|[-> _]]; auto.
    + split; [auto | intros [H|[_ [H _]]]; [exact H | discriminate]].
Qed.

(** One round of the traversal: the relations newly visited are those of
    [others] that share a class with [current], and they are queued. *)
Lemma bfs_visit_round (g : JoinGraph) (current : string) (others : list string)
  (vq : list string * list string) :
  let vq' := fold_left (bfs_visit g current) others vq in
  (forall x, In x (fst vq') <->
             In x (fst vq) \/ (In x others /\ are_in_same_ec g current x = true))
  /\ (forall x, In x (snd vq') ->
                In x (snd vq) \/ (In x others /\ are_in_same_ec g current x = true))
  /\ (forall x, In x (snd vq) -> In x (snd vq'))
  /\ (forall x, In x (fst vq') -> In x (fst vq) \/ In x (snd vq')).
Proof.
  revert vq; induction others as [|o others IH]; intros vq; simpl.
  - repeat split; try tauto; intros x H; tauto.
  - destruct (IH (bfs_visit g current vq o)) as [H1 [H2 [H3 H4]]].
    split; [|split; [|split]].
    + intros x; rewrite H1, bfs_visit_visited; split.
      * intros [[H|[-> E]]|[H E]]; auto.
      * intros [H|[[<-|H] E]]; auto.
    + intros x Hx; apply H2 in Hx; destruct Hx as [Hx|[Hx E]]; [|auto].
      apply bfs_visit_queue in Hx; destruct Hx as [Hx|[-> [E _]]]; auto.
    + intros x Hx; apply H3, bfs_visit_queue; left; exact Hx.
    + intros x Hx; apply H4 in Hx; destruct Hx as [Hx|Hx]; [|auto].
      apply bfs_visit_visited in Hx; destruct Hx as [Hx|[-> E]]; [auto|].
      destruct (in_dec string_dec o (fst vq)) as [Hi|Hi]; [auto|].
      right; apply H3, bfs_visit_queue; right; auto.
Qed.

Section Reachability.

Variable g : JoinGraph.
Variable s : list string.

Lemma reachable_in (start x : string) : In start s -> reachable g s start x -> In x s.
Proof. intros Hs H; destruct H; assumption. Qed.

Lemma reachable_trans (a b c : string) :
  reachable g s a b -> reachable g s b c -> reachable g s a c.
Proof.
  intros Hab Hbc; induction Hbc as [|x y Hx IH Hy E]; [exact Hab|].
  eapply reach_step; eassumption.
Qed.

Lemma reachable_sym (a b : string) :
  In a s -> reachable g s a b -> reachable g s b a.
Proof.
  intros Ha H; induction H as [|x y Hx IH Hy E]; [constructor|].
  apply reachable_trans with x; [|exact IH].
  apply (@reach_step g s y y x (reach_start g s y) (@reachable_in a x Ha Hx)).
  rewrite are_in_same_ec_sym; exact E.
Qed.

Variable start : string.
Variable others : list string.
Hypothesis others_s : forall x, In x others <-> In x s.

(** The traversal visits reachable relations only, and when its queue is
    empty, all of them. *)
Lemma bfs_reachable (fuel : nat) (visited queue : list string) :
  (forall x, In x visited -> reachable g s start x) ->
  (forall x, In x queue -> reachable g s start x) ->
  forall x, In x (fst (bfs fuel g others visited queue)) -> reachable g s start x.
Proof.
  revert visited queue; induction fuel as [|fuel IH]; intros visited queue Hv Hq; simpl;
    [exact Hv|].
  destruct queue as [|current queue]; [exact Hv|].
  destruct (bfs_visit_round g current others (visited, queue)) as [H1 [H2 _]].
  simpl in H1, H2.
  assert (Hc : reachable g s start current) by (apply Hq; left; reflexivity).
  apply IH.
  - intros x Hx; apply H1 in Hx; destruct Hx as [Hx|[Hx E]]; [auto|].
    eapply reach_step; [exact Hc | apply others_s; exact Hx | exact E].
  - intros x Hx; apply H2 in Hx; destruct Hx as [Hx|[Hx E]];
      [apply Hq; right; exact Hx|].
    eapply reach_step; [exact Hc | apply others_s; exact Hx | exact E].
Qed.

Lemma bfs_settled (fuel : nat) (visited queue : list string) :
  settled g s visited queue ->
  settled g s (fst (bfs fuel g others visited queue))
          (snd (bfs fuel g others visited queue))
  /\ forall x, In x visited -> In x (fst (bfs fuel g others visited queue)).
Proof.
  revert visited queue; induction fuel as [|fuel IH]; intros visited queue Hs; simpl;
    [auto|].
  destruct queue as [|current queue]; [auto|].
  destruct (bfs_visit_round g current others (visited, queue)) as [H1 [H2 [H3 H4]]].
  simpl in H1, H2, H3, H4.
  match goal with |- context [bfs fuel g others ?v ?q] =>
    destruct (IH v q) as [I1 I2] end.
  - intros x Hx.
    destruct (H4 x Hx) as [Hv|Hq]; [|left; exact Hq].
    destruct (Hs x Hv) as [[<-|Hq]|Hc].
    + right; intros y Hy E; apply H1; right; split; [apply others_s; exact Hy | exact E].
    + left; apply H3; exact Hq.
    + right; intros y Hy E; apply H1; left; apply Hc; assumption.
  - split; [exact I1|].
    intros x Hx; apply I2, H1; left; exact Hx.
Qed.

End Reachability.

(** What [is_connected] decides: every relation of the subset is reached
    from the first relation the iteration yields. *)
Lemma is_connected_reachable (iter : list string -> list string) (g : JoinGraph)
  (s : list string) (start : string) (rest : list string) :
  (forall x, Permutation (iter x) x) -> NoDup s -> 2 <= List.length s ->
  iter s = start :: rest ->
  (is_connected iter g s = true <-> forall x, In x s -> reachable g s start x).
Proof.
  intros Hp Hn Hl Hi.
  assert (Hin : In start s)
    by (eapply Permutation_in; [apply Hp | rewrite Hi; left; reflexivity]).
  assert (Ho : forall x, In x (iter s) <-> In x s).
  { intros x; split; apply Permutation_in; [apply Hp | apply Permutation_sym, Hp]. }
  unfold is_connected.
  destruct (Nat.leb_spec (List.length s) 1) as [H|_]; [lia|].
  rewrite Hi, <- Hi.
  set (V := fst (bfs (List.length s) g (iter s) [start] [start])).
  destruct (@bfs_inside iter g Hp s (fun _ => true) (fun _ _ _ _ _ _ => eq_refl)
              (List.length s) [start] [start]) as [Hs Hnd].
  { intros x [<-|[]]; auto. }
  { intros x [<-|[]]; auto. }
  { constructor; [intros [] | constructor]. }
  fold V in Hs, Hnd.
  assert (Hsub : incl V s) by (intros x Hx; apply Hs; exact Hx).
  assert (Hreach : forall x, In x V -> reachable g s start x).
  { apply (@bfs_reachable g s start (iter s) Ho);
      intros x [<-|[]]; constructor. }
  destruct (@bfs_settled g s (iter s) Ho (List.length s) [start] [start])
    as [Hset Hkeep].
  { intros x [<-|[]]; left; left; reflexivity. }
  fold V in Hset, Hkeep.
  destruct (@bfs_fuel_exact iter g s start rest Hp Hn Hi) as [Hq _].
  rewrite Hq in Hset.
  assert (Hall : forall x, reachable g s start x -> In x V).
  { intros x Hx; induction Hx as [|a b Ha IH Hb E].
    - apply Hkeep; left; reflexivity.
    - destruct (Hset a IH) as [[]|Hc]; apply Hc; assumption. }
  split.
  - intros E x Hx; apply Nat.eqb_eq in E.
    apply Hreach.
    apply (@NoDup_length_incl _ V s Hnd); [lia | exact Hsub | exact Hx].
  - intros H; apply Nat.eqb_eq.
    assert (Hsup : incl s V) by (intros x Hx; apply Hall, H, Hx).
    pose proof (NoDup_incl_length Hn Hsup).
    pose proof (NoDup_incl_length Hnd Hsub).
    lia.
Qed.

Lemma is_connected_order (iter iter' : list string -> list string) (g : JoinGraph)
  (s : list string) :
  (forall x, Permutation (iter x) x) -> (forall x, Permutation (iter' x) x) ->
  NoDup s ->
  is_connected iter g s = is_connected iter' g s.
Proof.
  intros Hp Hp' Hn.
  destruct (Nat.leb_spec (List.length s) 1) as [Hl|Hl].
  - unfold is_connected.
    destruct (Nat.leb_spec (List.length s) 1) as [_|H]; [reflexivity | lia].
  - destruct (iter s) as [|a rest] eqn:Hi.
    { pose proof (Permutation_length (Hp s)) as H; rewrite Hi in H; simpl in H; lia. }
    destruct (iter' s) as [|b rest'] eqn:Hi'.
    { pose proof (Permutation_length (Hp' s)) as H; rewrite Hi' in H; simpl in H; lia. }
    assert (Ha : In a s)
      by (eapply Permutation_in; [apply Hp | rewrite Hi; left; reflexivity]).
    assert (Hb : In b s)
      by (eapply Permutation_in; [apply Hp' | rewrite Hi'; left; reflexivity]).
    pose proof (@is_connected_reachable iter g s a rest Hp Hn Hl Hi) as E.
    pose proof (@is_connected_reachable iter' g s b rest' Hp' Hn Hl Hi') as E'.
    destruct (is_connected iter g s), (is_connected iter' g s); try reflexivity.
    + assert (H : forall x, In x s -> reachable g s b x).
      { intros x Hx; apply reachable_trans with a.
        - apply reachable_sym; [exact Ha | apply E; auto].
        - apply E; auto. }
      apply E' in H; discriminate.
    + assert (H : forall x, In x s -> reachable g s a x).
      { intros x Hx; apply reachable_trans with b.
        - apply reachable_sym; [exact Hb | apply E'; auto].
        - apply E'; auto. }
      apply E in H; discriminate.
Qed.

Lemma existsb_perm (A : Type) (f f' : A -> bool) (l l' : list A) :
  (forall x, f x = f' x) -> Permutation l l' -> existsb f l = existsb f' l'.
Proof.
  intros Hf Hp.
  destruct (existsb f l) eqn:E; symmetry.
  - apply existsb_exists in E; destruct E as [x [Hx E]].
    apply existsb_exists; exists x; split;
      [eapply Permutation_in; eassumption | rewrite <- Hf; exact E].
  - destruct (existsb f' l') eqn:E'; [|reflexivity].
    apply existsb_exists in E'; destruct E' as [x [Hx E']].
    assert (H : existsb f l = true).
    { apply existsb_exists; exists x; split;
        [eapply Permutation_in; [apply Permutation_sym|]; eassumption
        | rewrite Hf; exact E']. }
    congruence.
Qed.

Lemma can_join_order (iter iter' : list string -> list string) (g : JoinGraph)
  (l r : list string) :
  (forall x, Permutation (iter x) x) -> (forall x, Permutation (iter' x) x) ->
  can_join iter g l r = can_join iter' g l r.
Proof.
  intros Hp Hp'; unfold can_join.
  apply existsb_perm.
  - intros x; apply existsb_perm; [reflexivity|].
    eapply perm_trans; [apply Hp | apply Permutation_sym, Hp'].
  - eapply perm_trans; [apply Hp | apply Permutation_sym, Hp'].
Qed.

Lemma first_some_ext (A B : Type) (f f' : A -> option B) (l : list A) :
  (forall x, f x = f' x) -> first_some f l = first_some f' l.
Proof.
  intros Hf; induction l as [|x l IH]; simpl; [reflexivity|].
  rewrite Hf, IH; reflexivity.
Qed.

Lemma fold_left_ext (A B : Type) (f f' : A -> B -> A) (l : list B) (a : A) :
  (forall x y, f x y = f' x y) -> fold_left f l a = fold_left f' l a.
Proof.
  intros Hf; revert a; induction l as [|y l IH]; intros a; simpl; [reflexivity|].
  rewrite Hf; apply IH.
Qed.

(** X11.  The enumerator's result, plans and counts, is the same whatever
    the order in which Python iterates the sets it walks in [is_connected]
    and [can_join]. *)
Theorem enumerate_subsets_order (iter iter' : list string -> list string)
  (g : JoinGraph) (relations : list string) (max_level : Z) :
  (forall x, Permutation (iter x) x) -> (forall x, Permutation (iter' x) x) ->
  enumerate_subsets iter g relations max_level
  = enumerate_subsets iter' g relations max_level.
Proof.
  intros Hp Hp'.
  assert (Hd : forall dp s, _find_valid_decomposition iter g dp s
                            = _find_valid_decomposition iter' g dp s).
  { intros dp s; unfold _find_valid_decomposition.
    apply first_some_ext; intros left_size.
    apply first_some_ext; intros lt; unfold try_split.
    rewrite (@can_join_order iter iter' g _ _ Hp Hp'); reflexivity. }
  assert (Hc : forall level acc c,
             enumerate_candidate iter g level acc c
             = enumerate_candidate iter' g level acc c).
  { intros level acc c; unfold enumerate_candidate.
    rewrite (@is_connected_order iter iter' g (mk_set c) Hp Hp' (mk_set_nodup c)).
    rewrite Hd; reflexivity. }
  assert (Hl : forall st level ts,
             _enumerate_level iter g st level ts = _enumerate_level iter' g st level ts).
  { intros st level ts; unfold _enumerate_level.
    apply fold_left_ext; intros acc c; apply Hc. }
  assert (He : forall ts levels,
             enumerate_levels iter g ts levels = enumerate_levels iter' g ts levels).
  { intros ts levels; unfold enumerate_levels.
    apply fold_left_ext; intros acc level; rewrite Hl; reflexivity. }
  unfold enumerate_subsets; rewrite He; reflexivity.
Qed.

(** ** Well-formed graphs *)

Lemma sorted_pair (a b : string) :
  sorted [a; b] = if String.leb a b then [a; b] else [b; a].
Proof. reflexivity. Qed.

Lemma edge_key_sym (a b : string) : edge_key a b = edge_key b a.
Proof.
  unfold edge_key; rewrite !sorted_pair.
  destruct (String.leb a b) eqn:Hab, (String.leb b a) eqn:Hba; try reflexivity.
  - rewrite (String.leb_antisym _ _ Hab Hba); reflexivity.
  - apply leb_false_flip in Hab; congruence.
Qed.

Lemma stored_detail_key (a b a_col b_col : string) (orig : bool) :
  edge_key (t1 (stored_detail a b a_col b_col orig))
           (t2 (stored_detail a b a_col b_col orig)) = edge_key a b.
Proof.
  unfold stored_detail; destruct (String.leb a b); simpl;
    [reflexivity | apply edge_key_sym].
Qed.

Lemma dict_set_keys (V : Type) (k : string) (v : V) (d : list (string * V)) :
  map fst (dict_set k v d)
  = if dict_has k d then map fst d else map fst d ++ [k].
Proof.
  unfold dict_has; induction d as [|[k0 v0] d IH]; simpl; [reflexivity|].
  destruct (String.eqb_spec k k0) as [->|Hn]; simpl; [reflexivity|].
  rewrite IH; destruct (dict_get k d); reflexivity.
Qed.

Lemma dict_get_none (V : Type) (k : string) (d : list (string * V)) :
  dict_get k d = None <-> ~ In k (map fst d).
Proof.
  induction d as [|[k0 v0] d IH]; simpl; [tauto|].
  destruct (String.eqb_spec k k0) as [->|Hn].
  - split; [discriminate | intros H; exfalso; apply H; left; reflexivity].
  - rewrite IH; split; [intros H [E|E]; [congruence | tauto] | tauto].
Qed.

Lemma dict_set_nodup (V : Type) (k : string) (v : V) (d : list (string * V)) :
  NoDup (map fst d) -> NoDup (map fst (dict_set k v d)).
Proof.
  intros Hn; rewrite dict_set_keys; unfold dict_has.
  destruct (dict_get k d) eqn:Hg; [exact Hn|].
  apply dict_get_none in Hg.
  apply NoDup_app; [exact Hn | constructor; [intros [] | constructor]|].
  intros x Hx [<-|[]]; contradiction.
Qed.

Lemma dict_get_unique (V : Type) (k : string) (v : V) (d : list (string * V)) :
  NoDup (map fst d) -> In (k, v) d -> dict_get k d = Some v.
Proof.
  induction d as [|[k0 v0] d IH]; simpl; [tauto|].
  intros Hn [H|H]; inversion Hn as [|? ? Hk Hn']; subst.
  - inversion H; subst; rewrite String.eqb_refl; reflexivity.
  - destruct (String.eqb_spec k k0) as [->|_]; [|apply IH; assumption].
    exfalso; apply Hk; apply in_map_iff; exists (k0, v); auto.
Qed.

Lemma empty_well_formed (alias_map : list (string * string)) :
  well_formed (mkJoinGraph [] [] alias_map []).
Proof. split; simpl; [constructor | intros k ds d []]. Qed.

Lemma add_join_well_formed (g : JoinGraph) (a b a_col b_col : string) (orig : bool) :
  well_formed g -> well_formed (add_join g a b a_col b_col orig).
Proof.
  intros [Hn Hk]; unfold well_formed.
  destruct (truthy a_col && truthy b_col) eqn:Ht.
  - rewrite (@add_join_details g a b a_col b_col orig Ht); split.
    + apply dict_set_nodup; exact Hn.
    + intros k ds d Hi Hd; apply dict_set_in in Hi; destruct Hi as [Hi|Hi];
        [|eapply Hk; eassumption].
      inversion Hi; subst; clear Hi.
      apply in_app_iff in Hd; destruct Hd as [Hd|[<-|[]]].
      * unfold details_at in Hd.
        destruct (dict_get (edge_key a b) (join_details g)) as [ds|] eqn:Hg;
          [|destruct Hd].
        apply dict_get_in in Hg; eapply Hk; eassumption.
      * split; [apply stored_detail_key|].
        unfold stored_detail; destruct (String.leb a b); simpl;
          [exact Ht | rewrite andb_comm; exact Ht].
  - rewrite (@add_join_no_columns g a b a_col b_col orig Ht); split; assumption.
Qed.

Lemma details_at_stored (g : JoinGraph) (d : JoinDetail) :
  well_formed g -> In d (all_details g) ->
  In d (details_at g (edge_key (t1 d) (t2 d)))
  /\ truthy (t1_col d) && truthy (t2_col d) = true.
Proof.
  intros [Hn Hk] Hd; unfold all_details in Hd.
  apply in_flat_map in Hd; destruct Hd as [[k ds] [Hi Hd]]; simpl in Hd.
  destruct (Hk k ds d Hi Hd) as [E Ht]; split; [|exact Ht].
  unfold details_at; rewrite E, (dict_get_unique _ _ _ Hn Hi); exact Hd.
Qed.

Lemma details_at_length (g : JoinGraph) (k : string) :
  List.length (details_at g k) <= List.length (all_details g).
Proof.
  unfold details_at, all_details.
  destruct (dict_get k (join_details g)) as [ds|] eqn:Hg; [|simpl; lia].
  apply dict_get_in in Hg.
  induction (join_details g) as [|[k0 ds0] jd IH]; simpl; [destruct Hg|].
  rewrite length_app; destruct Hg as [H|H]; [inversion H; subst; lia|].
  specialize (IH H); lia.
Qed.

Lemma all_details_dict_set (k : string) (d : JoinDetail)
  (jd : list (string * list JoinDetail)) :
  NoDup (map fst jd) ->
  List.length
    (flat_map snd
       (dict_set k ((match dict_get k jd with Some l => l | None => [] end) ++ [d]) jd))
  = S (List.length (flat_map snd jd)).
Proof.
  induction jd as [|[k0 ds0] jd IH]; intros Hn; simpl.
  - reflexivity.
  - inversion Hn as [|? ? Hk Hn']; subst.
    destruct (String.eqb_spec k k0) as [->|Hne]; simpl.
    + rewrite !length_app; simpl; lia.
    + rewrite !length_app, (IH Hn'); lia.
Qed.

Lemma add_join_length (g : JoinGraph) (a b a_col b_col : string) (orig : bool) :
  well_formed g -> truthy a_col && truthy b_col = true ->
  List.length (all_details (add_join g a b a_col b_col orig))
  = S (List.length (all_details g)).
Proof.
  intros [Hn _] Ht; unfold all_details.
  rewrite (@add_join_details g a b a_col b_col orig Ht).
  apply all_details_dict_set; exact Hn.
Qed.

Lemma add_join_details_at (g : JoinGraph) (a b a_col b_col : string) (orig : bool)
  (k : string) :
  truthy a_col && truthy b_col = true ->
  details_at (add_join g a b a_col b_col orig) k
  = if String.eqb k (edge_key a b)
    then details_at g k ++ [stored_detail a b a_col b_col orig]
    else details_at g k.
Proof.
  intros Ht; unfold details_at at 1.
  rewrite (@add_join_details g a b a_col b_col orig Ht), dict_get_set.
  destruct (String.eqb_spec k (edge_key a b)) as [->|_]; reflexivity.
Qed.

(** ** The closure terminates *)

Lemma filter_length_mono (A : Type) (f h : A -> bool) (l : list A) :
  (forall x, In x l -> f x = true -> h x = true) ->
  List.length (filter f l) <= List.length (filter h l).
Proof.
  induction l as [|x l IH]; intros H; simpl; [lia|].
  assert (IH' : List.length (filter f l) <= List.length (filter h l))
    by (apply IH; intros y Hy; apply H; right; exact Hy).
  destruct (f x) eqn:Hf.
  - rewrite (H x (or_introl eq_refl) Hf); simpl; lia.
  - destruct (h x); simpl; lia.
Qed.

Lemma filter_length_strict (A : Type) (f h : A -> bool) (l : list A) (a : A) :
  (forall x, In x l -> f x = true -> h x = true) ->
  In a l -> f a = false -> h a = true ->
  List.length (filter f l) < List.length (filter h l).
Proof.
  induction l as [|x l IH]; intros H Ha Hf Hh; simpl; [destruct Ha|].
  assert (Hl : forall y, In y l -> f y = true -> h y = true)
    by (intros y Hy; apply H; right; exact Hy).
  destruct Ha as [->|Ha].
  - rewrite Hf, Hh; simpl.
    pose proof (filter_length_mono f h l Hl); lia.
  - specialize (IH Hl Ha Hf Hh).
    destruct (f x) eqn:Hfx.
    + rewrite (H x (or_introl eq_refl) Hfx); simpl; lia.
    + destruct (h x); simpl; lia.
Qed.

Lemma column_eqb_eq (a b : column) : column_eqb a b = true <-> a = b.
Proof.
  destruct a as [a1 a2], b as [b1 b2]; unfold column_eqb; simpl.
  rewrite andb_true_iff, !String.eqb_eq; split;
    [intros [-> ->]; reflexivity | intros H; inversion H; auto].
Qed.

Lemma stored_pair_true (g : JoinGraph) (ab : column * column) :
  stored_pair g ab = true
  <-> exists d, In d (all_details g) /\ left_end d = fst ab /\ right_end d = snd ab.
Proof.
  unfold stored_pair; rewrite existsb_exists; split; intros [d [Hd H]]; exists d;
    (split; [exact Hd|]).
  - apply andb_true_iff in H; destruct H as [H1 H2].
    apply column_eqb_eq in H1, H2; auto.
  - destruct H as [H1 H2]; apply andb_true_iff; split; apply column_eqb_eq; assumption.
Qed.

Lemma stored_pair_grows (g g' : JoinGraph) (ab : column * column) :
  grows g g' -> stored_pair g ab = true -> stored_pair g' ab = true.
Proof.
  intros Hg H; apply stored_pair_true in H; destruct H as [d [Hd H]].
  apply stored_pair_true; exists d; split; [apply Hg; exact Hd | exact H].
Qed.

Lemma missing_grows (u : list column) (g g' : JoinGraph) :
  grows g g' -> List.length (missing u g') <= List.length (missing u g).
Proof.
  intros Hg; apply filter_length_mono; intros ab _ H.
  destruct (stored_pair g ab) eqn:E; [|reflexivity].
  rewrite (@stored_pair_grows g g' ab Hg E) in H; discriminate.
Qed.

Lemma missing_shrinks (u : list column) (g g' : JoinGraph) (a b : column) :
  grows g g' -> In a u -> In b u ->
  stored_pair g (a, b) = false -> stored_pair g' (a, b) = true ->
  List.length (missing u g') < List.length (missing u g).
Proof.
  intros Hg Ha Hb H H'; apply (@filter_length_strict _ _ _ _ (a, b)).
  - intros ab _ E.
    destruct (stored_pair g ab) eqn:E'; [|reflexivity].
    rewrite (@stored_pair_grows g g' ab Hg E') in E; discriminate.
  - apply in_prod; assumption.
  - rewrite H'; reflexivity.
  - rewrite H; reflexivity.
Qed.

Lemma missing_length (u : list column) (g : JoinGraph) :
  List.length (missing u g) <= List.length (list_prod u u).
Proof. apply List.filter_length_le. Qed.

Lemma add_join_stored (g : JoinGraph) (a b a_col b_col : string) (orig : bool) :
  truthy a_col && truthy b_col = true ->
  In (stored_detail a b a_col b_col orig) (all_details (add_join g a b a_col b_col orig)).
Proof.
  intros Ht; apply (@details_at_in _ (edge_key a b)).
  rewrite (@add_join_details_at g a b a_col b_col orig (edge_key a b) Ht), String.eqb_refl.
  apply in_or_app; right; left; reflexivity.
Qed.

Lemma join_exists_stored (g : JoinGraph) (tr : TransitiveJoin) :
  well_formed g -> _join_exists g tr = false ->
  stored_pair g
    (left_end (stored_detail (tj_t1 tr) (tj_t2 tr) (tj_t1_col tr) (tj_t2_col tr) false),
     right_end (stored_detail (tj_t1 tr) (tj_t2 tr) (tj_t1_col tr) (tj_t2_col tr) false))
  = false.
Proof.
  intros Hw He.
  destruct (stored_pair g _) eqn:Hs; [|reflexivity].
  apply stored_pair_true in Hs; destruct Hs as [d [Hd [Hl Hr]]]; simpl in Hl, Hr.
  destruct (@details_at_stored g d Hw Hd) as [Hk _].
  assert (Ek : edge_key (t1 d) (t2 d) = edge_key (tj_t1 tr) (tj_t2 tr)).
  { rewrite <- (stored_detail_key (tj_t1 tr) (tj_t2 tr) (tj_t1_col tr) (tj_t2_col tr) false).
    unfold left_end in Hl; unfold right_end in Hr.
    inversion Hl; inversion Hr; congruence. }
  rewrite Ek in Hk.
  rewrite <- He; symmetry; unfold _join_exists.
  apply existsb_exists; exists d; split; [exact Hk|].
  unfold left_end, right_end, stored_detail in Hl, Hr.
  destruct (String.leb (tj_t1 tr) (tj_t2 tr)); simpl in Hl, Hr;
    inversion Hl; inversion Hr; rewrite !String.eqb_refl; simpl;
    [reflexivity | apply orb_true_r].
Qed.

Lemma try_form_ends (d1 d2 : JoinDetail) (tr : TransitiveJoin) (l : list column) :
  _try_form_transitive_join d1 d2 = Some tr ->
  In (left_end d1) l -> In (right_end d1) l ->
  In (left_end d2) l -> In (right_end d2) l ->
  In (tj_t1 tr, tj_t1_col tr) l /\ In (tj_t2 tr, tj_t2_col tr) l.
Proof.
  unfold _try_form_transitive_join, left_end, right_end.
  intros H A1 B1 A2 B2.
  repeat (match type of H with
          | (if ?c then _ else _) = _ => destruct c
          end);
    inversion H; subst; simpl; auto.
Qed.

Lemma try_form_truthy (d1 d2 : JoinDetail) (tr : TransitiveJoin) :
  _try_form_transitive_join d1 d2 = Some tr ->
  truthy (t1_col d1) && truthy (t2_col d1) = true ->
  truthy (t1_col d2) && truthy (t2_col d2) = true ->
  truthy (tj_t1_col tr) && truthy (tj_t2_col tr) = true.
Proof.
  unfold _try_form_transitive_join.
  intros H A B; apply andb_true_iff in A, B; destruct A as [A1 A2], B as [B1 B2].
  repeat (match type of H with
          | (if ?c then _ else _) = _ => destruct c
          end);
    inversion H; subst; simpl; apply andb_true_iff; auto.
Qed.

Lemma columns_in (g : JoinGraph) (d : JoinDetail) :
  In d (all_details g) -> In (left_end d) (columns g) /\ In (right_end d) (columns g).
Proof.
  intros H; unfold columns; split; apply in_flat_map; exists d; simpl; auto.
Qed.

Lemma stored_detail_ends (a b a_col b_col : string) (orig : bool) (l : list column) :
  In (a, a_col) l -> In (b, b_col) l ->
  In (left_end (stored_detail a b a_col b_col orig)) l
  /\ In (right_end (stored_detail a b a_col b_col orig)) l.
Proof.
  intros A B; unfold stored_detail, left_end, right_end.
  destruct (String.leb a b); simpl; auto.
Qed.

Lemma extends_refl (u : list column) (g : JoinGraph) :
  well_formed g -> incl (columns g) u -> extends u g g.
Proof.
  intros Hw Hc; unfold extends.
  split; [exact Hw | split; [exact Hc | split; [apply grows_refl|]]].
  split; [intros k; lia | split; [intros k; lia | lia]].
Qed.

Lemma extends_trans (u : list column) (g1 g2 g3 : JoinGraph) :
  extends u g1 g2 -> extends u g2 g3 -> extends u g1 g3.
Proof.
  intros (_ & _ & G1 & L1 & M1 & B1) (W & C & G2 & L2 & M2 & B2).
  unfold extends.
  split; [exact W | split; [exact C | split; [eapply grows_trans; eassumption|]]].
  split; [intros k; specialize (L1 k); specialize (L2 k); lia|].
  split; [intros k; specialize (M1 k); specialize (M2 k); lia | lia].
Qed.

Lemma closure_step_extends (u : list column) (d1 d2 : JoinDetail) (g : JoinGraph)
  (n : nat) (b : bool) :
  well_formed g -> incl (columns g) u ->
  In d1 (all_details g) -> In d2 (all_details g) ->
  extends u g (fst (fst (closure_step d1 d2 (g, n, b)))).
Proof.
  intros Hw Hc H1 H2; unfold closure_step.
  destruct (_try_form_transitive_join d1 d2) as [tr|] eqn:Ht;
    [|apply extends_refl; assumption].
  destruct (String.eqb_spec (tj_t1 tr) (tj_t2 tr)) as [E|Hn]; cbn [negb fst];
    [apply extends_refl; assumption|].
  destruct (_join_exists g tr) eqn:He; cbn [negb fst];
    [apply extends_refl; assumption|].
  destruct (@details_at_stored g d1 Hw H1) as [_ T1].
  destruct (@details_at_stored g d2 Hw H2) as [_ T2].
  pose proof (@try_form_truthy d1 d2 tr Ht T1 T2) as T.
  destruct (@columns_in g d1 H1) as [A1 B1].
  destruct (@columns_in g d2 H2) as [A2 B2].
  destruct (@try_form_ends d1 d2 tr (columns g) Ht A1 B1 A2 B2) as [E1 E2].
  destruct (@stored_detail_ends _ _ _ _ false (columns g) E1 E2) as [S1 S2].
  set (g' := add_join g (tj_t1 tr) (tj_t2 tr) (tj_t1_col tr) (tj_t2_col tr) false).
  assert (Hg : grows g g') by apply add_join_grows.
  assert (Hm : List.length (missing u g') < List.length (missing u g)).
  { eapply missing_shrinks; [exact Hg | apply Hc; exact S1 | apply Hc; exact S2
                            | apply join_exists_stored; assumption |].
    apply stored_pair_true; eexists; split;
      [apply add_join_stored; exact T | split; reflexivity]. }
  unfold extends; split; [apply add_join_well_formed; exact Hw|].
  split.
  { intros c Hin; unfold columns in Hin; apply in_flat_map in Hin.
    destruct Hin as [d [Hd Hin]].
    apply add_join_in in Hd; destruct Hd as [Hd | ->].
    - apply Hc; unfold columns; apply in_flat_map; exists d; auto.
    - apply Hc; destruct Hin as [<-|[<-|[]]]; assumption. }
  split; [exact Hg|].
  assert (Hl : forall k, List.length (details_at g k) <= List.length (details_at g' k)
                         /\ List.length (details_at g' k) <= S (List.length (details_at g k))).
  { intros k; unfold g'; rewrite (@add_join_details_at g _ _ _ _ false k T).
    destruct (String.eqb k _); [rewrite length_app; simpl|]; lia. }
  split; [intros k; apply Hl|].
  split; [intros k; destruct (Hl k); lia|].
  unfold closure_budget, g'; rewrite (@add_join_length g _ _ _ _ false Hw T); fold g'; lia.
Qed.

Section ClosureTermination.

Variable u : list column.

Lemma closure_d2_total (fuel : nat) (d1 : JoinDetail) (k2 : string) :
  forall (j : nat) (st : closure_state),
    well_formed (fst (fst st)) -> incl (columns (fst (fst st))) u ->
    In d1 (all_details (fst (fst st))) ->
    List.length (details_at (fst (fst st)) k2) - j + List.length (missing u (fst (fst st)))
    < fuel ->
    exists st', closure_d2 fuel d1 k2 j st = Some st'
                /\ extends u (fst (fst st)) (fst (fst st')).
Proof.
  induction fuel as [|fuel IH]; intros j st Hw Hc H1 Hf; [lia|]; simpl.
  destruct (nth_error (details_at (fst (fst st)) k2) j) as [d2|] eqn:Hn;
    [|exists st; split; [reflexivity | apply extends_refl; assumption]].
  assert (Hj : j < List.length (details_at (fst (fst st)) k2))
    by (apply nth_error_Some; congruence).
  assert (H2 : In d2 (all_details (fst (fst st))))
    by (eapply details_at_in, nth_error_In; exact Hn).
  destruct st as [[g n] b]; cbn [fst] in *.
  pose proof (@closure_step_extends u d1 d2 g n b Hw Hc H1 H2) as E.
  destruct E as (W & C & G & L & M & B).
  destruct (IH (S j) (closure_step d1 d2 (g, n, b)) W C (G _ H1)) as [st' [R E']].
  - specialize (L k2); specialize (M k2); lia.
  - exists st'; split; [exact R|].
    eapply extends_trans; [|exact E']; unfold extends; auto 10.
Qed.

Lemma closure_d1_total (fuel : nat) (k1 k2 : string) :
  forall (i : nat) (st : closure_state),
    well_formed (fst (fst st)) -> incl (columns (fst (fst st))) u ->
    List.length (details_at (fst (fst st)) k1) - i + List.length (missing u (fst (fst st)))
    + closure_budget u (fst (fst st)) + 1 < fuel ->
    exists st', closure_d1 fuel k1 k2 i st = Some st'
                /\ extends u (fst (fst st)) (fst (fst st')).
Proof.
  induction fuel as [|fuel IH]; intros i st Hw Hc Hf; [lia|]; simpl.
  destruct (nth_error (details_at (fst (fst st)) k1) i) as [d1|] eqn:Hn;
    [|exists st; split; [reflexivity | apply extends_refl; assumption]].
  assert (Hi : i < List.length (details_at (fst (fst st)) k1))
    by (apply nth_error_Some; congruence).
  assert (H1 : In d1 (all_details (fst (fst st))))
    by (eapply details_at_in, nth_error_In; exact Hn).
  destruct (@closure_d2_total fuel d1 k2 0 st Hw Hc H1) as [st1 [R1 E1]].
  - pose proof (details_at_length (fst (fst st)) k2); unfold closure_budget in Hf; lia.
  - rewrite R1.
    pose proof E1 as (W & C & G & L & M & B).
    destruct (IH (S i) st1 W C) as [st' [R E']].
    + specialize (L k1); specialize (M k1); lia.
    + exists st'; split; [exact R | eapply extends_trans; eassumption].
Qed.

Lemma closure_edge2_total (fuel : nat) (k1 : string) (keys2 : list string) :
  forall st : closure_state,
    well_formed (fst (fst st)) -> incl (columns (fst (fst st))) u ->
    2 * closure_budget u (fst (fst st)) + 1 < fuel ->
    exists st', closure_edge2 fuel k1 keys2 st = Some st'
                /\ extends u (fst (fst st)) (fst (fst st')).
Proof.
  induction keys2 as [|k2 keys2 IH]; intros st Hw Hc Hf; simpl.
  - exists st; split; [reflexivity | apply extends_refl; assumption].
  - destruct (String.eqb k1 k2); [apply IH; assumption|].
    destruct (@closure_d1_total fuel k1 k2 0 st Hw Hc) as [st1 [R1 E1]].
    + pose proof (details_at_length (fst (fst st)) k1); unfold closure_budget in *; lia.
    + rewrite R1.
      pose proof E1 as (W & C & G & L & M & B).
      destruct (IH st1 W C) as [st' [R E']]; [lia|].
      exists st'; split; [exact R | eapply extends_trans; eassumption].
Qed.

Lemma closure_edge1_total (fuel : nat) (keys1 keys : list string) :
  forall st : closure_state,
    well_formed (fst (fst st)) -> incl (columns (fst (fst st))) u ->
    2 * closure_budget u (fst (fst st)) + 1 < fuel ->
    exists st', closure_edge1 fuel keys1 keys st = Some st'
                /\ extends u (fst (fst st)) (fst (fst st')).
Proof.
  induction keys1 as [|k1 keys1 IH]; intros st Hw Hc Hf; simpl.
  - exists st; split; [reflexivity | apply extends_refl; assumption].
  - destruct (@closure_edge2_total fuel k1 keys st Hw Hc Hf) as [st1 [R1 E1]].
    rewrite R1.
    pose proof E1 as (W & C & G & L & M & B).
    destruct (IH st1 W C) as [st' [R E']]; [lia|].
    exists st'; split; [exact R | eapply extends_trans; eassumption].
Qed.

Lemma closure_iterations_total (fuel iterations : nat) :
  forall (g : JoinGraph) (n : nat),
    well_formed g -> incl (columns g) u ->
    2 * closure_budget u g + 1 < fuel ->
    exists g' n', closure_iterations fuel iterations g n = Some (g', n')
                  /\ extends u g g'.
Proof.
  induction iterations as [|it IH]; intros g n Hw Hc Hf; simpl.
  - exists g, n; split; [reflexivity | apply extends_refl; assumption].
  - unfold closure_pass.
    destruct (@closure_edge1_total fuel (map fst (join_details g)) (map fst (join_details g))
                (g, n, false) Hw Hc Hf) as [[[g1 n1] b1] [R1 E1]].
    rewrite R1; cbn [fst] in E1.
    destruct b1; [|exists g1, n1; split; [reflexivity | exact E1]].
    pose proof E1 as (W & C & G & L & M & B).
    destruct (IH g1 n1 W C) as [g' [n' [R E']]]; [lia|].
    exists g', n'; split; [exact R | eapply extends_trans; eassumption].
Qed.

End ClosureTermination.

(** [compute_transitive_closure] returns on every graph built by
    [add_join], and [closure_fuel] bounds the work of its loops over the
    live lists. *)
Theorem compute_transitive_closure_total (fuel : nat) (g : JoinGraph) :
  well_formed g -> closure_fuel g <= fuel ->
  exists g' n, compute_transitive_closure fuel g = Some (g', n)
               /\ well_formed g' /\ grows g g'
               /\ List.length (all_details g') <= closure_fuel g.
Proof.
  intros Hw Hf.
  pose proof (missing_length (columns g) g) as Hm.
  destruct (@closure_iterations_total (columns g) fuel max_iterations g 0 Hw
              (incl_refl _)) as [g' [n [R E]]].
  - unfold closure_fuel, closure_budget in *; lia.
  - exists g', n; split; [exact R|].
    destruct E as (W & _ & G & _ & _ & B).
    split; [exact W | split; [exact G|]].
    unfold closure_fuel, closure_budget in *; lia.
Qed.

(** ** The union-find loops terminate *)

Lemma uf_inv_weaken (m m' : nat) (st : uf_state) :
  m <= m' -> uf_inv m st -> uf_inv m' st.
Proof.
  intros Hm H x p Hx; destruct (H x p Hx) as [Hp [rx [rp [R1 [R2 [R3 R4]]]]]].
  split; [exact Hp|]; exists rx, rp; repeat split; try assumption; lia.
Qed.

Lemma uf_inv_empty : uf_inv 0 ([], []).
Proof. intros x p H; discriminate. Qed.

Lemma uf_keeps_refl (st : uf_state) : uf_keeps st st.
Proof. unfold uf_keeps; auto. Qed.

Lemma uf_find_total (m : nat) (fuel : nat) :
  forall (x : string) (st : uf_state),
    uf_inv m st -> 0 < fuel ->
    (forall rx, dict_get x (fst st) <> None -> dict_get x (snd st) = Some rx ->
                m < fuel + rx) ->
    exists r st',
      uf_find fuel x st = Some (r, st')
      /\ uf_inv m st' /\ uf_keeps st st'
      /\ dict_get r (fst st') = Some r
      /\ dict_get x (fst st') <> None
      /\ exists rx rr, dict_get x (snd st') = Some rx /\ dict_get r (snd st') = Some rr
                       /\ rx <= rr.
Proof.
  induction fuel as [|fuel IH]; intros x [parent rank] Hi Hf Hr; [lia|].
  cbn [uf_find]; unfold dict_has.
  destruct (dict_get x parent) as [p|] eqn:Hx.
  - (* x is a node *)
    rewrite Hx.
    destruct (Hi x p Hx) as [Hp [rx [rp [R1 [R2 [R3 R4]]]]]]; cbn [fst snd] in *.
    destruct (String.eqb_spec p x) as [->|Hne]; cbn [negb].
    + exists x, (parent, rank); split; [reflexivity|].
      split; [exact Hi | split; [apply uf_keeps_refl|]].
      split; [exact Hx | split; [cbn; congruence|]].
      exists rx, rx; auto.
    + specialize (R4 Hne).
      assert (Hm : m < S fuel + rx) by (apply Hr; [congruence | exact R1]).
      destruct (IH p (parent, rank) Hi) as [r [[parent' rank'] [F [I' [K [Rt [_ Q]]]]]]].
      * lia.
      * cbn [fst snd]; intros ry _ Hy; rewrite R2 in Hy; inversion Hy; subst; lia.
      * rewrite F.
        destruct K as [K1 [K2 K3]]; cbn [fst snd] in *.
        destruct Q as [rp' [rr [Q1 [Q2 Q3]]]].
        rewrite (K3 p Hp), R2 in Q1; inversion Q1; subst rp'.
        assert (Rx : dict_get x rank' = Some rx)
          by (rewrite (K3 x); [exact R1 | congruence]).
        exists r, (dict_set x r parent', rank'); split; [reflexivity|].
        assert (Hroot : dict_get r (dict_set x r parent') = Some r).
        { rewrite dict_get_set; destruct (String.eqb r x); [reflexivity | exact Rt]. }
        split; [|split; [|split; [exact Hroot | split]]].
        -- intros z q Hz; cbn [fst snd] in *.
           rewrite dict_get_set in Hz.
           destruct (String.eqb_spec z x) as [->|Hzx].
           ++ inversion Hz; subst q; split; [rewrite Hroot; discriminate|].
              destruct (I' r r Rt) as [_ [r1 [r2 [A1 [A2 [A3 _]]]]]]; cbn [fst snd] in *.
              exists rx, rr; repeat split; try assumption; [congruence | lia].
           ++ destruct (I' z q Hz) as [Hq Hrk]; cbn [fst snd] in *.
              split; [|exact Hrk].
              rewrite dict_get_set; destruct (String.eqb q x); [discriminate | exact Hq].
        -- unfold uf_keeps; cbn [fst snd]; split; [|split].
           ++ intros z Hz; rewrite dict_get_set.
              destruct (String.eqb_spec z x) as [->|_]; [congruence | apply K1, Hz].
           ++ intros z Hz; rewrite dict_get_set.
              destruct (String.eqb z x); [discriminate | apply K2, Hz].
           ++ exact K3.
        -- cbn [fst]; rewrite dict_get_set, String.eqb_refl; discriminate.
        -- exists rx, rr; cbn [snd]; repeat split; try assumption; lia.
  - (* x is new: it becomes a root of rank 0 *)
    cbn [fst snd] in *.
    rewrite dict_get_set, String.eqb_refl, String.eqb_refl; cbn [negb].
    assert (Hnew : forall z q, dict_get z parent = Some q -> z <> x /\ q <> x).
    { intros z q Hz; split; [congruence|].
      destruct (Hi z q Hz) as [Hq _]; cbn [fst] in Hq; congruence. }
    exists x, (dict_set x x parent, dict_set x 0 rank); split; [reflexivity|].
    split; [|split; [|split; [|split]]].
    + intros z q Hz; cbn [fst snd] in *.
      rewrite dict_get_set in Hz.
      destruct (String.eqb_spec z x) as [->|Hzx].
      * inversion Hz; subst q; split;
          [rewrite dict_get_set, String.eqb_refl; discriminate|].
        exists 0, 0; rewrite dict_get_set, String.eqb_refl.
        repeat split; try reflexivity; [lia | congruence].
      * destruct (Hnew z q Hz) as [_ Hq].
        destruct (Hi z q Hz) as [Hq' Hrk]; cbn [fst snd] in *.
        rewrite !dict_get_set.
        destruct (String.eqb_spec q x) as [E|_]; [contradiction|].
        destruct (String.eqb_spec z x) as [E|_]; [contradiction|].
        split; assumption.
    + unfold uf_keeps; cbn [fst snd]; split; [|split].
      * intros z Hz; rewrite dict_get_set.
        destruct (String.eqb_spec z x) as [->|_]; [reflexivity | exact Hz].
      * intros z Hz; rewrite dict_get_set.
        destruct (String.eqb z x); [discriminate | exact Hz].
      * intros z Hz; rewrite dict_get_set.
        destruct (String.eqb_spec z x) as [->|_]; [congruence | reflexivity].
    + cbn [fst]; rewrite dict_get_set, String.eqb_refl; reflexivity.
    + cbn [fst]; rewrite dict_get_set, String.eqb_refl; discriminate.
    + exists 0, 0; cbn [snd]; rewrite dict_get_set, String.eqb_refl; auto.
Qed.

Lemma uf_find_enough (m : nat) (fuel : nat) (x : string) (st : uf_state) :
  uf_inv m st -> m + 1 < fuel ->
  exists r st',
    uf_find fuel x st = Some (r, st')
    /\ uf_inv m st' /\ uf_keeps st st'
    /\ dict_get r (fst st') = Some r.
Proof.
  intros Hi Hf.
  destruct (@uf_find_total m fuel x st Hi) as [r [st' [F [I [K [R _]]]]]];
    [lia | intros; lia|].
  exists r, st'; auto.
Qed.

Lemma uf_root_rank (m : nat) (st : uf_state) (r : string) :
  uf_inv m st -> dict_get r (fst st) = Some r ->
  exists k, dict_get r (snd st) = Some k /\ k <= m.
Proof.
  intros Hi Hr; destruct (Hi r r Hr) as [_ [rx [rp [R1 [R2 [R3 _]]]]]].
  exists rp; auto.
Qed.

(** Linking the root [a] under the root [b]; [rank_b] is the rank [b] has
    afterwards. *)
Lemma uf_link (m : nat) (parent : list (string * string)) (rank rank' : list (string * nat))
  (a b : string) (ra rb : nat) :
  uf_inv m (parent, rank) ->
  dict_get a parent = Some a -> dict_get b parent = Some b -> a <> b ->
  dict_get a rank = Some ra -> dict_get b rank' = Some rb -> ra < rb -> rb <= S m ->
  (forall z, z <> b -> dict_get z rank' = dict_get z rank) ->
  (forall k, dict_get b rank = Some k -> k <= rb) ->
  uf_inv (S m) (dict_set a b parent, rank').
Proof.
  intros Hi Ha Hb Hab Ra Rb Hlt Hle Hsame Hup z q Hz; cbn [fst snd] in *.
  rewrite dict_get_set in Hz.
  assert (Hdom : forall y, dict_get y parent <> None ->
                           dict_get y (dict_set a b parent) <> None).
  { intros y Hy; rewrite dict_get_set; destruct (String.eqb y a); [discriminate | exact Hy]. }
  destruct (String.eqb_spec z a) as [->|Hza].
  - inversion Hz; subst q; split; [apply Hdom; congruence|].
    exists ra, rb; rewrite (Hsame a Hab); repeat split; auto.
  - destruct (Hi z q Hz) as [Hq [rz [rq [R1 [R2 [R3 R4]]]]]]; cbn [fst snd] in *.
    split; [apply Hdom, Hq|].
    destruct (String.eqb_spec z b) as [->|Hzb].
    + rewrite Hb in Hz; inversion Hz; subst q.
      exists rb, rb; repeat split; auto; intros C; exfalso; apply C; reflexivity.
    + destruct (String.eqb_spec q b) as [->|Hqb].
      * exists rz, rb; rewrite (Hsame z Hzb); repeat split; try assumption.
        intros Hne; specialize (R4 Hne); specialize (Hup rq R2); lia.
      * exists rz, rq; rewrite (Hsame z Hzb), (Hsame q Hqb).
        repeat split; try assumption; lia.
Qed.

Lemma uf_union_total (m : nat) (fuel : nat) (x y : string) (st : uf_state) :
  uf_inv m st -> m + 1 < fuel ->
  exists st', uf_union fuel x y st = Some st' /\ uf_inv (S m) st'.
Proof.
  intros Hi Hf; unfold uf_union.
  destruct (@uf_find_enough m fuel x st Hi Hf) as [root_x [st1 [F1 [I1 [_ R1]]]]].
  rewrite F1.
  destruct (@uf_find_enough m fuel y st1 I1 Hf)
    as [root_y [[parent rank] [F2 [I2 [[K _] R2]]]]].
  rewrite F2; cbn [fst snd] in *.
  specialize (K root_x R1).
  destruct (String.eqb_spec root_x root_y) as [E|Hne].
  - eexists; split; [reflexivity | eapply uf_inv_weaken; [|exact I2]; lia].
  - destruct (@uf_root_rank m _ root_x I2 K) as [rx [Rx Lx]].
    destruct (@uf_root_rank m _ root_y I2 R2) as [ry [Ry Ly]].
    cbn [fst snd] in *; rewrite Rx, Ry.
    destruct (Nat.ltb_spec rx ry) as [H1|H1]; [|destruct (Nat.ltb_spec ry rx) as [H2|H2]].
    + eexists; split; [reflexivity|].
      eapply (@uf_link m parent rank rank root_x root_y rx ry); auto; try lia.
      intros k Hk; rewrite Ry in Hk; inversion Hk; lia.
    + eexists; split; [reflexivity|].
      eapply (@uf_link m parent rank rank root_y root_x ry rx); auto; try lia.
      intros k Hk; rewrite Rx in Hk; inversion Hk; lia.
    + eexists; split; [reflexivity|].
      eapply (@uf_link m parent rank _ root_y root_x ry (rx + 1)); auto; try lia.
      * rewrite dict_get_set, String.eqb_refl; reflexivity.
      * intros z Hz; rewrite dict_get_set.
        destruct (String.eqb_spec z root_x); [contradiction | reflexivity].
      * intros k Hk; rewrite Rx in Hk; inversion Hk; lia.
Qed.

Lemma uf_union_details_total (fuel : nat) (ds : list JoinDetail) :
  forall (m : nat) (st : uf_state),
    uf_inv m st -> m + List.length ds + 1 < fuel ->
    exists st', uf_union_details fuel ds st = Some st'
                /\ uf_inv (m + List.length ds) st'.
Proof.
  induction ds as [|d ds IH]; intros m st Hi Hf; simpl in *.
  - exists st; split; [reflexivity | rewrite Nat.add_0_r; exact Hi].
  - destruct (@uf_union_total m fuel (qualified (t1 d) (t1_col d))
                (qualified (t2 d) (t2_col d)) st Hi) as [st1 [U I1]]; [lia|].
    rewrite U.
    destruct (IH (S m) st1 I1) as [st' [U' I']]; [lia|].
    exists st'; split; [exact U'|].
    replace (m + S (List.length ds)) with (S m + List.length ds) by lia; exact I'.
Qed.

Lemma uf_union_edges_total (fuel : nat) (es : list (string * list JoinDetail)) :
  forall (m : nat) (st : uf_state),
    uf_inv m st -> m + List.length (flat_map snd es) + 1 < fuel ->
    exists st', uf_union_edges fuel es st = Some st'
                /\ uf_inv (m + List.length (flat_map snd es)) st'.
Proof.
  induction es as [|[k ds] es IH]; intros m st Hi Hf; simpl in *.
  - exists st; split; [reflexivity | rewrite Nat.add_0_r; exact Hi].
  - rewrite length_app in *.
    destruct (@uf_union_details_total fuel ds m st Hi) as [st1 [U I1]]; [lia|].
    rewrite U.
    destruct (IH (m + List.length ds) st1 I1) as [st' [U' I']]; [lia|].
    exists st'; split; [exact U'|].
    rewrite Nat.add_assoc; exact I'.
Qed.

Lemma uf_group_total (m : nat) (fuel : nat) (keys : list string) :
  forall (st : uf_state) (ec_groups : list (string * list string)),
    uf_inv m st -> m + 1 < fuel ->
    uf_group fuel keys st ec_groups <> None.
Proof.
  induction keys as [|tc keys IH]; intros st ec_groups Hi Hf; simpl; [discriminate|].
  destruct (@uf_find_enough m fuel tc st Hi Hf) as [r [st' [F [I' _]]]].
  rewrite F; apply IH; assumption.
Qed.

(** [build_equivalence_classes] returns: the parent chains that [find]
    follows are no longer than the number of unions done. *)
Theorem build_equivalence_classes_total (fuel : nat) (g : JoinGraph) :
  List.length (all_details g) + 1 < fuel ->
  exists g' n, build_equivalence_classes fuel g = Some (g', n)
               /\ join_details g' = join_details g
               /\ table_aliases g' = table_aliases g.
Proof.
  intros Hf; unfold build_equivalence_classes.
  destruct (@uf_union_edges_total fuel (join_details g) 0 ([], []) uf_inv_empty Hf)
    as [st [U I]].
  rewrite U.
  destruct (uf_group fuel (map fst (fst st)) st []) as [ec_groups|] eqn:G.
  - eexists _, _; split; [reflexivity | split; reflexivity].
  - exfalso; revert G; eapply uf_group_total; [exact I | exact Hf].
Qed.

(** ** [parse_sql] returns *)

Lemma scan_tables_total (c : PredicateClassifier) (ts : list string) :
  classifier_ok c ->
  forall groups, scan_tables c ts groups <> None.
Proof.
  intros Hc; induction ts as [|t ts IH]; intros groups; simpl; [discriminate|].
  destruct (get_predicates_for_subset c [t]) as [preds|] eqn:Hg; [apply IH|].
  exfalso; revert Hg; apply get_predicates_total; exact Hc.
Qed.

Lemma fold_asserted_well_formed (joins : list JoinCondition) :
  forall g, well_formed g -> well_formed (fold_left add_asserted joins g).
Proof.
  induction joins as [|jc joins IH]; intros g Hw; simpl; [exact Hw|].
  apply IH, add_join_well_formed, Hw.
Qed.

Lemma fold_constant_well_formed (cjs : list ConstantEqualityJoin) :
  forall g, well_formed g -> well_formed (fold_left add_constant_join cjs g).
Proof.
  induction cjs as [|cj cjs IH]; intros g Hw; simpl; [exact Hw|].
  apply IH, add_join_well_formed, Hw.
Qed.

(** X12.  For every query with a relation there is an amount of fuel from
    which on [parse_sql] returns a result: neither the closure over the live
    lists nor the parent chains of the union-find run forever, and no
    lookup of the classifier fails. *)
Theorem parse_sql_total (ast : QueryAst) :
  ast_tables ast <> [] ->
  exists fuel0, forall fuel, fuel0 <= fuel -> parse_sql fuel ast <> None.
Proof.
  intros Ht; unfold parse_sql.
  destruct (ast_tables ast) as [|t ts] eqn:Et; [contradiction|].
  destruct (@classify_predicates_total (build_classifier (ast_predicates ast))
              (build_classifier_ok _)) as [c [Hc Hok]].
  rewrite Hc; unfold _detect_constant_equality_joins.
  destruct (scan_tables c (t :: ts) []) as [groups|] eqn:Hs;
    [|exfalso; revert Hs; apply scan_tables_total; exact Hok].
  set (g0 := fold_left add_constant_join _ _).
  assert (Hw : well_formed g0)
    by (apply fold_constant_well_formed, fold_asserted_well_formed, empty_well_formed).
  exists (closure_fuel g0 + 2); intros fuel Hf.
  destruct (@compute_transitive_closure_total fuel g0 Hw) as [g1 [n1 [R1 [_ [_ L1]]]]];
    [lia|].
  rewrite R1.
  destruct (@build_equivalence_classes_total fuel g1) as [g2 [n2 [R2 _]]]; [lia|].
  rewrite R2; discriminate.
Qed.

(** ** A pass that finds nothing *)

Lemma progress_refl (st : closure_state) : progress st st.
Proof. unfold progress; auto. Qed.

Lemma progress_trans (st1 st2 st3 : closure_state) :
  progress st1 st2 -> progress st2 st3 -> progress st1 st3.
Proof.
  intros (A1 & B1 & C1) (A2 & B2 & C2); unfold progress.
  split; [lia | split; [auto|]].
  intros H; destruct (C2 H) as [H2|H2]; [|right; lia].
  destruct (C1 H2) as [H1|H1]; [left; exact H1 | right; lia].
Qed.

Lemma closure_step_quiet (d1 d2 : JoinDetail) (st : closure_state) :
  progress st (closure_step d1 d2 st)
  /\ (snd (closure_step d1 d2 st) = false ->
      closure_step d1 d2 st = st /\ step_quiet (fst (fst st)) d1 d2).
Proof.
  destruct st as [[g n] b]; unfold closure_step, step_quiet.
  destruct (_try_form_transitive_join d1 d2) as [tr|] eqn:Ht;
    [|split; [apply progress_refl | intros _; split; [reflexivity | discriminate]]].
  destruct (String.eqb_spec (tj_t1 tr) (tj_t2 tr)) as [E|Hn]; cbn [negb].
  - split; [apply progress_refl | intros _; split; [reflexivity|]].
    intros tr' H; inversion H; subst tr'; contradiction.
  - destruct (_join_exists g tr) eqn:He; cbn [negb].
    + split; [apply progress_refl | intros _; split; [reflexivity|]].
      intros tr' H; inversion H; subst tr'; intros _; exact He.
    + split; [|cbn; discriminate].
      unfold progress; cbn; split; [lia | split; [auto | right; lia]].
Qed.

Lemma closure_d2_quiet (fuel : nat) (d1 : JoinDetail) (k2 : string) :
  forall (j : nat) (st st' : closure_state),
    closure_d2 fuel d1 k2 j st = Some st' ->
    progress st st'
    /\ (snd st' = false ->
        st' = st
        /\ forall j' d2, j <= j' ->
             nth_error (details_at (fst (fst st)) k2) j' = Some d2 ->
             step_quiet (fst (fst st)) d1 d2).
Proof.
  induction fuel as [|fuel IH]; intros j st st'; simpl; [discriminate|].
  destruct (nth_error (details_at (fst (fst st)) k2) j) as [d2|] eqn:Hn.
  - intros H; destruct (IH (S j) _ st' H) as [P1 Q1].
    destruct (closure_step_quiet d1 d2 st) as [P0 Q0].
    split; [eapply progress_trans; eassumption|].
    intros Hb; destruct (Q1 Hb) as [E1 Q1'].
    assert (Hb0 : snd (closure_step d1 d2 st) = false) by (rewrite <- E1; exact Hb).
    destruct (Q0 Hb0) as [E0 Q0'].
    split; [congruence|].
    intros j' d2' Hj Hd.
    destruct (Nat.eq_dec j' j) as [->|Hne].
    + rewrite Hn in Hd; inversion Hd; subst d2'; exact Q0'.
    + rewrite E0 in Q1'; apply (Q1' j' d2'); [lia | exact Hd].
  - intros H; inversion H; subst st'; split; [apply progress_refl|].
    intros _; split; [reflexivity|].
    intros j' d2 Hj Hd; exfalso.
    apply nth_error_None in Hn.
    assert (Hs : nth_error (details_at (fst (fst st)) k2) j' <> None) by congruence.
    apply nth_error_Some in Hs; lia.
Qed.

Lemma closure_d1_quiet (fuel : nat) (k1 k2 : string) :
  forall (i : nat) (st st' : closure_state),
    closure_d1 fuel k1 k2 i st = Some st' ->
    progress st st'
    /\ (snd st' = false ->
        st' = st
        /\ forall i' d1 d2, i <= i' ->
             nth_error (details_at (fst (fst st)) k1) i' = Some d1 ->
             In d2 (details_at (fst (fst st)) k2) ->
             step_quiet (fst (fst st)) d1 d2).
Proof.
  induction fuel as [|fuel IH]; intros i st st'; simpl; [discriminate|].
  destruct (nth_error (details_at (fst (fst st)) k1) i) as [d1|] eqn:Hn.
  - destruct (closure_d2 fuel d1 k2 0 st) as [st1|] eqn:H2; [|discriminate].
    intros H; destruct (IH (S i) st1 st' H) as [P1 Q1].
    destruct (@closure_d2_quiet fuel d1 k2 0 st st1 H2) as [P0 Q0].
    split; [eapply progress_trans; eassumption|].
    intros Hb; destruct (Q1 Hb) as [E1 Q1'].
    assert (Hb0 : snd st1 = false) by (rewrite <- E1; exact Hb).
    destruct (Q0 Hb0) as [E0 Q0'].
    split; [congruence|].
    intros i' d1' d2 Hi Hd1 Hd2.
    destruct (Nat.eq_dec i' i) as [->|Hne].
    + rewrite Hn in Hd1; inversion Hd1; subst d1'.
      apply In_nth_error in Hd2; destruct Hd2 as [j' Hj'].
      apply (Q0' j' d2); [lia | exact Hj'].
    + rewrite E0 in Q1'; apply (Q1' i' d1' d2); [lia | exact Hd1 | exact Hd2].
  - intros H; inversion H; subst st'; split; [apply progress_refl|].
    intros _; split; [reflexivity|].
    intros i' d1 d2 Hi Hd _; exfalso.
    apply nth_error_None in Hn.
    assert (Hs : nth_error (details_at (fst (fst st)) k1) i' <> None) by congruence.
    apply nth_error_Some in Hs; lia.
Qed.

Lemma closure_edge2_quiet (fuel : nat) (k1 : string) (keys2 : list string) :
  forall st st' : closure_state,
    closure_edge2 fuel k1 keys2 st = Some st' ->
    progress st st'
    /\ (snd st' = false ->
        st' = st
        /\ forall k2 d1 d2, In k2 keys2 -> k1 <> k2 ->
             In d1 (details_at (fst (fst st)) k1) ->
             In d2 (details_at (fst (fst st)) k2) ->
             step_quiet (fst (fst st)) d1 d2).
Proof.
  induction keys2 as [|k2 keys2 IH]; intros st st'; simpl.
  - intros H; inversion H; subst st'; split; [apply progress_refl|].
    intros _; split; [reflexivity | intros k2 d1 d2 []].
  - destruct (String.eqb_spec k1 k2) as [E|Hne].
    + intros H; destruct (IH st st' H) as [P1 Q1]; split; [exact P1|].
      intros Hb; destruct (Q1 Hb) as [E1 Q1']; split; [exact E1|].
      intros k d1 d2 [<-|Hk] Hk1; [contradiction | apply Q1'; assumption].
    + destruct (closure_d1 fuel k1 k2 0 st) as [st1|] eqn:H1; [|discriminate].
      intros H; destruct (IH st1 st' H) as [P1 Q1].
      destruct (@closure_d1_quiet fuel k1 k2 0 st st1 H1) as [P0 Q0].
      split; [eapply progress_trans; eassumption|].
      intros Hb; destruct (Q1 Hb) as [E1 Q1'].
      assert (Hb0 : snd st1 = false) by (rewrite <- E1; exact Hb).
      destruct (Q0 Hb0) as [E0 Q0'].
      split; [congruence|].
      intros k d1 d2 [<-|Hk] Hk1 Hd1 Hd2.
      * apply In_nth_error in Hd1; destruct Hd1 as [i' Hi'].
        apply (Q0' i' d1 d2); [lia | exact Hi' | exact Hd2].
      * rewrite E0 in Q1'; apply (Q1' k); assumption.
Qed.

Lemma closure_edge1_quiet (fuel : nat) (keys1 keys : list string) :
  forall st st' : closure_state,
    closure_edge1 fuel keys1 keys st = Some st' ->
    progress st st'
    /\ (snd st' = false ->
        st' = st
        /\ forall k1 k2 d1 d2, In k1 keys1 -> In k2 keys -> k1 <> k2 ->
             In d1 (details_at (fst (fst st)) k1) ->
             In d2 (details_at (fst (fst st)) k2) ->
             step_quiet (fst (fst st)) d1 d2).
Proof.
  induction keys1 as [|k1 keys1 IH]; intros st st'; simpl.
  - intros H; inversion H; subst st'; split; [apply progress_refl|].
    intros _; split; [reflexivity | intros k1 k2 d1 d2 []].
  - destruct (closure_edge2 fuel k1 keys st) as [st1|] eqn:H1; [|discriminate].
    intros H; destruct (IH st1 st' H) as [P1 Q1].
    destruct (@closure_edge2_quiet fuel k1 keys st st1 H1) as [P0 Q0].
    split; [eapply progress_trans; eassumption|].
    intros Hb; destruct (Q1 Hb) as [E1 Q1'].
    assert (Hb0 : snd st1 = false) by (rewrite <- E1; exact Hb).
    destruct (Q0 Hb0) as [E0 Q0'].
    split; [congruence|].
    intros k k2 d1 d2 [<-|Hk] Hk2 Hne Hd1 Hd2.
    + apply (Q0' k2); assumption.
    + rewrite E0 in Q1'; apply (Q1' k k2); assumption.
Qed.

(** A pass that leaves [found_new] false has changed nothing, and has
    looked at every pair of details under two different keys. *)
Lemma closure_pass_quiet (fuel : nat) (g g' : JoinGraph) (n n' : nat) :
  closure_pass fuel g n = Some (g', n', false) ->
  g' = g /\ n' = n /\ pass_closed g.
Proof.
  unfold closure_pass; intros H.
  destruct (@closure_edge1_quiet fuel _ _ _ _ H) as [_ Q].
  destruct (Q eq_refl) as [E Q'].
  inversion E; subst; split; [reflexivity | split; [reflexivity|]].
  intros k1 k2 d1 d2 H1 H2 Hne Hd1 Hd2.
  apply (Q' k1 k2); assumption.
Qed.

Lemma converged_closed (g : JoinGraph) : converged g -> pass_closed g.
Proof. intros [fuel [n H]]; apply closure_pass_quiet in H; apply H. Qed.

Lemma closure_pass_progress (fuel : nat) (g g' : JoinGraph) (n n' : nat) :
  closure_pass fuel g n = Some (g', n', true) -> n < n'.
Proof.
  unfold closure_pass; intros H.
  destruct (@closure_edge1_quiet fuel _ _ _ _ H) as [(_ & _ & P) _].
  destruct (P eq_refl) as [C|C]; [discriminate C | exact C].
Qed.

Lemma closure_iterations_converged (fuel iterations : nat) :
  forall (g : JoinGraph) (n : nat) (g' : JoinGraph) (n' : nat),
    closure_iterations fuel iterations g n = Some (g', n') ->
    n' < n + iterations -> converged g'.
Proof.
  induction iterations as [|it IH]; intros g n g' n'; simpl.
  - intros H; inversion H; lia.
  - destruct (closure_pass fuel g n) as [[[g1 n1] b1]|] eqn:H1; [|discriminate].
    destruct b1.
    + intros H Hn; apply closure_pass_progress in H1.
      apply (IH g1 n1 g' n' H); lia.
    + intros H _; inversion H; subst g1 n1.
      destruct (closure_pass_quiet _ _ _ H1) as [-> [-> _]].
      exists fuel, n; exact H1.
Qed.

(** Unless all [max_iterations] passes added a join, the closure stops
    on a graph on which it has converged. *)
Theorem closure_converges_early (fuel : nat) (g g' : JoinGraph) (n : nat) :
  compute_transitive_closure fuel g = Some (g', n) ->
  n < max_iterations -> converged g'.
Proof.
  intros H Hn; apply (@closure_iterations_converged fuel max_iterations g 0 g' n H); lia.
Qed.

(** ** Converged graphs join what their details connect *)

Lemma word_bar_free (s : string) : word s -> bar_free s.
Proof.
  unfold word, bar_free; intros H Hin.
  rewrite Forall_forall in H; specialize (H _ Hin); discriminate H.
Qed.

Lemma word_dot_free (s : string) : word s -> ~ In "."%char (list_ascii_of_string s).
Proof.
  unfold word; intros H Hin.
  rewrite Forall_forall in H; specialize (H _ Hin); discriminate H.
Qed.

Lemma sorted_pair_eq (a b c d : string) :
  sorted [a; b] = sorted [c; d] -> (a = c /\ b = d) \/ (a = d /\ b = c).
Proof.
  rewrite !sorted_pair.
  destruct (String.leb a b), (String.leb c d); intros H; inversion H; auto.
Qed.

Lemma edge_key_inj (a b c d : string) :
  word a -> word b -> word c -> word d ->
  edge_key a b = edge_key c d -> (a = c /\ b = d) \/ (a = d /\ b = c).
Proof.
  intros Ha Hb Hc Hd H; apply sorted_pair_eq.
  unfold edge_key in H; apply key_injective in H; [exact H| | | |].
  - apply Forall_forall; intros x Hx; apply (proj1 (sorted_in _ _)) in Hx.
    destruct Hx as [<-|[<-|[]]]; apply word_bar_free; assumption.
  - apply Forall_forall; intros x Hx; apply (proj1 (sorted_in _ _)) in Hx.
    destruct Hx as [<-|[<-|[]]]; apply word_bar_free; assumption.
  - intros E; apply (f_equal (@List.length string)) in E.
    rewrite sorted_length in E; discriminate E.
  - intros E; apply (f_equal (@List.length string)) in E.
    rewrite sorted_length in E; discriminate E.
Qed.

Lemma linked_sym (g : JoinGraph) (u v : column) : linked g u v -> linked g v u.
Proof. intros [d [Hd H]]; exists d; split; [exact Hd | tauto]. Qed.

(** Two details that meet in a column yield the join of their other
    columns, whichever of the four cases applies first. *)
Lemma try_form_shared (d1 d2 : JoinDetail) (u v w : column) :
  (left_end d1 = u /\ right_end d1 = v) \/ (left_end d1 = v /\ right_end d1 = u) ->
  (left_end d2 = v /\ right_end d2 = w) \/ (left_end d2 = w /\ right_end d2 = v) ->
  fst u <> fst w ->
  exists tr,
    _try_form_transitive_join d1 d2 = Some tr
    /\ (((tj_t1 tr, tj_t1_col tr) = u /\ (tj_t2 tr, tj_t2_col tr) = w)
        \/ ((tj_t1 tr, tj_t1_col tr) = w /\ (tj_t2 tr, tj_t2_col tr) = u)).
Proof.
  destruct d1 as [a1 c1 b1 e1 o1], d2 as [a2 c2 b2 e2 o2].
  destruct u as [ut uc], v as [vt vc], w as [wt wc].
  unfold left_end, right_end, _try_form_transitive_join; cbn.
  intros H1 H2 Hne.
  destruct H1 as [[A1 B1]|[A1 B1]], H2 as [[A2 B2]|[A2 B2]];
    inversion A1; inversion B1; inversion A2; inversion B2; subst;
    repeat (match goal with
            | |- context [String.eqb ?x ?y] =>
                destruct (String.eqb_spec x y); subst; cbn [andb]
            end);
    try contradiction; try congruence;
    eexists; (split; [reflexivity|]); cbn; auto.
Qed.

Lemma join_exists_linked (g : JoinGraph) (tr : TransitiveJoin) :
  _join_exists g tr = true ->
  linked g (tj_t1 tr, tj_t1_col tr) (tj_t2 tr, tj_t2_col tr).
Proof.
  unfold _join_exists; intros H; apply existsb_exists in H.
  destruct H as [d [Hd H]]; exists d; split; [eapply details_at_in; exact Hd|].
  unfold left_end, right_end.
  apply orb_true_iff in H; destruct H as [H|H];
    repeat (apply andb_true_iff in H; destruct H as [H ?]);
    repeat match goal with
           | E : String.eqb _ _ = true |- _ => apply String.eqb_eq in E
           end;
    [left | right]; split; congruence.
Qed.

Lemma stored_key_in (g : JoinGraph) (d : JoinDetail) :
  well_formed g -> In d (all_details g) ->
  In (edge_key (t1 d) (t2 d)) (map fst (join_details g)).
Proof.
  intros Hw Hd; destruct (@details_at_stored g d Hw Hd) as [H _].
  unfold details_at in H.
  destruct (dict_get _ (join_details g)) as [ds|] eqn:E; [|destruct H].
  apply dict_get_in in E; apply in_map_iff; eexists; split; [|exact E]; reflexivity.
Qed.

Lemma linked_closed (g : JoinGraph) (u v w : column) :
  well_formed g -> word_tables g -> pass_closed g ->
  linked g u v -> linked g v w -> fst u <> fst w -> linked g u w.
Proof.
  intros Hw Ht Hc [d1 [Hd1 H1]] [d2 [Hd2 H2]] Hne.
  destruct (String.eqb_spec (edge_key (t1 d1) (t2 d1)) (edge_key (t1 d2) (t2 d2)))
    as [E|Hk].
  - exfalso; apply Hne.
    destruct (Ht d1 Hd1) as [W1 W2]; destruct (Ht d2 Hd2) as [W3 W4].
    apply edge_key_inj in E; try assumption.
    unfold left_end, right_end in H1, H2.
    destruct u as [ut uc], v as [vt vc], w as [wt wc]; cbn [fst].
    destruct H1 as [[A1 B1]|[A1 B1]], H2 as [[A2 B2]|[A2 B2]];
      inversion A1; inversion B1; inversion A2; inversion B2;
      destruct E as [[E1 E2]|[E1 E2]]; congruence.
  - destruct (@try_form_shared d1 d2 u v w H1 H2 Hne) as [tr [Hf He]].
    destruct (@details_at_stored g d1 Hw Hd1) as [S1 _].
    destruct (@details_at_stored g d2 Hw Hd2) as [S2 _].
    assert (Hx : _join_exists g tr = true).
    { apply (Hc _ _ d1 d2 (@stored_key_in g d1 Hw Hd1) (@stored_key_in g d2 Hw Hd2) Hk S1 S2 tr Hf).
      destruct He as [[<- <-]|[<- <-]]; cbn [fst] in Hne; congruence. }
    apply join_exists_linked in Hx.
    destruct He as [[<- <-]|[<- <-]]; [exact Hx | apply linked_sym; exact Hx].
Qed.

(** From the last column of the first relation on a chain, every later
    column is joined directly. *)
Lemma chain_shortcut (g : JoinGraph) (u w : column) :
  well_formed g -> word_tables g -> pass_closed g ->
  chain g u w -> fst w <> fst u ->
  exists u', fst u' = fst u /\ linked g u' w.
Proof.
  intros Hw Ht Hc H; induction H as [|v w H IH L]; intros Hne; [contradiction|].
  destruct (String.eqb_spec (fst v) (fst u)) as [E|Hv].
  - exists v; split; assumption.
  - destruct (IH Hv) as [u' [Eu Lu]].
    exists u'; split; [exact Eu|].
    apply (@linked_closed g u' v w Hw Ht Hc Lu L); congruence.
Qed.

Lemma linked_has_detail (g : JoinGraph) (u w : column) :
  well_formed g -> linked g u w -> has_detail g (fst u) (fst w).
Proof.
  intros Hw [d [Hd H]]; destruct (@details_at_stored g d Hw Hd) as [S _].
  unfold has_detail, left_end, right_end in *.
  destruct H as [[<- <-]|[<- <-]]; cbn [fst].
  - intros E; rewrite E in S; destruct S.
  - rewrite edge_key_sym; intros E; rewrite E in S; destruct S.
Qed.

Lemma chain_trans (g : JoinGraph) (u v w : column) :
  chain g u v -> chain g v w -> chain g u w.
Proof.
  intros H1 H2; induction H2 as [|x y H2 IH L]; [exact H1|].
  eapply chain_next; eassumption.
Qed.

Lemma chain_sym (g : JoinGraph) (u v : column) : chain g u v -> chain g v u.
Proof.
  intros H; induction H as [|x y H IH L]; [constructor|].
  eapply chain_trans; [|exact IH].
  eapply chain_next; [constructor | apply linked_sym; exact L].
Qed.

(** ** The classes of the union-find *)

Section UnionFindSound.

Variable R : string -> string -> Prop.
Hypothesis R_refl : forall x, R x x.
Hypothesis R_sym : forall x y, R x y -> R y x.
Hypothesis R_trans : forall x y z, R x y -> R y z -> R x z.

Lemma uf_linked_set (parent : list (string * string)) (rank rank' : list (string * nat))
  (x r : string) :
  uf_linked R (parent, rank) -> R x r -> uf_linked R (dict_set x r parent, rank').
Proof.
  intros Hl Hr z q; cbn [fst]; rewrite dict_get_set.
  destruct (String.eqb_spec z x) as [->|_]; [|apply Hl].
  intros H; inversion H; subst q; exact Hr.
Qed.

Lemma uf_find_sound (fuel : nat) :
  forall (x : string) (st : uf_state) (r : string) (st' : uf_state),
    uf_find fuel x st = Some (r, st') ->
    uf_linked R st -> uf_linked R st' /\ R x r.
Proof.
  induction fuel as [|fuel IH]; intros x [parent rank] r st'; [discriminate|].
  cbn [uf_find]; intros H Hl.
  set (st0 := if dict_has x parent then _ else _) in H.
  assert (Hl0 : uf_linked R st0).
  { unfold st0; destruct (dict_has x parent); [exact Hl|].
    apply (@uf_linked_set parent rank _ x x Hl (R_refl x)). }
  clearbody st0; destruct st0 as [parent0 rank0].
  destruct (dict_get x parent0) as [p|] eqn:Hx; [|discriminate].
  pose proof (Hl0 x p Hx) as Hxp.
  destruct (String.eqb_spec p x) as [->|Hne]; cbn [negb] in H.
  - inversion H; subst; split; [exact Hl0 | apply R_refl].
  - destruct (uf_find fuel p (parent0, rank0)) as [[r1 [parent1 rank1]]|] eqn:F;
      [|discriminate].
    inversion H; subst r st'.
    destruct (IH p _ r1 _ F Hl0) as [Hl1 Hpr].
    assert (Hxr : R x r1) by (eapply R_trans; eassumption).
    split; [apply (@uf_linked_set parent1 rank1 rank1 x r1 Hl1 Hxr) | exact Hxr].
Qed.

Lemma uf_union_sound (fuel : nat) (x y : string) (st st' : uf_state) :
  uf_union fuel x y st = Some st' ->
  uf_linked R st -> R x y -> uf_linked R st'.
Proof.
  unfold uf_union; intros H Hl Hxy.
  destruct (uf_find fuel x st) as [[root_x st1]|] eqn:F1; [|discriminate].
  destruct (@uf_find_sound fuel x st root_x st1 F1 Hl) as [Hl1 Rx].
  destruct (uf_find fuel y st1) as [[root_y [parent rank]]|] eqn:F2; [|discriminate].
  destruct (@uf_find_sound fuel y st1 root_y _ F2 Hl1) as [Hl2 Ry].
  assert (Rxy : R root_x root_y).
  { apply (R_trans (R_sym Rx)), (R_trans Hxy), Ry. }
  destruct (String.eqb root_x root_y); [inversion H; subst; exact Hl2|].
  destruct (dict_get root_x rank) as [rx|]; [|discriminate].
  destruct (dict_get root_y rank) as [ry|]; [|discriminate].
  destruct (Nat.ltb rx ry); [|destruct (Nat.ltb ry rx)]; inversion H; subst st'.
  - apply (@uf_linked_set parent rank rank root_x root_y Hl2 Rxy).
  - apply (@uf_linked_set parent rank rank root_y root_x Hl2 (R_sym Rxy)).
  - apply (@uf_linked_set parent rank _ root_y root_x Hl2 (R_sym Rxy)).
Qed.

Lemma uf_union_details_sound (fuel : nat) (ds : list JoinDetail) :
  forall st st' : uf_state,
    uf_union_details fuel ds st = Some st' ->
    (forall d, In d ds -> R (qualified (t1 d) (t1_col d)) (qualified (t2 d) (t2_col d))) ->
    uf_linked R st -> uf_linked R st'.
Proof.
  induction ds as [|d ds IH]; intros st st'; simpl.
  - intros H _ Hl; inversion H; subst; exact Hl.
  - destruct (uf_union fuel _ _ st) as [st1|] eqn:U; [|discriminate].
    intros H Hd Hl.
    apply (IH st1 st' H); [intros d' Hd'; apply Hd; right; exact Hd'|].
    apply (@uf_union_sound fuel _ _ st st1 U Hl); apply Hd; left; reflexivity.
Qed.

Lemma uf_union_edges_sound (fuel : nat) (es : list (string * list JoinDetail)) :
  forall st st' : uf_state,
    uf_union_edges fuel es st = Some st' ->
    (forall d, In d (flat_map snd es) ->
               R (qualified (t1 d) (t1_col d)) (qualified (t2 d) (t2_col d))) ->
    uf_linked R st -> uf_linked R st'.
Proof.
  induction es as [|[k ds] es IH]; intros st st'; simpl.
  - intros H _ Hl; inversion H; subst; exact Hl.
  - destruct (uf_union_details fuel ds st) as [st1|] eqn:U; [|discriminate].
    intros H Hd Hl.
    apply (IH st1 st' H); [intros d Hin; apply Hd, in_or_app; right; exact Hin|].
    apply (@uf_union_details_sound fuel ds st st1 U); [|exact Hl].
    intros d Hin; apply Hd, in_or_app; left; exact Hin.
Qed.

Lemma uf_group_sound (fuel : nat) (keys : list string) :
  forall (st : uf_state) (ec_groups ec_groups' : list (string * list string)),
    uf_group fuel keys st ec_groups = Some ec_groups' ->
    uf_linked R st -> groups_linked R ec_groups -> groups_linked R ec_groups'.
Proof.
  induction keys as [|tc keys IH]; intros st ec_groups ec_groups'; simpl.
  - intros H _ Hg; inversion H; subst; exact Hg.
  - destruct (uf_find fuel tc st) as [[root st1]|] eqn:F; [|discriminate].
    intros H Hl Hg.
    destruct (@uf_find_sound fuel tc st root st1 F Hl) as [Hl1 Rt].
    apply (IH st1 _ _ H Hl1).
    intros root' members x Hin Hx.
    apply dict_set_in in Hin; destruct Hin as [Hin|Hin]; [|eapply Hg; eassumption].
    inversion Hin; subst root' members; clear Hin.
    apply (proj1 (set_add_in _ _ _)) in Hx; destruct Hx as [->|Hx]; [exact Rt|].
    destruct (dict_get root ec_groups) as [s|] eqn:E; [|destruct Hx].
    apply dict_get_in in E; eapply Hg; eassumption.
Qed.

Lemma build_equivalence_classes_sound (fuel : nat) (g g' : JoinGraph) (n : nat) :
  build_equivalence_classes fuel g = Some (g', n) ->
  (forall d, In d (all_details g) ->
             R (qualified (t1 d) (t1_col d)) (qualified (t2 d) (t2_col d))) ->
  forall ec x y, In ec (equivalence_classes g') -> In x ec -> In y ec -> R x y.
Proof.
  unfold build_equivalence_classes; intros H Hd.
  destruct (uf_union_edges fuel (join_details g) ([], [])) as [st|] eqn:U; [|discriminate].
  destruct (uf_group fuel (map fst (fst st)) st []) as [ec_groups|] eqn:G; [|discriminate].
  inversion H; subst g' n; cbn [equivalence_classes].
  assert (Hl : uf_linked R st).
  { apply (@uf_union_edges_sound fuel _ _ st U Hd); intros x p Hx; discriminate Hx. }
  assert (Hg : groups_linked R ec_groups).
  { apply (@uf_group_sound fuel _ st [] ec_groups G Hl); intros r m tc []. }
  intros ec x y Hec Hx Hy; apply in_map_iff in Hec.
  destruct Hec as [[root members] [<- Hin]]; cbn [snd] in *.
  eapply R_trans; [eapply Hg; eassumption | apply R_sym; eapply Hg; eassumption].
Qed.

End UnionFindSound.

Lemma same_details (g g' : JoinGraph) :
  join_details g' = join_details g -> all_details g' = all_details g.
Proof. unfold all_details; intros ->; reflexivity. Qed.

(** Two members of an equivalence class are connected by unions. *)
Lemma classes_same_class (fuel : nat) (g g' : JoinGraph) (n : nat) :
  build_equivalence_classes fuel g = Some (g', n) ->
  forall ec x y, In ec (equivalence_classes g') -> In x ec -> In y ec ->
                 same_class g' x y.
Proof.
  intros H.
  refine (@build_equivalence_classes_sound (same_class g') _ _ _ fuel g g' n H _).
  - intros x; apply rst_refl.
  - intros x y; apply rst_sym.
  - intros x y z; apply rst_trans.
  - intros d Hd; apply rst_step; exists d; split; [|split; reflexivity].
    rewrite (@same_details g g' (@build_equivalence_classes_details fuel g g' n H)); exact Hd.
Qed.

(** ** Connected relations of a parsed query have a join detail *)

Lemma prefix_both (a b x : string) :
  word a -> word b ->
  String.prefix (a ++ ".") x = true -> String.prefix (b ++ ".") x = true -> a = b.
Proof.
  unfold word; revert b x; induction a as [|c a IH]; intros [|c' b] [|y x] Ha Hb;
    cbn [String.prefix append]; try discriminate.
  - reflexivity.
  - destruct (ascii_dec "." y) as [<-|]; [|discriminate].
    destruct (ascii_dec c' ".") as [->|]; [|discriminate].
    inversion Hb as [|? ? Hc _]; subst; discriminate Hc.
  - destruct (ascii_dec c y) as [<-|]; [|discriminate].
    destruct (ascii_dec "." c) as [<-|]; [|discriminate].
    inversion Ha as [|? ? Hc _]; subst; discriminate Hc.
  - destruct (ascii_dec c y) as [<-|]; [|discriminate].
    destruct (ascii_dec c' c) as [->|]; [|discriminate].
    inversion Ha; inversion Hb; subst.
    intros P1 P2; f_equal; eapply IH; eassumption.
Qed.

Lemma column_of_qualified (a t c : string) :
  word a -> word t -> column_of a (qualified t c) = true -> a = t.
Proof.
  intros Ha Ht H; apply (@prefix_both a t (qualified t c) Ha Ht H).
  apply starts_with_append2.
Qed.

Lemma qualified_inj (t c t' c' : string) :
  word t -> word t' -> qualified t c = qualified t' c' -> t = t' /\ c = c'.
Proof.
  unfold qualified, word; revert t'; induction t as [|x t IH]; intros [|y t'] H1 H2; simpl.
  - intros H; inversion H; auto.
  - intros H; inversion H; subst y.
    inversion H2 as [|? ? Hy _]; subst; discriminate Hy.
  - intros H; inversion H; subst x.
    inversion H1 as [|? ? Hx _]; subst; discriminate Hx.
  - intros H; inversion H; subst y.
    inversion H1; inversion H2; subst.
    destruct (IH t') as [-> ->]; auto.
Qed.

Lemma columns_word (g : JoinGraph) (u : column) :
  word_tables g -> In u (columns g) -> word (fst u).
Proof.
  intros Ht H; unfold columns in H; apply in_flat_map in H.
  destruct H as [d [Hd [<-|[<-|[]]]]]; apply (Ht d Hd).
Qed.

(** Two strings the unions connect are the same string, or name two
    columns that a chain of details connects. *)
Lemma same_class_chain (g : JoinGraph) (x y : string) :
  word_tables g -> same_class g x y ->
  x = y
  \/ exists u v, In u (columns g) /\ In v (columns g)
                 /\ x = qualified (fst u) (snd u) /\ y = qualified (fst v) (snd v)
                 /\ chain g u v.
Proof.
  intros Ht H; induction H as [x y [d [Hd [-> ->]]]|x|x y H IH|x y z H1 IH1 H2 IH2].
  - right; exists (left_end d), (right_end d).
    destruct (@columns_in g d Hd) as [A B].
    split; [exact A | split; [exact B | split; [reflexivity | split; [reflexivity|]]]].
    eapply chain_next; [constructor | exists d; auto].
  - left; reflexivity.
  - destruct IH as [->|[u [v [A [B [-> [-> C]]]]]]]; [left; reflexivity|].
    right; exists v, u; repeat split; try assumption; apply chain_sym; exact C.
  - destruct IH1 as [->|[u [v [A [B [-> [E C]]]]]]]; [exact IH2|].
    destruct IH2 as [<-|[v' [w [A' [B' [E' [-> C']]]]]]].
    + right; exists u, v; repeat split; assumption.
    + right; exists u, w; repeat split; try assumption.
      rewrite E in E'.
      apply qualified_inj in E'; try (eapply columns_word; eassumption).
      destruct E' as [E1 E2].
      assert (Ev : v = v') by (destruct v, v'; simpl in *; congruence).
      subst v'; eapply chain_trans; eassumption.
Qed.

(** On a converged graph whose relation names are words, two different
    relations that share an equivalence class have a stored detail. *)
Lemma converged_edge_complete (g : JoinGraph) (s : list string) :
  well_formed g -> word_tables g -> pass_closed g ->
  (forall ec x y, In ec (equivalence_classes g) -> In x ec -> In y ec ->
                  same_class g x y) ->
  Forall word s -> edge_complete g s.
Proof.
  intros Hw Ht Hc Hs Hwords a b Ha Hb Hab He.
  rewrite Forall_forall in Hwords.
  unfold are_in_same_ec in He; apply existsb_exists in He.
  destruct He as [ec [Hec He]]; apply andb_true_iff in He; destruct He as [Hx Hy].
  apply existsb_exists in Hx, Hy.
  destruct Hx as [x [Hx Cx]], Hy as [y [Hy Cy]].
  destruct (@same_class_chain g x y Ht (Hs ec x y Hec Hx Hy))
    as [->|[u [v [A [B [-> [-> C]]]]]]].
  - exfalso; apply Hab.
    apply (@prefix_both a b y (Hwords a Ha) (Hwords b Hb) Cx Cy).
  - apply column_of_qualified in Cx;
      [|apply Hwords; exact Ha | eapply columns_word; eassumption].
    apply column_of_qualified in Cy;
      [|apply Hwords; exact Hb | eapply columns_word; eassumption].
    subst a b.
    destruct (@chain_shortcut g u v Hw Ht Hc C) as [u' [Eu L]]; [congruence|].
    rewrite <- Eu; apply linked_has_detail; assumption.
Qed.

(** *** The graph of a parsed query *)

Lemma table_group (tail : regex) (st : mstate) (pos' : nat) (s' : list ascii)
  (m : captures) :
  ~ In 1 (groups_of tail) ->
  matches (re_table_column tail) st (pos', s', m) ->
  Forall (fun c => is_word c = true) (list_ascii_of_string (group 1 m)).
Proof.
  intros Hn; destruct st as [[pos s] caps]; unfold re_table_column.
  intros H; destruct H as [[[p1 s1] c1] [H1 Hrest]].
  assert (Hg : group 1 m = group 1 c1).
  { refine (@matches_other_groups
              (RSeq (RChar (is_char "."))
                    (RSeq (RGroup 2 (RPlus (RChar is_word))) tail)) 1 _
              (p1, s1, c1) (pos', s', m) Hrest).
    cbn [groups_of app]; intros [C|C]; [discriminate C | exact (Hn C)]. }
  rewrite Hg.
  destruct H1 as [c0 [H1 ->]].
  pose proof (@plus_chars is_word pos s caps p1 s1 c0 H1) as Hw.
  cbn [group Nat.eqb].
  rewrite list_ascii_of_string_of_list_ascii; exact Hw.
Qed.

Lemma extracted_table_word (pred : string) (cv : ConstantValue) :
  _extract_single_constant_value pred = Some cv -> word (cv_table cv).
Proof.
  unfold _extract_single_constant_value, re_search, word.
  destruct (search_from re_eq_constant 0 _) as [m|] eqn:H1.
  - intros H; inversion H; subst cv; simpl.
    apply search_from_sound in H1; destruct H1 as [p0 [s0 [p1 [s1 H1]]]].
    eapply (@table_group _ (p0, s0, [])); [|exact H1].
    simpl; intuition discriminate.
  - destruct (search_from re_in_list 0 _) as [m|] eqn:H2; [|discriminate].
    destruct (map strip (split "," (group 3 m))) as [|v [|v' vs]]; try discriminate.
    intros H; inversion H; subst cv; simpl.
    apply search_from_sound in H2; destruct H2 as [p0 [s0 [p1 [s1 H2]]]].
    eapply (@table_group _ (p0, s0, [])); [|exact H2].
    simpl; intuition discriminate.
Qed.

Lemma group_constants_word (preds : list string) (groups : list (string * list ConstantValue)) :
  groups_word groups -> groups_word (group_constants preds groups).
Proof.
  revert groups; induction preds as [|pred preds IH]; intros groups Hg; simpl;
    [exact Hg|].
  destruct (_extract_single_constant_value pred) as [cv0|] eqn:He; [|apply IH; exact Hg].
  apply IH; intros k grp cv Hk Hc.
  apply dict_set_in in Hk; destruct Hk as [Hk|Hk]; [|eapply Hg; eassumption].
  inversion Hk; subst; clear Hk.
  apply in_app_iff in Hc; destruct Hc as [Hc|[<-|[]]].
  - destruct (dict_get _ groups) as [l|] eqn:Hd; [|destruct Hc].
    apply dict_get_in in Hd; eapply Hg; eassumption.
  - eapply extracted_table_word; exact He.
Qed.

Lemma scan_tables_word (c : PredicateClassifier) (ts : list string)
  (groups groups' : list (string * list ConstantValue)) :
  scan_tables c ts groups = Some groups' -> groups_word groups -> groups_word groups'.
Proof.
  revert groups; induction ts as [|t ts IH]; intros groups; simpl.
  - intros H; inversion H; auto.
  - destruct (get_predicates_for_subset c [t]) as [preds|]; [|discriminate].
    intros H Hg; eapply IH; [exact H | apply group_constants_word; exact Hg].
Qed.

Lemma add_join_word (g : JoinGraph) (a b a_col b_col : string) (orig : bool) :
  word_tables g -> word a -> word b -> word_tables (add_join g a b a_col b_col orig).
Proof.
  intros Hg Ha Hb d Hd.
  apply add_join_in in Hd; destruct Hd as [Hd | ->]; [apply Hg; exact Hd|].
  unfold stored_detail; destruct (String.leb a b); simpl; auto.
Qed.

Lemma fold_asserted_word (joins : list JoinCondition) :
  word_joins joins ->
  forall g, word_tables g -> word_tables (fold_left add_asserted joins g).
Proof.
  induction 1 as [|jc joins [H1 H2] _ IH]; intros g Hg; simpl; [exact Hg|].
  apply IH, add_join_word; assumption.
Qed.

Lemma fold_constant_word (cjs : list ConstantEqualityJoin) :
  (forall cj, In cj cjs -> word (cej_t1 cj) /\ word (cej_t2 cj)) ->
  forall g, word_tables g -> word_tables (fold_left add_constant_join cjs g).
Proof.
  induction cjs as [|cj cjs IH]; intros Hc g Hg; simpl; [exact Hg|].
  apply IH; [intros cj' H; apply Hc; right; exact H|].
  destruct (Hc cj (or_introl eq_refl)); apply add_join_word; assumption.
Qed.

Lemma group_joins_word (groups : list (string * list ConstantValue))
  (cj : ConstantEqualityJoin) :
  groups_word groups ->
  In cj (flat_map (fun kg => group_joins (snd kg)) groups) ->
  word (cej_t1 cj) /\ word (cej_t2 cj).
Proof.
  intros Hg H; apply in_flat_map in H; destruct H as [[k grp] [Hk H]].
  unfold group_joins in H; cbn [snd] in H.
  destruct (Nat.leb 2 (List.length grp)); [|destruct H].
  apply pair_joins_in in H; destruct H as [gi [gj [Hi [Hj ->]]]]; simpl.
  split; eapply Hg; eassumption.
Qed.

Lemma closure_keeps_shape (fuel : nat) (g g' : JoinGraph) (n : nat) :
  compute_transitive_closure fuel g = Some (g', n) ->
  well_formed g -> word_tables g -> well_formed g' /\ word_tables g'.
Proof.
  intros H Hw Ht.
  refine (proj1 (@compute_transitive_closure_inv
                   (fun g => well_formed g /\ word_tables g) _ fuel g g' n H
                   (conj Hw Ht))).
  intros g0 d1 d2 tr [Hw0 Ht0] H1 H2 Hf _ _.
  split; [apply add_join_well_formed; exact Hw0|].
  destruct (@columns_in g0 d1 H1) as [A1 B1].
  destruct (@columns_in g0 d2 H2) as [A2 B2].
  destruct (@try_form_ends d1 d2 tr (columns g0) Hf A1 B1 A2 B2) as [E1 E2].
  apply add_join_word; [exact Ht0 | |].
  - apply (@columns_word g0 _ Ht0 E1).
  - apply (@columns_word g0 _ Ht0 E2).
Qed.

(** The graph of a parsed query whose joins name relations made of word
    characters: once the closure has converged, any two relations that
    share an equivalence class have a stored detail. *)
Lemma parsed_edge_complete (fuel : nat) (ast : QueryAst) (parsed : ParsedSQL)
  (s : list string) :
  parse_sql fuel ast = Some parsed ->
  word_joins (ast_joins ast) ->
  converged (join_graph parsed) ->
  Forall word s ->
  edge_complete (join_graph parsed) s.
Proof.
  unfold parse_sql, _detect_constant_equality_joins.
  destruct (ast_tables ast) as [|t ts] eqn:Hts; [discriminate|].
  destruct (classify_predicates _) as [c|]; [|discriminate].
  destruct (scan_tables c (t :: ts) []) as [groups|] eqn:Hs; [|discriminate].
  destruct (compute_transitive_closure fuel _) as [[g1 n1]|] eqn:Hc; [|discriminate].
  destruct (build_equivalence_classes fuel g1) as [[g2 n2]|] eqn:Hb; [|discriminate].
  intros H Hj Hv Hwords; inversion H; subst parsed; clear H; cbn [join_graph] in *.
  destruct (@closure_keeps_shape fuel _ g1 n1 Hc) as [Hw1 Ht1].
  { apply fold_constant_well_formed, fold_asserted_well_formed, empty_well_formed. }
  { apply fold_constant_word.
    - intros cj Hcj; apply (@group_joins_word groups cj); [|exact Hcj].
      eapply scan_tables_word; [exact Hs|]; intros k grp cv [].
    - apply fold_asserted_word; [exact Hj|]; intros d []. }
  pose proof (@build_equivalence_classes_details fuel g1 g2 n2 Hb) as Ed.
  apply converged_edge_complete.
  - unfold well_formed; rewrite Ed; exact Hw1.
  - unfold word_tables; rewrite (@same_details g1 g2 Ed); exact Ht1.
  - apply converged_closed; exact Hv.
  - apply (@classes_same_class fuel g1 g2 n2 Hb).
  - exact Hwords.
Qed.

(** ** The join tree of a connected subset *)

(** X29.  Take the graph [parse_sql] completes for a query whose join
    conditions name relations made of word characters, and suppose the
    closure stopped because a pass found no new join.  For every subset of
    two or more relations with such names on which [is_connected] holds,
    every step of the left-deep construction finds a next relation: the
    loop never reaches the state in which it gives up, and it ends with
    every relation of the subset attached. *)
Theorem join_tree_never_gives_up
  (iter : list string -> list string) (alias_map : list (string * string))
  (fuel : nat) (ast : QueryAst) (parsed : ParsedSQL)
  (s : list string) (first : string) (rest : list string) :
  (forall x, Permutation (iter x) x) ->
  parse_sql fuel ast = Some parsed ->
  word_joins (ast_joins ast) ->
  converged (join_graph parsed) ->
  NoDup s ->
  Forall word s ->
  2 <= List.length s ->
  is_connected iter (join_graph parsed) s = true ->
  sorted s = first :: rest ->
  (forall n,
     ~ gives_up iter (join_graph parsed)
         (join_loop iter alias_map (join_graph parsed) n
            (initial_tree alias_map first rest)))
  /\ remaining_tables (build_join_tree iter alias_map (join_graph parsed) first rest) = []
  /\ (forall x,
        In x s
        <-> In x (added_tables
                    (build_join_tree iter alias_map (join_graph parsed) first rest))).
Proof.
  intros Hp Hparse Hj Hv Hn Hw Hl Hc Hs.
  apply (@join_loop_attaches_all iter alias_map (join_graph parsed) s first rest
           Hp Hn Hl Hc); [|exact Hs].
  exact (@parsed_edge_complete fuel ast parsed s Hparse Hj Hv Hw).
Qed.

Lemma join_tree_never_gives_up_witness :
  parse_sql 100 ast_chain = Some parsed_chain
  /\ word_joins (ast_joins ast_chain)
  /\ converged (join_graph parsed_chain)
  /\ is_connected iter_ascending (join_graph parsed_chain) ["A"; "B"; "C"] = true
  /\ remaining_tables (build_join_tree iter_ascending (aliases parsed_chain)
                         (join_graph parsed_chain) "A" ["B"; "C"]) = [].
Proof.
  assert (Hp : forall x, Permutation (iter_ascending x) x)
    by (intros x; apply Permutation_refl).
  assert (Hparse : parse_sql 100 ast_chain = Some parsed_chain)
    by (vm_compute; reflexivity).
  assert (Hj : word_joins (ast_joins ast_chain))
    by (repeat constructor).
  assert (Hv : converged (join_graph parsed_chain))
    by (exists 100, 0; vm_compute; reflexivity).
  assert (Hn : NoDup ["A"; "B"; "C"])
    by (repeat constructor; simpl; intuition discriminate).
  assert (Hw : Forall word ["A"; "B"; "C"])
    by (repeat constructor).
  assert (Hc : is_connected iter_ascending (join_graph parsed_chain) ["A"; "B"; "C"] = true)
    by (vm_compute; reflexivity).
  split; [exact Hparse|]; split; [exact Hj|]; split; [exact Hv|]; split; [exact Hc|].
  refine (proj1 (proj2 (@join_tree_never_gives_up iter_ascending (aliases parsed_chain)
                          100 ast_chain parsed_chain ["A"; "B"; "C"] "A" ["B"; "C"]
                          Hp Hparse Hj Hv Hn Hw _ Hc eq_refl))).
  simpl; lia.
Defined.

(** ** The enumerator emits the connected subsets *)

Lemma reachable_mono (g : JoinGraph) (s s' : list string) (a b : string) :
  (forall x, In x s -> In x s') -> reachable g s a b -> reachable g s' a b.
Proof.
  intros Hi H; induction H as [|x y H IH Hy He]; [constructor|].
  eapply reach_step; [exact IH | apply Hi; exact Hy | exact He].
Qed.

Lemma buildable_reachable (g : JoinGraph) (l : list string) :
  buildable g l -> forall a b, In a l -> In b l -> reachable g l a b.
Proof.
  induction 1 as [x|y l x Hb IH Hx He Hy]; intros a b Ha Hb'.
  - destruct Ha as [<-|[]], Hb' as [<-|[]]; constructor.
  - assert (Hm : forall u v, In u l -> In v l -> reachable g (y :: l) u v).
    { intros u v Hu Hv; apply (@reachable_mono g l (y :: l) u v);
        [intros z Hz; right; exact Hz | apply IH; assumption]. }
    assert (Hyx : reachable g (y :: l) y x).
    { eapply reach_step; [constructor | right; exact Hx|].
      rewrite are_in_same_ec_sym; exact He. }
    assert (Hxy : reachable g (y :: l) x y).
    { eapply reach_step; [constructor | left; reflexivity | exact He]. }
    destruct Ha as [<-|Ha], Hb' as [<-|Hb'].
    + constructor.
    + apply (@reachable_trans g (y :: l) y x b); [exact Hyx | apply Hm; assumption].
    + apply (@reachable_trans g (y :: l) a x y); [apply Hm; assumption | exact Hxy].
    + apply Hm; assumption.
Qed.

Section Removable.

Variable iter : list string -> list string.
Variable g : JoinGraph.
Hypothesis iter_perm : forall x, Permutation (iter x) x.

Variable s : list string.
Hypothesis s_nodup : NoDup s.
Hypothesis s_two : 2 <= List.length s.
Hypothesis s_connected : is_connected iter g s = true.

(** A connected subset can be listed, up to any length, in an order in
    which each relation joins an earlier one. *)
Lemma connected_grows (n : nat) :
  1 <= n <= List.length s ->
  exists l, buildable g l /\ incl l s /\ NoDup l /\ List.length l = n.
Proof.
  induction n as [|n IH]; intros Hn; [lia|].
  destruct (Nat.eq_dec n 0) as [->|Hn0].
  - destruct s as [|x s']; [simpl in s_two; lia|].
    exists [x]; split; [constructor|]; split; [|split; [|reflexivity]].
    + intros z [<-|[]]; left; reflexivity.
    + constructor; [intros [] | constructor].
  - destruct IH as [l [Hb [Hi [Hd Hl]]]]; [lia|].
    assert (Hne : set_diff s l <> []) by (apply set_diff_nonempty; [exact s_nodup | lia]).
    destruct (set_diff s l) as [|y rest] eqn:Ed; [contradiction|].
    assert (Hy : In y s /\ ~ In y l)
      by (apply set_diff_in; rewrite Ed; left; reflexivity).
    destruct l as [|x0 l0] eqn:El; [simpl in Hl; lia|].
    rewrite <- El in *.
    assert (Hx0 : In x0 l) by (rewrite El; left; reflexivity).
    destruct (@connected_crosses iter g iter_perm s (fun z => mem z l) x0 y s_two
                s_connected (Hi _ Hx0) (proj2 (mem_in _ _) Hx0) (proj1 Hy)
                (proj2 (mem_false _ _) (proj2 Hy)))
      as [a [b [Ha [Hb' [Sa [Sb He]]]]]].
    apply mem_in in Sa; apply mem_false in Sb.
    exists (b :: l); split; [apply (@build_more g b l a); assumption|].
    split; [intros z [<-|Hz]; [exact Hb' | apply Hi; exact Hz]|].
    split; [constructor; assumption | simpl; lia].
Qed.

(** Some relation can be taken away from a connected subset so that the
    rest stays connected; it shares a class with one of the rest. *)
Lemma connected_removable :
  exists y x,
    In y s /\ In x s /\ x <> y /\ are_in_same_ec g y x = true
    /\ forall a b, In a (set_diff s [y]) -> In b (set_diff s [y]) ->
                   reachable g (set_diff s [y]) a b.
Proof.
  destruct (@connected_grows (List.length s)) as [L [Hb [Hi [Hd Hl]]]]; [lia|].
  assert (Hi' : incl s L) by (apply NoDup_length_incl; [exact Hd | lia | exact Hi]).
  inversion Hb as [x E|y l x Hbl Hx He Hy E]; subst L; [simpl in Hl; lia|].
  inversion Hd as [|? ? _ Hdl]; subst.
  exists y, x; split; [apply Hi; left; reflexivity|].
  split; [apply Hi; right; exact Hx|].
  split; [intros ->; contradiction|].
  split; [rewrite are_in_same_ec_sym; exact He|].
  assert (Hm : forall z, In z (set_diff s [y]) <-> In z l).
  { intros z; rewrite set_diff_in; simpl; split.
    - intros [Hz Hn]; destruct (Hi' z Hz) as [<-|H]; [exfalso; apply Hn; auto | exact H].
    - intros Hz; split; [apply Hi; right; exact Hz|].
      intros [<-|[]]; contradiction. }
  intros a b Ha Hb'.
  apply (@reachable_mono g l (set_diff s [y]) a b); [intros z Hz; apply Hm; exact Hz|].
  apply buildable_reachable; [exact Hbl | apply Hm; exact Ha | apply Hm; exact Hb'].
Qed.

End Removable.

Lemma reachable_connected (iter : list string -> list string) (g : JoinGraph)
  (r : list string) :
  (forall x, Permutation (iter x) x) -> NoDup r ->
  (forall a b, In a r -> In b r -> reachable g r a b) ->
  is_connected iter g r = true.
Proof.
  intros Hp Hd Hr.
  destruct (Nat.leb_spec (List.length r) 1) as [Hl|Hl].
  - unfold is_connected; apply Nat.leb_le in Hl; rewrite Hl; reflexivity.
  - destruct (iter r) as [|start rest] eqn:Ei.
    + pose proof (Permutation_length (Hp r)) as E; rewrite Ei in E; simpl in E; lia.
    + apply (proj2 (@is_connected_reachable iter g r start rest Hp Hd Hl Ei)).
      intros x Hx; apply Hr; [|exact Hx].
      apply (Permutation_in _ (Hp r)); rewrite Ei; left; reflexivity.
Qed.

(** *** Combinations *)

Lemma combinations_zero (A : Type) (l : list A) : combinations l 0 = [[]].
Proof. destruct l; reflexivity. Qed.

Lemma combinations_tail (A : Type) (x : A) (l c : list A) (k : nat) :
  In c (combinations l k) -> In c (combinations (x :: l) k).
Proof.
  destruct k as [|k]; [rewrite !combinations_zero; auto|].
  intros H; simpl; apply in_or_app; right; exact H.
Qed.

Lemma combinations_filter (A : Type) (f : A -> bool) (l : list A) :
  forall (k : nat) (c : list A),
    In c (combinations l k) ->
    In (filter f c) (combinations l (List.length (filter f c))).
Proof.
  induction l as [|x l IH]; intros k c H.
  - destruct k; simpl in H; [|destruct H].
    destruct H as [<-|[]]; left; reflexivity.
  - destruct k as [|k]; simpl in H.
    + destruct H as [<-|[]]; left; reflexivity.
    + apply in_app_iff in H; destruct H as [H|H].
      * apply in_map_iff in H; destruct H as [c' [<- H]]; simpl.
        destruct (f x); simpl.
        -- apply in_or_app; left; apply in_map, (IH k c' H).
        -- apply combinations_tail, (IH k c' H).
      * apply combinations_tail, (IH (S k) c H).
Qed.

Lemma combinations_single (A : Type) (y : A) (l : list A) :
  In y l -> In [y] (combinations l 1).
Proof.
  induction l as [|x l IH]; intros H; [destruct H|].
  simpl; rewrite combinations_zero; simpl.
  destruct H as [->|H]; [left; reflexivity | right; apply IH; exact H].
Qed.

Lemma combinations_nodup (A : Type) (l : list A) :
  NoDup l -> forall (k : nat) (c : list A), In c (combinations l k) -> NoDup c.
Proof.
  induction 1 as [|x l Hx Hd IH]; intros k c H.
  - destruct k; simpl in H; [destruct H as [<-|[]]; constructor | destruct H].
  - destruct k as [|k]; simpl in H; [destruct H as [<-|[]]; constructor|].
    apply in_app_iff in H; destruct H as [H|H]; [|apply (IH (S k) c H)].
    apply in_map_iff in H; destruct H as [c' [<- H]].
    constructor; [|apply (IH k c' H)].
    intros Hin; apply Hx, (combinations_incl _ _ _ H), Hin.
Qed.

Lemma combinations_ascending (l : list string) :
  ascending l -> forall (k : nat) (c : list string),
    In c (combinations l k) -> ascending c.
Proof.
  induction 1 as [|x l Ha IH Hx]; intros k c H.
  - destruct k; simpl in H; [destruct H as [<-|[]]; constructor | destruct H].
  - destruct k as [|k]; simpl in H; [destruct H as [<-|[]]; constructor|].
    apply in_app_iff in H; destruct H as [H|H]; [|apply (IH (S k) c H)].
    apply in_map_iff in H; destruct H as [c' [<- H]].
    constructor; [apply (IH k c' H)|].
    rewrite Forall_forall in *; intros z Hz; apply Hx, (combinations_incl _ _ _ H), Hz.
Qed.

Lemma filter_all (A : Type) (f : A -> bool) (l : list A) :
  (forall x, In x l -> f x = true) -> filter f l = l.
Proof.
  induction l as [|x l IH]; intros H; simpl; [reflexivity|].
  rewrite (H x (or_introl eq_refl)), IH; [reflexivity|].
  intros y Hy; apply H; right; exact Hy.
Qed.

Lemma dedup_fixed (l : list string) : NoDup l -> dedup l = l.
Proof.
  induction 1 as [|x l Hx Hd IH]; simpl; [reflexivity|].
  rewrite IH, filter_all; [reflexivity|].
  intros y Hy; destruct (String.eqb_spec x y) as [->|_]; [contradiction | reflexivity].
Qed.

Lemma mk_set_fixed (l : list string) : NoDup l -> ascending l -> mk_set l = l.
Proof. intros Hd Ha; unfold mk_set; rewrite (dedup_fixed Hd); apply sorted_fixed, Ha. Qed.

Lemma set_diff_single (s : list string) (y : string) :
  set_diff s [y] = set_remove y s.
Proof.
  unfold set_diff, set_remove; apply filter_ext; intros x; simpl.
  rewrite orb_false_r, String.eqb_sym; reflexivity.
Qed.

Lemma first_some_found (A B : Type) (f : A -> option B) (l : list A) (x : A) :
  In x l -> f x <> None -> first_some f l <> None.
Proof.
  intros Hx Hf H; apply Hf; exact (first_some_none _ _ H x Hx).
Qed.

Section EnumeratorExact.

Variable iter : list string -> list string.
Variable g : JoinGraph.
Hypothesis iter_perm : forall x, Permutation (iter x) x.

Variable ts : list string.
Hypothesis ts_ascending : ascending ts.
Hypothesis ts_nodup : NoDup ts.

Lemma combination_set (k : nat) (c : list string) :
  In c (combinations ts k) -> mk_set c = c /\ sorted c = c /\ NoDup c.
Proof.
  intros H.
  pose proof (combinations_nodup ts_nodup _ _ H) as Hd.
  pose proof (combinations_ascending ts_ascending _ _ H) as Ha.
  split; [apply mk_set_fixed; assumption | split; [apply sorted_fixed, Ha | exact Hd]].
Qed.

(** A connected candidate of two or more relations has a decomposition
    once the connected subsets below its size are in [dp_table]: one of
    its relations can be split off. *)
Lemma decomposition_exists (dp : list string) (k : nat) (c : list string) :
  In c (combinations ts k) -> 2 <= k ->
  is_connected iter g c = true ->
  (forall j c', 1 <= j < k -> In c' (combinations ts j) ->
                is_connected iter g c' = true -> In (_canonical_key c') dp) ->
  _find_valid_decomposition iter g dp c <> None.
Proof.
  intros Hc Hk Hconn Hdp.
  destruct (combination_set _ _ Hc) as [_ [Hs Hd]].
  pose proof (combinations_length _ _ _ Hc) as Hl.
  destruct (@connected_removable iter g iter_perm c Hd ltac:(lia) Hconn)
    as [y [x [Hy [Hx [Hxy [He Hr]]]]]].
  unfold _find_valid_decomposition; rewrite Hs, Hl.
  apply (@first_some_found _ _ _ _ 1); [apply in_seq; lia|].
  apply (@first_some_found _ _ _ _ [y]); [apply combinations_single; exact Hy|].
  unfold try_split.
  change (mk_set [y]) with [y].
  assert (Hry : In (set_diff c [y]) (combinations ts (k - 1))).
  { replace (k - 1) with (List.length (set_diff c [y])).
    - apply (combinations_filter _ _ _ _ Hc).
    - rewrite set_diff_single.
      pose proof (@set_remove_length y c Hd Hy); lia. }
  assert (Hcy : is_connected iter g (set_diff c [y]) = true).
  { apply reachable_connected; [exact iter_perm | | exact Hr].
    apply NoDup_filter; exact Hd. }
  assert (K1 : In (_canonical_key [y]) dp).
  { apply (Hdp 1 [y]); [lia | |reflexivity].
    apply combinations_single, (combinations_incl _ _ _ Hc), Hy. }
  assert (K2 : In (_canonical_key (set_diff c [y])) dp)
    by (apply (Hdp (k - 1) _); [lia | exact Hry | exact Hcy]).
  apply mem_in in K1, K2; rewrite K1, K2; cbn [negb orb].
  assert (Hj : can_join iter g [y] (set_diff c [y]) = true).
  { unfold can_join; apply existsb_exists; exists y; split.
    - apply (Permutation_in _ (Permutation_sym (iter_perm [y]))); left; reflexivity.
    - apply existsb_exists; exists x; split; [|exact He].
      apply (Permutation_in _ (Permutation_sym (iter_perm _))).
      apply set_diff_in; split; [exact Hx | intros [E|[]]; apply Hxy; auto]. }
  rewrite Hj; discriminate.
Qed.

Lemma candidates_exact (k : nat) (cs : list (list string)) :
  1 <= k -> (forall c, In c cs -> In c (combinations ts k)) ->
  forall (st : enum_state) (n : nat),
    (forall s, In s (map subset (plans st)) -> In (_canonical_key s) (dp_table st)) ->
    (forall j c', 1 <= j < k -> In c' (combinations ts j) ->
                  is_connected iter g c' = true -> In c' (map subset (plans st))) ->
    let r := fold_left (enumerate_candidate iter g k) cs (st, n) in
    map subset (plans (fst r))
    = map subset (plans st) ++ filter (is_connected iter g) cs
    /\ (forall s, In s (map subset (plans (fst r))) ->
                  In (_canonical_key s) (dp_table (fst r)))
    /\ snd r = n + List.length (filter (is_connected iter g) cs).
Proof.
  intros Hk; induction cs as [|c cs IH]; intros Hcs st n Hdp Hlow; cbn [fold_left filter].
  - rewrite app_nil_r; simpl; split; [reflexivity | split; [exact Hdp | lia]].
  - assert (Hc : In c (combinations ts k)) by (apply Hcs; left; reflexivity).
    assert (Hcs' : forall c', In c' cs -> In c' (combinations ts k))
      by (intros c' H; apply Hcs; right; exact H).
    destruct (combination_set _ _ Hc) as [Hm _].
    assert (Hadd : forall l r,
               let st' := _add_subset st c l r in
               (forall s, In s (map subset (plans st')) ->
                          In (_canonical_key s) (dp_table st'))
               /\ map subset (plans st') = map subset (plans st) ++ [c]).
    { intros l r; simpl; rewrite map_app; simpl; split; [|reflexivity].
      intros s Hin; apply set_add_in; apply in_app_iff in Hin.
      destruct Hin as [Hin|[<-|[]]]; [right; apply Hdp; exact Hin | left; reflexivity]. }
    assert (Hstep : enumerate_candidate iter g k (st, n) c
                    = if is_connected iter g c then
                        if Nat.eqb k 1 then (_add_subset st c None None, S n)
                        else match _find_valid_decomposition iter g (dp_table st) c with
                             | Some decomp =>
                                 (_add_subset st c (Some (dec_left decomp))
                                    (Some (dec_right decomp)), S n)
                             | None => (st, n)
                             end
                      else (st, n)).
    { unfold enumerate_candidate; rewrite Hm; cbn [fst snd].
      destruct (is_connected iter g c); reflexivity. }
    cbv zeta; rewrite Hstep; clear Hstep.
    destruct (is_connected iter g c) eqn:Hconn; cbn [List.length].
    + assert (Hgo : forall l r,
                 let r' := fold_left (enumerate_candidate iter g k) cs
                             (_add_subset st c l r, S n) in
                 map subset (plans (fst r'))
                 = map subset (plans st) ++ c :: filter (is_connected iter g) cs
                 /\ (forall s, In s (map subset (plans (fst r'))) ->
                               In (_canonical_key s) (dp_table (fst r')))
                 /\ snd r' = n + S (List.length (filter (is_connected iter g) cs))).
      { intros l r; destruct (Hadd l r) as [A1 A2].
        destruct (IH Hcs' (_add_subset st c l r) (S n) A1) as [B1 [B2 B3]].
        - intros j c' Hj Hc' Hcc; rewrite A2; apply in_or_app; left.
          apply (Hlow j c' Hj Hc' Hcc).
        - cbv zeta; split; [|split; [exact B2 | rewrite B3; lia]].
          rewrite B1, A2, <- app_assoc; reflexivity. }
      destruct (Nat.eqb_spec k 1) as [E|E]; [apply Hgo|].
      destruct (_find_valid_decomposition iter g (dp_table st) c) as [dec|] eqn:Hf;
        [apply Hgo|].
      exfalso; revert Hf; apply (@decomposition_exists _ k c Hc); [lia | exact Hconn|].
      intros j c' Hj Hc' Hcc; apply Hdp, (Hlow j c' Hj Hc' Hcc).
    + apply (IH Hcs' st n Hdp Hlow).
Qed.

Lemma levels_exact (b : nat) :
  let r := enumerate_levels iter g ts (seq 1 b) in
  map subset (plans (fst r)) = flat_map (connected_subsets iter g ts) (seq 1 b)
  /\ (forall s, In s (map subset (plans (fst r))) ->
                In (_canonical_key s) (dp_table (fst r)))
  /\ snd r = map (fun k => (k, List.length (connected_subsets iter g ts k))) (seq 1 b).
Proof.
  induction b as [|b IH]; [simpl; split; [reflexivity | split; [intros s [] | reflexivity]]|].
  rewrite seq_S; unfold enumerate_levels in *; rewrite fold_left_app; cbn [fold_left].
  cbv zeta in IH; destruct IH as [A [B C]].
  set (acc := fold_left _ (seq 1 b) _) in *.
  destruct (@candidates_exact (1 + b) (combinations ts (1 + b)) ltac:(lia)
              (fun c H => H) (fst acc) 0 B) as [D [E F]].
  - intros j c' Hj Hc' Hcc; rewrite A; apply in_flat_map; exists j.
    split; [apply in_seq; lia | apply filter_In; split; assumption].
  - cbv zeta in D, E, F; unfold _enumerate_level; cbn [fst snd].
    split; [|split; [exact E|]].
    + rewrite D, A, flat_map_app; cbn [flat_map]; rewrite app_nil_r; reflexivity.
    + rewrite C, F, map_app; reflexivity.
Qed.

End EnumeratorExact.

Lemma map_cons_nodup (A : Type) (x : A) (l : list (list A)) :
  NoDup l -> NoDup (map (cons x) l).
Proof.
  induction 1 as [|c l Hc Hd IH]; simpl; constructor; [|exact IH].
  intros H; apply in_map_iff in H; destruct H as [c' [E H]].
  inversion E; subst; contradiction.
Qed.

Lemma combinations_distinct (A : Type) (l : list A) :
  NoDup l -> forall k, NoDup (combinations l k).
Proof.
  induction 1 as [|x l Hx Hd IH]; intros k.
  - destruct k; simpl; [constructor; [intros [] | constructor] | constructor].
  - destruct k as [|k]; simpl; [constructor; [intros [] | constructor]|].
    apply NoDup_app; [|apply IH|].
    + apply map_cons_nodup, IH.
    + intros c Hc Hc'; apply in_map_iff in Hc; destruct Hc as [c' [<- _]].
      apply Hx, (combinations_incl _ _ _ Hc'); left; reflexivity.
Qed.

Lemma levels_distinct (f : nat -> list (list string)) (n : nat) :
  (forall k, NoDup (f k)) -> (forall k c, In c (f k) -> List.length c = k) ->
  forall a, NoDup (flat_map f (seq a n)).
Proof.
  intros Hd Hl; induction n as [|n IH]; intros a; simpl; [constructor|].
  apply NoDup_app; [apply Hd | apply IH|].
  intros c Hc Hc'; apply in_flat_map in Hc'; destruct Hc' as [k [Hk Hc']].
  apply in_seq in Hk; apply Hl in Hc, Hc'; lia.
Qed.

Lemma sorted_nodup (l : list string) : NoDup l -> NoDup (sorted l).
Proof.
  intros H; eapply Permutation_NoDup; [apply Permutation_sym, sorted_by_perm | exact H].
Qed.

(** X1.  With distinct relations, the subsets of the emitted plans are
    exactly the subsets on which [is_connected] holds, level by level up to
    [min(max_level, len(tables))] and, within a level, in the order in which
    [itertools.combinations] lists the subsets of the sorted relations.  No
    connected subset is skipped for want of a decomposition. *)
Theorem enumerate_subsets_exact (iter : list string -> list string) (g : JoinGraph)
  (relations : list string) (max_level : Z) :
  (forall x, Permutation (iter x) x) -> NoDup relations ->
  map subset (all_plans (enumerate_subsets iter g relations max_level))
  = flat_map (connected_subsets iter g (sorted relations))
             (level_range (List.length relations) max_level).
Proof.
  intros Hp Hd; unfold enumerate_subsets, level_range; cbn [all_plans].
  rewrite sorted_length.
  apply (@levels_exact iter g Hp (sorted relations) (sorted_ascending relations)
           (sorted_nodup Hd)).
Qed.

Lemma enumerate_subsets_exact_witness :
  map subset (all_plans (enumerate_subsets iter_descending (join_graph parsed_gap)
                           ["C"; "A"; "B"] 2))
  = flat_map (connected_subsets iter_descending (join_graph parsed_gap)
                (sorted ["C"; "A"; "B"]))
             (level_range 3 2).
Proof.
  apply (@enumerate_subsets_exact iter_descending (join_graph parsed_gap)
           ["C"; "A"; "B"] 2).
  - intros x; apply Permutation_sym, Permutation_rev.
  - repeat constructor; simpl; intuition discriminate.
Defined.

(** X2.  With distinct relations, no subset is emitted twice. *)
Theorem enumerate_subsets_no_repeats (iter : list string -> list string)
  (g : JoinGraph) (relations : list string) (max_level : Z) :
  (forall x, Permutation (iter x) x) -> NoDup relations ->
  NoDup (map subset (all_plans (enumerate_subsets iter g relations max_level))).
Proof.
  intros Hp Hd; unfold enumerate_subsets, level_range; cbn [all_plans].
  rewrite (proj1 (@levels_exact iter g Hp (sorted relations)
                    (sorted_ascending relations) (sorted_nodup Hd) _)).
  apply levels_distinct.
  - intros k; apply NoDup_filter, combinations_distinct, sorted_nodup, Hd.
  - intros k c Hc; apply filter_In in Hc; apply (combinations_length _ _ _ (proj1 Hc)).
Qed.

Lemma enumerate_subsets_no_repeats_witness :
  NoDup (map subset (all_plans (enumerate_subsets iter_ascending (join_graph parsed_chain)
                                  ["A"; "B"; "C"] 20))).
Proof.
  apply (@enumerate_subsets_no_repeats iter_ascending (join_graph parsed_chain)
           ["A"; "B"; "C"] 20).
  - intros x; apply Permutation_refl.
  - repeat constructor; simpl; intuition discriminate.
Defined.

Lemma filter_none (A : Type) (f : A -> bool) (l : list A) :
  (forall x, In x l -> f x = false) -> filter f l = [].
Proof.
  induction l as [|x l IH]; intros H; simpl; [reflexivity|].
  rewrite (H x (or_introl eq_refl)); apply IH; intros y Hy; apply H; right; exact Hy.
Qed.

Lemma count_level (f : nat -> list (list string)) (k n : nat) :
  (forall j c, In c (f j) -> List.length c = j) ->
  forall a,
    (a <= k < a + n ->
     List.length (filter (fun c => Nat.eqb (List.length c) k) (flat_map f (seq a n)))
     = List.length (f k))
    /\ (~ a <= k < a + n ->
        List.length (filter (fun c => Nat.eqb (List.length c) k) (flat_map f (seq a n)))
        = 0).
Proof.
  intros Hl; induction n as [|n IH]; intros a; cbn [seq flat_map].
  - split; [lia | reflexivity].
  - rewrite filter_app, length_app.
    destruct (IH (S a)) as [IH1 IH2].
    destruct (Nat.eq_dec a k) as [->|Hne].
    + rewrite filter_all, IH2; [split; lia | lia|].
      intros c Hc; apply Nat.eqb_eq, (Hl k c Hc).
    + assert (E : filter (fun c => Nat.eqb (List.length c) k) (f a) = []).
      { apply filter_none; intros c Hc.
        apply Nat.eqb_neq; rewrite (Hl a c Hc); exact Hne. }
      rewrite E; cbn [List.length]; split; intros H.
      * rewrite IH1; lia.
      * rewrite IH2; lia.
Qed.

(** X3.  With distinct relations, [counts] has one entry for each level
    visited, in order, and the entry of a level is the number of emitted
    plans with that many relations. *)
Theorem enumerate_subsets_counts (iter : list string -> list string) (g : JoinGraph)
  (relations : list string) (max_level : Z) :
  (forall x, Permutation (iter x) x) -> NoDup relations ->
  counts (enumerate_subsets iter g relations max_level)
  = map (fun k =>
           (k, List.length
                 (filter (fun p => Nat.eqb (List.length (subset p)) k)
                         (all_plans (enumerate_subsets iter g relations max_level)))))
        (level_range (List.length relations) max_level).
Proof.
  intros Hp Hd.
  unfold enumerate_subsets, level_range in *; cbn [all_plans counts] in *.
  rewrite sorted_length in *.
  set (b := Z.to_nat (Z.min max_level (Z.of_nat (List.length relations)))) in *.
  destruct (@levels_exact iter g Hp (sorted relations) (sorted_ascending relations)
              (sorted_nodup Hd) b) as [A [_ C]].
  cbv zeta in A, C; rewrite C; apply map_ext_in; intros k Hk; f_equal.
  apply in_seq in Hk.
  assert (E : forall ps : list EnumerationPlan,
             List.length (filter (fun p => Nat.eqb (List.length (subset p)) k) ps)
             = List.length (filter (fun c => Nat.eqb (List.length c) k) (map subset ps))).
  { induction ps as [|p ps IH]; simpl; [reflexivity|].
    destruct (Nat.eqb (List.length (subset p)) k); simpl; rewrite IH; reflexivity. }
  rewrite E, A; symmetry.
  apply (@count_level (connected_subsets iter g (sorted relations)) k b); [|lia].
  intros j c Hc; apply filter_In in Hc; apply (combinations_length _ _ _ (proj1 Hc)).
Qed.

Lemma enumerate_subsets_counts_witness :
  counts (enumerate_subsets iter_ascending (join_graph parsed_chain) ["A"; "B"; "C"] 20)
  = map (fun k =>
           (k, List.length
                 (filter (fun p => Nat.eqb (List.length (subset p)) k)
                         (all_plans (enumerate_subsets iter_ascending
                                       (join_graph parsed_chain) ["A"; "B"; "C"] 20)))))
        (level_range 3 20).
Proof.
  apply (@enumerate_subsets_counts iter_ascending (join_graph parsed_chain)
           ["A"; "B"; "C"] 20).
  - intros x; apply Permutation_refl.
  - repeat constructor; simpl; intuition discriminate.
Defined.

(** ** The equivalence classes are the components of the column graph *)

Lemma root_of_root (parent : list (string * string)) (x r : string) :
  root_of parent x r -> dict_get r parent = Some r.
Proof. induction 1; assumption. Qed.

Lemma root_of_dom (parent : list (string * string)) (x r : string) :
  root_of parent x r -> dict_get x parent <> None.
Proof. destruct 1; congruence. Qed.

Lemma root_of_fun (parent : list (string * string)) (x r r' : string) :
  root_of parent x r -> root_of parent x r' -> r = r'.
Proof.
  intros H; revert r'; induction H as [r H|x p r Hx Hp H IH]; intros r' H'.
  - inversion H' as [? H1|? p ? H1 H2 H3]; subst; [reflexivity | congruence].
  - inversion H' as [? H1|? p' ? H1 H2 H3]; subst; [congruence|].
    apply IH; congruence.
Qed.

Lemma keeps_roots_refl (parent : list (string * string)) : keeps_roots parent parent.
Proof. intros z r H; exact H. Qed.

Lemma keeps_roots_trans (p1 p2 p3 : list (string * string)) :
  keeps_roots p1 p2 -> keeps_roots p2 p3 -> keeps_roots p1 p3.
Proof. intros H1 H2 z r H; apply H2, H1, H. Qed.

(** A new node enters the forest as a root. *)
Lemma new_root_keeps (parent : list (string * string)) (x : string) :
  dict_get x parent = None -> keeps_roots parent (dict_set x x parent).
Proof.
  intros Hx z r H; induction H as [r H|z p r Hz Hp H IH].
  - apply root_here; rewrite dict_get_set.
    destruct (String.eqb_spec r x) as [->|_]; [reflexivity | exact H].
  - apply (@root_up _ z p r); [|exact Hp | exact IH].
    rewrite dict_get_set; destruct (String.eqb_spec z x) as [->|_]; [congruence | exact Hz].
Qed.

(** Path compression: pointing [x] at its root changes no root. *)
Lemma compress_keeps (parent : list (string * string)) (x r : string) :
  root_of parent x r -> keeps_roots parent (dict_set x r parent).
Proof.
  intros Hx z r' H.
  assert (Hr : dict_get r parent = Some r) by (apply (root_of_root Hx)).
  assert (Hxr : root_of (dict_set x r parent) x r).
  { destruct (String.eqb_spec r x) as [->|Hne].
    - apply root_here; rewrite dict_get_set, String.eqb_refl; reflexivity.
    - apply (@root_up _ x r r); [|exact Hne|].
      + rewrite dict_get_set, String.eqb_refl; reflexivity.
      + apply root_here; rewrite dict_get_set.
        destruct (String.eqb_spec r x); [contradiction | exact Hr]. }
  induction H as [r0 H|z p r' Hz Hp H IH].
  - destruct (String.eqb_spec r0 x) as [->|Hne].
    + pose proof (root_of_fun (@root_here parent x H) Hx) as E; subst r; exact Hxr.
    + apply root_here; rewrite dict_get_set.
      destruct (String.eqb_spec r0 x); [contradiction | exact H].
  - destruct (String.eqb_spec z x) as [->|Hne].
    + pose proof (root_of_fun (@root_up parent x p r' Hz Hp H) Hx) as E; subst r'.
      exact Hxr.
    + apply (@root_up _ z p r'); [|exact Hp | exact IH].
      rewrite dict_get_set; destruct (String.eqb_spec z x); [contradiction | exact Hz].
Qed.

(** Linking the root [a] under the root [b] moves the trees of [a] to [b]
    and leaves the other roots. *)
Lemma link_roots (parent : list (string * string)) (a b : string) :
  dict_get a parent = Some a -> dict_get b parent = Some b -> a <> b ->
  forall z r, root_of parent z r ->
              root_of (dict_set a b parent) z (if String.eqb r a then b else r).
Proof.
  intros Ha Hb Hab z r H.
  assert (Hbb : root_of (dict_set a b parent) b b).
  { apply root_here; rewrite dict_get_set.
    destruct (String.eqb_spec b a) as [E|_]; [congruence | exact Hb]. }
  induction H as [r H|z p r Hz Hp H IH].
  - destruct (String.eqb_spec r a) as [->|Hne].
    + apply (@root_up _ a b b); [|congruence | exact Hbb].
      rewrite dict_get_set, String.eqb_refl; reflexivity.
    + apply root_here; rewrite dict_get_set.
      destruct (String.eqb_spec r a); [contradiction | exact H].
  - apply (@root_up _ z p); [|exact Hp | exact IH].
    rewrite dict_get_set; destruct (String.eqb_spec z a) as [->|_]; [congruence | exact Hz].
Qed.

Lemma closed_parents_set (parent : list (string * string)) (x r : string) :
  closed_parents parent -> (r = x \/ dict_get r parent <> None) ->
  closed_parents (dict_set x r parent).
Proof.
  intros Hc Hr z p; rewrite !dict_get_set.
  destruct (String.eqb_spec z x) as [->|_].
  - intros H; inversion H; subst p.
    destruct (String.eqb_spec r x); [discriminate|]; destruct Hr; [contradiction | assumption].
  - intros H; destruct (String.eqb p x); [discriminate | apply (Hc z p H)].
Qed.

Lemma uf_find_root (fuel : nat) :
  forall (x : string) (st : uf_state) (r : string) (st' : uf_state),
    uf_find fuel x st = Some (r, st') -> closed_parents (fst st) ->
    closed_parents (fst st')
    /\ root_of (fst st') x r
    /\ keeps_roots (fst st) (fst st')
    /\ (dict_get x (fst st) <> None -> root_of (fst st) x r)
    /\ (forall z, dict_get z (fst st') <> None -> z = x \/ dict_get z (fst st) <> None).
Proof.
  induction fuel as [|fuel IH]; intros x [parent rank] r st'; [discriminate|].
  cbn [uf_find fst]; intros H Hc.
  set (st0 := if dict_has x parent then _ else _) in H.
  assert (H0 : closed_parents (fst st0) /\ keeps_roots parent (fst st0)
               /\ (dict_get x parent <> None -> fst st0 = parent)
               /\ (forall z, dict_get z (fst st0) <> None ->
                             z = x \/ dict_get z parent <> None)).
  { unfold st0, dict_has; destruct (dict_get x parent) as [p|] eqn:Hx; cbn [fst].
    - split; [exact Hc | split; [apply keeps_roots_refl | split; auto]].
    - split; [apply closed_parents_set; auto|].
      split; [apply new_root_keeps; exact Hx | split; [congruence|]].
      intros z; rewrite dict_get_set.
      destruct (String.eqb_spec z x); [left; assumption | right; assumption]. }
  clearbody st0; destruct st0 as [parent0 rank0]; cbn [fst] in H0.
  destruct H0 as [Hc0 [Hk0 [He0 Hd0]]].
  destruct (dict_get x parent0) as [p|] eqn:Hx; [|discriminate].
  destruct (String.eqb_spec p x) as [->|Hne]; cbn [negb] in H.
  - inversion H; subst r st'; cbn [fst].
    split; [exact Hc0 | split; [apply root_here; exact Hx | split; [exact Hk0|]]].
    split; [|exact Hd0].
    intros Hin; rewrite <- (He0 Hin); apply root_here; exact Hx.
  - destruct (uf_find fuel p (parent0, rank0)) as [[r1 [parent1 rank1]]|] eqn:F;
      [|discriminate].
    inversion H; subst r st'; cbn [fst].
    destruct (IH p _ r1 _ F Hc0) as [Hc1 [Hr1 [Hk1 [Hold Hd1]]]]; cbn [fst] in *.
    assert (Hx0 : root_of parent0 x r1).
    { apply (@root_up _ x p r1); [exact Hx | exact Hne|].
      apply Hold, (Hc0 x p Hx). }
    assert (Hx1 : root_of parent1 x r1) by (apply Hk1, Hx0).
    split; [|split; [|split; [|split]]].
    + apply closed_parents_set; [exact Hc1|].
      right; rewrite (root_of_root Hr1); discriminate.
    + apply (compress_keeps Hx1), Hx1.
    + eapply keeps_roots_trans; [exact Hk0|].
      eapply keeps_roots_trans; [exact Hk1 | apply compress_keeps; exact Hx1].
    + intros Hin; rewrite <- (He0 Hin); exact Hx0.
    + intros z; rewrite dict_get_set.
      destruct (String.eqb_spec z x) as [->|_]; [left; reflexivity|].
      intros Hz; destruct (Hd1 z Hz) as [->|Hz1]; [|apply Hd0, Hz1].
      apply Hd0, (Hc0 x p Hx).
Qed.

Lemma same_root_keeps (p1 p2 : list (string * string)) (z w : string) :
  keeps_roots p1 p2 -> same_root p1 z w -> same_root p2 z w.
Proof. intros Hk [r [H1 H2]]; exists r; split; apply Hk; assumption. Qed.

Lemma uf_union_root (fuel : nat) (x y : string) (st st' : uf_state) :
  uf_union fuel x y st = Some st' -> closed_parents (fst st) ->
  closed_parents (fst st')
  /\ same_root (fst st') x y
  /\ (forall z w, same_root (fst st) z w -> same_root (fst st') z w)
  /\ (forall z, dict_get z (fst st') <> None ->
                z = x \/ z = y \/ dict_get z (fst st) <> None).
Proof.
  unfold uf_union; intros H Hc.
  destruct (uf_find fuel x st) as [[root_x st1]|] eqn:F1; [|discriminate].
  destruct (@uf_find_root fuel x st root_x st1 F1 Hc) as [Hc1 [Rx [K1 [_ D1]]]].
  destruct (uf_find fuel y st1) as [[root_y [parent rank]]|] eqn:F2; [|discriminate].
  destruct (@uf_find_root fuel y st1 root_y _ F2 Hc1) as [Hc2 [Ry [K2 [_ D2]]]].
  cbn [fst] in *.
  pose proof (K2 _ _ Rx) as Rx2.
  assert (Hdom : forall z, dict_get z parent <> None ->
                           z = x \/ z = y \/ dict_get z (fst st) <> None).
  { intros z Hz; destruct (D2 z Hz) as [->|Hz1]; [auto|].
    destruct (D1 z Hz1) as [->|Hz0]; auto. }
  assert (Hlink : forall a b,
             dict_get a parent = Some a -> dict_get b parent = Some b -> a <> b ->
             (root_x = a /\ root_y = b) \/ (root_x = b /\ root_y = a) ->
             forall rank' : list (string * nat),
               closed_parents (fst (dict_set a b parent, rank'))
               /\ same_root (fst (dict_set a b parent, rank')) x y
               /\ (forall z w, same_root (fst st) z w ->
                               same_root (fst (dict_set a b parent, rank')) z w)
               /\ (forall z, dict_get z (fst (dict_set a b parent, rank')) <> None ->
                             z = x \/ z = y \/ dict_get z (fst st) <> None)).
  { intros a b Ha Hb Hab Hor rank'; cbn [fst].
    pose proof (@link_roots parent a b Ha Hb Hab) as L.
    split; [apply closed_parents_set; [exact Hc2 | right; congruence]|].
    split; [|split].
    - exists b; pose proof (L _ _ Rx2) as Lx; pose proof (L _ _ Ry) as Ly.
      destruct Hor as [[-> ->]|[-> ->]].
      + rewrite String.eqb_refl in Lx.
        destruct (String.eqb_spec b a); [congruence|]; split; assumption.
      + rewrite String.eqb_refl in Ly.
        destruct (String.eqb_spec b a); [congruence|]; split; assumption.
    - intros z w [r [Hz Hw]]; eexists; split; apply L, K2, K1; eassumption.
    - intros z; rewrite dict_get_set.
      destruct (String.eqb_spec z a) as [->|_]; [intros _; apply Hdom; congruence|].
      apply Hdom. }
  destruct (String.eqb_spec root_x root_y) as [E|Hne].
  - inversion H; subst st'; cbn [fst].
    split; [exact Hc2 | split; [|split; [|exact Hdom]]].
    + exists root_y; split; [rewrite <- E; exact Rx2 | exact Ry].
    + intros z w Hs; apply (same_root_keeps K2), (same_root_keeps K1), Hs.
  - pose proof (root_of_root Rx2) as Hrx; pose proof (root_of_root Ry) as Hry.
    destruct (dict_get root_x rank) as [rx|]; [|discriminate].
    destruct (dict_get root_y rank) as [ry|]; [|discriminate].
    destruct (Nat.ltb rx ry); [|destruct (Nat.ltb ry rx)]; inversion H; subst st'.
    + apply (Hlink root_x root_y); auto.
    + apply (Hlink root_y root_x); auto.
    + apply (Hlink root_y root_x); auto.
Qed.

Lemma uf_union_details_root (fuel : nat) (ds : list JoinDetail) :
  forall st st' : uf_state,
    uf_union_details fuel ds st = Some st' -> closed_parents (fst st) ->
    closed_parents (fst st')
    /\ (forall d, In d ds ->
                  same_root (fst st') (qualified (t1 d) (t1_col d))
                            (qualified (t2 d) (t2_col d)))
    /\ (forall z w, same_root (fst st) z w -> same_root (fst st') z w)
    /\ (forall z, dict_get z (fst st') <> None ->
                  dict_get z (fst st) <> None
                  \/ exists d, In d ds /\ (z = qualified (t1 d) (t1_col d)
                                           \/ z = qualified (t2 d) (t2_col d))).
Proof.
  induction ds as [|d ds IH]; intros st st'; simpl.
  - intros H Hc; inversion H; subst st'.
    split; [exact Hc | split; [intros d [] | split; auto]].
  - destruct (uf_union fuel _ _ st) as [st1|] eqn:U; [|discriminate].
    intros H Hc.
    destruct (@uf_union_root fuel _ _ st st1 U Hc) as [Hc1 [S1 [P1 D1]]].
    destruct (IH st1 st' H Hc1) as [Hc2 [S2 [P2 D2]]].
    split; [exact Hc2 | split; [|split]].
    + intros d' [<-|Hd]; [apply P2, S1 | apply S2, Hd].
    + intros z w Hs; apply P2, P1, Hs.
    + intros z Hz; destruct (D2 z Hz) as [Hz1|[d' [Hd' Hz']]].
      * destruct (D1 z Hz1) as [->|[->|Hz0]]; [| |left; exact Hz0];
          right; exists d; split; auto.
      * right; exists d'; split; auto.
Qed.

Lemma uf_union_edges_root (fuel : nat) (es : list (string * list JoinDetail)) :
  forall st st' : uf_state,
    uf_union_edges fuel es st = Some st' -> closed_parents (fst st) ->
    closed_parents (fst st')
    /\ (forall d, In d (flat_map snd es) ->
                  same_root (fst st') (qualified (t1 d) (t1_col d))
                            (qualified (t2 d) (t2_col d)))
    /\ (forall z w, same_root (fst st) z w -> same_root (fst st') z w)
    /\ (forall z, dict_get z (fst st') <> None ->
                  dict_get z (fst st) <> None
                  \/ exists d, In d (flat_map snd es)
                               /\ (z = qualified (t1 d) (t1_col d)
                                   \/ z = qualified (t2 d) (t2_col d))).
Proof.
  induction es as [|[k ds] es IH]; intros st st'; simpl.
  - intros H Hc; inversion H; subst st'.
    split; [exact Hc | split; [intros d [] | split; auto]].
  - destruct (uf_union_details fuel ds st) as [st1|] eqn:U; [|discriminate].
    intros H Hc.
    destruct (@uf_union_details_root fuel ds st st1 U Hc) as [Hc1 [S1 [P1 D1]]].
    destruct (IH st1 st' H Hc1) as [Hc2 [S2 [P2 D2]]].
    split; [exact Hc2 | split; [|split]].
    + intros d Hd; apply in_app_iff in Hd; destruct Hd as [Hd|Hd];
        [apply P2, S1, Hd | apply S2, Hd].
    + intros z w Hs; apply P2, P1, Hs.
    + intros z Hz; destruct (D2 z Hz) as [Hz1|[d [Hd Hz']]].
      * destruct (D1 z Hz1) as [Hz0|[d [Hd Hz']]]; [left; exact Hz0|].
        right; exists d; split; [apply in_or_app; left; exact Hd | exact Hz'].
      * right; exists d; split; [apply in_or_app; right; exact Hd | exact Hz'].
Qed.

Lemma dict_values_unique (V : Type) (k : string) (v v' : V) (d : list (string * V)) :
  NoDup (map fst d) -> In (k, v) d -> In (k, v') d -> v = v'.
Proof.
  intros Hn H1 H2.
  pose proof (dict_get_unique _ _ _ Hn H1) as E1.
  pose proof (dict_get_unique _ _ _ Hn H2) as E2.
  congruence.
Qed.

Lemma uf_group_root (fuel : nat) (keys : list string) :
  forall (st : uf_state) (ec_groups ec_groups' : list (string * list string)),
    uf_group fuel keys st ec_groups = Some ec_groups' ->
    closed_parents (fst st) -> NoDup (map fst ec_groups) ->
    groups_rooted (fst st) ec_groups ->
    exists parent_f,
      keeps_roots (fst st) parent_f
      /\ NoDup (map fst ec_groups')
      /\ groups_rooted parent_f ec_groups'
      /\ (forall tc, In tc keys ->
                     exists root members, In (root, members) ec_groups' /\ In tc members)
      /\ (forall root members, In (root, members) ec_groups ->
                               exists members', In (root, members') ec_groups'
                                                /\ incl members members')
      /\ (forall root members tc, In (root, members) ec_groups' -> In tc members ->
                                  In tc keys
                                  \/ exists m0, In (root, m0) ec_groups /\ In tc m0).
Proof.
  induction keys as [|tc keys IH]; intros st ec_groups ec_groups'; simpl.
  - intros H Hc Hn Hg; inversion H; subst ec_groups'.
    exists (fst st); split; [apply keeps_roots_refl | split; [exact Hn | split; [exact Hg|]]].
    split; [intros tc [] | split].
    + intros root members Hin; exists members; split; [exact Hin | apply incl_refl].
    + intros root members tc Hin Htc; right; exists members; auto.
  - destruct (uf_find fuel tc st) as [[root st1]|] eqn:F; [|discriminate].
    intros H Hc Hn Hg.
    destruct (@uf_find_root fuel tc st root st1 F Hc) as [Hc1 [Rt [K1 _]]].
    set (members := match dict_get root ec_groups with Some s => s | None => [] end) in H.
    assert (Hold : forall x, In x members -> In (root, members) ec_groups).
    { unfold members; intros x Hx.
      destruct (dict_get root ec_groups) as [s|] eqn:E; [|destruct Hx].
      apply dict_get_in, E. }
    assert (Hg1 : groups_rooted (fst st1)
                    (dict_set root (set_add tc members) ec_groups)).
    { intros r m x Hin Hx.
      apply dict_set_in in Hin; destruct Hin as [Hin|Hin];
        [|apply K1, (Hg r m x Hin Hx)].
      inversion Hin; subst r m; clear Hin.
      apply (proj1 (set_add_in _ _ _)) in Hx; destruct Hx as [->|Hx]; [exact Rt|].
      apply K1, (Hg root members x (Hold x Hx) Hx). }
    destruct (IH st1 _ _ H Hc1 (dict_set_nodup _ _ _ Hn) Hg1)
      as [pf [Kf [Nf [Gf [Af [Ef Of]]]]]].
    exists pf; split; [eapply keeps_roots_trans; eassumption|].
    split; [exact Nf | split; [exact Gf|]].
    split; [|split].
    + intros x [<-|Hx]; [|apply Af, Hx].
      destruct (Ef root (set_add tc members) (dict_set_at _ _ _)) as [m' [Hm' Hi]].
      exists root, m'; split; [exact Hm'|].
      apply Hi, set_add_in; left; reflexivity.
    + intros r m Hin.
      destruct (dict_set_old root (set_add tc members) _ _ _ Hin) as [H1|[-> H1]].
      * apply Ef, H1.
      * destruct (Ef root (set_add tc members) (dict_set_at _ _ _)) as [m' [Hm' Hi]].
        exists m'; split; [exact Hm'|].
        intros x Hx; apply Hi, set_add_in; right.
        unfold members; rewrite H1; exact Hx.
    + intros r m x Hin Hx.
      destruct (Of r m x Hin Hx) as [Hk|[m0 [Hm0 Hx0]]]; [left; right; exact Hk|].
      apply dict_set_in in Hm0; destruct Hm0 as [Hm0|Hm0];
        [|right; exists m0; auto].
      inversion Hm0; subst r m0; clear Hm0.
      apply (proj1 (set_add_in _ _ _)) in Hx0; destruct Hx0 as [->|Hx0];
        [left; left; reflexivity|].
      right; exists members; split; [apply (Hold x Hx0) | exact Hx0].
Qed.

Lemma dict_get_key (V : Type) (k : string) (d : list (string * V)) :
  dict_get k d <> None <-> In k (map fst d).
Proof.
  split; intros H.
  - destruct (in_dec string_dec k (map fst d)) as [Hi|Hn]; [exact Hi|].
    exfalso; apply H, dict_get_none, Hn.
  - intros E; apply dict_get_none in E; contradiction.
Qed.

(** X4.  [build_equivalence_classes] computes the connected components of
    the graph whose vertices are the ["table.column"] strings of the stored
    details and whose edges are the details: two strings lie in one class
    exactly when a sequence of details connects them, the classes are
    pairwise disjoint, they hold nothing but such strings, and the number
    returned is the number of classes. *)
Theorem equivalence_classes_are_components (fuel : nat) (g g' : JoinGraph) (n : nat) :
  build_equivalence_classes fuel g = Some (g', n) ->
  (forall x y, node g x ->
     ((exists ec, In ec (equivalence_classes g') /\ In x ec /\ In y ec)
      <-> same_class g x y))
  /\ (forall ec1 ec2 x, In ec1 (equivalence_classes g') ->
                        In ec2 (equivalence_classes g') ->
                        In x ec1 -> In x ec2 -> ec1 = ec2)
  /\ (forall ec x, In ec (equivalence_classes g') -> In x ec -> node g x)
  /\ n = List.length (equivalence_classes g').
Proof.
  intros H.
  assert (Hsound : forall ec x y, In ec (equivalence_classes g') -> In x ec -> In y ec ->
                                  same_class g x y).
  { refine (@build_equivalence_classes_sound (same_class g) _ _ _ fuel g g' n H _).
    - intros x; apply rst_refl.
    - intros x y; apply rst_sym.
    - intros x y z; apply rst_trans.
    - intros d Hd; apply rst_step; exists d; auto. }
  unfold build_equivalence_classes in H.
  destruct (uf_union_edges fuel (join_details g) ([], [])) as [st|] eqn:U; [|discriminate].
  destruct (uf_group fuel (map fst (fst st)) st []) as [groups|] eqn:G; [|discriminate].
  inversion H; subst g' n; clear H; cbn [equivalence_classes] in *.
  assert (Hc0 : closed_parents (fst (@nil (string * string), @nil (string * nat))))
    by (intros x p E; discriminate E).
  destruct (@uf_union_edges_root fuel _ _ st U Hc0) as [Hc [S [_ D]]].
  destruct (@uf_group_root fuel _ st [] groups G Hc (NoDup_nil _))
    as [pf [Kf [Nf [Gf [Af [_ Of]]]]]]; [intros r m tc []|].
  fold (all_details g) in S, D.
  assert (Hkey : forall x r, root_of (fst st) x r ->
                             exists m, In (r, m) groups /\ In x m).
  { intros x r Hx.
    destruct (Af x) as [r1 [m [Hm Hxm]]];
      [apply dict_get_key, (root_of_dom Hx)|].
    rewrite (root_of_fun (Kf _ _ Hx) (Gf _ _ _ Hm Hxm)); exists m; auto. }
  assert (Hdisj : forall ec1 ec2 x, In ec1 (map snd groups) -> In ec2 (map snd groups) ->
                                    In x ec1 -> In x ec2 -> ec1 = ec2).
  { intros ec1 ec2 x H1 H2 X1 X2.
    apply in_map_iff in H1, H2.
    destruct H1 as [[r1 m1] [<- H1]], H2 as [[r2 m2] [<- H2]]; cbn [snd] in *.
    pose proof (root_of_fun (Gf _ _ _ H1 X1) (Gf _ _ _ H2 X2)) as E; subst r2.
    apply (@dict_values_unique _ r1 m1 m2 groups Nf H1 H2). }
  assert (Hnode : forall ec x, In ec (map snd groups) -> In x ec -> node g x).
  { intros ec x Hec Hx; apply in_map_iff in Hec.
    destruct Hec as [[r m] [<- Hm]]; cbn [snd] in *.
    destruct (Of r m x Hm Hx) as [Hk|[m0 [[] _]]].
    apply dict_get_key in Hk; destruct (D x Hk) as [E|E]; [exfalso; apply E; reflexivity|].
    exact E. }
  assert (Hdetail : forall d, In d (all_details g) ->
                              exists ec, In ec (map snd groups)
                                         /\ In (qualified (t1 d) (t1_col d)) ec
                                         /\ In (qualified (t2 d) (t2_col d)) ec).
  { intros d Hd; destruct (S d Hd) as [r [R1 R2]].
    destruct (Hkey _ _ R1) as [m1 [M1 X1]]; destruct (Hkey _ _ R2) as [m2 [M2 X2]].
    rewrite (@dict_values_unique _ r m2 m1 groups Nf M2 M1) in X2.
    exists m1; split; [apply in_map_iff; exists (r, m1); auto | auto]. }
  assert (Hown : forall x, node g x -> exists ec, In ec (map snd groups) /\ In x ec).
  { intros x [d [Hd [->| ->]]]; destruct (Hdetail d Hd) as [ec [E1 [E2 E3]]];
      exists ec; auto. }
  split; [|split; [exact Hdisj | split; [exact Hnode | reflexivity]]].
  intros x y Hx; split; [intros [ec [Hec [X Y]]]; apply (Hsound ec x y Hec X Y)|].
  intros Hxy.
  assert (Hgen : node g x \/ node g y ->
                 exists ec, In ec (map snd groups) /\ In x ec /\ In y ec);
    [|apply Hgen; left; exact Hx].
  clear Hx; induction Hxy as [x y [d [Hd [-> ->]]]|x|x y _ IH|x y z _ IH1 _ IH2].
  - intros _; apply Hdetail, Hd.
  - intros [Hn|Hn]; destruct (Hown x Hn) as [ec [E X]]; exists ec; auto.
  - intros Hn; destruct IH as [ec [E [X Y]]]; [tauto | exists ec; auto].
  - intros [Hn|Hn].
    + destruct IH1 as [ec1 [E1 [X1 Y1]]]; [left; exact Hn|].
      destruct IH2 as [ec2 [E2 [Y2 Z2]]]; [left; apply (Hnode ec1 y E1 Y1)|].
      rewrite (Hdisj ec1 ec2 y E1 E2 Y1 Y2) in X1; exists ec2; auto.
    + destruct IH2 as [ec2 [E2 [Y2 Z2]]]; [right; exact Hn|].
      destruct IH1 as [ec1 [E1 [X1 Y1]]]; [right; apply (Hnode ec2 y E2 Y2)|].
      rewrite (Hdisj ec1 ec2 y E1 E2 Y1 Y2) in X1; exists ec2; auto.
Qed.

Lemma equivalence_classes_are_components_witness :
  (forall x y, node (join_graph parsed_gap) x ->
     ((exists ec, In ec (equivalence_classes (join_graph parsed_gap)) /\ In x ec /\ In y ec)
      <-> same_class (join_graph parsed_gap) x y))
  /\ 2 = List.length (equivalence_classes (join_graph parsed_gap)).
Proof.
  assert (H : build_equivalence_classes 100 (join_graph parsed_gap)
              = Some (join_graph parsed_gap, 2)) by (vm_compute; reflexivity).
  split; [exact (proj1 (@equivalence_classes_are_components 100 _ _ 2 H))|].
  exact (proj2 (proj2 (proj2 (@equivalence_classes_are_components 100 _ _ 2 H)))).
Defined.

(** ** Further properties of the join graph *)

(** X5.  [is_connected] holds of a subset exactly when every two of its
    relations are linked by a path inside the subset whose consecutive
    relations share an equivalence class; the relation the traversal
    happens to start from does not matter. *)
Theorem is_connected_characterised (iter : list string -> list string)
  (g : JoinGraph) (s : list string) :
  (forall x, Permutation (iter x) x) -> NoDup s ->
  (is_connected iter g s = true
   <-> forall a b, In a s -> In b s -> reachable g s a b).
Proof.
  intros Hp Hd; split; [|apply reachable_connected; assumption].
  intros Hc a b Ha Hb.
  destruct (Nat.leb_spec (List.length s) 1) as [Hl|Hl].
  - destruct s as [|x [|y s']]; simpl in Hl; [destruct Ha | | lia].
    destruct Ha as [<-|[]], Hb as [<-|[]]; constructor.
  - destruct (iter s) as [|start rest] eqn:Ei.
    + pose proof (Permutation_length (Hp s)) as E; rewrite Ei in E; simpl in E; lia.
    + pose proof (proj1 (@is_connected_reachable iter g s start rest Hp Hd Hl Ei) Hc) as Hr.
      assert (Hs : In start s)
        by (apply (Permutation_in _ (Hp s)); rewrite Ei; left; reflexivity).
      apply (@reachable_trans g s a start b); [|apply Hr; exact Hb].
      apply (@reachable_sym g s start a Hs), Hr, Ha.
Qed.

Lemma is_connected_characterised_witness :
  is_connected iter_descending (join_graph parsed_chain) ["A"; "B"; "C"] = true
  <-> forall a b, In a ["A"; "B"; "C"] -> In b ["A"; "B"; "C"] ->
                  reachable (join_graph parsed_chain) ["A"; "B"; "C"] a b.
Proof.
  apply (@is_connected_characterised iter_descending (join_graph parsed_chain)
           ["A"; "B"; "C"]).
  - intros x; apply Permutation_sym, Permutation_rev.
  - repeat constructor; simpl; intuition discriminate.
Defined.

(** X6.  On a graph built by [add_join], [compute_transitive_closure]
    returns: its loops over the lists that [add_join] extends under them
    come to an end.  The result keeps every detail, mentions no column that
    the graph did not mention before, and holds at most as many further
    details as there are ordered pairs of such columns. *)
Theorem closure_returns_bounded (fuel : nat) (g : JoinGraph) :
  well_formed g -> closure_fuel g <= fuel ->
  exists g' n,
    compute_transitive_closure fuel g = Some (g', n)
    /\ grows g g'
    /\ incl (columns g') (columns g)
    /\ List.length (all_details g')
       <= List.length (all_details g)
          + List.length (columns g) * List.length (columns g).
Proof.
  intros Hw Hf.
  pose proof (missing_length (columns g) g) as Hm.
  destruct (@closure_iterations_total (columns g) fuel max_iterations g 0 Hw
              (incl_refl _)) as [g' [n [R E]]].
  - unfold closure_fuel, closure_budget in *; lia.
  - exists g', n; split; [exact R|].
    destruct E as (_ & C & G & _ & _ & B).
    split; [exact G | split; [exact C|]].
    rewrite length_prod in Hm; unfold closure_budget in B; lia.
Qed.

Lemma closure_returns_bounded_witness :
  exists g' n,
    compute_transitive_closure 100
      (fold_left add_asserted (ast_joins ast_chain) (mkJoinGraph [] [] [] []))
    = Some (g', n)
    /\ grows (fold_left add_asserted (ast_joins ast_chain) (mkJoinGraph [] [] [] [])) g'
    /\ incl (columns g')
            (columns (fold_left add_asserted (ast_joins ast_chain)
                        (mkJoinGraph [] [] [] [])))
    /\ List.length (all_details g') <= 2 + 4 * 4.
Proof.
  apply (@closure_returns_bounded 100
           (fold_left add_asserted (ast_joins ast_chain) (mkJoinGraph [] [] [] []))).
  - apply fold_asserted_well_formed, empty_well_formed.
  - apply Nat.leb_le; vm_compute; reflexivity.
Defined.

(** X7.  Every detail the closure adds is marked derived: a detail of the
    result with [is_original] set was in the graph before. *)
Theorem closure_adds_derived_only (fuel : nat) (g g' : JoinGraph) (n : nat) :
  compute_transitive_closure fuel g = Some (g', n) ->
  forall d, In d (all_details g') -> is_original d = true -> In d (all_details g).
Proof.
  intros H.
  refine (proj1 (@compute_transitive_closure_inv
                   (fun g0 => forall d, In d (all_details g0) -> is_original d = true ->
                                        In d (all_details g))
                   _ fuel g g' n H (fun d Hd _ => Hd))).
  intros g0 d1 d2 tr Hp _ _ _ _ _ d Hd Ho.
  apply add_join_in in Hd; destruct Hd as [Hd| ->]; [apply Hp; assumption|].
  unfold stored_detail in Ho; destruct (String.leb _ _); discriminate Ho.
Qed.

Lemma closure_adds_derived_only_witness :
  In (mkJoinDetail "A" "x" "B" "y" true)
     (all_details (fold_left add_asserted (ast_joins ast_chain)
                     (mkJoinGraph [] [] (ast_aliases ast_chain) []))).
Proof.
  assert (H : compute_transitive_closure 100
                (fold_left add_asserted (ast_joins ast_chain)
                   (mkJoinGraph [] [] (ast_aliases ast_chain) []))
              = Some (mkJoinGraph (edges (join_graph parsed_chain))
                        (join_details (join_graph parsed_chain))
                        (table_aliases (join_graph parsed_chain)) [], 1))
    by (vm_compute; reflexivity).
  apply (@closure_adds_derived_only 100 _ _ 1 H (mkJoinDetail "A" "x" "B" "y" true));
    [vm_compute; tauto | reflexivity].
Defined.

(** X8.  When the closure reports fewer added joins than its cap of
    iterations, it has reached its fixpoint: on a graph built by [add_join]
    with relation names made of word characters, whenever two stored
    details meet in a column and their other columns belong to different
    relations, a detail joining those two columns is stored. *)
Theorem closure_joins_meeting_details (fuel : nat) (g g' : JoinGraph) (n : nat) :
  well_formed g -> word_tables g ->
  compute_transitive_closure fuel g = Some (g', n) ->
  n < max_iterations ->
  forall u v w, linked g' u v -> linked g' v w -> fst u <> fst w -> linked g' u w.
Proof.
  intros Hw Ht H Hn u v w Huv Hvw Hne.
  destruct (@closure_keeps_shape fuel g g' n H Hw Ht) as [Hw' Ht'].
  apply (@linked_closed g' u v w Hw' Ht'); try assumption.
  apply converged_closed.
  apply (@closure_iterations_converged fuel max_iterations g 0 g' n H); lia.
Qed.

Lemma closure_joins_meeting_details_witness :
  linked (join_graph parsed_chain) ("A", "x") ("C", "z").
Proof.
  assert (H : compute_transitive_closure 100
                (fold_left add_asserted (ast_joins ast_chain)
                   (mkJoinGraph [] [] (ast_aliases ast_chain) []))
              = Some (mkJoinGraph (edges (join_graph parsed_chain))
                        (join_details (join_graph parsed_chain))
                        (table_aliases (join_graph parsed_chain)) [], 1))
    by (vm_compute; reflexivity).
  refine (@closure_joins_meeting_details 100 _ _ 1 _ _ H _
            ("A", "x") ("B", "y") ("C", "z") _ _ _).
  - apply fold_asserted_well_formed, empty_well_formed.
  - apply fold_asserted_word; [repeat constructor | intros d []].
  - unfold max_iterations; lia.
  - exists (mkJoinDetail "A" "x" "B" "y" true); split;
      [vm_compute; tauto | left; split; reflexivity].
  - exists (mkJoinDetail "B" "y" "C" "z" true); split;
      [vm_compute; tauto | left; split; reflexivity].
  - discriminate.
Defined.

(** X9.  On a graph built by [add_join], [_join_exists] answers whether a
    detail joining the two columns is stored, in either orientation: looking
    under the single key of the two relations misses nothing. *)
Theorem join_exists_iff_stored (g : JoinGraph) (tr : TransitiveJoin) :
  well_formed g ->
  (_join_exists g tr = true
   <-> linked g (tj_t1 tr, tj_t1_col tr) (tj_t2 tr, tj_t2_col tr)).
Proof.
  intros Hw; split; [apply join_exists_linked|].
  intros [d [Hd H]].
  destruct (@details_at_stored g d Hw Hd) as [Hk _].
  unfold _join_exists; apply existsb_exists; exists d.
  unfold left_end, right_end in H.
  destruct H as [[A B]|[A B]]; inversion A; inversion B; subst; clear A B.
  - split; [exact Hk|]; rewrite !String.eqb_refl; reflexivity.
  - split; [rewrite edge_key_sym; exact Hk|].
    rewrite !String.eqb_refl; apply orb_true_r.
Qed.

Lemma join_exists_iff_stored_witness :
  _join_exists (join_graph parsed_chain) (mkTransitiveJoin "C" "z" "A" "x") = true
  <-> linked (join_graph parsed_chain) ("C", "z") ("A", "x").
Proof.
  apply (@join_exists_iff_stored (join_graph parsed_chain)
           (mkTransitiveJoin "C" "z" "A" "x")).
  split; [vm_compute; repeat constructor; simpl; intuition discriminate|].
  intros k ds d Hin Hd; vm_compute in Hin.
  repeat (destruct Hin as [Hin|Hin]; [inversion Hin; subst; clear Hin|]);
    try contradiction;
    repeat (destruct Hd as [Hd|Hd]; [subst d; split; reflexivity|]); contradiction.
Defined.

(** X10.  For two different relations the order of the arguments of
    [add_join] does not matter: the same detail is filed under the same
    key. *)
Theorem add_join_commutes (g : JoinGraph) (a b a_col b_col : string) (orig : bool) :
  a <> b ->
  add_join g a b a_col b_col orig = add_join g b a b_col a_col orig.
Proof.
  intros Hab; unfold add_join.
  rewrite (edge_key_sym b a), (andb_comm (truthy b_col)), !sorted_pair.
  destruct (String.leb a b) eqn:L1, (String.leb b a) eqn:L2.
  - exfalso; apply Hab, String.leb_antisym; assumption.
  - cbn [hd tl]; rewrite !String.eqb_refl.
    destruct (String.eqb_spec a b); [contradiction|].
    destruct (String.eqb_spec b a) as [E|_]; [symmetry in E; contradiction | reflexivity].
  - cbn [hd tl]; rewrite !String.eqb_refl.
    destruct (String.eqb_spec a b); [contradiction|].
    destruct (String.eqb_spec b a) as [E|_]; [symmetry in E; contradiction | reflexivity].
  - apply leb_false_flip in L1; congruence.
Qed.

Lemma add_join_commutes_witness :
  add_join empty_graph "B" "A" "y" "x" true = add_join empty_graph "A" "B" "x" "y" true.
Proof.
  apply (@add_join_commutes empty_graph "B" "A" "y" "x" true); discriminate.
Defined.

Lemma enumerate_subsets_order_witness :
  enumerate_subsets iter_ascending (join_graph parsed_chain) ["A"; "B"; "C"] 20
  = enumerate_subsets iter_descending (join_graph parsed_chain) ["A"; "B"; "C"] 20.
Proof.
  apply (@enumerate_subsets_order iter_ascending iter_descending
           (join_graph parsed_chain) ["A"; "B"; "C"] 20).
  - intros x; apply Permutation_refl.
  - intros x; apply Permutation_sym, Permutation_rev.
Defined.

Lemma parse_sql_total_witness :
  exists fuel0, forall fuel, fuel0 <= fuel -> parse_sql fuel ast_chain <> None.
Proof. apply (@parse_sql_total ast_chain); discriminate. Defined.

(** ** The renderer and the driver *)

(** X13.  [_find_next_table_for_join_tree] attaches a table through a
    derived predicate only when no original join is stored between any
    table already in the tree and any table that remains. *)
Theorem find_next_prefers_original (iter : list string -> list string)
  (g : JoinGraph) (added remaining : list string) (nt : NextTable)
  (pred : JoinPredicate) :
  (forall x, Permutation (iter x) x) ->
  _find_next_table_for_join_tree iter g added remaining = Some nt ->
  nt_join_pred nt = Some pred -> jp_is_original pred = false ->
  forall a t d, In a added -> In t remaining ->
                In d (details_at g (edge_key a t)) -> is_original d = false.
Proof.
  intros Hp Hf Hn Ho a t d Ha Ht Hd.
  unfold _find_next_table_for_join_tree in Hf.
  destruct (first_some _ (sorted remaining)) as [nt0|] eqn:H1 in Hf.
  - exfalso; inversion Hf; subst nt0; clear Hf.
    apply first_some_in in H1; destruct H1 as [t0 [_ H1]].
    apply first_some_in in H1; destruct H1 as [a0 [_ H1]].
    apply first_some_in in H1; destruct H1 as [p0 [_ H1]].
    destruct (jp_is_original p0) eqn:E; [|discriminate H1].
    inversion H1; subst nt; simpl in Hn; inversion Hn; subst p0; congruence.
  - clear Hf.
    pose proof (first_some_none _ _ H1 t (proj2 (sorted_in _ _) Ht)) as H2.
    pose proof (first_some_none _ _ H2 a
                  (Permutation_in _ (Permutation_sym (Hp added)) Ha)) as H3.
    assert (Hin : In (detail_predicate d) (_find_join_predicates g [a] [t])).
    { apply find_join_predicates_in; exists d; auto. }
    pose proof (first_some_none _ _ H3 _ Hin) as H4; cbn beta in H4.
    change (jp_is_original (detail_predicate d)) with (is_original d) in H4.
    destruct (is_original d); [discriminate H4 | reflexivity].
Qed.

Lemma find_next_prefers_original_witness :
  is_original (mkJoinDetail "A" "x" "C" "z" false) = false.
Proof.
  refine (@find_next_prefers_original iter_ascending (join_graph parsed_chain)
            ["A"] ["C"] (mkNextTable "C" (Some (mkJoinPredicate "A.x = C.z" false)))
            (mkJoinPredicate "A.x = C.z" false) _ _ _ _
            "A" "C" (mkJoinDetail "A" "x" "C" "z" false) _ _ _).
  - intros x; apply Permutation_refl.
  - vm_compute; reflexivity.
  - reflexivity.
  - reflexivity.
  - left; reflexivity.
  - left; reflexivity.
  - vm_compute; tauto.
Defined.

(** X14.  With a classifier filled by [add_predicate], [generate_subquery]
    raises for the empty subset only: every other subset gets a query
    text. *)
Theorem generate_subquery_fails_on_empty_only (iter : list string -> list string)
  (alias_map : list (string * string)) (cls : PredicateClassifier) (g : JoinGraph)
  (s : list string) (l r : option (list string)) :
  (forall x, Permutation (iter x) x) -> classifier_ok cls ->
  (generate_subquery iter alias_map cls g s l r = None <-> s = []).
Proof.
  intros Hp Hc; split.
  - intros H; destruct s as [|x s']; [reflexivity|].
    exfalso; revert H; apply generate_subquery_total; [exact Hp | exact Hc | discriminate].
  - intros ->; reflexivity.
Qed.

Lemma generate_subquery_fails_on_empty_only_witness :
  generate_subquery iter_ascending (aliases parsed_chain) (classifier parsed_chain)
                    (join_graph parsed_chain) ["A"] None None = None
  <-> ["A"] = [].
Proof.
  apply (@generate_subquery_fails_on_empty_only iter_ascending (aliases parsed_chain)
           (classifier parsed_chain) (join_graph parsed_chain) ["A"] None None).
  - intros x; apply Permutation_refl.
  - intros p Hp; vm_compute in Hp.
    repeat (destruct Hp as [<-|Hp]; [vm_compute; discriminate|]); destruct Hp.
Defined.

Lemma parse_sql_fields (fuel : nat) (ast : QueryAst) (parsed : ParsedSQL) :
  parse_sql fuel ast = Some parsed ->
  tables parsed = ast_tables ast /\ aliases parsed = ast_aliases ast
  /\ classifier_ok (classifier parsed) /\ ast_tables ast <> [].
Proof.
  unfold parse_sql.
  destruct (ast_tables ast) as [|t ts] eqn:Hts; [discriminate|].
  destruct (@classify_predicates_total (build_classifier (ast_predicates ast))
              (build_classifier_ok _)) as [c [Hc Hok]].
  rewrite Hc.
  destruct (_detect_constant_equality_joins c (t :: ts)) as [cjs|]; [|discriminate].
  destruct (compute_transitive_closure fuel _) as [[g1 n1]|]; [|discriminate].
  destruct (build_equivalence_classes fuel g1) as [[g2 n2]|]; [|discriminate].
  intros H; inversion H; subst parsed; simpl.
  split; [reflexivity | split; [reflexivity | split; [exact Hok | discriminate]]].
Qed.

Lemma replace_newlines_clean (s : string) :
  ~ In "010"%char (list_ascii_of_string (replace_newlines s)).
Proof.
  induction s as [|c s IH]; [simpl; tauto|].
  cbn [replace_newlines list_ascii_of_string In].
  intros [E|H]; [|exact (IH H)].
  destruct (Nat.eqb_spec (code c) 10) as [E10|N10]; [discriminate E|].
  apply N10; rewrite E; reflexivity.
Qed.

Lemma render_rows_spec (iter : list string -> list string) (parsed : ParsedSQL)
  (qid : nat) (ps : list EnumerationPlan) :
  (forall x, Permutation (iter x) x) -> classifier_ok (classifier parsed) ->
  (forall p, In p ps -> subset p <> []) ->
  exists rows,
    render_rows iter parsed qid ps = Some rows
    /\ map row_subset rows
       = map format_subset
           (filter (fun s => Nat.ltb 1 (List.length s)) (map subset ps))
    /\ Forall (fun r => query_id r = qid
                        /\ ~ In "010"%char (list_ascii_of_string (query r))) rows.
Proof.
  intros Hp Hc; induction ps as [|p ps IH]; intros Hne; simpl.
  - exists []; split; [reflexivity | split; [reflexivity | constructor]].
  - destruct (generate_subquery iter (aliases parsed) (classifier parsed)
                (join_graph parsed) (subset p) (left p) (right p)) as [q|] eqn:Hq.
    + destruct IH as [rows [R [M F]]]; [intros p' H; apply Hne; right; exact H|].
      rewrite R; destruct (Nat.ltb 1 (List.length (subset p))).
      * eexists; split; [reflexivity|]; simpl; split; [rewrite M; reflexivity|].
        constructor; [|exact F].
        simpl; split; [reflexivity | apply replace_newlines_clean].
      * exists rows; auto.
    + exfalso; revert Hq; apply generate_subquery_total; [exact Hp | exact Hc|].
      apply Hne; left; reflexivity.
Qed.

Lemma filter_levels (f : nat -> list (list string)) (b : nat) :
  (forall k c, In c (f k) -> List.length c = k) ->
  filter (fun s => Nat.ltb 1 (List.length s)) (flat_map f (seq 1 b))
  = flat_map f (seq 2 (b - 1)).
Proof.
  intros Hl; destruct b as [|b]; [reflexivity|].
  cbn [seq flat_map]; rewrite filter_app, Nat.sub_succ, Nat.sub_0_r.
  rewrite (@filter_none _ _ (f 1)), filter_all; [reflexivity | |].
  - intros c Hc; apply in_flat_map in Hc; destruct Hc as [k [Hk Hc]].
    apply in_seq in Hk; apply Hl in Hc; apply Nat.ltb_lt; lia.
  - intros c Hc; apply Hl in Hc; rewrite Hc; reflexivity.
Qed.

(** X15.  For a parsed query with distinct relations, [process_query]
    returns one CSV row for every subset of two or more relations on which
    [is_connected] holds, up to [min(max_level, 20, len(tables))]
    relations, by size and then in the order of [itertools.combinations];
    single relations get no row.  Every row carries the query id, and its
    query text is a single line. *)
Theorem process_query_rows (iter : list string -> list string) (fuel : nat)
  (ast : QueryAst) (parsed : ParsedSQL) (qid : nat) (arg_max_level : Z) :
  (forall x, Permutation (iter x) x) -> NoDup (ast_tables ast) ->
  parse_sql fuel ast = Some parsed ->
  exists rows,
    process_query iter fuel ast qid arg_max_level = Some rows
    /\ map row_subset rows
       = map format_subset
           (flat_map (connected_subsets iter (join_graph parsed) (sorted (ast_tables ast)))
              (seq 2 (Z.to_nat (Z.min (Z.min arg_max_level 20)
                                      (Z.of_nat (List.length (ast_tables ast)))) - 1)))
    /\ Forall (fun r => query_id r = qid
                        /\ ~ In "010"%char (list_ascii_of_string (query r))) rows.
Proof.
  intros Hp Hd Hparse.
  destruct (parse_sql_fields _ _ Hparse) as [Ht [_ [Hc Hne]]].
  unfold process_query; rewrite Hparse, Ht.
  destruct (ast_tables ast) as [|t0 ts0] eqn:Ets; [contradiction|].
  rewrite <- Ets in *.
  unfold driver_enumerate; rewrite Ht.
  set (K := Z.min arg_max_level 20).
  pose proof (@levels_exact iter (join_graph parsed) Hp (sorted (ast_tables ast))
                (sorted_ascending _) (sorted_nodup Hd)
                (Z.to_nat (Z.min K (Z.of_nat (List.length (ast_tables ast))))))
    as [A _].
  destruct (@render_rows_spec iter parsed qid
              (all_plans (enumerate_subsets iter (join_graph parsed) (ast_tables ast) K))
              Hp Hc) as [rows [R [M F]]].
  - intros p Hin E.
    destruct (proj2 (@enumerate_subsets_levels iter (join_graph parsed) (ast_tables ast) K)
                p Hin) as [H1 _].
    rewrite E in H1; simpl in H1; lia.
  - exists rows; split; [exact R | split; [|exact F]].
    rewrite M; f_equal.
    unfold enumerate_subsets, level_range; cbn [all_plans]; rewrite sorted_length, A.
    apply filter_levels.
    intros k c Hc'; apply filter_In in Hc'; apply (combinations_length _ _ _ (proj1 Hc')).
Qed.

Lemma process_query_rows_witness :
  exists rows,
    process_query iter_ascending 100 ast_chain 7 20 = Some rows
    /\ map row_subset rows
       = map format_subset
           (flat_map (connected_subsets iter_ascending (join_graph parsed_chain)
                        (sorted (ast_tables ast_chain)))
              (seq 2 (Z.to_nat (Z.min (Z.min 20 20)
                                      (Z.of_nat (List.length (ast_tables ast_chain)))) - 1)))
    /\ Forall (fun r => query_id r = 7
                        /\ ~ In "010"%char (list_ascii_of_string (query r))) rows.
Proof.
  apply (@process_query_rows iter_ascending 100 ast_chain parsed_chain 7 20).
  - intros x; apply Permutation_refl.
  - repeat constructor; simpl; intuition discriminate.
  - vm_compute; reflexivity.
Defined.

(** ** Predicates of a subset *)

Lemma filter_filter (A : Type) (f h : A -> bool) (l : list A) :
  filter f (filter h l) = filter (fun x => h x && f x) l.
Proof.
  induction l as [|x l IH]; simpl; [reflexivity|].
  destruct (h x); simpl; [destruct (f x); rewrite IH; reflexivity | exact IH].
Qed.

Lemma classify_loop_spec (ps : list string) :
  forall c c', classify_loop c ps = Some c' ->
    all_predicates c' = all_predicates c
    /\ predicate_tables c' = predicate_tables c
    /\ selections c'
       = selections c ++ filter (fun p => Nat.eqb (table_count (predicate_tables c) p) 1) ps
    /\ joins c'
       = joins c ++ filter (fun p => Nat.eqb (table_count (predicate_tables c) p) 2) ps
    /\ complex c'
       = complex c
         ++ filter (fun p => negb (Nat.eqb (table_count (predicate_tables c) p) 1)
                             && negb (Nat.eqb (table_count (predicate_tables c) p) 2)) ps.
Proof.
  induction ps as [|p ps IH]; intros c c'.
  - simpl; intros H; inversion H; rewrite !app_nil_r; auto.
  - cbn [classify_loop filter].
    destruct (dict_get p (predicate_tables c)) as [pt|] eqn:Hp; [|discriminate].
    assert (Hn : table_count (predicate_tables c) p = List.length pt)
      by (unfold table_count; rewrite Hp; reflexivity).
    rewrite !Hn.
    destruct (Nat.eqb_spec (List.length pt) 1) as [E1|E1];
      destruct (Nat.eqb_spec (List.length pt) 2) as [E2|E2];
      try (exfalso; lia);
      intros H; apply IH in H; destruct H as [Ha [Ht [Hs [Hj Hc]]]];
      cbn [all_predicates predicate_tables selections joins complex] in *;
      rewrite Ha, Ht, Hs, Hj, Hc; cbn [negb andb]; rewrite <- ?app_assoc;
      repeat split; reflexivity.
Qed.

Lemma predicates_loop_spec (tables_of : list (string * list string)) (S : list string)
  (ps : list string) :
  forall acc r, predicates_loop tables_of S ps acc = Some r ->
    let inside p := match dict_get p tables_of with
                    | Some pt => issubset pt S
                    | None => false
                    end in
    ps_selections r
    = ps_selections acc
      ++ filter (fun p => Nat.eqb (table_count tables_of p) 1 && inside p) ps
    /\ ps_joins r
       = ps_joins acc
         ++ filter (fun p => Nat.eqb (table_count tables_of p) 2 && inside p) ps
    /\ ps_complex r
       = ps_complex acc
         ++ filter (fun p => (negb (Nat.eqb (table_count tables_of p) 1)
                              && negb (Nat.eqb (table_count tables_of p) 2))
                             && inside p) ps.
Proof.
  induction ps as [|p ps IH]; intros acc r.
  - simpl; intros H; inversion H; rewrite !app_nil_r; auto.
  - cbn [predicates_loop filter]; cbn zeta.
    destruct (dict_get p tables_of) as [pt|] eqn:Hp; [|discriminate].
    assert (Hn : table_count tables_of p = List.length pt)
      by (unfold table_count; rewrite Hp; reflexivity).
    rewrite !Hn.
    destruct (issubset pt S);
      destruct (Nat.eqb_spec (List.length pt) 1) as [E1|E1];
      destruct (Nat.eqb_spec (List.length pt) 2) as [E2|E2];
      try (exfalso; lia);
      intros H; apply IH in H; cbn zeta in H; destruct H as [Hs [Hj Hc]];
      rewrite Hs, Hj, Hc;
      cbn [ps_selections ps_joins ps_complex negb andb];
      rewrite <- ?app_assoc; repeat split; reflexivity.
Qed.

Lemma build_classifier_lists (preds : list (string * list string)) :
  selections (build_classifier preds) = []
  /\ joins (build_classifier preds) = []
  /\ complex (build_classifier preds) = [].
Proof.
  unfold build_classifier.
  assert (H : forall c, selections c = [] /\ joins c = [] /\ complex c = [] ->
                        selections (fold_left (fun c pt => add_predicate c (fst pt)
                                                              (mk_set (snd pt))) preds c) = []
                        /\ joins (fold_left (fun c pt => add_predicate c (fst pt)
                                                           (mk_set (snd pt))) preds c) = []
                        /\ complex (fold_left (fun c pt => add_predicate c (fst pt)
                                                             (mk_set (snd pt))) preds c) = []).
  { induction preds as [|pt preds IH]; intros c Hc; simpl; [exact Hc|].
    apply IH; exact Hc. }
  apply H; simpl; auto.
Qed.

(** X16.  After [classify_predicates] on a classifier filled by
    [add_predicate], [get_predicates_for_subset] returns the three
    classified lists restricted to the predicates whose tables all belong to
    the subset, in the same order. *)
Theorem get_predicates_restricts_classification (preds : list (string * list string))
  (c : PredicateClassifier) (s : list string) :
  classify_predicates (build_classifier preds) = Some c ->
  exists ps,
    get_predicates_for_subset c s = Some ps
    /\ ps_selections ps = filter (within c s) (selections c)
    /\ ps_joins ps = filter (within c s) (joins c)
    /\ ps_complex ps = filter (within c s) (complex c).
Proof.
  intros Hc.
  assert (Hok : classifier_ok c).
  { destruct (@classify_predicates_total (build_classifier preds)
                (build_classifier_ok _)) as [c' [Hc' Hok]].
    rewrite Hc in Hc'; inversion Hc'; subst c'; exact Hok. }
  unfold classify_predicates in Hc; apply classify_loop_spec in Hc.
  destruct Hc as [Ha [Ht [Hs [Hj Hx]]]].
  destruct (build_classifier_lists preds) as [Es [Ej Ex]].
  rewrite Es in Hs; rewrite Ej in Hj; rewrite Ex in Hx; simpl in Hs, Hj, Hx.
  destruct (get_predicates_for_subset c s) as [ps|] eqn:Hg;
    [|exfalso; exact (get_predicates_total s Hok Hg)].
  exists ps; split; [reflexivity|].
  unfold get_predicates_for_subset in Hg; apply predicates_loop_spec in Hg.
  cbn zeta in Hg; destruct Hg as [Gs [Gj Gx]]; simpl in Gs, Gj, Gx.
  unfold within; rewrite Gs, Gj, Gx, Hs, Hj, Hx, !filter_filter, Ha, Ht; auto.
Qed.

Lemma get_predicates_restricts_classification_witness :
  exists ps,
    get_predicates_for_subset (classifier parsed_chain) ["A"; "B"] = Some ps
    /\ ps_selections ps
       = filter (within (classifier parsed_chain) ["A"; "B"])
                (selections (classifier parsed_chain))
    /\ ps_joins ps
       = filter (within (classifier parsed_chain) ["A"; "B"])
                (joins (classifier parsed_chain))
    /\ ps_complex ps
       = filter (within (classifier parsed_chain) ["A"; "B"])
                (complex (classifier parsed_chain)).
Proof.
  apply (@get_predicates_restricts_classification (ast_predicates ast_chain)
           (classifier parsed_chain) ["A"; "B"]).
  vm_compute; reflexivity.
Defined.

(** ** Constant-equality joins *)

Lemma selections_of_table (c : PredicateClassifier) (t : string) (ps : PredicateSet)
  (p : string) :
  get_predicates_for_subset c [t] = Some ps ->
  (In p (ps_selections ps)
   <-> In p (all_predicates c) /\ dict_get p (predicate_tables c) = Some [t]).
Proof.
  unfold get_predicates_for_subset; intros H; apply predicates_loop_spec in H.
  cbn zeta in H; destruct H as [Hs _]; rewrite Hs; simpl.
  rewrite filter_In; unfold table_count.
  change (mk_set [t]) with [t].
  split.
  - intros [Hin Hb]; split; [exact Hin|].
    destruct (dict_get p (predicate_tables c)) as [pt|]; [|discriminate Hb].
    apply andb_true_iff in Hb; destruct Hb as [Hl Hi].
    destruct pt as [|x [|y pt]]; try discriminate Hl.
    simpl in Hi; rewrite andb_true_r, orb_false_r in Hi.
    apply String.eqb_eq in Hi; subst x; reflexivity.
  - intros [Hin Hd]; split; [exact Hin|].
    rewrite Hd; simpl; rewrite String.eqb_refl; reflexivity.
Qed.

Lemma group_constants_all (P : ConstantValue -> Prop) (preds : list string) :
  (forall p cv, In p preds -> _extract_single_constant_value p = Some cv -> P cv) ->
  forall groups, groups_all P groups -> groups_all P (group_constants preds groups).
Proof.
  induction preds as [|pred preds IH]; intros Hp groups Hg; simpl; [exact Hg|].
  assert (Hp' : forall p cv, In p preds ->
                             _extract_single_constant_value p = Some cv -> P cv)
    by (intros p cv Hin; apply Hp; right; exact Hin).
  destruct (_extract_single_constant_value pred) as [cv0|] eqn:He;
    [|apply IH; assumption].
  apply IH; [exact Hp'|]; intros k grp cv Hk Hc.
  apply dict_set_in in Hk; destruct Hk as [Hk|Hk]; [|eapply Hg; eassumption].
  inversion Hk; subst; clear Hk.
  apply in_app_iff in Hc; destruct Hc as [Hc|[<-|[]]].
  - destruct (dict_get _ groups) as [l|] eqn:Hd; [|destruct Hc].
    apply dict_get_in in Hd; eapply Hg; eassumption.
  - apply (Hp pred cv0); [left; reflexivity | exact He].
Qed.

Lemma scan_tables_from (c : PredicateClassifier) (all ts : list string) :
  incl ts all ->
  forall groups groups',
    scan_tables c ts groups = Some groups' ->
    groups_all (constant_selection c all) groups ->
    groups_all (constant_selection c all) groups'.
Proof.
  induction ts as [|t ts IH]; intros Hi groups groups'; simpl.
  - intros H; inversion H; auto.
  - destruct (get_predicates_for_subset c [t]) as [preds|] eqn:Hg; [|discriminate].
    intros H Hall; eapply IH; [intros x Hx; apply Hi; right; exact Hx | exact H|].
    apply group_constants_all; [|exact Hall].
    intros p cv Hin He.
    apply (selections_of_table _ _ p Hg) in Hin; destruct Hin as [Ha Hd].
    exists p, t; split; [apply Hi; left; reflexivity | auto].
Qed.

(** X17.  Every join that [_detect_constant_equality_joins] reports comes
    from two selection predicates of relations of the query from which
    [_extract_single_constant_value] reads the same column name and the same
    normalised value; the join is between the relations named in the two
    predicate texts, on that column. *)
Theorem constant_joins_justified (c : PredicateClassifier) (tables : list string)
  (cjs : list ConstantEqualityJoin) (cj : ConstantEqualityJoin) :
  _detect_constant_equality_joins c tables = Some cjs -> In cj cjs ->
  exists cv1 cv2,
    constant_selection c tables cv1 /\ constant_selection c tables cv2
    /\ cv_column cv1 = cv_column cv2 /\ cv_value cv1 = cv_value cv2
    /\ cj = mkConstantEqualityJoin (cv_table cv1) (cv_table cv2) (cv_column cv1).
Proof.
  unfold _detect_constant_equality_joins.
  destruct (scan_tables c tables []) as [groups|] eqn:Hs; [|discriminate].
  intros H Hin; inversion H; subst cjs; clear H.
  assert (Hok : groups_ok groups)
    by (eapply scan_tables_ok; [exact Hs|]; intros k grp cv []).
  assert (Hfrom : groups_all (constant_selection c tables) groups)
    by (eapply scan_tables_from; [apply incl_refl | exact Hs|]; intros k grp cv []).
  apply in_flat_map in Hin; destruct Hin as [[k grp] [Hk Hin]].
  unfold group_joins in Hin; cbn [snd] in Hin.
  destruct (Nat.leb 2 (List.length grp)); [|destruct Hin].
  apply pair_joins_in in Hin; destruct Hin as [gi [gj [Hi [Hj ->]]]].
  destruct (Hok k grp gi Hk Hi) as [Ki Wi].
  destruct (Hok k grp gj Hk Hj) as [Kj Wj].
  destruct (@constant_key_inj (cv_column gi) (cv_value gi) (cv_column gj) (cv_value gj)
              Wi Wj) as [Ec Ev]; [unfold constant_key in *; congruence|].
  exists gi, gj; split; [eapply Hfrom; eassumption|].
  split; [eapply Hfrom; eassumption | auto].
Qed.

Lemma constant_joins_justified_witness :
  exists cv1 cv2,
    constant_selection (classifier parsed_constant) ["it1"; "it2"] cv1
    /\ constant_selection (classifier parsed_constant) ["it1"; "it2"] cv2
    /\ cv_column cv1 = cv_column cv2 /\ cv_value cv1 = cv_value cv2
    /\ mkConstantEqualityJoin "it1" "it2" "info"
       = mkConstantEqualityJoin (cv_table cv1) (cv_table cv2) (cv_column cv1).
Proof.
  apply (@constant_joins_justified (classifier parsed_constant) ["it1"; "it2"]
           [mkConstantEqualityJoin "it1" "it2" "info"]
           (mkConstantEqualityJoin "it1" "it2" "info")).
  - vm_compute; reflexivity.
  - left; reflexivity.
Defined.

Lemma group_constants_keeps (preds : list string) :
  forall groups cv grp,
    dict_get (constant_key cv) groups = Some grp -> In cv grp ->
    exists grp', dict_get (constant_key cv) (group_constants preds groups) = Some grp'
                 /\ In cv grp'.
Proof.
  induction preds as [|pred preds IH]; intros groups cv grp Hd Hin;
    cbn [group_constants]; [exists grp; auto|].
  destruct (_extract_single_constant_value pred) as [cv0|] eqn:He;
    [|apply (IH groups cv grp); assumption].
  cbn zeta; change (cv_column cv0 ++ ":" ++ cv_value cv0)%string with (constant_key cv0).
  destruct (String.eqb_spec (constant_key cv) (constant_key cv0)) as [E|N].
  - apply (IH _ cv (grp ++ [cv0])).
    + rewrite dict_get_set, E, String.eqb_refl, <- E, Hd; reflexivity.
    + apply in_app_iff; left; exact Hin.
  - apply (IH _ cv grp); [|exact Hin].
    rewrite dict_get_set; destruct (String.eqb_spec (constant_key cv) (constant_key cv0));
      [contradiction | exact Hd].
Qed.

Lemma group_constants_has (preds : list string) (pred : string) (cv : ConstantValue) :
  In pred preds -> _extract_single_constant_value pred = Some cv ->
  forall groups,
    exists grp, dict_get (constant_key cv) (group_constants preds groups) = Some grp
                /\ In cv grp.
Proof.
  induction preds as [|p preds IH]; intros Hin He groups; [destruct Hin|].
  destruct Hin as [->|Hin].
  - cbn [group_constants]; rewrite He; cbn zeta.
    change (cv_column cv ++ ":" ++ cv_value cv)%string with (constant_key cv).
    eapply group_constants_keeps.
    + rewrite dict_get_set, String.eqb_refl; reflexivity.
    + apply in_app_iff; right; left; reflexivity.
  - simpl; destruct (_extract_single_constant_value p); apply IH; assumption.
Qed.

Lemma scan_tables_keeps (c : PredicateClassifier) (ts : list string) :
  forall groups groups' cv grp,
    scan_tables c ts groups = Some groups' ->
    dict_get (constant_key cv) groups = Some grp -> In cv grp ->
    exists grp', dict_get (constant_key cv) groups' = Some grp' /\ In cv grp'.
Proof.
  induction ts as [|t ts IH]; intros groups groups' cv grp; simpl.
  - intros H; inversion H; subst; intros; exists grp; auto.
  - destruct (get_predicates_for_subset c [t]) as [preds|]; [|discriminate].
    intros H Hd Hin.
    destruct (@group_constants_keeps (ps_selections preds) groups cv grp Hd Hin)
      as [grp1 [Hd1 Hin1]].
    apply (IH _ groups' cv grp1 H Hd1 Hin1).
Qed.

Lemma scan_tables_has (c : PredicateClassifier) (ts : list string) (t p : string)
  (cv : ConstantValue) :
  In t ts -> In p (all_predicates c) -> dict_get p (predicate_tables c) = Some [t] ->
  _extract_single_constant_value p = Some cv ->
  forall groups groups',
    scan_tables c ts groups = Some groups' ->
    exists grp, dict_get (constant_key cv) groups' = Some grp /\ In cv grp.
Proof.
  intros Ht Hp Hd He; induction ts as [|t0 ts IH]; intros groups groups'; [destruct Ht|].
  simpl; destruct (get_predicates_for_subset c [t0]) as [preds|] eqn:Hg; [|discriminate].
  intros H; destruct Ht as [->|Ht].
  - assert (Hin : In p (ps_selections preds))
      by (apply (selections_of_table _ _ p Hg); auto).
    destruct (@group_constants_has (ps_selections preds) p cv Hin He groups)
      as [grp [Hd1 Hi1]].
    apply (@scan_tables_keeps c ts _ groups' cv grp H Hd1 Hi1).
  - apply (IH Ht _ _ H).
Qed.

Lemma pair_joins_complete (grp : list ConstantValue) (a b : ConstantValue) :
  In a grp -> In b grp -> a <> b ->
  In (mkConstantEqualityJoin (cv_table a) (cv_table b) (cv_column a)) (pair_joins grp)
  \/ In (mkConstantEqualityJoin (cv_table b) (cv_table a) (cv_column b)) (pair_joins grp).
Proof.
  induction grp as [|g0 grp IH]; intros Ha Hb Hn; [destruct Ha|].
  simpl; rewrite !in_app_iff, !in_map_iff.
  destruct Ha as [->|Ha], Hb as [->|Hb].
  - contradiction.
  - left; left; exists b; auto.
  - right; left; exists a; auto.
  - destruct (IH Ha Hb Hn); [left | right]; right; assumption.
Qed.

Lemma two_members (A : Type) (l : list A) (a b : A) :
  In a l -> In b l -> a <> b -> 2 <= List.length l.
Proof.
  intros Ha Hb Hn; destruct l as [|x [|y l]]; simpl in *; [tauto | | lia].
  destruct Ha as [->|[]], Hb as [->|[]]; contradiction.
Qed.

(** X18.  Two selection predicates of relations of the query from which
    [_extract_single_constant_value] reads the same column name and the same
    normalised value under different relation names always give a
    constant-equality join between the two names, in one direction or the
    other. *)
Theorem constant_joins_complete (c : PredicateClassifier) (tables : list string)
  (cv1 cv2 : ConstantValue) :
  classifier_ok c ->
  constant_selection c tables cv1 -> constant_selection c tables cv2 ->
  cv_column cv1 = cv_column cv2 -> cv_value cv1 = cv_value cv2 ->
  cv_table cv1 <> cv_table cv2 ->
  exists cjs,
    _detect_constant_equality_joins c tables = Some cjs
    /\ (In (mkConstantEqualityJoin (cv_table cv1) (cv_table cv2) (cv_column cv1)) cjs
        \/ In (mkConstantEqualityJoin (cv_table cv2) (cv_table cv1) (cv_column cv1)) cjs).
Proof.
  intros Hok [p1 [t1 [Ht1 [Hp1 [Hd1 He1]]]]] [p2 [t2 [Ht2 [Hp2 [Hd2 He2]]]]] Ec Ev Hn.
  unfold _detect_constant_equality_joins.
  destruct (scan_tables c tables []) as [groups|] eqn:Hs;
    [|exfalso; revert Hs; apply scan_tables_total; exact Hok].
  eexists; split; [reflexivity|].
  destruct (@scan_tables_has c tables t1 p1 cv1 Ht1 Hp1 Hd1 He1 [] groups Hs)
    as [g1 [G1 I1]].
  destruct (@scan_tables_has c tables t2 p2 cv2 Ht2 Hp2 Hd2 He2 [] groups Hs)
    as [g2 [G2 I2]].
  assert (Ek : constant_key cv1 = constant_key cv2)
    by (unfold constant_key; rewrite Ec, Ev; reflexivity).
  rewrite <- Ek, G1 in G2; inversion G2; subst g2; clear G2.
  assert (Hne : cv1 <> cv2) by (intros E; apply Hn; rewrite E; reflexivity).
  assert (Hin : forall cj, In cj (pair_joins g1) ->
                           In cj (flat_map (fun kg => group_joins (snd kg)) groups)).
  { intros cj Hcj; apply in_flat_map; exists (constant_key cv1, g1).
    split; [apply dict_get_in; exact G1|].
    unfold group_joins; cbn [snd].
    rewrite (proj2 (Nat.leb_le _ _) (@two_members _ g1 cv1 cv2 I1 I2 Hne)); exact Hcj. }
  destruct (@pair_joins_complete g1 cv1 cv2 I1 I2 Hne) as [H|H]; [left | right];
    [|rewrite Ec]; apply Hin; exact H.
Qed.

Lemma constant_joins_complete_witness :
  exists cjs,
    _detect_constant_equality_joins (classifier parsed_constant) ["it1"; "it2"] = Some cjs
    /\ (In (mkConstantEqualityJoin "it1" "it2" "info") cjs
        \/ In (mkConstantEqualityJoin "it2" "it1" "info") cjs).
Proof.
  apply (@constant_joins_complete (classifier parsed_constant) ["it1"; "it2"]
           (mkConstantValue "it1" "info" "rating") (mkConstantValue "it2" "info" "rating")).
  - intros p Hp; vm_compute in Hp.
    repeat (destruct Hp as [<-|Hp]; [vm_compute; discriminate|]); destruct Hp.
  - exists "it1.info = 'rating'", "it1"; vm_compute; tauto.
  - exists "it2.info = 'rating'", "it2"; vm_compute; tauto.
  - reflexivity.
  - reflexivity.
  - discriminate.
Defined.

(** ** Reading the syntax tree *)

Lemma extract_tables_loop_spec (nodes : list TableNode) :
  forall tables aliases,
    NoDup tables -> map fst aliases = tables ->
    let result := extract_tables_loop nodes tables aliases in
    NoDup (fst result)
    /\ map fst (snd result) = fst result
    /\ (forall a, In a (fst result)
                  <-> In a tables \/ exists n, In n nodes /\ listed_as n = a)
    /\ (forall a, dict_get a (snd result)
                  = if mem a tables then dict_get a aliases
                    else option_map tn_name (first_listed a nodes)).
Proof.
  induction nodes as [|n nodes IH]; intros tables aliases Hn Hk; cbn zeta.
  - simpl; split; [exact Hn | split; [exact Hk | split]].
    + intros a; split; [auto | intros [H|[n [[] _]]]; exact H].
    + intros a; destruct (mem a tables) eqn:Hm; [reflexivity|].
      apply mem_false in Hm; rewrite <- Hk in Hm.
      apply dict_get_none; exact Hm.
  - cbn [extract_tables_loop]; cbn zeta.
    destruct (mem (listed_as n) tables) eqn:Hm; cbn [negb].
    + destruct (IH tables aliases Hn Hk) as [R1 [R2 [R3 R4]]].
      split; [exact R1 | split; [exact R2 | split]].
      * intros a; rewrite R3; split.
        -- intros [H|[m [Hi He]]]; [left; exact H | right; exists m; split; [right|]; auto].
        -- intros [H|[m [[->|Hi] He]]];
             [left; exact H | left; subst a; apply mem_in; exact Hm
             | right; exists m; auto].
      * intros a; rewrite R4; destruct (mem a tables) eqn:Ha; [reflexivity|].
        unfold first_listed; cbn [find].
        destruct (String.eqb_spec (listed_as n) a) as [E|_]; [|reflexivity].
        rewrite E in Hm; congruence.
    + assert (Hn' : NoDup (tables ++ [listed_as n])).
      { apply NoDup_app; [exact Hn | constructor; [intros [] | constructor]|].
        intros x Hx [<-|[]]; apply mem_false in Hm; contradiction. }
      assert (Hk' : map fst (dict_set (listed_as n) (tn_name n) aliases)
                    = tables ++ [listed_as n]).
      { rewrite dict_set_keys; unfold dict_has.
        destruct (dict_get (listed_as n) aliases) eqn:Hg; [|rewrite Hk; reflexivity].
        exfalso; apply mem_false in Hm; apply Hm; rewrite <- Hk.
        apply dict_get_key; rewrite Hg; discriminate. }
      destruct (IH _ _ Hn' Hk') as [R1 [R2 [R3 R4]]].
      split; [exact R1 | split; [exact R2 | split]].
      * intros a; rewrite R3, in_app_iff; split.
        -- intros [[H|[<-|[]]]|[m [Hi He]]];
             [left; exact H | right; exists n; split; [left|]; reflexivity
             | right; exists m; split; [right|]; auto].
        -- intros [H|[m [[->|Hi] He]]];
             [left; left; exact H | left; right; left; exact He
             | right; exists m; auto].
      * intros a; rewrite R4, dict_get_set.
        unfold first_listed; cbn [find].
        destruct (String.eqb_spec a (listed_as n)) as [->|Ne].
        -- rewrite String.eqb_refl, Hm.
           replace (mem (listed_as n) (tables ++ [listed_as n])) with true;
             [reflexivity|].
           symmetry; apply mem_in, in_app_iff; right; left; reflexivity.
        -- destruct (String.eqb_spec (listed_as n) a) as [E|_]; [congruence|].
           destruct (mem a tables) eqn:Ha.
           ++ replace (mem a (tables ++ [listed_as n])) with true; [reflexivity|].
              symmetry; apply mem_in, in_app_iff; left; apply mem_in; exact Ha.
           ++ replace (mem a (tables ++ [listed_as n])) with false; [reflexivity|].
              symmetry; apply mem_false; rewrite in_app_iff.
              apply mem_false in Ha; intros [H|[H|[]]]; [contradiction | congruence].
Qed.

(** X19.  [_extract_tables] never lists a name twice: a table that occurs
    several times under one alias (or without alias, under its name) is one
    relation.  The listed names are exactly the aliases, or names, of the
    table nodes, and the keys of the alias map are the listed names in the
    same order. *)
Theorem extract_tables_distinct (nodes : list TableNode) :
  NoDup (fst (_extract_tables nodes))
  /\ map fst (snd (_extract_tables nodes)) = fst (_extract_tables nodes)
  /\ (forall a, In a (fst (_extract_tables nodes))
                <-> exists n, In n nodes /\ listed_as n = a)
  /\ (fst (_extract_tables nodes) = [] <-> nodes = []).
Proof.
  destruct (@extract_tables_loop_spec nodes [] [] (NoDup_nil _) eq_refl)
    as [R1 [R2 [R3 _]]].
  fold (_extract_tables nodes) in R1, R2, R3.
  split; [exact R1 | split; [exact R2 | split]].
  - intros a; rewrite R3; split; [intros [[]|H]; exact H | intros H; right; exact H].
  - split.
    + intros E; destruct nodes as [|n nodes]; [reflexivity|].
      assert (H : In (listed_as n) (fst (_extract_tables (n :: nodes))))
        by (apply R3; right; exists n; split; [left|]; reflexivity).
      rewrite E in H; destruct H.
    + intros ->; reflexivity.
Qed.

(** X20.  The alias map of [_extract_tables] sends every listed name to the
    base name of the first table node listed under it; later nodes with the
    same alias are ignored. *)
Theorem extract_tables_first_base (nodes : list TableNode) (a : string) :
  dict_get a (snd (_extract_tables nodes)) = option_map tn_name (first_listed a nodes).
Proof.
  destruct (@extract_tables_loop_spec nodes [] [] (NoDup_nil _) eq_refl)
    as [_ [_ [_ R4]]].
  exact (R4 a).
Qed.

Lemma join_condition_from_eq (e : Expression) (jc : JoinCondition) :
  _extract_join_condition_from_eq e = Some jc
  <-> exists lt lc rt rc,
        e = EQ (Column lt lc) (Column rt rc)
        /\ lt <> "" /\ rt <> "" /\ lt <> rt
        /\ jc = mkJoinCondition lt lc rt rc.
Proof.
  split.
  - destruct e as [l r|l r|t n|k args]; try discriminate.
    destruct l as [| |lt lc|]; try discriminate.
    destruct r as [| |rt rc|]; try discriminate.
    cbn [_extract_join_condition_from_eq].
    destruct (truthy lt) eqn:H1; [|discriminate].
    destruct (truthy rt) eqn:H2; [|discriminate].
    destruct (String.eqb_spec lt rt) as [E|N]; [discriminate|].
    intros H; inversion H; subst jc; exists lt, lc, rt, rc.
    split; [reflexivity|].
    split; [intros ->; discriminate H1|].
    split; [intros ->; discriminate H2 | auto].
  - intros [lt [lc [rt [rc [-> [H1 [H2 [H3 ->]]]]]]]].
    cbn [_extract_join_condition_from_eq].
    destruct lt as [|c lt]; [contradiction|].
    destruct rt as [|c' rt]; [contradiction|].
    cbn [truthy andb].
    destruct (String.eqb_spec (String c lt) (String c' rt)) as [E|_];
      [contradiction | reflexivity].
Qed.

(** X21.  [_extract_join_conditions_from_expression] returns exactly the
    conjuncts of its argument, as split by [_split_where_conditions], that
    equate two columns qualified by two different, non-empty table names;
    an equality under any other node (an OR, a parenthesis) is not a join
    condition, and no condition joins a relation with itself. *)
Theorem join_conditions_are_conjuncts (expr : Expression) (jc : JoinCondition) :
  In jc (_extract_join_conditions_from_expression expr)
  <-> exists lt lc rt rc,
        In (EQ (Column lt lc) (Column rt rc)) (_split_where_conditions expr)
        /\ lt <> "" /\ rt <> "" /\ lt <> rt
        /\ jc = mkJoinCondition lt lc rt rc.
Proof.
  induction expr as [l IHl r IHr|l _ r _|t n|k args].
  - cbn [_extract_join_conditions_from_expression _split_where_conditions].
    rewrite in_app_iff, IHl, IHr; split.
    + intros [[lt [lc [rt [rc [Hi H]]]]]|[lt [lc [rt [rc [Hi H]]]]]];
        exists lt, lc, rt, rc; (split; [apply in_app_iff|exact H]); auto.
    + intros [lt [lc [rt [rc [Hi H]]]]]; apply in_app_iff in Hi.
      destruct Hi as [Hi|Hi]; [left | right]; exists lt, lc, rt, rc; auto.
  - cbn [_extract_join_conditions_from_expression _split_where_conditions].
    split.
    + destruct (_extract_join_condition_from_eq (EQ l r)) as [jc0|] eqn:He;
        [|intros []].
      intros [<-|[]]; apply join_condition_from_eq in He.
      destruct He as [lt [lc [rt [rc [E H]]]]]; exists lt, lc, rt, rc.
      split; [left; exact E | exact H].
    + intros [lt [lc [rt [rc [[E|[]] H]]]]].
      assert (He : _extract_join_condition_from_eq (EQ l r) = Some jc)
        by (apply join_condition_from_eq; exists lt, lc, rt, rc; auto).
      rewrite He; left; reflexivity.
  - simpl; split; [intros [] | intros [lt [lc [rt [rc [[E|[]] _]]]]]; discriminate E].
  - simpl; split; [intros [] | intros [lt [lc [rt [rc [[E|[]] _]]]]]; discriminate E].
Qed.

(** X22.  Every join condition read from a WHERE expression is also one of
    the predicates that [_extract_predicates_from_where] returns for it, and
    the table set of that predicate holds exactly the two relations of the
    condition: the classifier counts it as a join predicate. *)
Theorem where_join_is_join_predicate (sql : Expression -> string)
  (where_this : Expression) (jc : JoinCondition) :
  In jc (_extract_join_conditions_from_expression where_this) ->
  exists condition,
    In (sql condition, condition_tables condition)
       (_extract_predicates_from_where sql (Some where_this))
    /\ _extract_join_condition_from_eq condition = Some jc
    /\ (forall t, In t (condition_tables condition)
                  <-> t = left_table jc \/ t = right_table jc)
    /\ List.length (condition_tables condition) = 2.
Proof.
  intros H; apply join_conditions_are_conjuncts in H.
  destruct H as [lt [lc [rt [rc [Hi [H1 [H2 [H3 ->]]]]]]]].
  exists (EQ (Column lt lc) (Column rt rc)).
  split; [|split].
  - cbn [_extract_predicates_from_where]; apply in_map_iff.
    exists (EQ (Column lt lc) (Column rt rc)); auto.
  - apply join_condition_from_eq; exists lt, lc, rt, rc; auto.
  - unfold condition_tables; cbn [find_all_columns app fold_left fst].
    destruct lt as [|c lt]; [contradiction|].
    destruct rt as [|c' rt]; [contradiction|].
    cbn [truthy left_table right_table].
    set (a := String c lt) in *; set (b := String c' rt) in *.
    unfold set_add; cbn [mem existsb insert_sorted].
    destruct (String.eqb_spec b a) as [E|_]; [congruence|]; cbn [orb].
    destruct (String.leb b a); simpl; split; try reflexivity;
      intros t; split; intros H; intuition congruence.
Qed.

Lemma where_join_is_join_predicate_witness :
  exists condition,
    In (String.concat "" (map fst (find_all_columns condition)), condition_tables condition)
       (_extract_predicates_from_where
          (fun e => String.concat "" (map fst (find_all_columns e)))
          (Some (And (EQ (Column "a" "x") (Column "b" "y"))
                     (Other "GT" [Column "a" "z"; Other "Literal" []]))))
    /\ _extract_join_condition_from_eq condition = Some (mkJoinCondition "a" "x" "b" "y")
    /\ (forall t, In t (condition_tables condition) <-> t = "a" \/ t = "b")
    /\ List.length (condition_tables condition) = 2.
Proof.
  apply (@where_join_is_join_predicate
           (fun e => String.concat "" (map fst (find_all_columns e)))
           (And (EQ (Column "a" "x") (Column "b" "y"))
                (Other "GT" [Column "a" "z"; Other "Literal" []]))
           (mkJoinCondition "a" "x" "b" "y")).
  left; reflexivity.
Defined.

(** ** The original details of a parsed query *)

Lemma stored_detail_original (a b a_col b_col : string) (orig : bool) :
  is_original (stored_detail a b a_col b_col orig) = orig.
Proof. unfold stored_detail; destruct (String.leb a b); reflexivity. Qed.

Lemma add_join_in_iff (g : JoinGraph) (a b a_col b_col : string) (orig : bool)
  (d : JoinDetail) :
  In d (all_details (add_join g a b a_col b_col orig))
  <-> In d (all_details g)
      \/ (truthy a_col && truthy b_col = true /\ d = stored_detail a b a_col b_col orig).
Proof.
  split.
  - destruct (truthy a_col && truthy b_col) eqn:Ht.
    + intros H; apply add_join_in in H; destruct H; auto.
    + unfold all_details; rewrite (@add_join_no_columns g a b a_col b_col orig Ht); auto.
  - intros [H|[Ht ->]]; [apply add_join_grows; exact H | apply add_join_stored; exact Ht].
Qed.

Lemma fold_asserted_details (joins : list JoinCondition) :
  forall g d,
    In d (all_details (fold_left add_asserted joins g))
    <-> In d (all_details g)
        \/ exists jc, In jc joins
                      /\ truthy (left_column jc) && truthy (right_column jc) = true
                      /\ d = asserted_detail jc.
Proof.
  induction joins as [|jc joins IH]; intros g d; simpl.
  - split; [auto | intros [H|[jc [[] _]]]; exact H].
  - rewrite IH; unfold add_asserted; rewrite add_join_in_iff; split.
    + intros [[H|[Ht ->]]|[jc' [Hi H]]];
        [left; exact H | right; exists jc; auto | right; exists jc'; auto].
    + intros [H|[jc' [[->|Hi] [Ht ->]]]];
        [left; left; exact H | left; right; auto | right; exists jc'; auto].
Qed.

Lemma fold_constant_originals (cjs : list ConstantEqualityJoin) :
  forall g d,
    (In d (all_details (fold_left add_constant_join cjs g)) /\ is_original d = true)
    <-> (In d (all_details g) /\ is_original d = true).
Proof.
  induction cjs as [|cj cjs IH]; intros g d; simpl; [tauto|].
  rewrite IH; unfold add_constant_join; rewrite add_join_in_iff; split.
  - intros [[H|[_ ->]] Ho]; [auto|].
    rewrite stored_detail_original in Ho; discriminate Ho.
  - intros [H Ho]; auto.
Qed.

(** X23.  In the graph that [parse_sql] returns, the details marked
    original are exactly the asserted join conditions whose two column names
    are not empty, stored in sorted table order: constant-equality joins and
    the closure only ever add details marked derived. *)
Theorem original_details_are_asserted (fuel : nat) (ast : QueryAst) (parsed : ParsedSQL)
  (d : JoinDetail) :
  parse_sql fuel ast = Some parsed ->
  (In d (all_details (join_graph parsed)) /\ is_original d = true
   <-> exists jc, In jc (ast_joins ast)
                  /\ truthy (left_column jc) && truthy (right_column jc) = true
                  /\ d = asserted_detail jc).
Proof.
  unfold parse_sql.
  destruct (ast_tables ast) as [|t ts]; [discriminate|].
  destruct (classify_predicates _) as [c|]; [|discriminate].
  destruct (_detect_constant_equality_joins c (t :: ts)) as [cjs|]; [|discriminate].
  set (g1 := fold_left add_asserted (ast_joins ast) _).
  set (g2 := fold_left add_constant_join cjs g1).
  destruct (compute_transitive_closure fuel g2) as [[g3 n3]|] eqn:Hc; [|discriminate].
  destruct (build_equivalence_classes fuel g3) as [[g4 n4]|] eqn:Hb; [|discriminate].
  intros H; inversion H; subst parsed; clear H; cbn [join_graph].
  assert (E4 : all_details g4 = all_details g3)
    by (unfold all_details; rewrite (build_equivalence_classes_details _ _ Hb); reflexivity).
  rewrite E4.
  destruct (@compute_transitive_closure_inv
              (fun g0 => forall d, In d (all_details g0) -> is_original d = true ->
                                   In d (all_details g2))
              (fun g0 d1 d2 tr Hp _ _ _ _ _ d0 Hd Ho =>
                 match add_join_in _ _ _ _ _ _ _ Hd with
                 | or_introl Hin => Hp d0 Hin Ho
                 | or_intror Heq =>
                     False_ind _
                       (Bool.diff_false_true
                          (eq_trans (eq_sym (stored_detail_original _ _ _ _ false))
                                    (eq_trans (f_equal is_original (eq_sym Heq)) Ho)))
                 end)
              fuel g2 g3 n3 Hc (fun d0 Hd _ => Hd)) as [Hder Hgrow].
  assert (E3 : In d (all_details g3) /\ is_original d = true
               <-> In d (all_details g2) /\ is_original d = true).
  { split; intros [Hd Ho]; split; auto. }
  rewrite E3; unfold g2; rewrite fold_constant_originals.
  unfold g1; rewrite fold_asserted_details; split.
  - intros [[[]|H] _]; exact H.
  - intros [jc [Hi [Ht ->]]]; split; [right; exists jc; auto|].
    apply stored_detail_original.
Qed.

Lemma original_details_are_asserted_witness :
  In (mkJoinDetail "A" "x" "B" "y" true) (all_details (join_graph parsed_chain))
  /\ is_original (mkJoinDetail "A" "x" "B" "y" true) = true
  <-> exists jc, In jc (ast_joins ast_chain)
                 /\ truthy (left_column jc) && truthy (right_column jc) = true
                 /\ mkJoinDetail "A" "x" "B" "y" true = asserted_detail jc.
Proof.
  apply (@original_details_are_asserted 100 ast_chain parsed_chain
           (mkJoinDetail "A" "x" "B" "y" true)).
  vm_compute; reflexivity.
Defined.

(** ** Names read from constant predicates *)

Lemma plus_chars_block (p : ascii -> bool) (pos : nat) (s : list ascii) (caps : captures)
  (pos' : nat) (s' : list ascii) (caps' : captures) :
  matches (RPlus (RChar p)) (pos, s, caps) (pos', s', caps') ->
  exists c cs, firstn (pos' - pos) s = c :: cs.
Proof.
  intros [[[pos1 s1] caps1] [[c [-> [Hc [-> _]]]] H2]].
  apply star_chars in H2; destruct H2 as [cs [Hs [Hp Hf]]].
  cbn [fst snd] in Hs, Hp; subst.
  replace (S pos + List.length cs - pos) with (S (List.length cs)) by lia.
  cbn [firstn]; eexists; eexists; reflexivity.
Qed.

Lemma table_column_names (tail : regex) (st : mstate) (pos' : nat) (s' : list ascii)
  (m : captures) :
  ~ In 1 (groups_of tail) -> ~ In 2 (groups_of tail) ->
  matches (re_table_column tail) st (pos', s', m) ->
  group 1 m <> "" /\ group 2 m <> "".
Proof.
  intros Hn1 Hn2; destruct st as [[pos s] caps]; unfold re_table_column.
  intros H; destruct H as [[[p1 s1] c1] [H1 Hrest]].
  assert (Hg1 : group 1 m = group 1 c1).
  { refine (@matches_other_groups
              (RSeq (RChar (is_char "."))
                    (RSeq (RGroup 2 (RPlus (RChar is_word))) tail)) 1 _
              (p1, s1, c1) (pos', s', m) Hrest).
    cbn [groups_of app]; intros [C|C]; [discriminate C | exact (Hn1 C)]. }
  destruct Hrest as [[[p2 s2] c2] [_ [[[p3 s3] c3] [H3 Ht]]]].
  pose proof (@matches_other_groups tail 2 Hn2 _ _ Ht) as Hg2; cbn [snd] in Hg2.
  rewrite Hg1, Hg2.
  destruct H1 as [c0 [H1 ->]], H3 as [c0' [H3 ->]].
  apply plus_chars_block in H1; destruct H1 as [x [xs E1]].
  apply plus_chars_block in H3; destruct H3 as [y [ys E3]].
  cbn [group Nat.eqb]; rewrite E1, E3; split; discriminate.
Qed.

(** Python's [\w] and [strip] follow Unicode: a name with a Latin-1
    letter (here the code point 233) is read whole, and a trailing no-break
    space (160) does not become part of the value. *)
Lemma latin1_names_are_read :
  _extract_single_constant_value
    ("t.caf" ++ String (ascii_of_nat 233) (" = 1" ++ String (ascii_of_nat 160) ""))%string
  = Some (mkConstantValue "t" ("caf" ++ String (ascii_of_nat 233) "")%string "1").
Proof. vm_compute; reflexivity. Qed.

(** X24.  The table and the column that [_extract_single_constant_value]
    reads from a predicate text are non-empty names made of word
    characters in the sense of Python's [\w] on [str] (letters, digits and
    the underscore, the letters of Latin-1 included): the column is never
    empty, so [add_join] stores every constant-equality join. *)
Theorem extracted_names_are_words (pred : string) (cv : ConstantValue) :
  _extract_single_constant_value pred = Some cv ->
  (word (cv_table cv) /\ cv_table cv <> "")
  /\ (word (cv_column cv) /\ cv_column cv <> "").
Proof.
  intros H.
  assert (Hne : cv_table cv <> "" /\ cv_column cv <> "").
  { revert H; unfold _extract_single_constant_value, re_search.
    destruct (search_from re_eq_constant 0 _) as [m|] eqn:H1.
    - intros H; inversion H; subst cv; simpl.
      apply search_from_sound in H1; destruct H1 as [p0 [s0 [p1 [s1 H1]]]].
      eapply (@table_column_names _ (p0, s0, [])); [| |exact H1];
        simpl; intuition discriminate.
    - destruct (search_from re_in_list 0 _) as [m|] eqn:H2; [|discriminate].
      destruct (map strip (split "," (group 3 m))) as [|v [|v' vs]]; try discriminate.
      intros H; inversion H; subst cv; simpl.
      apply search_from_sound in H2; destruct H2 as [p0 [s0 [p1 [s1 H2]]]].
      eapply (@table_column_names _ (p0, s0, [])); [| |exact H2];
        simpl; intuition discriminate. }
  split; split; try tauto.
  - eapply extracted_table_word; exact H.
  - eapply extracted_column_word; exact H.
Qed.

Lemma extracted_names_are_words_witness :
  (word "t" /\ "t" <> "")
  /\ (word ("caf" ++ String (ascii_of_nat 233) "")%string
      /\ ("caf" ++ String (ascii_of_nat 233) "")%string <> "").
Proof.
  apply (@extracted_names_are_words
           ("t.caf" ++ String (ascii_of_nat 233) " = 1")%string
           (mkConstantValue "t" ("caf" ++ String (ascii_of_nat 233) "")%string "1")).
  vm_compute; reflexivity.
Defined.

(** ** Subset texts *)

Lemma ascending_unique (l : list string) :
  forall l', ascending l -> ascending l' -> Permutation l l' -> l = l'.
Proof.
  unfold ascending; induction l as [|x l IH]; intros l' Hl Hl' Hp.
  - apply Permutation_nil in Hp; auto.
  - destruct l' as [|y l'];
      [apply Permutation_sym, Permutation_nil in Hp; discriminate|].
    inversion Hl as [|? ? Sl Fl]; inversion Hl' as [|? ? Sl' Fl']; subst.
    assert (E : x = y).
    { assert (Hx : In x (y :: l')) by (apply (Permutation_in _ Hp); left; reflexivity).
      assert (Hy : In y (x :: l))
        by (apply (Permutation_in _ (Permutation_sym Hp)); left; reflexivity).
      destruct Hx as [Hx|Hx]; [auto|].
      destruct Hy as [Hy|Hy]; [auto|].
      rewrite Forall_forall in Fl, Fl'.
      apply String.leb_antisym; [apply Fl; exact Hy | apply Fl'; exact Hx]. }
    subst y; f_equal; apply IH; [assumption | assumption|].
    apply Permutation_cons_inv in Hp; exact Hp.
Qed.

Lemma sorted_perm (l l' : list string) : Permutation l l' -> sorted l = sorted l'.
Proof.
  intros Hp; apply ascending_unique; try apply sorted_ascending.
  unfold sorted.
  eapply Permutation_trans; [apply sorted_by_perm|].
  eapply Permutation_trans; [exact Hp | apply Permutation_sym, sorted_by_perm].
Qed.

(** X25.  The key of a subset in the table of enumerated subsets and its
    text in the CSV output do not depend on the order in which the subset
    is listed. *)
Theorem subset_texts_ignore_order (s s' : list string) :
  Permutation s s' ->
  _canonical_key s = _canonical_key s' /\ format_subset s = format_subset s'.
Proof.
  intros Hp; unfold _canonical_key, format_subset.
  rewrite (sorted_perm Hp); split; reflexivity.
Qed.

Lemma subset_texts_ignore_order_witness :
  _canonical_key ["a"; "b"; "c"] = _canonical_key ["c"; "b"; "a"]
  /\ format_subset ["a"; "b"; "c"] = format_subset ["c"; "b"; "a"].
Proof.
  apply (@subset_texts_ignore_order ["a"; "b"; "c"] ["c"; "b"; "a"]).
  exact (@Permutation_rev string ["a"; "b"; "c"]).
Defined.

(** ** Shared classes and stored details *)

Lemma detail_in_class (fuel : nat) (g g' : JoinGraph) (n : nat) (d : JoinDetail) :
  build_equivalence_classes fuel g = Some (g', n) -> In d (all_details g) ->
  exists ec, In ec (equivalence_classes g')
             /\ In (qualified (t1 d) (t1_col d)) ec
             /\ In (qualified (t2 d) (t2_col d)) ec.
Proof.
  intros H Hd; unfold build_equivalence_classes in H.
  destruct (uf_union_edges fuel (join_details g) ([], [])) as [st|] eqn:U; [|discriminate].
  destruct (uf_group fuel (map fst (fst st)) st []) as [groups|] eqn:G; [|discriminate].
  inversion H; subst g' n; clear H; cbn [equivalence_classes].
  assert (Hc0 : closed_parents (fst (@nil (string * string), @nil (string * nat))))
    by (intros x p E; discriminate E).
  destruct (@uf_union_edges_root fuel _ _ st U Hc0) as [Hc [S [_ D]]].
  destruct (@uf_group_root fuel _ st [] groups G Hc (NoDup_nil _))
    as [pf [Kf [Nf [Gf [Af [_ Of]]]]]]; [intros r m tc []|].
  fold (all_details g) in S, D.
  assert (Hkey : forall x r, root_of (fst st) x r ->
                             exists m, In (r, m) groups /\ In x m).
  { intros x r Hx.
    destruct (Af x) as [r1 [m [Hm Hxm]]];
      [apply dict_get_key, (root_of_dom Hx)|].
    rewrite (root_of_fun (Kf _ _ Hx) (Gf _ _ _ Hm Hxm)); exists m; auto. }
  destruct (S d Hd) as [r [R1 R2]].
  destruct (Hkey _ _ R1) as [m1 [M1 X1]]; destruct (Hkey _ _ R2) as [m2 [M2 X2]].
  rewrite (@dict_values_unique _ r m2 m1 groups Nf M2 M1) in X2.
  exists m1; split; [apply in_map_iff; exists (r, m1); auto | auto].
Qed.

Lemma column_of_own (t c : string) : column_of t (qualified t c) = true.
Proof. apply starts_with_append2. Qed.

Lemma detail_same_ec (fuel : nat) (g g' : JoinGraph) (n : nat) (d : JoinDetail) :
  build_equivalence_classes fuel g = Some (g', n) -> In d (all_details g) ->
  are_in_same_ec g' (t1 d) (t2 d) = true.
Proof.
  intros H Hd; destruct (@detail_in_class fuel g g' n d H Hd) as [ec [He [H1 H2]]].
  unfold are_in_same_ec; apply existsb_exists; exists ec; split; [exact He|].
  apply andb_true_iff; split; apply existsb_exists.
  - exists (qualified (t1 d) (t1_col d)); split; [exact H1 | apply column_of_own].
  - exists (qualified (t2 d) (t2_col d)); split; [exact H2 | apply column_of_own].
Qed.

Lemma parsed_shape (fuel : nat) (ast : QueryAst) (parsed : ParsedSQL) :
  parse_sql fuel ast = Some parsed ->
  word_joins (ast_joins ast) ->
  well_formed (join_graph parsed) /\ word_tables (join_graph parsed)
  /\ exists g1 n, build_equivalence_classes fuel g1 = Some (join_graph parsed, n)
                  /\ join_details (join_graph parsed) = join_details g1.
Proof.
  unfold parse_sql, _detect_constant_equality_joins.
  destruct (ast_tables ast) as [|t ts] eqn:Hts; [discriminate|].
  destruct (classify_predicates _) as [c|]; [|discriminate].
  destruct (scan_tables c (t :: ts) []) as [groups|] eqn:Hs; [|discriminate].
  destruct (compute_transitive_closure fuel _) as [[g1 n1]|] eqn:Hc; [|discriminate].
  destruct (build_equivalence_classes fuel g1) as [[g2 n2]|] eqn:Hb; [|discriminate].
  intros H Hj; inversion H; subst parsed; clear H; cbn [join_graph] in *.
  destruct (@closure_keeps_shape fuel _ g1 n1 Hc) as [Hw1 Ht1].
  { apply fold_constant_well_formed, fold_asserted_well_formed, empty_well_formed. }
  { apply fold_constant_word.
    - intros cj Hcj; apply (@group_joins_word groups cj); [|exact Hcj].
      eapply scan_tables_word; [exact Hs|]; intros k grp cv [].
    - apply fold_asserted_word; [exact Hj|]; intros d []. }
  pose proof (@build_equivalence_classes_details fuel g1 g2 n2 Hb) as Ed.
  split; [unfold well_formed; rewrite Ed; exact Hw1|].
  split; [unfold word_tables; rewrite (@same_details g1 g2 Ed); exact Ht1|].
  exists g1, n2; auto.
Qed.

(** X26.  In the graph of a parsed query whose joins name relations made
    of word characters and on which the closure has converged, two different
    relations share an equivalence class exactly when a join detail, asserted
    or derived, is stored between them: [are_in_same_ec] and the lookup of
    [_find_join_predicates] agree. *)
Theorem same_ec_iff_join_detail (fuel : nat) (ast : QueryAst) (parsed : ParsedSQL)
  (a b : string) :
  parse_sql fuel ast = Some parsed ->
  word_joins (ast_joins ast) ->
  converged (join_graph parsed) ->
  word a -> word b -> a <> b ->
  (are_in_same_ec (join_graph parsed) a b = true <-> has_detail (join_graph parsed) a b).
Proof.
  intros Hp Hj Hv Ha Hb Hab; split.
  - intros H.
    apply (@parsed_edge_complete fuel ast parsed [a; b] Hp Hj Hv);
      [repeat constructor; assumption | left; reflexivity
       | right; left; reflexivity | exact Hab | exact H].
  - intros H; destruct (@parsed_shape fuel ast parsed Hp Hj) as [Hw [Ht [g1 [n [Hb1 Ed]]]]].
    unfold has_detail in H.
    destruct (details_at (join_graph parsed) (edge_key a b)) as [|d ds] eqn:E;
      [contradiction|].
    assert (Hd : In d (details_at (join_graph parsed) (edge_key a b)))
      by (rewrite E; left; reflexivity).
    assert (Hall : In d (all_details (join_graph parsed)))
      by (apply (@details_at_in _ (edge_key a b)); exact Hd).
    assert (Hk : edge_key (t1 d) (t2 d) = edge_key a b).
    { destruct Hw as [Hn Hw]; unfold details_at in Hd.
      destruct (dict_get (edge_key a b) (join_details (join_graph parsed)))
        as [l|] eqn:Eg; [|destruct Hd].
      apply dict_get_in in Eg; exact (proj1 (Hw _ _ _ Eg Hd)). }
    destruct (Ht d Hall) as [W1 W2].
    assert (Hs : are_in_same_ec (join_graph parsed) (t1 d) (t2 d) = true).
    { apply (@detail_same_ec fuel g1 (join_graph parsed) n d Hb1).
      unfold all_details in *; rewrite <- Ed; exact Hall. }
    apply edge_key_inj in Hk; try assumption.
    destruct Hk as [[<- <-]|[<- <-]]; [exact Hs | rewrite are_in_same_ec_sym; exact Hs].
Qed.

Lemma same_ec_iff_join_detail_witness :
  are_in_same_ec (join_graph parsed_chain) "A" "C" = true
  <-> has_detail (join_graph parsed_chain) "A" "C".
Proof.
  apply (@same_ec_iff_join_detail 100 ast_chain parsed_chain "A" "C").
  - vm_compute; reflexivity.
  - repeat constructor.
  - exists 100, 0; vm_compute; reflexivity.
  - repeat constructor.
  - repeat constructor.
  - discriminate.
Defined.

(** ** The count the closure returns *)

Section ClosureCount.

(** A property of the graph and of [added_count] kept by every join the
    closure adds. *)
Variable Q : JoinGraph -> nat -> Prop.
Hypothesis Q_add :
  forall g n d1 d2 tr,
    Q g n -> In d1 (all_details g) -> In d2 (all_details g) ->
    _try_form_transitive_join d1 d2 = Some tr ->
    tj_t1 tr <> tj_t2 tr ->
    _join_exists g tr = false ->
    Q (add_join g (tj_t1 tr) (tj_t2 tr) (tj_t1_col tr) (tj_t2_col tr) false) (S n).

Local Abbreviation holds_at st := (Q (fst (fst st)) (snd (fst st))).

Lemma closure_step_count (d1 d2 : JoinDetail) (st : closure_state) :
  holds_at st -> In d1 (all_details (fst (fst st))) -> In d2 (all_details (fst (fst st))) ->
  holds_at (closure_step d1 d2 st)
  /\ grows (fst (fst st)) (fst (fst (closure_step d1 d2 st))).
Proof.
  destruct st as [[g n] b]; cbn [fst snd]; intros Hq H1 H2; unfold closure_step.
  destruct (_try_form_transitive_join d1 d2) as [tr|] eqn:Ht;
    [|split; [exact Hq | apply grows_refl]].
  destruct (String.eqb_spec (tj_t1 tr) (tj_t2 tr)) as [E|Hn]; cbn [negb fst snd];
    [split; [exact Hq | apply grows_refl]|].
  destruct (_join_exists g tr) eqn:He; cbn [negb fst snd];
    [split; [exact Hq | apply grows_refl]|].
  split; [exact (@Q_add g n d1 d2 tr Hq H1 H2 Ht Hn He) | apply add_join_grows].
Qed.

Lemma closure_d2_count (fuel : nat) (d1 : JoinDetail) (k2 : string) :
  forall (j : nat) (st st' : closure_state),
    closure_d2 fuel d1 k2 j st = Some st' ->
    holds_at st -> In d1 (all_details (fst (fst st))) ->
    holds_at st' /\ grows (fst (fst st)) (fst (fst st')).
Proof.
  induction fuel as [|fuel IH]; intros j st st'; simpl; [discriminate|].
  destruct (nth_error (details_at (fst (fst st)) k2) j) as [d2|] eqn:Hn.
  - intros H Hq H1.
    assert (H2 : In d2 (all_details (fst (fst st))))
      by (eapply details_at_in, nth_error_In; exact Hn).
    destruct (@closure_step_count d1 d2 st Hq H1 H2) as [Hq' Hg'].
    destruct (IH (S j) _ st' H Hq' (Hg' _ H1)) as [Hq'' Hg''].
    split; [exact Hq'' | eapply grows_trans; eassumption].
  - intros H Hq _; inversion H; subst; split; [exact Hq | apply grows_refl].
Qed.

Lemma closure_d1_count (fuel : nat) (k1 k2 : string) :
  forall (i : nat) (st st' : closure_state),
    closure_d1 fuel k1 k2 i st = Some st' ->
    holds_at st -> holds_at st' /\ grows (fst (fst st)) (fst (fst st')).
Proof.
  induction fuel as [|fuel IH]; intros i st st'; simpl; [discriminate|].
  destruct (nth_error (details_at (fst (fst st)) k1) i) as [d1|] eqn:Hn.
  - destruct (closure_d2 fuel d1 k2 0 st) as [st1|] eqn:H2; [|discriminate].
    intros H Hq.
    assert (H1 : In d1 (all_details (fst (fst st))))
      by (eapply details_at_in, nth_error_In; exact Hn).
    destruct (@closure_d2_count fuel d1 k2 0 st st1 H2 Hq H1) as [Hq1 Hg1].
    destruct (IH (S i) st1 st' H Hq1) as [Hq2 Hg2].
    split; [exact Hq2 | eapply grows_trans; eassumption].
  - intros H Hq; inversion H; subst; split; [exact Hq | apply grows_refl].
Qed.

Lemma closure_edge2_count (fuel : nat) (k1 : string) (keys2 : list string) :
  forall st st' : closure_state,
    closure_edge2 fuel k1 keys2 st = Some st' ->
    holds_at st -> holds_at st' /\ grows (fst (fst st)) (fst (fst st')).
Proof.
  induction keys2 as [|k2 keys2 IH]; intros st st'; simpl.
  - intros H Hq; inversion H; subst; split; [exact Hq | apply grows_refl].
  - destruct (String.eqb k1 k2); [apply IH|].
    destruct (closure_d1 fuel k1 k2 0 st) as [st1|] eqn:H1; [|discriminate].
    intros H Hq.
    destruct (@closure_d1_count fuel k1 k2 0 st st1 H1 Hq) as [Hq1 Hg1].
    destruct (IH st1 st' H Hq1) as [Hq2 Hg2].
    split; [exact Hq2 | eapply grows_trans; eassumption].
Qed.

Lemma closure_edge1_count (fuel : nat) (keys1 keys : list string) :
  forall st st' : closure_state,
    closure_edge1 fuel keys1 keys st = Some st' ->
    holds_at st -> holds_at st' /\ grows (fst (fst st)) (fst (fst st')).
Proof.
  induction keys1 as [|k1 keys1 IH]; intros st st'; simpl.
  - intros H Hq; inversion H; subst; split; [exact Hq | apply grows_refl].
  - destruct (closure_edge2 fuel k1 keys st) as [st1|] eqn:H1; [|discriminate].
    intros H Hq.
    destruct (@closure_edge2_count fuel k1 keys st st1 H1 Hq) as [Hq1 Hg1].
    destruct (IH st1 st' H Hq1) as [Hq2 Hg2].
    split; [exact Hq2 | eapply grows_trans; eassumption].
Qed.

Lemma closure_iterations_count (fuel iterations : nat) :
  forall (g : JoinGraph) (n : nat) (g' : JoinGraph) (n' : nat),
    closure_iterations fuel iterations g n = Some (g', n') -> Q g n -> Q g' n'.
Proof.
  induction iterations as [|it IH]; intros g n g' n'; simpl.
  - intros H Hq; inversion H; subst; exact Hq.
  - unfold closure_pass.
    destruct (closure_edge1 fuel _ _ _) as [[[g1 n1] b1]|] eqn:H1; [|discriminate].
    intros H Hq.
    destruct (@closure_edge1_count fuel _ _ (g, n, false) _ H1 Hq) as [Hq1 _];
      cbn [fst snd] in Hq1.
    destruct b1; [apply (IH g1 n1 g' n' H Hq1) | inversion H; subst; exact Hq1].
Qed.

End ClosureCount.

(** X27.  The number [compute_transitive_closure] returns is the number of
    details it added to the graph, and it is zero exactly when the graph is
    returned unchanged. *)
Theorem closure_count_exact (fuel : nat) (g g' : JoinGraph) (n : nat) :
  well_formed g ->
  compute_transitive_closure fuel g = Some (g', n) ->
  List.length (all_details g') = List.length (all_details g) + n
  /\ (n = 0 <-> g' = g).
Proof.
  intros Hw H.
  assert (Hq : well_formed g'
               /\ List.length (all_details g') = List.length (all_details g) + n
               /\ (n = 0 -> g' = g)).
  { refine (@closure_iterations_count
              (fun g0 n0 => well_formed g0
                            /\ List.length (all_details g0)
                               = List.length (all_details g) + n0
                            /\ (n0 = 0 -> g0 = g))
              _ fuel max_iterations g 0 g' n H _).
    - intros g0 n0 d1 d2 tr [Hw0 [Hl _]] H1 H2 Ht _ _.
      destruct (@details_at_stored g0 d1 Hw0 H1) as [_ T1].
      destruct (@details_at_stored g0 d2 Hw0 H2) as [_ T2].
      pose proof (@try_form_truthy d1 d2 tr Ht T1 T2) as T.
      split; [apply add_join_well_formed; exact Hw0|].
      split; [rewrite (@add_join_length g0 _ _ _ _ false Hw0 T); lia | discriminate].
    - split; [exact Hw | split; [lia | reflexivity]]. }
  destruct Hq as [_ [Hl Hz]]; split; [exact Hl|].
  split; [exact Hz | intros E; rewrite E in Hl; lia].
Qed.

Lemma closure_count_exact_witness :
  match compute_transitive_closure
          100 (fold_left add_asserted (ast_joins ast_chain) empty_graph) with
  | Some (g', n) =>
      List.length (all_details g')
      = List.length (all_details (fold_left add_asserted (ast_joins ast_chain) empty_graph))
        + n
      /\ (n = 0 <-> g' = fold_left add_asserted (ast_joins ast_chain) empty_graph)
  | None => False
  end.
Proof.
  destruct (compute_transitive_closure
              100 (fold_left add_asserted (ast_joins ast_chain) empty_graph))
    as [[g' n]|] eqn:H.
  - apply (@closure_count_exact
             100 (fold_left add_asserted (ast_joins ast_chain) empty_graph) g' n);
      [apply fold_asserted_well_formed, empty_well_formed | exact H].
  - vm_compute in H; discriminate H.
Defined.

(** ** Original details join two relations *)

Lemma parsed_original_source (fuel : nat) (ast : QueryAst) (parsed : ParsedSQL)
  (d : JoinDetail) :
  parse_sql fuel ast = Some parsed ->
  In d (all_details (join_graph parsed)) -> is_original d = true ->
  exists jc, In jc (ast_joins ast) /\ d = asserted_detail jc.
Proof.
  unfold parse_sql.
  destruct (ast_tables ast) as [|t ts]; [discriminate|].
  destruct (classify_predicates _) as [c|]; [|discriminate].
  destruct (_detect_constant_equality_joins c (t :: ts)) as [cjs|]; [|discriminate].
  set (g1 := fold_left add_asserted (ast_joins ast) _).
  set (g2 := fold_left add_constant_join cjs g1).
  destruct (compute_transitive_closure fuel g2) as [[g3 n3]|] eqn:Hc; [|discriminate].
  destruct (build_equivalence_classes fuel g3) as [[g4 n4]|] eqn:Hb; [|discriminate].
  intros H; inversion H; subst parsed; clear H; cbn [join_graph].
  unfold all_details; rewrite (build_equivalence_classes_details _ _ Hb).
  fold (all_details g3); intros Hd Ho.
  assert (H2 : In d (all_details g2)).
  { refine (proj1 (@compute_transitive_closure_inv
                     (fun g0 => forall d, In d (all_details g0) -> is_original d = true ->
                                          In d (all_details g2))
                     _ fuel g2 g3 n3 Hc (fun d0 Hd0 _ => Hd0)) d Hd Ho).
    intros g0 d1 d2 tr Hp _ _ _ _ _ d0 Hd0 Ho0.
    apply add_join_in in Hd0; destruct Hd0 as [Hd0| ->]; [apply Hp; assumption|].
    rewrite stored_detail_original in Ho0; discriminate Ho0. }
  assert (H1 : In d (all_details g1))
    by (apply (proj1 (@fold_constant_originals cjs g1 d) (conj H2 Ho))).
  unfold g1 in H1; apply fold_asserted_details in H1.
  destruct H1 as [[]|[jc [Hi [_ E]]]]; exists jc; auto.
Qed.

Lemma join_condition_tables (expr : Expression) (jc : JoinCondition) :
  In jc (_extract_join_conditions_from_expression expr) ->
  left_table jc <> "" /\ right_table jc <> "" /\ left_table jc <> right_table jc.
Proof.
  induction expr as [l IHl r IHr|l _ r _|t n|k args];
    cbn [_extract_join_conditions_from_expression].
  - rewrite in_app_iff; intros [H|H]; auto.
  - destruct (_extract_join_condition_from_eq (EQ l r)) as [jc0|] eqn:He; [|intros []].
    intros [<-|[]]; apply join_condition_from_eq in He.
    destruct He as [lt [lc [rt [rc [_ [H1 [H2 [H3 ->]]]]]]]]; simpl; auto.
  - intros [].
  - intros [].
Qed.

(** X28.  When the join conditions of a query are those that
    [_extract_join_conditions_from_expression] reads from its ON and WHERE
    expressions, every detail of the parsed graph marked original joins two
    different relations with non-empty names, the smaller name first: unlike
    a constant-equality join, an original join is never a self-join. *)
Theorem original_details_join_two_relations (fuel : nat) (ast : QueryAst)
  (parsed : ParsedSQL) (exprs : list Expression) (d : JoinDetail) :
  parse_sql fuel ast = Some parsed ->
  ast_joins ast = flat_map _extract_join_conditions_from_expression exprs ->
  In d (all_details (join_graph parsed)) -> is_original d = true ->
  t1 d <> t2 d /\ t1 d <> "" /\ t2 d <> "" /\ String.leb (t1 d) (t2 d) = true.
Proof.
  intros Hp Hj Hd Ho.
  destruct (@parsed_original_source fuel ast parsed d Hp Hd Ho) as [jc [Hi ->]].
  rewrite Hj in Hi; apply in_flat_map in Hi; destruct Hi as [e [_ Hi]].
  apply join_condition_tables in Hi; destruct Hi as [H1 [H2 H3]].
  unfold asserted_detail, stored_detail.
  destruct (String.leb (left_table jc) (right_table jc)) eqn:E; cbn [t1 t2].
  - auto.
  - repeat split; auto; apply leb_false_flip; exact E.
Qed.

Lemma original_details_join_two_relations_witness :
  "A" <> "B" /\ "A" <> "" /\ "B" <> "" /\ String.leb "A" "B" = true.
Proof.
  apply (@original_details_join_two_relations 100 ast_chain parsed_chain
           [And (EQ (Column "A" "x") (Column "B" "y"))
                (And (EQ (Column "B" "y") (Column "C" "z"))
                     (Other "GT" [Column "A" "w"; Other "Literal" []]))]
           (mkJoinDetail "A" "x" "B" "y" true)).
  - vm_compute; reflexivity.
  - vm_compute; reflexivity.
  - vm_compute; tauto.
  - reflexivity.
Defined.

(** ** The text of the queries (claims C1 and C5) *)

Section JoinChain.

Variable iter : list string -> list string.
Variable alias_map : list (string * string).
Variable g : JoinGraph.
Hypothesis iter_perm : forall x, Permutation (iter x) x.





End JoinChain.












